(** * ModelSystem: the coupling layer of CADET's network of unit operations

    A shallow embedding of [src/libcadet/model/ModelSystemImpl.cpp]:
    status-code fusion, model lookup, the DOF layout and coupling index
    map, validation of connection lists, configuration of valve switches,
    switching at section transitions, the coupling residual and the
    application of initial conditions.

    Conventions.
    - [int] values are [Z]; they are only compared, copied and combined
      with [std::min]/[std::max], so no wrap-around arises.
    - [unsigned int] counters and container sizes are [nat]: they are
      bounded by the number of allocated objects.
    - [double] is the binary64 type [float] of the kernel, with its IEEE
      operations, wherever the code is written for [double] only.
    - A pointer that may be [nullptr] is an [option].
    - A function that throws [InvalidParameterException] returns an
      [outcome]; behaviour the C++ standard leaves undefined is the
      separate outcome [Undefined]. *)

From Stdlib Require Import ZArith Lia Bool Floats Ring_theory Ring Sorted.
From stdpp Require Import base list gmap strings pretty.

Local Open Scope Z_scope.

(* ===================================================================== *)
(** * Part I: the program *)
(* ===================================================================== *)

(** ** Status codes *)

Module ErrorIndicator.

(** The loop of [totalErrorIndicatorFromLocal], from position [i] on,
    with [totalError] the running maximum. *)
Fixpoint totalErrorLoop (totalError : Z) (err : list Z) : Z :=
  match err with
  | [] => totalError
  | e :: rest =>
      if e <? 0 then e
      else totalErrorLoop (Z.max totalError e) rest
  end.

Definition totalErrorIndicatorFromLocal (err : list Z) : Z :=
  totalErrorLoop 0 err.

Definition updateErrorIndicator (curCode nextCode : Z) : Z :=
  if (curCode <? 0) || (nextCode <? 0) then Z.min curCode nextCode
  else Z.max curCode nextCode.

(** Repeated pairwise fusion, the way the parallel phases update an
    entry of the error indicator vector. *)
Definition fuseAll (curCode : Z) (codes : list Z) : Z :=
  fold_left updateErrorIndicator codes curCode.

(** Reference values the fused code is compared with. *)
Definition anyNegative (err : list Z) : bool := existsb (fun e => e <? 0) err.
Definition firstNegative (err : list Z) : option Z := head (filter (fun e => e < 0) err).
Definition mostNegative (err : list Z) : Z := fold_right Z.min 0 err.
Definition maxNonNegative (err : list Z) : Z := fold_right Z.max 0 err.

(** The fused value of a list, as a function of the running code: the
    most negative code when one is negative, the largest otherwise. *)
Definition fusedValue (cur : Z) (l : list Z) : Z :=
  if (cur <? 0) || anyNegative l then Z.min cur (mostNegative l)
  else Z.max cur (maxNonNegative l).

End ErrorIndicator.

(** ** Unit operations *)

(** The part of the [IUnitOperation] interface the coupling layer reads. *)
Module UnitOp.
Record t : Type := Build {
  unitOperationId : nat;
  numComponents : nat;
  numDofs : nat;
  hasInlet : bool;
  hasOutlet : bool;
  canAccumulate : bool;
  localInletComponentIndex : nat;
  localInletComponentStride : nat;
  localOutletComponentIndex : nat;
  localOutletComponentStride : nat
}.
End UnitOp.

Abbreviation IUnitOperation := UnitOp.t.

(** [indexOfUnitOp]: array index of the first model with the given id,
    or the number of models. *)
Fixpoint indexOfUnitOpFrom (i : nat) (models : list IUnitOperation) (unitOpIdx : nat) : nat :=
  match models with
  | [] => i
  | m :: rest =>
      if Nat.eqb (UnitOp.unitOperationId m) unitOpIdx then i
      else indexOfUnitOpFrom (S i) rest unitOpIdx
  end.

Definition indexOfUnitOp (models : list IUnitOperation) (unitOpIdx : nat) : nat :=
  indexOfUnitOpFrom 0 models unitOpIdx.

(** ** Model lookup *)

Definition getModel (_models : list IUnitOperation) (index : nat) : option IUnitOperation :=
  if (index <? length _models)%nat then _models !! index else None.

Fixpoint getUnitOperationModel (_models : list IUnitOperation) (unitOpIdx : nat) : option IUnitOperation :=
  match _models with
  | [] => None
  | m :: rest =>
      if Nat.eqb (UnitOp.unitOperationId m) unitOpIdx then Some m
      else getUnitOperationModel rest unitOpIdx
  end.

Definition numModels (_models : list IUnitOperation) : nat := length _models.

(** ** DOF layout and coupling index map *)

(** [std::map::insert] keeps an entry that is already there. *)
Definition mapInsertNew (k : nat * nat) (v : nat) (m : gmap (nat * nat) nat) : gmap (nat * nat) nat :=
  match m !! k with
  | Some _ => m
  | None => <[k := v]> m
  end.

(** The offsets loop: one offset per model, then the offset of the
    superstructure. *)
Fixpoint dofOffsetsFrom (totalDof : nat) (models : list IUnitOperation) : list nat * nat :=
  match models with
  | [] => ([], totalDof)
  | m :: rest =>
      let '(offs, total) := dofOffsetsFrom (totalDof + UnitOp.numDofs m) rest in
      (totalDof :: offs, total)
  end.

(** The inner loop over the components of the inlet-bearing model [i]. *)
Definition insertComponents (i : nat) (nComp : nat) (st : gmap (nat * nat) nat * nat) : gmap (nat * nat) nat * nat :=
  fold_left (fun '(m, counter) comp => (mapInsertNew (i, comp) counter m, S counter))
            (seq 0 nComp) st.

(** The outer loop over the models, from array index [i] on. *)
Fixpoint couplingIdxLoop (i : nat) (models : list IUnitOperation) (st : gmap (nat * nat) nat * nat) : gmap (nat * nat) nat * nat :=
  match models with
  | [] => st
  | model :: rest =>
      couplingIdxLoop (S i) rest
        (if UnitOp.hasInlet model then insertComponents i (UnitOp.numComponents model) st else st)
  end.

Record Layout : Type := BuildLayout {
  _dofOffset : list nat;
  _dofs : list nat;
  _couplingIdxMap : gmap (nat * nat) nat;
  _errorIndicator : list Z
}.

(** Modelled from the spec: [numCouplingDOF] is declared in
    [ModelSystemImpl.hpp], which is not among the sources; the size of the
    coupling block is the number of entries of the coupling index map. *)
Definition numCouplingDOF (m : gmap (nat * nat) nat) : nat := size m.

Definition rebuildInternalDataStructures (_models : list IUnitOperation) (oldErrorIndicator : list Z) : Layout :=
  let '(offs, totalDof) := dofOffsetsFrom 0 _models in
  let '(cmap, _) := couplingIdxLoop 0 _models (∅, 0%nat) in
  {| _dofOffset := offs ++ [totalDof];
     _dofs := map UnitOp.numDofs _models ++ [numCouplingDOF cmap];
     _couplingIdxMap := cmap;
     _errorIndicator := resize (length _models) 0 oldErrorIndicator |}.

(** [ModelSystem::numDofs]: [_dofOffset.back() + numCouplingDOF()]. *)
Definition numDofs (lay : Layout) : nat :=
  (List.last (_dofOffset lay) 0 + numCouplingDOF (_couplingIdxMap lay))%nat.

(** Number of coupling DOFs of the inlet-bearing models among [models]. *)
Fixpoint inletComponents (models : list IUnitOperation) : nat :=
  match models with
  | [] => 0%nat
  | u :: rest =>
      ((if UnitOp.hasInlet u then UnitOp.numComponents u else 0) + inletComponents rest)%nat
  end.

(** ** Exceptions and outcomes *)

(** The [InvalidParameterException]s of this file, by the place that
    throws them, with the values their message is built from. *)
Inductive InvalidParameterException : Type :=
| SourceIdNegative (idxSwitch row : nat)
| DestinationIdNegative (idxSwitch row : nat)
| SourceIdNotFound (idxSwitch row : nat)
| DestinationIdNotFound (idxSwitch row : nat)
| SourceWithoutOutlet (idxSwitch row unitId : nat)
| DestinationWithoutInlet (idxSwitch row unitId : nat)
| SourceComponentExceeds (idxSwitch row nComp : nat)
| DestinationComponentExceeds (idxSwitch row nComp : nat)
| OnlyOneSideAllComponents (idxSwitch row sourceId destId : nat)
| ComponentCountsDiffer (idxSwitch row sourceId destId : nat)
| FlowBalanceNotClosed (idxSwitch unitIdx : nat) (diff : float)
| SectionNotIncreasing (idxSwitch : nat)
| ConnectionsNotFiveColumns
| FirstSectionNotZero.

Inductive outcome (A : Type) : Type :=
| Ok (a : A)
| Throw (e : InvalidParameterException)
| Undefined.

Arguments Ok {A} a.
Arguments Throw {A} e.
Arguments Undefined {A}.

#[global] Instance outcome_ret : MRet outcome := fun A a => Ok a.

#[global] Instance outcome_bind : MBind outcome := fun A B f m =>
  match m with
  | Ok a => f a
  | Throw e => Throw e
  | Undefined => Undefined
  end.

Definition throws {A : Type} (o : outcome A) : Prop := exists e, o = Throw e.

(** ** Numbers of the connection matrix *)

(** [static_cast<int>(x)]: truncation towards zero; undefined when the
    truncated value is not an [int] (also for infinities and NaN). *)
Definition staticCastInt (x : float) : outcome Z :=
  match Prim2SF x with
  | S754_zero _ => Ok 0
  | S754_finite s m e =>
      let mag := if 0 <=? e then Z.shiftl (Zpos m) e else Z.shiftr (Zpos m) (- e) in
      let v := if s then - mag else mag in
      if (- 2 ^ 31 <=? v) && (v <? 2 ^ 31) then Ok v else Undefined
  | _ => Undefined
  end.

(** The conversion of an [int] to [double] in a mixed comparison. *)
Definition intToDouble (z : Z) : float :=
  if z <? 0 then PrimFloat.opp (PrimFloat.of_uint63 (Uint63.of_Z (- z)))
  else PrimFloat.of_uint63 (Uint63.of_Z z).

(** The literal [1e-15], as the nearest binary64 value. *)
Definition balanceTolerance : float := 0x1.203af9ee75616p-50%float.

(** A row of the [CONNECTIONS] matrix: source id, destination id, source
    component, destination component, flow rate. *)
Record ConnectionRow : Type := BuildRow {
  rowSource : float;
  rowDest : float;
  rowCompSource : float;
  rowCompDest : float;
  rowFlow : float
}.

(** The rows [0 .. conn.size() / 5 - 1] of the row-major vector [conn]. *)
Fixpoint rowsOfMatrix (conn : list float) : list ConnectionRow :=
  match conn with
  | a :: b :: c :: d :: e :: rest => BuildRow a b c d e :: rowsOfMatrix rest
  | _ => []
  end.

(** A row of the index matrix [connOnly]: source index, destination index,
    source component, destination component. *)
Record IndexRow : Type := BuildIndexRow {
  uoSource : Z;
  uoDest : Z;
  compSource : Z;
  compDest : Z
}.

(** ** Validation of a connection list *)

Fixpoint isTerminal (conn : list IndexRow) (unitOpIdx : Z) : bool :=
  match conn with
  | [] => true
  | r :: rest => if uoSource r =? unitOpIdx then false else isTerminal rest unitOpIdx
  end.

(** The search of [checkConnectionList] for an earlier row of the same
    connection: it compares the entries of the earlier rows of [conn]
    with the indices of the current row and yields the flow rate of the
    first row that matches. *)
Fixpoint earlierFlowRate (prev : list ConnectionRow) (src dst : Z) : option float :=
  match prev with
  | [] => None
  | p :: rest =>
      if PrimFloat.eqb (rowSource p) (intToDouble src) && PrimFloat.eqb (intToDouble dst) (rowDest p)
      then Some (rowFlow p)
      else earlierFlowRate rest src dst
  end.

(** What one iteration of the row loop hands on: the row of [connOnly],
    the flow rate stored in [flowRates], and whether an earlier row of the
    connection was found. *)
Record CheckedRow : Type := BuildChecked {
  checkedRow : IndexRow;
  checkedFlow : float;
  checkedFound : bool
}.

(** The checks on the unit ids and component indices of row [i], after
    the casts; the result is the row of [connOnly]. *)
Definition checkRowIndices (_models : list IUnitOperation) (idxSwitch i : nat)
    (srcId dstId cSrc cDst : Z) : outcome IndexRow :=
  if srcId <? 0 then Throw (SourceIdNegative idxSwitch i)
  else if dstId <? 0 then Throw (DestinationIdNegative idxSwitch i)
  else
    let src := indexOfUnitOp _models (Z.to_nat srcId) in
    let dst := indexOfUnitOp _models (Z.to_nat dstId) in
    if (length _models <=? src)%nat then Throw (SourceIdNotFound idxSwitch i)
    else if (length _models <=? dst)%nat then Throw (DestinationIdNotFound idxSwitch i)
    else
      match _models !! src, _models !! dst with
      | Some mSrc, Some mDst =>
          if negb (UnitOp.hasOutlet mSrc)
          then Throw (SourceWithoutOutlet idxSwitch i (UnitOp.unitOperationId mSrc))
          else if negb (UnitOp.hasInlet mDst)
          then Throw (DestinationWithoutInlet idxSwitch i (UnitOp.unitOperationId mDst))
          else if (0 <=? cSrc) && (Z.of_nat (UnitOp.numComponents mSrc) <=? cSrc)
          then Throw (SourceComponentExceeds idxSwitch i (UnitOp.numComponents mSrc))
          else if (0 <=? cDst) && (Z.of_nat (UnitOp.numComponents mDst) <=? cDst)
          then Throw (DestinationComponentExceeds idxSwitch i (UnitOp.numComponents mDst))
          else if ((cSrc <? 0) && (0 <=? cDst)) || ((0 <=? cSrc) && (cDst <? 0))
          then Throw (OnlyOneSideAllComponents idxSwitch i
                        (UnitOp.unitOperationId mSrc) (UnitOp.unitOperationId mDst))
          else if (cSrc <? 0) && (cDst <? 0)
                  && negb (UnitOp.numComponents mSrc =? UnitOp.numComponents mDst)%nat
          then Throw (ComponentCountsDiffer idxSwitch i
                        (UnitOp.unitOperationId mSrc) (UnitOp.unitOperationId mDst))
          else Ok (BuildIndexRow (Z.of_nat src) (Z.of_nat dst) cSrc cDst)
      | _, _ => Undefined
      end.

(** The body of the row loop for row [i], with [prev] the rows before it. *)
Definition checkRow (_models : list IUnitOperation) (idxSwitch i : nat)
    (prev : list ConnectionRow) (r : ConnectionRow) : outcome CheckedRow :=
  srcId ← staticCastInt (rowSource r);
  dstId ← staticCastInt (rowDest r);
  cSrc ← staticCastInt (rowCompSource r);
  cDst ← staticCastInt (rowCompDest r);
  row ← checkRowIndices _models idxSwitch i srcId dstId cSrc cDst;
  match earlierFlowRate prev (uoSource row) (uoDest row) with
  | Some fr => Ok (BuildChecked row fr true)
  | None => Ok (BuildChecked row (rowFlow r) false)
  end.

Record RowLoopState : Type := BuildRowLoop {
  totalInflow : list float;
  totalOutflow : list float;
  connOnly : list IndexRow;
  flowRates : list float
}.

(** [v[idx] += fr] *)
Definition addAt (idx : Z) (fr : float) (v : list float) : list float :=
  alter (fun x => (x + fr)%float) (Z.to_nat idx) v.

Definition rowLoopStep (st : RowLoopState) (c : CheckedRow) : RowLoopState :=
  {| totalInflow :=
       if checkedFound c then totalInflow st
       else addAt (uoDest (checkedRow c)) (checkedFlow c) (totalInflow st);
     totalOutflow :=
       if checkedFound c then totalOutflow st
       else addAt (uoSource (checkedRow c)) (checkedFlow c) (totalOutflow st);
     connOnly := connOnly st ++ [checkedRow c];
     flowRates := flowRates st ++ [checkedFlow c] |}.

(** The row loop from row [i] on. *)
Fixpoint checkRows (_models : list IUnitOperation) (idxSwitch i : nat)
    (prev rows : list ConnectionRow) (st : RowLoopState) : outcome RowLoopState :=
  match rows with
  | [] => Ok st
  | r :: rest =>
      c ← checkRow _models idxSwitch i prev r;
      checkRows _models idxSwitch (S i) (prev ++ [r]) rest (rowLoopStep st c)
  end.

Definition initialRowLoop (_models : list IUnitOperation) : RowLoopState :=
  {| totalInflow := replicate (length _models) 0%float;
     totalOutflow := replicate (length _models) 0%float;
     connOnly := [];
     flowRates := [] |}.

(** The balance check of unit [i]: [None] when the loop moves on,
    the imbalance when it throws. *)
Definition unitImbalance (st : RowLoopState) (i : nat) (m : IUnitOperation) : option float :=
  let tIn := default 0%float (totalInflow st !! i) in
  let tOut := default 0%float (totalOutflow st !! i) in
  if (0 <=? tIn)%float && (tOut =? 0)%float && UnitOp.hasInlet m && negb (UnitOp.hasOutlet m)
  then None
  else if (tIn =? 0)%float && (0 <=? tOut)%float && negb (UnitOp.hasInlet m) && UnitOp.hasOutlet m
  then None
  else if (0 <=? tOut)%float && isTerminal (connOnly st) (Z.of_nat i)
  then None
  else
    let diff := PrimFloat.abs (tIn - tOut) in
    if ((balanceTolerance <=? diff)%float
        || (balanceTolerance * PrimFloat.abs tOut <=? diff)%float)
       && negb (UnitOp.canAccumulate m)
    then Some diff
    else None.

(** The balance loop from unit [i] on. *)
Fixpoint checkBalance (idxSwitch : nat) (st : RowLoopState) (i : nat)
    (models : list IUnitOperation) : outcome () :=
  match models with
  | [] => Ok ()
  | m :: rest =>
      match unitImbalance st i m with
      | Some diff => Throw (FlowBalanceNotClosed idxSwitch i diff)
      | None => checkBalance idxSwitch st (S i) rest
      end
  end.

(** [checkConnectionList]: the out-parameters [connOnly] and [flowRates]
    are the result. *)
Definition checkConnectionList (_models : list IUnitOperation) (conn : list float)
    (idxSwitch : nat) : outcome (list IndexRow * list float) :=
  st ← checkRows _models idxSwitch 0 [] (rowsOfMatrix conn) (initialRowLoop _models);
  _ ← checkBalance idxSwitch st 0 _models;
  Ok (connOnly st, flowRates st).

(** The conditions of the claim under which a connection row is refused,
    with [-1] as the all-components wildcard, as the configuration schema
    has it: every other component index is an index of a component. *)
Definition rowRejectedAsClaimed (_models : list IUnitOperation) (srcId dstId cSrc cDst : Z) : Prop :=
  srcId < 0 \/ dstId < 0 \/
  match getUnitOperationModel _models (Z.to_nat srcId),
        getUnitOperationModel _models (Z.to_nat dstId) with
  | Some mSrc, Some mDst =>
      UnitOp.hasOutlet mSrc = false
      \/ UnitOp.hasInlet mDst = false
      \/ (cSrc <> -1 /\ Z.of_nat (UnitOp.numComponents mSrc) <= cSrc)
      \/ (cDst <> -1 /\ Z.of_nat (UnitOp.numComponents mDst) <= cDst)
      \/ (cSrc = -1 /\ cDst <> -1)
      \/ (cSrc <> -1 /\ cDst = -1)
      \/ (cSrc = -1 /\ cDst = -1 /\ UnitOp.numComponents mSrc <> UnitOp.numComponents mDst)
  | _, _ => True
  end.

(** The conditions under which [checkConnectionList] refuses a row, on
    the unit ids and component indices of the row: the conditions of the
    claim with every negative component index, not [-1] alone, taken for
    the all-components wildcard. *)
Definition rowRejected (_models : list IUnitOperation) (srcId dstId cSrc cDst : Z) : Prop :=
  srcId < 0 \/ dstId < 0 \/
  match getUnitOperationModel _models (Z.to_nat srcId),
        getUnitOperationModel _models (Z.to_nat dstId) with
  | Some mSrc, Some mDst =>
      UnitOp.hasOutlet mSrc = false
      \/ UnitOp.hasInlet mDst = false
      \/ (0 <= cSrc /\ Z.of_nat (UnitOp.numComponents mSrc) <= cSrc)
      \/ (0 <= cDst /\ Z.of_nat (UnitOp.numComponents mDst) <= cDst)
      \/ (cSrc < 0 /\ 0 <= cDst)
      \/ (0 <= cSrc /\ cDst < 0)
      \/ (cSrc < 0 /\ cDst < 0 /\ UnitOp.numComponents mSrc <> UnitOp.numComponents mDst)
  | _, _ => True
  end.

(** An accepted row connects a unit with an outlet to a unit with an inlet. *)
Definition rowWellFormed (models : list IUnitOperation) (q : IndexRow) : Prop :=
  exists src dst mSrc mDst,
    uoSource q = Z.of_nat src /\ uoDest q = Z.of_nat dst
    /\ models !! src = Some mSrc /\ UnitOp.hasOutlet mSrc = true
    /\ models !! dst = Some mDst /\ UnitOp.hasInlet mDst = true.

(** What the row loop keeps true: the rows of [connOnly] are well formed,
    and a total is still [0.0] for a unit that no row has as its source
    (or as its destination). *)
Definition rowLoopInvariant (models : list IUnitOperation) (st : RowLoopState) : Prop :=
  Forall (rowWellFormed models) (connOnly st)
  /\ (forall i, (i < length models)%nat ->
        totalOutflow st !! i = Some 0%float
        \/ exists q, q ∈ connOnly st /\ uoSource q = Z.of_nat i)
  /\ (forall i, (i < length models)%nat ->
        totalInflow st !! i = Some 0%float
        \/ exists q, q ∈ connOnly st /\ uoDest q = Z.of_nat i).

(** *** Connections counted once *)

(** Whether a row before row [j] connects the same two units. *)
Definition connectedBefore (earlier : list IndexRow) (r : IndexRow) : bool :=
  existsb (fun k => (uoSource k =? uoSource r) && (uoDest k =? uoDest r)) earlier.

(** The search for an earlier row of the same connection on the unit
    indices of [connOnly], the way [configureSwitches] and the section
    transition do it: the flow rate of the first such row. *)
Fixpoint firstConnectionFlow (earlier : list IndexRow) (flows : list float) (r : IndexRow) : option float :=
  match earlier, flows with
  | q :: qs, f :: fs =>
      if (uoSource q =? uoSource r) && (uoDest q =? uoDest r) then Some f
      else firstConnectionFlow qs fs r
  | _, _ => None
  end.

(** For the row with indices [r], the comparisons of [earlierFlowRate]
    with the entries of the rows before it come out as the comparisons of
    the unit indices. *)
Fixpoint searchAgrees (prev : list ConnectionRow) (earlier : list IndexRow) (r : IndexRow) : bool :=
  match prev, earlier with
  | p :: ps, q :: qs =>
      Bool.eqb (PrimFloat.eqb (rowSource p) (intToDouble (uoSource r))
                && PrimFloat.eqb (intToDouble (uoDest r)) (rowDest p))
               ((uoSource q =? uoSource r) && (uoDest q =? uoDest r))
      && searchAgrees ps qs r
  | [], [] => true
  | _, _ => false
  end.

(** The same for every row of a connection list; it holds when the unit
    ids are the array indices of the units. *)
Fixpoint idsAgreeWithIndices (prev : list ConnectionRow) (earlier : list IndexRow)
    (rows : list ConnectionRow) (idx : list IndexRow) : bool :=
  match rows, idx with
  | p :: ps, q :: qs =>
      searchAgrees prev earlier q && idsAgreeWithIndices (prev ++ [p]) (earlier ++ [q]) ps qs
  | [], [] => true
  | _, _ => false
  end.

(** Total inflow and outflow with every connection (source, destination)
    counted once, by the flow rate of its first row. *)
Fixpoint balanceTotals (earlier rows : list IndexRow) (flows : list float)
    (totals : list float * list float) : list float * list float :=
  match rows, flows with
  | r :: rs, f :: fs =>
      balanceTotals (earlier ++ [r]) rs fs
        (if connectedBefore earlier r then totals
         else (addAt (uoDest r) f totals.1, addAt (uoSource r) f totals.2))
  | _, _ => totals
  end.

(** Flow rates with every row given the flow rate of the first row of
    its connection. *)
Fixpoint sharedFlowRates (earlier : list IndexRow) (earlierFlows : list float)
    (rows : list IndexRow) (flows : list float) : list float :=
  match rows, flows with
  | r :: rs, f :: fs =>
      default f (firstConnectionFlow earlier earlierFlows r)
      :: sharedFlowRates (earlier ++ [r]) (earlierFlows ++ [f]) rs fs
  | _, _ => []
  end.

(** ** Configuration of the valve switches *)

(** What the parameter provider holds in scope [switch_xxx]. *)
Record SwitchInput : Type := BuildSwitchInput {
  SECTION : Z;
  CONNECTIONS : list float
}.

(** A registered flow-rate parameter is keyed by source index, destination
    index and switch index; its value is the pointer
    [_flowRates.back() + j] that was read while row [j] of switch [i] was
    the last element of [_flowRates]. The map keeps it as the pair
    [(i, j)] of that moment; the address the pointer holds, and whether
    it still points into [_flowRates] once more flow rates have been
    pushed, are [parameterAddress] and [pointsIntoFlowRates] below. *)
Record SwitchConfig : Type := BuildSwitchConfig {
  _switchSectionIndex : list Z;
  _connections : list (list IndexRow);
  _flowRates : list (list float);
  _parameters : gmap (Z * Z * nat) (nat * nat)
}.

(** The registration loop of switch [i] from row [j] on: a connection
    that no earlier row of the switch has gets the pointer
    [_flowRates.back() + j], read at this moment, when row [j] is the
    last flow rate pushed. The pair [(i, j)] names the pointer by the
    moment it was read: it is an address in the buffer [_flowRates] had
    then ([parameterAddress]), not a place in the vector as it is in the
    end. *)
Fixpoint registerFlowRates (i j : nat) (earlier rows : list IndexRow)
    (params : gmap (Z * Z * nat) (nat * nat)) : gmap (Z * Z * nat) (nat * nat) :=
  match rows with
  | [] => params
  | r :: rest =>
      registerFlowRates i (S j) (earlier ++ [r]) rest
        (if connectedBefore earlier r then params
         else <[(uoSource r, uoDest r, i) := (i, j)]> params)
  end.

(** The first row of a connection list that connects [src] to [dst]. *)
Fixpoint firstRowOf (rows : list IndexRow) (src dst : Z) : option nat :=
  match rows with
  | [] => None
  | r :: rest =>
      if (uoSource r =? src) && (uoDest r =? dst) then Some 0%nat
      else S <$> firstRowOf rest src dst
  end.

(** *** The storage of the flow rates *)

(** The vector that holds the flow rates: the buffer it has (buffers are
    numbered in the order in which the vector gets them), the capacity of
    the buffer and the number of elements. *)
Record Storage : Type := BuildStorage {
  stBuffer : nat;
  stCapacity : nat;
  stSize : nat
}.

Section FlowRateStorage.

(** [capacity] is the capacity of [_flowRates] when [reserve] has returned
    in [configureSwitches] (at least what was asked for); [grow size] is
    the capacity the vector chooses when it is full with [size] elements
    (at least one more than it holds). *)
Context (capacity : nat) (grow : nat -> nat).

(** Modelled from the spec: [SlicedVector] is declared in a header that
    is not among the sources; it keeps the elements of all slices one
    after the other in one [std::vector], and [pushBack] and
    [pushBackInLastSlice] are a [push_back] on it: a full vector moves
    its elements to a new buffer, and the pointers into the old buffer
    dangle. *)
Definition push_back (st : Storage) : Storage :=
  if (stSize st <? stCapacity st)%nat
  then BuildStorage (stBuffer st) (stCapacity st) (S (stSize st))
  else BuildStorage (S (stBuffer st)) (Nat.max (S (stSize st)) (grow (stSize st)))
                    (S (stSize st)).

(** The vector after [clear], [reserve] and [pushes] elements. *)
Definition storageAfter (pushes : nat) : Storage :=
  Nat.iter pushes push_back (BuildStorage 0 capacity 0).

(** The position in the vector of the first flow rate of switch [i]. *)
Definition sliceStart (cfg : SwitchConfig) (i : nat) : nat :=
  length (concat (take i (_flowRates cfg))).

(** The address in the pointer [_flowRates.back() + j] read when row [j]
    of switch [i] had just been pushed: buffer and position. *)
Definition parameterAddress (cfg : SwitchConfig) (ptr : nat * nat) : nat * nat :=
  let pos := (sliceStart cfg ptr.1 + ptr.2)%nat in
  (stBuffer (storageAfter (S pos)), pos).

(** The buffer of [_flowRates] when all flow rates of [cfg] are pushed. *)
Definition flowRatesBuffer (cfg : SwitchConfig) : nat :=
  stBuffer (storageAfter (length (concat (_flowRates cfg)))).

Definition pointsIntoFlowRates (cfg : SwitchConfig) (ptr : nat * nat) : bool :=
  ((parameterAddress cfg ptr).1 =? flowRatesBuffer cfg)%nat.

(** The value read through the pointer of a registered parameter, as
    [getAllParameterValues] reads it; [None] for a key that is not
    registered. Reading through a dangling pointer is undefined. *)
Definition parameterValue (cfg : SwitchConfig) (key : Z * Z * nat) : outcome (option float) :=
  match _parameters cfg !! key with
  | None => Ok None
  | Some ptr =>
      if pointsIntoFlowRates cfg ptr
      then match (slice ← _flowRates cfg !! ptr.1; slice !! ptr.2) with
           | Some fr => Ok (Some fr)
           | None => Undefined
           end
      else Undefined
  end.

End FlowRateStorage.

(** The body of the loop over the switches, for switch [i]. *)
Definition configureSwitch (_models : list IUnitOperation) (i : nat) (sw : SwitchInput)
    (cfg : SwitchConfig) : outcome SwitchConfig :=
  let sections := _switchSectionIndex cfg ++ [SECTION sw] in
  if (0 <? i)%nat && (SECTION sw <=? List.last (_switchSectionIndex cfg) 0)
  then Throw (SectionNotIncreasing i)
  else if negb (length (CONNECTIONS sw) mod 5 =? 0)%nat
  then Throw ConnectionsNotFiveColumns
  else
    '(conn, fr) ← checkConnectionList _models (CONNECTIONS sw) i;
    Ok {| _switchSectionIndex := sections;
          _connections := _connections cfg ++ [conn];
          _flowRates := _flowRates cfg ++ [fr];
          _parameters := registerFlowRates i 0 [] conn (_parameters cfg) |}.

(** The loop over the switches from switch [i] on. *)
Fixpoint configureSwitchLoop (_models : list IUnitOperation) (i : nat)
    (switches : list SwitchInput) (cfg : SwitchConfig) : outcome SwitchConfig :=
  match switches with
  | [] => Ok cfg
  | sw :: rest =>
      cfg' ← configureSwitch _models i sw cfg;
      configureSwitchLoop _models (S i) rest cfg'
  end.

(** [configureSwitches] reads [NSWITCHES] scopes; [_parameters] is what
    the caller left in it ([configure] and [reconfigure] clear it).
    Without any switch, the final check reads [_switchSectionIndex[0]] of
    an empty vector. *)
Definition configureSwitches (_models : list IUnitOperation) (switches : list SwitchInput)
    (params : gmap (Z * Z * nat) (nat * nat)) : outcome SwitchConfig :=
  cfg ← configureSwitchLoop _models 0 switches (BuildSwitchConfig [] [] [] params);
  match _switchSectionIndex cfg with
  | [] => Undefined
  | first :: _ => if negb (first =? 0) then Throw FirstSectionNotZero else Ok cfg
  end.



(** ** Section transitions *)

(** The conversion of an [int] to [unsigned int] in a mixed comparison. *)
Definition toUnsigned (z : Z) : Z := z mod 2 ^ 32.

(** The update of [_curSwitchIndex] for section [secIdx]: the new index
    and the index [prevSwitch] it is compared with. The vector of switch
    sections is not empty. *)
Definition advanceSwitch (sections : list Z) (_curSwitchIndex secIdx : nat) : nat * nat :=
  let cur := if (secIdx =? 0)%nat then 0%nat else _curSwitchIndex in
  let wrapSec := (secIdx mod length sections)%nat in
  let prevSwitch := cur in
  if (cur <? length sections - 1)%nat
     && (toUnsigned (default 0 (sections !! S cur)) <=? Z.of_nat wrapSec)
  then (S cur, prevSwitch)
  else if (cur =? length sections - 1)%nat
  then (if toUnsigned (default 0 (sections !! 0%nat)) =? Z.of_nat wrapSec
        then (0%nat, prevSwitch) else (cur, prevSwitch))
  else (cur, prevSwitch).

(** Total inlet and outlet flow rate of unit [i] in a connection list,
    from row [j] on: only the first row of a connection counts. *)
Fixpoint unitFlowRates (i : nat) (j : nat) (earlier rows : list IndexRow)
    (conRates : list float) (acc : float * float) : float * float :=
  match rows with
  | [] => acc
  | r :: rest =>
      let rate := default 0%float (conRates !! j) in
      let acc' :=
        if connectedBefore earlier r then acc
        else
          let totalOut := if uoSource r =? Z.of_nat i then (acc.2 + rate)%float else acc.2 in
          let totalIn := if uoDest r =? Z.of_nat i then (acc.1 + rate)%float else acc.1 in
          (totalIn, totalOut) in
      unitFlowRates i (S j) (earlier ++ [r]) rest conRates acc'
  end.

Record Transition : Type := BuildTransition {
  newSwitchIndex : nat;
  notifiedFlowRates : list (float * float);
  assembled : bool
}.

(** [notifyDiscontinuousSectionTransition]: the new switch index, the
    flow rates ([totalIn], [totalOut]) set in each unit, and whether
    [assembleSuperStructMatrices] is called. *)
Definition notifyDiscontinuousSectionTransition (_models : list IUnitOperation)
    (cfg : SwitchConfig) (_curSwitchIndex secIdx : nat) : outcome Transition :=
  match _switchSectionIndex cfg with
  | [] => Undefined
  | _ =>
      let '(cur, prevSwitch) := advanceSwitch (_switchSectionIndex cfg) _curSwitchIndex secIdx in
      let ptrConn := default [] (_connections cfg !! cur) in
      let conRates := default [] (_flowRates cfg !! cur) in
      Ok {| newSwitchIndex := cur;
            notifiedFlowRates :=
              imap (fun i _ => unitFlowRates i 0 [] ptrConn conRates (0%float, 0%float)) _models;
            assembled := (secIdx =? 0)%nat || negb (prevSwitch =? cur)%nat |}
  end.




(** ** The coupling residual *)

(** [residualConnectUnitOps] is a template in the types of the state and
    of the residual; the embedding is over any scalar type [R] with an
    addition and a multiplication. Vectors are given by a pointer, so
    they are functions of the position; [y + offset] is a shift.
    [_jacFN] is the outbound matrix that [select] picks for the scalar
    type: [_jacFN] and [_jacActiveFN] hold the same entries. *)
Section CouplingResidual.

Context {R : Type} (radd rmul : R -> R -> R).

(** An entry of a sparse matrix: row, column, value. *)
Definition SparseMatrix : Type := list (nat * nat * R).

Definition store (v : nat -> R) (pos : nat) (x : R) : nat -> R :=
  fun k => if (k =? pos)%nat then x else v k.

(** Modelled from the spec: [SparseMatrix::multiplyAdd] is defined in
    [linalg/SparseMatrix.hpp], which is not among the sources; it adds the
    product of the matrix with [x] to [y], entry by entry. The vectors
    start at [xOffset] and [yOffset]. *)
Definition multiplyAdd (A : SparseMatrix) (x : nat -> R) (xOffset : nat)
    (y : nat -> R) (yOffset : nat) : nat -> R :=
  fold_left (fun y '(row, col, v) =>
               store y (yOffset + row) (radd (y (yOffset + row)%nat) (rmul v (x (xOffset + col)%nat))))
            A y.

(** The loop [res[i] = y[i]] over the coupling block. *)
Definition copyCoupling (finalOffset nCoupling : nat) (y res : nat -> R) : nat -> R :=
  fold_left (fun res i => store res i (y i)) (seq finalOffset nCoupling) res.

Definition residualConnectUnitOps (_dofOffset : list nat) (nCoupling nModels : nat)
    (_jacNF _jacFN : list SparseMatrix) (y res : nat -> R) : nat -> R :=
  let finalOffset := List.last _dofOffset 0%nat in
  let res1 := copyCoupling finalOffset nCoupling y res in
  let res2 :=
    fold_left (fun res i =>
                 multiplyAdd (nth i _jacNF []) y finalOffset res (nth i _dofOffset 0%nat))
              (seq 0 nModels) res1 in
  fold_left (fun res i =>
               multiplyAdd (nth i _jacFN []) y (nth i _dofOffset 0%nat) res finalOffset)
            (seq 0 nModels) res2.

(** Row [k] of the product of a sparse matrix with the vector at
    [y + offset]. *)
Definition rowProduct (rO : R) (A : SparseMatrix) (k : nat) (y : nat -> R) (offset : nat) : R :=
  fold_right (fun '(row, col, v) acc =>
                if (row =? k)%nat then radd (rmul v (y (offset + col)%nat)) acc else acc)
             rO A.

(** Row [k] of the sum over the units [0 .. nModels - 1] of
    [_jacFN[i] * y[unit i]]. *)
Definition outboundSum (rO : R) (_dofOffset : list nat) (_jacFN : list SparseMatrix)
    (nModels k : nat) (y : nat -> R) : R :=
  fold_right (fun i acc => radd (rowProduct rO (nth i _jacFN []) k y (nth i _dofOffset 0%nat)) acc)
             rO (seq 0 nModels).

(** The value that row [k] of a sparse matrix leaves in an accumulator
    that starts at [acc]: the products of the entries of the row with the
    vector at [x + xOffset] are added to it one after the other, in the
    order of the entries. With the subtraction for [radd] the products
    are subtracted. *)
Definition rowAccumulate (A : SparseMatrix) (k : nat) (x : nat -> R) (xOffset : nat)
    (acc : R) : R :=
  fold_left (fun acc '(row, col, v) =>
               if (row =? k)%nat then radd acc (rmul v (x (xOffset + col)%nat)) else acc)
            A acc.

(** The same for row [k] of the matrices [_jacFN[i]] of the units
    [0 .. nModels - 1], in the order of the units, on the blocks of the
    units in [y]. *)
Definition outboundAccumulate (_dofOffset : list nat) (_jacFN : list SparseMatrix)
    (nModels k : nat) (y : nat -> R) (acc : R) : R :=
  fold_left (fun acc i => rowAccumulate (nth i _jacFN []) k y (nth i _dofOffset 0%nat) acc)
            (seq 0 nModels) acc.

(** The rows of the inbound matrix of a unit are rows of that unit: the
    inlet DOFs of a unit lie in its own block of the state vector. *)
Definition inboundRowsInsideUnits (_dofOffset : list nat) (nModels : nat)
    (_jacNF : list SparseMatrix) : Prop :=
  forall i, (i < nModels)%nat ->
    Forall (fun e : nat * nat * R => (nth i _dofOffset 0 + e.1.1 < List.last _dofOffset 0)%nat)
           (nth i _jacNF []).

End CouplingResidual.

(** ** Initial conditions *)

(** The two optional fields of the parameter provider that
    [applyInitialCondition] reads: [exists] is [Some]. *)
Record InitialStateProvider : Type := BuildInitProvider {
  INIT_STATE_Y : option (list float);
  INIT_STATE_YDOT : option (list float)
}.

(** [std::copy(src, src + n, dst)] *)
Definition copyPrefix (n : nat) (src dst : list float) : list float :=
  take n src ++ drop n dst.

(** [std::setfill('0') << std::setw(3)] *)
Definition setw3 (digits : string) : string :=
  String.append (String.concat EmptyString (repeat "0"%string (3 - String.length digits))) digits.

Definition unitScope (m : IUnitOperation) : string :=
  String.append "unit_" (setw3 (pretty (UnitOp.unitOperationId m))).

Record InitialCondition : Type := BuildInitialCondition {
  vecStateY : list float;
  vecStateYdot : list float;
  delegatedScopes : list (string * nat)
}.

(** The loop over the models from array index [i] on: each unit applies
    its initial condition, read from its scope, to the vectors at its
    offset. What a unit does is [unitApply]; the scopes and offsets of the
    calls are recorded in order. *)
Fixpoint delegateInitialCondition
    (unitApply : IUnitOperation -> string -> nat -> list float * list float -> list float * list float)
    (_dofOffset : list nat) (i : nat) (models : list IUnitOperation)
    (ic : InitialCondition) : InitialCondition :=
  match models with
  | [] => ic
  | m :: rest =>
      let offset := default 0%nat (_dofOffset !! i) in
      let '(y, yDot) := unitApply m (unitScope m) offset (vecStateY ic, vecStateYdot ic) in
      delegateInitialCondition unitApply _dofOffset (S i) rest
        {| vecStateY := y; vecStateYdot := yDot;
           delegatedScopes := delegatedScopes ic ++ [(unitScope m, offset)] |}
  end.

(** The scopes and offsets of the calls when every unit is called. *)
Fixpoint unitScopesFrom (_dofOffset : list nat) (i : nat) (models : list IUnitOperation) : list (string * nat) :=
  match models with
  | [] => []
  | m :: rest => (unitScope m, default 0%nat (_dofOffset !! i)) :: unitScopesFrom _dofOffset (S i) rest
  end.

(** The units with the offsets of their blocks, from array index [i]
    on. *)
Fixpoint unitsWithOffsets (_dofOffset : list nat) (i : nat) (models : list IUnitOperation)
    : list (IUnitOperation * nat) :=
  match models with
  | [] => []
  | m :: rest => (m, default 0%nat (_dofOffset !! i)) :: unitsWithOffsets _dofOffset (S i) rest
  end.

(** Whether the provider holds a full state vector under [INIT_STATE_Y],
    and the derivative vector after the [INIT_STATE_YDOT] step. *)
Definition fullStateGiven (n : nat) (paramProvider : InitialStateProvider) : bool :=
  match INIT_STATE_Y paramProvider with
  | Some initState => (n <=? length initState)%nat
  | None => false
  end.

Definition derivativeGiven (n : nat) (paramProvider : InitialStateProvider) (yDot0 : list float) : list float :=
  match INIT_STATE_YDOT paramProvider with
  | Some initState => if (n <=? length initState)%nat then copyPrefix n initState yDot0 else yDot0
  | None => yDot0
  end.

(** [applyInitialCondition(paramProvider, vecStateY, vecStateYdot)] *)
Definition applyInitialCondition
    (unitApply : IUnitOperation -> string -> nat -> list float * list float -> list float * list float)
    (_models : list IUnitOperation) (lay : Layout) (paramProvider : InitialStateProvider)
    (y0 yDot0 : list float) : InitialCondition :=
  let '(y, skipModels) :=
    match INIT_STATE_Y paramProvider with
    | Some initState =>
        if (numDofs lay <=? length initState)%nat
        then (copyPrefix (numDofs lay) initState y0, true)
        else (y0, false)
    | None => (y0, false)
    end in
  let yDot :=
    match INIT_STATE_YDOT paramProvider with
    | Some initState =>
        if (numDofs lay <=? length initState)%nat
        then copyPrefix (numDofs lay) initState yDot0
        else yDot0
    | None => yDot0
    end in
  if skipModels then BuildInitialCondition y yDot []
  else delegateInitialCondition unitApply (_dofOffset lay) 0 _models
         (BuildInitialCondition y yDot []).

(** ** The collection of unit operations *)

(** The models and, for the Schur complement, the array indices of the
    models that have both an inlet and an outlet. *)
Record ModelCollection : Type := BuildCollection {
  _models : list IUnitOperation;
  _inOutModels : list nat
}.

(** [addModel] throws an [InvalidParameterException] for a unit operation
    id that is already there. *)
Inductive AddModelResult : Type :=
| ModelAdded (sys : ModelCollection)
| ExistingUnitOperationId (unitOpIdx : nat).

Definition addModel (sys : ModelCollection) (unitOp : IUnitOperation) : AddModelResult :=
  if (indexOfUnitOp (_models sys) (UnitOp.unitOperationId unitOp) <? length (_models sys))%nat
  then ExistingUnitOperationId (UnitOp.unitOperationId unitOp)
  else
    let models := _models sys ++ [unitOp] in
    ModelAdded
      {| _models := models;
         _inOutModels :=
           if UnitOp.hasInlet unitOp && UnitOp.hasOutlet unitOp
           then _inOutModels sys ++ [(length models - 1)%nat]
           else _inOutModels sys |}.

(** A run of [addModel] calls, up to the first that throws. *)
Fixpoint addModels (sys : ModelCollection) (unitOps : list IUnitOperation) : AddModelResult :=
  match unitOps with
  | [] => ModelAdded sys
  | u :: rest =>
      match addModel sys u with
      | ModelAdded sys' => addModels sys' rest
      | ExistingUnitOperationId id => ExistingUnitOperationId id
      end
  end.

(** The loop of [removeModel(UnitOpIdx)]: the erased model (or null) and
    the models that are left. *)
Fixpoint eraseUnitOp (models : list IUnitOperation) (unitOp : nat) : option IUnitOperation * list IUnitOperation :=
  match models with
  | [] => (None, [])
  | m :: rest =>
      if Nat.eqb (UnitOp.unitOperationId m) unitOp then (Some m, rest)
      else let '(found, rest') := eraseUnitOp rest unitOp in (found, m :: rest')
  end.

(** [removeModel(UnitOpIdx)] erases from [_models] only. *)
Definition removeModel (sys : ModelCollection) (unitOp : nat) : option IUnitOperation * ModelCollection :=
  let '(found, models) := eraseUnitOp (_models sys) unitOp in
  (found, {| _models := models; _inOutModels := _inOutModels sys |}).

(** [maxUnitOperationId]; the constant [UnitOpIndep] is declared in a
    header that is not among the sources and is a parameter here. *)
Definition maxUnitOperationId (UnitOpIndep : nat) (models : list IUnitOperation) : nat :=
  match models with
  | [] => UnitOpIndep
  | _ => fold_left (fun id m => Nat.max id (UnitOp.unitOperationId m)) models 0%nat
  end.

(** The array indices, from [i] on, of the models with an inlet and an
    outlet. *)
Fixpoint inOutIndicesFrom (i : nat) (models : list IUnitOperation) : list nat :=
  match models with
  | [] => []
  | m :: rest =>
      if UnitOp.hasInlet m && UnitOp.hasOutlet m then i :: inOutIndicesFrom (S i) rest
      else inOutIndicesFrom (S i) rest
  end.

(** Sum of the local DOFs of the models. *)
Fixpoint sumDofs (models : list IUnitOperation) : nat :=
  match models with
  | [] => 0%nat
  | m :: rest => (UnitOp.numDofs m + sumDofs rest)%nat
  end.

(** External functions are held by pointer; a pointer is a number here. *)
Definition addExternalFunction (_extFunctions : list nat) (extFun : nat) : list nat * nat :=
  let funs := _extFunctions ++ [extFun] in (funs, (length funs - 1)%nat).

Definition getExternalFunction (_extFunctions : list nat) (index : nat) : option nat :=
  if (index <? length _extFunctions)%nat then _extFunctions !! index else None.

(** The loop of [removeExternalFunction]: the first occurrence is erased. *)
Fixpoint removeExternalFunction (_extFunctions : list nat) (extFun : nat) : list nat :=
  match _extFunctions with
  | [] => []
  | f :: rest => if Nat.eqb f extFun then rest else f :: removeExternalFunction rest extFun
  end.

(** ** Further notions for the properties of Part III *)

(** The component indices of an accepted row: both stand for all
    components, of two units with as many components, or both are
    components of their units. *)
Definition rowComponentsValid (models : list IUnitOperation) (q : IndexRow) : Prop :=
  exists mSrc mDst,
    models !! Z.to_nat (uoSource q) = Some mSrc
    /\ models !! Z.to_nat (uoDest q) = Some mDst
    /\ ((compSource q < 0 /\ compDest q < 0
         /\ UnitOp.numComponents mSrc = UnitOp.numComponents mDst)
        \/ (0 <= compSource q < Z.of_nat (UnitOp.numComponents mSrc)
            /\ 0 <= compDest q < Z.of_nat (UnitOp.numComponents mDst))).

(** Row [q] of [connOnly] against row [r] of the matrix it was read from. *)
Definition rowRead (models : list IUnitOperation) (r : ConnectionRow) (q : IndexRow) : Prop :=
  rowWellFormed models q
  /\ rowComponentsValid models q
  /\ staticCastInt (rowCompSource r) = Ok (compSource q)
  /\ staticCastInt (rowCompDest r) = Ok (compDest q)
  /\ (exists m, models !! Z.to_nat (uoSource q) = Some m
                /\ staticCastInt (rowSource r) = Ok (Z.of_nat (UnitOp.unitOperationId m)))
  /\ (exists m, models !! Z.to_nat (uoDest q) = Some m
                /\ staticCastInt (rowDest r) = Ok (Z.of_nat (UnitOp.unitOperationId m))).

(** ** The superstructure matrices *)

(** The coupling matrices hold [double] (or [active]) entries. *)
Definition FloatMatrix : Type := @SparseMatrix float.

(** Modelled from the spec: [SparseMatrix::addElement] is defined in
    [linalg/SparseMatrix.hpp], which is not among the sources; it adds an
    entry (row, column, value) to the matrix. *)
Definition addElement (A : FloatMatrix) (row col : nat) (v : float) : FloatMatrix :=
  A ++ [(row, col, v)].

(** [v[i]] with an [int] or [unsigned] index: undefined out of range. *)
Definition elementAt {A : Type} (v : list A) (i : Z) : outcome A :=
  if i <? 0 then Undefined
  else match v !! Z.to_nat i with
       | Some x => Ok x
       | None => Undefined
       end.

(** [m[key]] of a map: a key that is not there is inserted with the
    value 0. *)
Definition mapIndex (m : gmap (nat * nat) nat) (key : nat * nat) : nat * gmap (nat * nat) nat :=
  match m !! key with
  | Some v => (v, m)
  | None => (0%nat, <[key := 0%nat]> m)
  end.

(** The key [std::make_pair(uoDest, comp)] for an [int] unit index; the
    keys of the coupling index map are pairs of [unsigned int]. *)
Definition couplingKey (uoDest : Z) (comp : nat) : nat * nat :=
  (Z.to_nat (toUnsigned uoDest), comp).

(** The loop over the components of a model with an inlet, on its
    cleared matrix [_jacNF[i]]. *)
Definition inletEntries (model : IUnitOperation) (couplingIdx : nat) : FloatMatrix * nat :=
  fold_left (fun '(A, couplingIdx) comp =>
               (addElement A (UnitOp.localInletComponentIndex model
                              + comp * UnitOp.localInletComponentStride model)%nat
                           couplingIdx (-1)%float,
                S couplingIdx))
            (seq 0 (UnitOp.numComponents model)) ([], couplingIdx).

(** The loop that fills the matrices [_jacNF]. *)
Fixpoint assembleNF (models : list IUnitOperation) (couplingIdx : nat) : list FloatMatrix :=
  match models with
  | [] => []
  | model :: rest =>
      if UnitOp.hasInlet model
      then let '(A, couplingIdx') := inletEntries model couplingIdx in
           A :: assembleNF rest couplingIdx'
      else [] :: assembleNF rest couplingIdx
  end.

(** The loop that sums up [_totalInletFlow], from row [i] on. *)
Fixpoint totalInletFlowLoop (i : nat) (earlier rows : list IndexRow)
    (ptrRate total : list float) : outcome (list float) :=
  match rows with
  | [] => Ok total
  | r :: rest =>
      total' ← (if connectedBefore earlier r then Ok total
                else rate ← elementAt ptrRate (Z.of_nat i);
                     _ ← elementAt total (uoDest r);
                     Ok (addAt (uoDest r) rate total));
      totalInletFlowLoop (S i) (earlier ++ [r]) rest ptrRate total'
  end.

(** The body of the loop that fills the matrices [_jacActiveFN], for row
    [i]: the matrices and the coupling index map before and after. *)
Definition connectRow (models : list IUnitOperation) (ptrRate total : list float)
    (i : nat) (earlier : list IndexRow) (r : IndexRow)
    (st : list FloatMatrix * gmap (nat * nat) nat) : outcome (list FloatMatrix * gmap (nat * nat) nat) :=
  let idx := default i (firstRowOf earlier (uoSource r) (uoDest r)) in
  modelSource ← elementAt models (uoSource r);
  let outletIndex := UnitOp.localOutletComponentIndex modelSource in
  let outletStride := UnitOp.localOutletComponentStride modelSource in
  let weight : outcome float :=
    rate ← elementAt ptrRate (Z.of_nat idx);
    tot ← elementAt total (uoDest r);
    Ok (- rate / tot)%float in
  if compSource r =? -1
  then
    match UnitOp.numComponents modelSource with
    | O => Ok st
    | _ =>
        w ← weight;
        _ ← elementAt st.1 (uoSource r);
        Ok (fold_left
              (fun '(fn, m) comp =>
                 let '(row, m') := mapIndex m (couplingKey (uoDest r) comp) in
                 (alter (fun A => addElement A row (outletIndex + outletStride * comp)%nat w)
                        (Z.to_nat (uoSource r)) fn, m'))
              (seq 0 (UnitOp.numComponents modelSource)) st)
    end
  else
    let '(row, m') :=
      mapIndex st.2 (couplingKey (uoDest r) (Z.to_nat (toUnsigned (compDest r)))) in
    let col := (outletIndex + outletStride * Z.to_nat (toUnsigned (compSource r)))%nat in
    w ← weight;
    _ ← elementAt st.1 (uoSource r);
    Ok (alter (fun A => addElement A row col w) (Z.to_nat (uoSource r)) st.1, m').

(** The loop over the rows of the connection list, from row [i] on. *)
Fixpoint connectLoop (models : list IUnitOperation) (ptrRate total : list float)
    (i : nat) (earlier rows : list IndexRow)
    (st : list FloatMatrix * gmap (nat * nat) nat) : outcome (list FloatMatrix * gmap (nat * nat) nat) :=
  match rows with
  | [] => Ok st
  | r :: rest =>
      st' ← connectRow models ptrRate total i earlier r st;
      connectLoop models ptrRate total (S i) (earlier ++ [r]) rest st'
  end.

Record SuperStruct : Type := BuildSuperStruct {
  _jacNF : list FloatMatrix;
  _jacActiveFN : list FloatMatrix;
  _jacFN : list FloatMatrix;
  _totalInletFlow : list float
}.

(** [assembleSuperStructMatrices]: the arrays [_jacNF], [_jacActiveFN] and
    [_jacFN] have [numModels()] matrices ([configure] allocates them so),
    which the first loop clears; [nTotal] is the size of
    [_totalInletFlow]. The coupling index map is handed on, since [m[key]]
    can add to it. *)
Definition assembleSuperStructMatrices (models : list IUnitOperation) (cfg : SwitchConfig)
    (_curSwitchIndex : nat) (couplingIdxMap : gmap (nat * nat) nat) (nTotal : nat)
    : outcome (SuperStruct * gmap (nat * nat) nat) :=
  let nf := assembleNF models 0 in
  ptrConn ← elementAt (_connections cfg) (Z.of_nat _curSwitchIndex);
  ptrRate ← elementAt (_flowRates cfg) (Z.of_nat _curSwitchIndex);
  total ← totalInletFlowLoop 0 [] ptrConn ptrRate (replicate nTotal 0%float);
  '(fn, m) ← connectLoop models ptrRate total 0 [] ptrConn
               (replicate (length models) [], couplingIdxMap);
  Ok ({| _jacNF := nf; _jacActiveFN := fn; _jacFN := fn; _totalInletFlow := total |}, m).

(** Step 1 of [allocateSuperStructMatrices] for one switch: the row of
    [sourcesPerUnitOpPerConfig] of the switch. *)
Fixpoint countSources (models : list IUnitOperation) (rows : list IndexRow)
    (counts : list nat) : outcome (list nat) :=
  match rows with
  | [] => Ok counts
  | r :: rest =>
      model ← elementAt models (uoSource r);
      _ ← elementAt counts (uoSource r);
      countSources models rest
        (alter (fun c => (c + (if (compSource r =? -1)%Z then UnitOp.numComponents model else 1))%nat)
               (Z.to_nat (uoSource r)) counts)
  end.

(** Step 1 for the switches [idx ..]. *)
Fixpoint sourcesPerUnitOpPerConfig (models : list IUnitOperation) (idx nSwitches : nat)
    (connections : list (list IndexRow)) : outcome (list (list nat)) :=
  match nSwitches with
  | O => Ok []
  | S n =>
      ptrConn ← elementAt connections (Z.of_nat idx);
      row ← countSources models ptrConn (replicate (length models) 0%nat);
      rest ← sourcesPerUnitOpPerConfig models (S idx) n connections;
      Ok (row :: rest)
  end.

(** Step 2: the maximum over the switches, per unit. *)
Definition numOutgoing (nModels : nat) (sources : list (list nat)) : outcome (list nat) :=
  match sources with
  | [] => if (nModels =? 0)%nat then Ok [] else Undefined
  | first :: rest =>
      Ok (fold_left (fun acc row => zip_with Nat.max acc row) rest first)
  end.

(** [allocateSuperStructMatrices]: the sizes that [_jacActiveFN[i]] and
    [_jacNF[i]] are resized to; a matrix [_jacNF[i]] of a unit without
    inlet is not resized. *)
Definition allocateSuperStructMatrices (models : list IUnitOperation) (cfg : SwitchConfig)
    : outcome (list nat * list (option nat)) :=
  sources ← sourcesPerUnitOpPerConfig models 0 (length (_switchSectionIndex cfg)) (_connections cfg);
  outgoing ← numOutgoing (length models) sources;
  Ok (outgoing,
      map (fun model => if UnitOp.hasInlet model then Some (UnitOp.numComponents model) else None)
          models).

(** A row as [assembleSuperStructMatrices] expects it: a row that
    [checkConnectionList] accepts, with -1 where it stands for all
    components. *)
Definition rowAssemblable (models : list IUnitOperation) (q : IndexRow) : Prop :=
  rowWellFormed models q
  /\ rowComponentsValid models q
  /\ (compSource q < 0 -> compSource q = -1)
  /\ uoDest q < 2 ^ 31 /\ compSource q < 2 ^ 31 /\ compDest q < 2 ^ 31.

(** The number of entries that a connection list gives the outbound
    matrix of unit [i]. *)
Fixpoint outgoingEntries (models : list IUnitOperation) (i : nat) (rows : list IndexRow) : nat :=
  match rows with
  | [] => 0%nat
  | r :: rest =>
      ((if (uoSource r =? Z.of_nat i)%Z
        then (if (compSource r =? -1)%Z
              then default 0%nat (UnitOp.numComponents <$> models !! i) else 1%nat)
        else 0%nat)
       + outgoingEntries models i rest)%nat
  end.

(** The entries that a row of the connection list adds to the outbound
    matrix of its source, with the weight [w]: rows are coupling DOFs of
    the destination, columns outlet DOFs of the source. *)
Definition rowEntries (models : list IUnitOperation) (r : IndexRow) (w : float) : FloatMatrix :=
  match models !! Z.to_nat (uoSource r) with
  | None => []
  | Some mSrc =>
      let base := inletComponents (take (Z.to_nat (uoDest r)) models) in
      let outletIndex := UnitOp.localOutletComponentIndex mSrc in
      let outletStride := UnitOp.localOutletComponentStride mSrc in
      if compSource r =? -1
      then map (fun comp => ((base + comp)%nat, (outletIndex + outletStride * comp)%nat, w))
               (seq 0 (UnitOp.numComponents mSrc))
      else [((base + Z.to_nat (compDest r))%nat,
             (outletIndex + outletStride * Z.to_nat (compSource r))%nat, w)]
  end.

(** ** The status codes of [linearSolve] *)

(** [first] and [second] are the codes that the two calls of
    [linearSolve] of each unit return, [gmresResult] is what
    [_gmres.solve] returns. What [schurComplementMatrixVector] stores in
    [_errorIndicator] while GMRES runs is overwritten by the [std::fill]
    after it. The result is the error indicator vector at the end and
    the code returned. *)
Definition linearSolveStatus (first : list Z) (gmresResult : Z) (second : list Z) : list Z * Z :=
  let errorIndicator := first in
  let curError := ErrorIndicator.totalErrorIndicatorFromLocal errorIndicator in
  let errorIndicator :=
    map (fun _ => ErrorIndicator.updateErrorIndicator curError gmresResult) errorIndicator in
  let errorIndicator := zip_with ErrorIndicator.updateErrorIndicator errorIndicator second in
  (errorIndicator, ErrorIndicator.totalErrorIndicatorFromLocal errorIndicator).

(** ** The coupling DOFs of a state vector *)

(** [solveCouplingDOF] is written for [double]; like the coupling
    residual it is embedded over any scalar type [R], here with a
    subtraction and a multiplication. *)
Section CouplingSolve.

Context {R : Type} (rsub rmul : R -> R -> R).

(** Modelled from the spec: [SparseMatrix::multiplySubtract] is defined in
    [linalg/SparseMatrix.hpp], which is not among the sources; it
    subtracts the product of the matrix with the vector at [xOffset] from
    the vector at [yOffset], entry by entry. In [solveCouplingDOF] the two
    are parts of the one vector [vec]. *)
Definition multiplySubtract (A : SparseMatrix) (vec : nat -> R) (xOffset yOffset : nat) : nat -> R :=
  fold_left (fun vec '(row, col, v) =>
               store vec (yOffset + row)
                     (rsub (vec (yOffset + row)%nat) (rmul v (vec (xOffset + col)%nat))))
            A vec.

(** The loop over the components of a model with an inlet. *)
Definition copyInlet (m : IUnitOperation) (offset : nat) (st : (nat -> R) * nat) : (nat -> R) * nat :=
  fold_left (fun '(vec, idxCoupling) comp =>
               (store vec (offset + UnitOp.localInletComponentIndex m
                           + comp * UnitOp.localInletComponentStride m)
                      (vec idxCoupling),
                S idxCoupling))
            (seq 0 (UnitOp.numComponents m)) st.

(** The second loop over the models, from array index [i] on. *)
Fixpoint copyInlets (models : list IUnitOperation) (i : nat) (dofOffset : list nat)
    (st : (nat -> R) * nat) : (nat -> R) * nat :=
  match models with
  | [] => st
  | m :: rest =>
      copyInlets rest (S i) dofOffset
        (if UnitOp.hasInlet m then copyInlet m (nth i dofOffset 0%nat) st else st)
  end.

Definition solveCouplingDOF (models : list IUnitOperation) (dofOffset : list nat)
    (jacFN : list SparseMatrix) (vec : nat -> R) : nat -> R :=
  let finalOffset := List.last dofOffset 0%nat in
  let vec :=
    fold_left (fun vec i =>
                 multiplySubtract (nth i jacFN []) vec (nth i dofOffset 0%nat) finalOffset)
              (seq 0 (length models)) vec in
  (copyInlets models 0 dofOffset (vec, finalOffset)).1.

End CouplingSolve.

(** What the coupling layer relies on in a unit operation: the inlet
    DOFs of a unit are DOFs of the unit, one for each component. *)
Definition inletDofsInside (m : IUnitOperation) : Prop :=
  UnitOp.hasInlet m = true ->
  (forall comp, (comp < UnitOp.numComponents m)%nat ->
     (UnitOp.localInletComponentIndex m + comp * UnitOp.localInletComponentStride m
      < UnitOp.numDofs m)%nat)
  /\ ((1 < UnitOp.numComponents m)%nat -> (0 < UnitOp.localInletComponentStride m)%nat).

(** The columns of the outbound matrix of a unit are DOFs of the unit. *)
Definition outboundColumnsInside {R : Type} (models : list IUnitOperation)
    (jacFN : list (@SparseMatrix R)) : Prop :=
  forall i m, models !! i = Some m ->
    Forall (fun e : nat * nat * R => (e.1.2 < UnitOp.numDofs m)%nat) (nth i jacFN []).

(** ** The recorder of one unit operation *)

(** [InternalStorageUnitOpRecorder] of [SolutionRecorderImpl.hpp]. The
    exporter of a unit operation is given by the data its methods
    return; the writer, a template parameter, by the calls it receives. *)
Module Recorder.

Record StorageConfig : Type := BuildStorageConfig {
  storeColumn : bool;
  storeParticle : bool;
  storeFlux : bool;
  storeOutlet : bool;
  storeInlet : bool
}.

Inductive StateOrdering : Type := Component | AxialCell | RadialCell | Phase.

(** What the methods of [ISolutionExporter] return. *)
Record Exporter : Type := BuildExporter {
  numComponents : nat;
  numAxialCells : nat;
  numRadialCells : nat;
  numBoundStates : nat;
  numColumnDofs : nat;
  numParticleDofs : nat;
  numFluxDofs : nat;
  concentrationOrdering : list StateOrdering;
  mobilePhaseOrdering : list StateOrdering;
  fluxOrdering : list StateOrdering;
  outlet : list float;
  outletStride : nat;
  inlet : list float;
  inletStride : nat;
  concentration : list float;
  mobilePhase : list float;
  flux : list float
}.

(** The five vectors of one kind of data: [_outlet], [_inlet], [_column],
    [_particle], [_flux], or those with the suffix [Dot], or the five
    vectors at one index of [_sensOutlet], ..., [_sensFlux], or of
    [_sensOutletDot], ..., [_sensFluxDot]. *)
Record Buffers : Type := BuildBuffers {
  bOutlet : list float;
  bInlet : list float;
  bColumn : list float;
  bParticle : list float;
  bFlux : list float
}.

Definition noData : Buffers := BuildBuffers [] [] [] [] [].

(** What [_curCfg] and the five pointers [_curOutlet], ..., [_curFlux]
    point to; they are set and reset together. The vectors of the
    solution and of its time derivative are members of the recorder. The
    vectors of a sensitivity are allocated with [new]: a pointer to them
    is the address [vectors] that was read from [_sensOutlet[sensIdx]],
    ..., [_sensFlux[sensIdx]] when [beginSensitivity(sensIdx)] was called,
    and it stays what it is when the sensitivity storage is allocated
    anew or deleted. *)
Inductive Target : Type :=
| Solution
| SolutionDot
| Sensitivity (vectors : nat)
| SensitivityDot (vectors : nat).

(** [_heap] holds the vectors allocated with [new], the five vectors of
    one index and kind (which are allocated and deleted together) at one
    address: [Some] while they are allocated, [None] once they are
    deleted; a new address is the length of [_heap]. The vectors of
    pointers [_sensOutlet], ..., [_sensFlux] are resized and filled
    together: [_sens] holds the address they have at each index, and
    [_sensDot] does so for [_sensOutletDot], ..., [_sensFluxDot]. *)
Record t : Type := Build {
  _cfgSolution : StorageConfig;
  _cfgSolutionDot : StorageConfig;
  _cfgSensitivity : StorageConfig;
  _cfgSensitivityDot : StorageConfig;
  _storeTime : bool;
  _splitComponents : bool;
  _cur : option Target;
  _time : list float;
  _solution : Buffers;
  _solutionDot : Buffers;
  _heap : list (option Buffers);
  _sens : list nat;
  _sensDot : list nat;
  _columnLayout : list nat;
  _particleLayout : list nat;
  _fluxLayout : list nat;
  _nComp : nat;
  _numTimesteps : nat;
  _numSens : nat;
  _unitOp : nat;
  _needsReAlloc : bool
}.

(** The constructor. *)
Definition create (idx : nat) : t :=
  {| _cfgSolution := BuildStorageConfig false false false true false;
     _cfgSolutionDot := BuildStorageConfig false false false false false;
     _cfgSensitivity := BuildStorageConfig false false false true false;
     _cfgSensitivityDot := BuildStorageConfig false false false true false;
     _storeTime := false;
     _splitComponents := true;
     _cur := None;
     _time := [];
     _solution := noData;
     _solutionDot := noData;
     _heap := [];
     _sens := [];
     _sensDot := [];
     _columnLayout := [];
     _particleLayout := [];
     _fluxLayout := [];
     _nComp := 0%nat;
     _numTimesteps := 0%nat;
     _numSens := 0%nat;
     _unitOp := idx;
     _needsReAlloc := false |}.

Definition withData (r : t) (time : list float) (solution solutionDot : Buffers)
    (sens sensDot : list nat) : t :=
  {| _cfgSolution := _cfgSolution r;
     _cfgSolutionDot := _cfgSolutionDot r;
     _cfgSensitivity := _cfgSensitivity r;
     _cfgSensitivityDot := _cfgSensitivityDot r;
     _storeTime := _storeTime r;
     _splitComponents := _splitComponents r;
     _cur := _cur r;
     _time := time;
     _solution := solution;
     _solutionDot := solutionDot;
     _heap := _heap r;
     _sens := sens;
     _sensDot := sensDot;
     _columnLayout := _columnLayout r;
     _particleLayout := _particleLayout r;
     _fluxLayout := _fluxLayout r;
     _nComp := _nComp r;
     _numTimesteps := _numTimesteps r;
     _numSens := _numSens r;
     _unitOp := _unitOp r;
     _needsReAlloc := _needsReAlloc r |}.

Definition withHeap (r : t) (heap : list (option Buffers)) : t :=
  {| _cfgSolution := _cfgSolution r;
     _cfgSolutionDot := _cfgSolutionDot r;
     _cfgSensitivity := _cfgSensitivity r;
     _cfgSensitivityDot := _cfgSensitivityDot r;
     _storeTime := _storeTime r;
     _splitComponents := _splitComponents r;
     _cur := _cur r;
     _time := _time r;
     _solution := _solution r;
     _solutionDot := _solutionDot r;
     _heap := heap;
     _sens := _sens r;
     _sensDot := _sensDot r;
     _columnLayout := _columnLayout r;
     _particleLayout := _particleLayout r;
     _fluxLayout := _fluxLayout r;
     _nComp := _nComp r;
     _numTimesteps := _numTimesteps r;
     _numSens := _numSens r;
     _unitOp := _unitOp r;
     _needsReAlloc := _needsReAlloc r |}.

Definition withCounters (r : t) (numTimesteps numSens : nat) (needsReAlloc : bool) : t :=
  {| _cfgSolution := _cfgSolution r;
     _cfgSolutionDot := _cfgSolutionDot r;
     _cfgSensitivity := _cfgSensitivity r;
     _cfgSensitivityDot := _cfgSensitivityDot r;
     _storeTime := _storeTime r;
     _splitComponents := _splitComponents r;
     _cur := _cur r;
     _time := _time r;
     _solution := _solution r;
     _solutionDot := _solutionDot r;
     _heap := _heap r;
     _sens := _sens r;
     _sensDot := _sensDot r;
     _columnLayout := _columnLayout r;
     _particleLayout := _particleLayout r;
     _fluxLayout := _fluxLayout r;
     _nComp := _nComp r;
     _numTimesteps := numTimesteps;
     _numSens := numSens;
     _unitOp := _unitOp r;
     _needsReAlloc := needsReAlloc |}.

Definition withCur (r : t) (cur : option Target) : t :=
  {| _cfgSolution := _cfgSolution r;
     _cfgSolutionDot := _cfgSolutionDot r;
     _cfgSensitivity := _cfgSensitivity r;
     _cfgSensitivityDot := _cfgSensitivityDot r;
     _storeTime := _storeTime r;
     _splitComponents := _splitComponents r;
     _cur := cur;
     _time := _time r;
     _solution := _solution r;
     _solutionDot := _solutionDot r;
     _heap := _heap r;
     _sens := _sens r;
     _sensDot := _sensDot r;
     _columnLayout := _columnLayout r;
     _particleLayout := _particleLayout r;
     _fluxLayout := _fluxLayout r;
     _nComp := _nComp r;
     _numTimesteps := _numTimesteps r;
     _numSens := _numSens r;
     _unitOp := _unitOp r;
     _needsReAlloc := _needsReAlloc r |}.

Definition withStructure (r : t) (nComp : nat) (columnLayout particleLayout fluxLayout : list nat) : t :=
  {| _cfgSolution := _cfgSolution r;
     _cfgSolutionDot := _cfgSolutionDot r;
     _cfgSensitivity := _cfgSensitivity r;
     _cfgSensitivityDot := _cfgSensitivityDot r;
     _storeTime := _storeTime r;
     _splitComponents := _splitComponents r;
     _cur := _cur r;
     _time := _time r;
     _solution := _solution r;
     _solutionDot := _solutionDot r;
     _heap := _heap r;
     _sens := _sens r;
     _sensDot := _sensDot r;
     _columnLayout := columnLayout;
     _particleLayout := particleLayout;
     _fluxLayout := fluxLayout;
     _nComp := nComp;
     _numTimesteps := _numTimesteps r;
     _numSens := _numSens r;
     _unitOp := _unitOp r;
     _needsReAlloc := _needsReAlloc r |}.

(** [->clear()] on the five vectors at an address, and [delete] of
    them. A pointer in [_sens] or [_sensDot] always points to vectors
    that are allocated (the invariant [slotsAllocated] below), so
    neither meets deleted vectors there. *)
Definition clearVectors (heap : list (option Buffers)) (vectors : nat) : list (option Buffers) :=
  alter (fun cell => match cell with Some _ => Some noData | None => None end) vectors heap.

Definition deleteVectors (heap : list (option Buffers)) (vectors : nat) : list (option Buffers) :=
  <[vectors := None]> heap.

(** [clear]: every vector is emptied; the sensitivity vectors stay. *)
Definition clear (r : t) : t :=
  withHeap (withData r [] noData noData (_sens r) (_sensDot r))
           (fold_left clearVectors (_sens r ++ _sensDot r) (_heap r)).

(** The loops that resize the vectors of pointers to [numSens] and put
    new, empty vectors into every slot. What the slots pointed to before
    is neither deleted here nor looked at. *)
Definition allocate (numSens : nat) (r : t) : t :=
  withHeap (withData r (_time r) (_solution r) (_solutionDot r)
                     (seq (length (_heap r)) numSens)
                     (seq (length (_heap r) + numSens) numSens))
           (_heap r ++ replicate (numSens + numSens) (Some noData)).

(** [prepare]: the vectors of sensitivity storage are resized and every
    slot gets new vectors; [_cur] is left as it is. *)
Definition prepare (numDofs numSens numTimesteps : nat) (r : t) : t :=
  allocate numSens (withCounters r numTimesteps numSens false).

(** [notifyIntegrationStart]: with another number of sensitivities the
    vectors in the slots are deleted and new ones allocated; [_cur] is
    left as it is. *)
Definition notifyIntegrationStart (numDofs numSens numTimesteps : nat) (r : t) : t :=
  let needsReAlloc := negb (numSens =? _numSens r)%nat || (_numTimesteps r <? numTimesteps)%nat in
  let r := clear (withCounters r (_numTimesteps r) (_numSens r) needsReAlloc) in
  let r := withCounters r numTimesteps (_numSens r) (_needsReAlloc r) in
  if negb (numSens =? _numSens r)%nat
  then withCounters
         (allocate numSens
            (withHeap r (fold_left deleteVectors (_sens r ++ _sensDot r) (_heap r))))
         (_numTimesteps r) numSens (_needsReAlloc r)
  else r.

(** The loops that fill [_columnLayout], [_particleLayout] and
    [_fluxLayout] after the first slot. *)
Definition columnLayoutOf (e : Exporter) (order : list StateOrdering) : list nat :=
  flat_map (fun o => match o with
                     | Component => [numComponents e]
                     | AxialCell => [numAxialCells e]
                     | RadialCell | Phase => []
                     end) order.

Definition particleLayoutOf (e : Exporter) : list nat :=
  flat_map (fun o => match o with
                     | Component => [(numComponents e + numBoundStates e)%nat]
                     | AxialCell => [numAxialCells e]
                     | RadialCell => [numRadialCells e]
                     | Phase => []
                     end) (mobilePhaseOrdering e).

(** [beginSensitivity(sensIdx)] and [beginSensitivityDot(sensIdx)] read
    the vectors of pointers at [sensIdx] and keep the pointers found
    there. *)
Definition beginSensitivityIdx (sensIdx : nat) (r : t) : outcome t :=
  match _sens r !! sensIdx with
  | Some vectors => Ok (withCur r (Some (Sensitivity vectors)))
  | None => Undefined
  end.

Definition beginSensitivityDot (sensIdx : nat) (r : t) : outcome t :=
  match _sensDot r !! sensIdx with
  | Some vectors => Ok (withCur r (Some (SensitivityDot vectors)))
  | None => Undefined
  end.

Definition beginSolution (r : t) : t := withCur r (Some Solution).
Definition endSolution (r : t) : t := withCur r None.
Definition beginSolutionDerivative (r : t) : t := withCur r (Some SolutionDot).
Definition endSolutionDerivative (r : t) : t := endSolution r.
Definition endSensitivity (r : t) : t := endSolution r.
Definition endSensitivityDerivative (r : t) : t := endSolution r.

(** [unitOperationStructure]: [allocateMemory] reserves memory in the
    member vectors and in the vectors of the slots, which are allocated
    (the invariant [slotsAllocated] below), and leaves the vectors as
    they are; what is left of the allocation is that nothing is current
    after it. *)
Definition unitOperationStructure (idx : nat) (e : Exporter) (r : t) : t :=
  if negb (idx =? _unitOp r)%nat then r
  else
    let r := withStructure r (numComponents e)
               (0%nat :: columnLayoutOf e (concentrationOrdering e))
               (0%nat :: particleLayoutOf e)
               (0%nat :: columnLayoutOf e (fluxOrdering e)) in
    if negb (_needsReAlloc r)
    then withCounters r 0 (_numSens r) (_needsReAlloc r)
    else withCounters (endSolution r) 0 (_numSens r) (_needsReAlloc r).

Definition beginTimestep (t0 : float) (r : t) : t :=
  let r := withCounters r (S (_numTimesteps r)) (_numSens r) (_needsReAlloc r) in
  if _storeTime r
  then withData r (_time r ++ [t0]) (_solution r) (_solutionDot r) (_sens r) (_sensDot r)
  else r.

(** The configuration and the vectors that are current. *)
Definition currentCfg (r : t) (target : Target) : StorageConfig :=
  match target with
  | Solution => _cfgSolution r
  | SolutionDot => _cfgSolutionDot r
  | Sensitivity _ => _cfgSensitivity r
  | SensitivityDot _ => _cfgSensitivityDot r
  end.

(** The vectors behind the five pointers: those at an address must
    still be allocated. *)
Definition vectorsAt (heap : list (option Buffers)) (vectors : nat) : outcome Buffers :=
  match heap !! vectors with
  | Some (Some b) => Ok b
  | _ => Undefined
  end.

Definition currentBuffers (r : t) (target : Target) : outcome Buffers :=
  match target with
  | Solution => Ok (_solution r)
  | SolutionDot => Ok (_solutionDot r)
  | Sensitivity vectors | SensitivityDot vectors => vectorsAt (_heap r) vectors
  end.

Definition setCurrentBuffers (r : t) (target : Target) (b : Buffers) : t :=
  match target with
  | Solution => withData r (_time r) b (_solutionDot r) (_sens r) (_sensDot r)
  | SolutionDot => withData r (_time r) (_solution r) b (_sens r) (_sensDot r)
  | Sensitivity vectors | SensitivityDot vectors =>
      withHeap r (<[vectors := Some b]> (_heap r))
  end.

(** [data[0], data[stride], ..., data[(n - 1) * stride]] *)
Fixpoint strided (data : list float) (stride : nat) (i n : nat) : outcome (list float) :=
  match n with
  | O => Ok []
  | S n' =>
      x ← elementAt data (Z.of_nat (i * stride));
      rest ← strided data stride (S i) n';
      Ok (x :: rest)
  end.

(** [data, data + n) *)
Definition firstN (data : list float) (n : nat) : outcome (list float) :=
  if (n <=? length data)%nat then Ok (take n data) else Undefined.

(** Whether [beginUnitOperation] goes through one of the five pointers:
    [push_back] is called once for each component, [insert] once. *)
Definition pushes (cfg : StorageConfig) (nComp : nat) : bool :=
  ((storeOutlet cfg || storeInlet cfg) && (0 <? nComp)%nat)
  || storeColumn cfg || storeParticle cfg || storeFlux cfg.

Definition beginUnitOperation (idx : nat) (e : Exporter) (r : t) : outcome t :=
  match _cur r with
  | None => Ok r
  | Some target =>
      if negb (idx =? _unitOp r)%nat then Ok r
      else
        let cfg := currentCfg r target in
        if negb (pushes cfg (_nComp r)) then Ok r
        else
          b ← currentBuffers r target;
          o ← (if storeOutlet cfg
               then x ← strided (outlet e) (outletStride e) 0 (_nComp r); Ok (bOutlet b ++ x)
               else Ok (bOutlet b));
          i ← (if storeInlet cfg
               then x ← strided (inlet e) (inletStride e) 0 (_nComp r); Ok (bInlet b ++ x)
               else Ok (bInlet b));
          c ← (if storeColumn cfg
               then x ← firstN (concentration e) (numColumnDofs e); Ok (bColumn b ++ x)
               else Ok (bColumn b));
          p ← (if storeParticle cfg
               then x ← firstN (mobilePhase e) (numParticleDofs e); Ok (bParticle b ++ x)
               else Ok (bParticle b));
          f ← (if storeFlux cfg
               then x ← firstN (flux e) (numFluxDofs e); Ok (bFlux b ++ x)
               else Ok (bFlux b));
          Ok (setCurrentBuffers r target (BuildBuffers o i c p f))
  end.

Definition endUnitOperation (r : t) : t := r.
Definition endTimestep (r : t) : t := r.

Definition numDataPoints (r : t) : nat := _numTimesteps r.

(** The calls that a writer receives: the name of the data set, the
    extent, and the vector the data pointer points into with the offset of
    the pointer and the stride. *)
Inductive WriterCall : Type :=
| WVectorAll (name : string) (n : nat) (data : list float)
| WVector (name : string) (n : nat) (data : list float) (offset stride : nat)
| WMatrix (name : string) (rows cols : nat) (data : list float) (stride : nat)
| WTensor (name : string) (dims : list nat) (data : list float)
| WPushGroup (name : string)
| WPopGroup.

Definition compName (prefix kind : string) (comp : nat) : string :=
  String.append prefix (String.append kind (setw3 (pretty comp))).

(** Whether [writeData] goes through one of the five pointers: [data()]
    is called once for each component when the components are split,
    and once otherwise. *)
Definition reads (cfg : StorageConfig) (split : bool) (nComp : nat) : bool :=
  ((storeOutlet cfg || storeInlet cfg) && (negb split || (0 <? nComp)%nat))
  || storeColumn cfg || storeParticle cfg || storeFlux cfg.

(** [writeData] for the prefix given; [_columnLayout[0]] and the like are
    set to [_numTimesteps] on the way. *)
Definition writeData (prefix : string) (r : t) : outcome (list WriterCall * t) :=
  match _cur r with
  | None => Undefined
  | Some target =>
      let cfg := currentCfg r target in
      b ← (if reads cfg (_splitComponents r) (_nComp r)
           then currentBuffers r target else Ok noData);
      let outletCalls :=
        if storeOutlet cfg
        then if _splitComponents r
             then map (fun comp => WVector (compName prefix "_COLUMN_OUTLET_COMP_" comp)
                                           (_numTimesteps r) (bOutlet b) comp (_nComp r))
                      (seq 0 (_nComp r))
             else [WMatrix (String.append prefix "_COLUMN_OUTLET") (_numTimesteps r) (_nComp r)
                           (bOutlet b) 1]
        else [] in
      let inletCalls :=
        if storeInlet cfg
        then if _splitComponents r
             then map (fun comp => WVector (compName prefix "_COLUMN_INLET_COMP_" comp)
                                           (_numTimesteps r) (bInlet b) comp (_nComp r))
                      (seq 0 (_nComp r))
             else [WMatrix (String.append prefix "_COLUMN_INLET") (_numTimesteps r) (_nComp r)
                           (bInlet b) 1]
        else [] in
      columnLayout ← (if storeColumn cfg
                      then match _columnLayout r with
                           | [] => Undefined
                           | _ :: rest => Ok (_numTimesteps r :: rest)
                           end
                      else Ok (_columnLayout r));
      particleLayout ← (if storeParticle cfg
                        then match _particleLayout r with
                             | [] => Undefined
                             | _ :: rest => Ok (_numTimesteps r :: rest)
                             end
                        else Ok (_particleLayout r));
      fluxLayout ← (if storeFlux cfg
                    then match _fluxLayout r with
                         | [] => Undefined
                         | _ :: rest => Ok (_numTimesteps r :: rest)
                         end
                    else Ok (_fluxLayout r));
      Ok (outletCalls ++ inletCalls
          ++ (if storeColumn cfg
              then [WTensor (String.append prefix "_COLUMN") columnLayout (bColumn b)] else [])
          ++ (if storeParticle cfg
              then [WTensor (String.append prefix "_PARTICLE") particleLayout (bParticle b)] else [])
          ++ (if storeFlux cfg
              then [WTensor (String.append prefix "_FLUX") fluxLayout (bFlux b)] else []),
          withStructure r (_nComp r) columnLayout particleLayout fluxLayout)
  end.

Definition writeSolution (r : t) : outcome (list WriterCall * t) :=
  let timeCalls :=
    if _storeTime r then [WVectorAll "SOLUTION_TIMES" (length (_time r)) (_time r)] else [] in
  '(sol, r) ← writeData "SOLUTION" (beginSolution r);
  '(dot, r) ← writeData "SOLDOT" (beginSolutionDerivative (endSolution r));
  Ok (timeCalls ++ sol ++ dot, endSolution r).

(** [writeSensitivity(writer, param)] *)
Definition writeSensitivityParam (param : nat) (r : t) : outcome (list WriterCall * t) :=
  r ← beginSensitivityIdx param r;
  '(sens, r) ← writeData "SENS" r;
  r ← beginSensitivityDot param (endSolution r);
  '(dot, r) ← writeData "SENSDOT" r;
  Ok (sens ++ dot, endSolution r).

(** The element that a writer reads at position [j] of a vector. *)
Definition vectorElement (data : list float) (offset stride j : nat) : option float :=
  data !! (offset + j * stride)%nat.

(** One time step as the recorder receives it when the solution is
    reported: [beginTimestep], [beginSolution], a [beginUnitOperation]
    and [endUnitOperation] for each unit operation, [endSolution],
    [endTimestep]. *)
Fixpoint reportUnits (units : list (nat * Exporter)) (r : t) : outcome t :=
  match units with
  | [] => Ok r
  | (idx, e) :: rest =>
      r ← beginUnitOperation idx e r;
      reportUnits rest (endUnitOperation r)
  end.

Definition reportTimestep (t0 : float) (units : list (nat * Exporter)) (r : t) : outcome t :=
  r ← reportUnits units (beginSolution (beginTimestep t0 r));
  Ok (endTimestep (endSolution r)).

Fixpoint reportTimesteps (steps : list (float * list (nat * Exporter))) (r : t) : outcome t :=
  match steps with
  | [] => Ok r
  | (t0, units) :: rest =>
      r ← reportTimestep t0 units r;
      reportTimesteps rest r
  end.

(** The fields that recording leaves alone. *)
Definition sameSetup (r r' : t) : Prop :=
  _cfgSolution r' = _cfgSolution r
  /\ _cfgSolutionDot r' = _cfgSolutionDot r
  /\ _cfgSensitivity r' = _cfgSensitivity r
  /\ _cfgSensitivityDot r' = _cfgSensitivityDot r
  /\ _storeTime r' = _storeTime r
  /\ _splitComponents r' = _splitComponents r
  /\ _columnLayout r' = _columnLayout r
  /\ _particleLayout r' = _particleLayout r
  /\ _fluxLayout r' = _fluxLayout r
  /\ _nComp r' = _nComp r
  /\ _numSens r' = _numSens r
  /\ _unitOp r' = _unitOp r.

(** The data of an exporter can be read as far as the recorder reads
    them with the configuration [cfg] and [nComp] components. *)
Definition readable (cfg : StorageConfig) (nComp : nat) (e : Exporter) : Prop :=
  (storeOutlet cfg = true ->
     forall c, (c < nComp)%nat -> is_Some (outlet e !! (c * outletStride e)%nat))
  /\ (storeInlet cfg = true ->
      forall c, (c < nComp)%nat -> is_Some (inlet e !! (c * inletStride e)%nat))
  /\ (storeColumn cfg = true -> (numColumnDofs e <= length (concentration e))%nat)
  /\ (storeParticle cfg = true -> (numParticleDofs e <= length (mobilePhase e))%nat)
  /\ (storeFlux cfg = true -> (numFluxDofs e <= length (flux e))%nat).

(** The sensitivity storage as [prepare] and [notifyIntegrationStart]
    leave it: one slot of each kind for each sensitivity, and in every
    slot a pointer to vectors of its own that are allocated. *)
Definition slotsAllocated (r : t) : Prop :=
  length (_sens r) = _numSens r
  /\ length (_sensDot r) = _numSens r
  /\ NoDup (_sens r ++ _sensDot r)
  /\ forall vectors, vectors ∈ _sens r ++ _sensDot r ->
       exists b, vectorsAt (_heap r) vectors = Ok b.

(** The unit operations of a time step, of which one is [own] and has
    the exporter [e]. *)
Definition reportsOnce (own : nat) (units : list (nat * Exporter)) (e : Exporter) : Prop :=
  exists before after,
    units = before ++ (own, e) :: after
    /\ Forall (fun u : nat * Exporter => u.1 <> own) (before ++ after).

End Recorder.

(** ** Calls of the recorder interface *)

(** The calls of [ISolutionRecorder] that change a recorder. *)
Inductive RecorderCall : Type :=
| CallClear
| CallPrepare (numDofs numSens numTimesteps : nat)
| CallNotifyIntegrationStart (numDofs numSens numTimesteps : nat)
| CallUnitOperationStructure (idx : nat) (e : Recorder.Exporter)
| CallBeginTimestep (t0 : float)
| CallBeginUnitOperation (idx : nat) (e : Recorder.Exporter)
| CallEndUnitOperation
| CallEndTimestep
| CallBeginSolution
| CallEndSolution
| CallBeginSolutionDerivative
| CallEndSolutionDerivative
| CallBeginSensitivity (sensIdx : nat)
| CallEndSensitivity
| CallBeginSensitivityDerivative (sensIdx : nat)
| CallEndSensitivityDerivative.

Definition recorderCall (c : RecorderCall) (r : Recorder.t) : outcome Recorder.t :=
  match c with
  | CallClear => Ok (Recorder.clear r)
  | CallPrepare numDofs numSens numTimesteps =>
      Ok (Recorder.prepare numDofs numSens numTimesteps r)
  | CallNotifyIntegrationStart numDofs numSens numTimesteps =>
      Ok (Recorder.notifyIntegrationStart numDofs numSens numTimesteps r)
  | CallUnitOperationStructure idx e => Ok (Recorder.unitOperationStructure idx e r)
  | CallBeginTimestep t0 => Ok (Recorder.beginTimestep t0 r)
  | CallBeginUnitOperation idx e => Recorder.beginUnitOperation idx e r
  | CallEndUnitOperation => Ok (Recorder.endUnitOperation r)
  | CallEndTimestep => Ok (Recorder.endTimestep r)
  | CallBeginSolution => Ok (Recorder.beginSolution r)
  | CallEndSolution => Ok (Recorder.endSolution r)
  | CallBeginSolutionDerivative => Ok (Recorder.beginSolutionDerivative r)
  | CallEndSolutionDerivative => Ok (Recorder.endSolutionDerivative r)
  | CallBeginSensitivity sensIdx => Recorder.beginSensitivityIdx sensIdx r
  | CallEndSensitivity => Ok (Recorder.endSensitivity r)
  | CallBeginSensitivityDerivative sensIdx => Recorder.beginSensitivityDot sensIdx r
  | CallEndSensitivityDerivative => Ok (Recorder.endSensitivityDerivative r)
  end.

Fixpoint recorderCalls (calls : list RecorderCall) (r : Recorder.t) : outcome Recorder.t :=
  match calls with
  | [] => Ok r
  | c :: rest => r ← recorderCall c r; recorderCalls rest r
  end.

(** ** The recorder of the system *)

(** [InternalStorageSystemRecorder]: the recorders it holds by pointer
    are part of its state. *)
Module SystemRecorder.

Record t : Type := Build {
  _recorders : list Recorder.t;
  _numTimesteps : nat;
  _numSens : nat;
  _time : list float;
  _storeTime : bool
}.

Definition create : t := Build [] 0 0 [] true.

Definition addRecorder (rec : Recorder.t) (s : t) : t :=
  Build (_recorders s ++ [rec]) (_numTimesteps s) (_numSens s) (_time s) (_storeTime s).

(** The loop [for (rec : _recorders) rec->call(...)]. *)
Fixpoint forRecorders (c : RecorderCall) (recs : list Recorder.t) : outcome (list Recorder.t) :=
  match recs with
  | [] => Ok []
  | rec :: rest =>
      rec' ← recorderCall c rec;
      rest' ← forRecorders c rest;
      Ok (rec' :: rest')
  end.

(** What a call does to the fields of the system recorder itself;
    [reserve] leaves [_time] as it is. *)
Definition ownFields (c : RecorderCall) (s : t) : nat * nat * list float :=
  match c with
  | CallClear => (_numTimesteps s, _numSens s, [])
  | CallPrepare _ numSens _ => (_numTimesteps s, numSens, _time s)
  | CallNotifyIntegrationStart _ numSens _ => (_numTimesteps s, numSens, [])
  | CallUnitOperationStructure _ _ => (0%nat, _numSens s, _time s)
  | CallBeginTimestep t0 =>
      (S (_numTimesteps s), _numSens s, if _storeTime s then _time s ++ [t0] else _time s)
  | _ => (_numTimesteps s, _numSens s, _time s)
  end.

Definition call (c : RecorderCall) (s : t) : outcome t :=
  recs ← forRecorders c (_recorders s);
  let '(numTimesteps, numSens, time) := ownFields c s in
  Ok (Build recs numTimesteps numSens time (_storeTime s)).

Fixpoint calls (cs : list RecorderCall) (s : t) : outcome t :=
  match cs with
  | [] => Ok s
  | c :: rest => s ← call c s; calls rest s
  end.

Definition numDataPoints (s : t) : nat := _numTimesteps s.

(** [unitOperation(idx)]: the first recorder of the unit operation, or
    null. *)
Fixpoint unitOperationFrom (recs : list Recorder.t) (idx : nat) : option Recorder.t :=
  match recs with
  | [] => None
  | rec :: rest =>
      if (Recorder._unitOp rec =? idx)%nat then Some rec else unitOperationFrom rest idx
  end.

Definition unitOperation (s : t) (idx : nat) : option Recorder.t :=
  unitOperationFrom (_recorders s) idx.

End SystemRecorder.

(** The number of time steps begun since the last
    [unitOperationStructure] in a sequence of calls, [n] before it. *)
Fixpoint timestepsSinceStructure (cs : list RecorderCall) (n : nat) : nat :=
  match cs with
  | [] => n
  | CallUnitOperationStructure _ _ :: rest => timestepsSinceStructure rest 0
  | CallBeginTimestep _ :: rest => timestepsSinceStructure rest (S n)
  | _ :: rest => timestepsSinceStructure rest n
  end.

(** ** Parameters *)

(** A [ParameterId], with its fields in the order of the arguments of
    [makeParamId]. The struct is declared in a header outside these
    sources; of its fields, the model system reads [unitOperation]. *)
Record ParameterId : Type := makeParamId {
  pName : Z;
  unitOperation : nat;
  pComponent : Z;
  pFourth : Z;
  pFifth : Z;
  pSection : nat
}.

(** Writing through the pointer of a registered parameter: undefined
    when the pointer dangles. *)
Definition setValue (capacity : nat) (grow : nat -> nat) (cfg : SwitchConfig)
    (ptr : nat * nat) (value : float) : outcome (list (list float)) :=
  if pointsIntoFlowRates capacity grow cfg ptr
  then match _flowRates cfg !! ptr.1 with
       | Some slice =>
           if (ptr.2 <? length slice)%nat
           then Ok (<[ptr.1 := <[ptr.2 := value]> slice]> (_flowRates cfg))
           else Undefined
       | None => Undefined
       end
  else Undefined.

Definition withFlowRates (cfg : SwitchConfig) (flowRates : list (list float)) : SwitchConfig :=
  {| _switchSectionIndex := _switchSectionIndex cfg;
     _connections := _connections cfg;
     _flowRates := flowRates;
     _parameters := _parameters cfg |}.

Section Parameters.

(** The constants of the parameter ids of flow rates, and what a unit
    operation answers to [hasParameter], [setParameter] and
    [setSensitiveParameter]. *)
Context (flowHash : Z) (UnitOpIndep : nat) (CompIndep : Z).
Context (unitHasParameter unitSetParameter unitSetSensitiveParameter
         : IUnitOperation -> ParameterId -> bool).

(** The capacity of [_flowRates] after [reserve], and how it grows. *)
Context (capacity : nat) (grow : nat -> nat).

(** [_parameters.find(pId)]: the map holds the ids that
    [configureSwitches] has made, kept by source, destination and
    switch. *)
Definition findParameter (cfg : SwitchConfig) (pId : ParameterId) : option (nat * nat) :=
  if (pName pId =? flowHash) && (unitOperation pId =? UnitOpIndep)%nat
     && (pComponent pId =? CompIndep)
  then _parameters cfg !! (pFourth pId, pFifth pId, pSection pId)
  else None.

(** The filter by unit operation id. *)
Definition addressed (pId : ParameterId) (m : IUnitOperation) : bool :=
  (UnitOp.unitOperationId m =? unitOperation pId)%nat
  || (unitOperation pId =? UnitOpIndep)%nat.

Definition hasParameter (_models : list IUnitOperation) (cfg : SwitchConfig)
    (pId : ParameterId) : bool :=
  (fix loop (models : list IUnitOperation) : bool :=
     match models with
     | [] => bool_decide (is_Some (findParameter cfg pId))
     | m :: rest =>
         if addressed pId m
         then (if unitHasParameter m pId then true else loop rest)
         else loop rest
     end) _models.

(** [setParameterImpl]: the loop returns at the first unit it
    addresses. *)
Fixpoint setParameterImpl (_models : list IUnitOperation) (pId : ParameterId) : bool :=
  match _models with
  | [] => false
  | m :: rest =>
      if addressed pId m then unitSetParameter m pId else setParameterImpl rest pId
  end.

(** [setParameter(pId, double)]: the configuration left and the value
    returned. *)
Definition setParameter (_models : list IUnitOperation) (cfg : SwitchConfig)
    (pId : ParameterId) (value : float) : outcome (SwitchConfig * bool) :=
  match findParameter cfg pId with
  | Some paramHandle =>
      flowRates ← setValue capacity grow cfg paramHandle value;
      Ok (withFlowRates cfg flowRates, setParameterImpl _models pId || true)
  | None => Ok (cfg, setParameterImpl _models pId || false)
  end.

(** [setSensitiveParameterValue], with [_sensParams] as the set of the
    places it points to. *)
Definition setSensitiveParameterValue (cfg : SwitchConfig) (_sensParams : gset (nat * nat))
    (pId : ParameterId) (value : float) : outcome SwitchConfig :=
  if (unitOperation pId =? UnitOpIndep)%nat
  then match findParameter cfg pId with
       | Some paramHandle =>
           if bool_decide (paramHandle ∈ _sensParams)
           then flowRates ← setValue capacity grow cfg paramHandle value;
                Ok (withFlowRates cfg flowRates)
           else Ok cfg
       | None => Ok cfg
       end
  else Ok cfg.

(** [setSensitiveParameter]: the set [_sensParams] left and the value
    returned; the AD direction is set through the pointer, and every
    addressed unit is asked. The AD part of the flow rates is not part
    of [SwitchConfig]. *)
Definition setSensitiveParameter (_models : list IUnitOperation) (cfg : SwitchConfig)
    (_sensParams : gset (nat * nat)) (pId : ParameterId)
    : outcome (gset (nat * nat) * bool) :=
  st ← (if (unitOperation pId =? UnitOpIndep)%nat
        then match findParameter cfg pId with
             | Some paramHandle =>
                 if pointsIntoFlowRates capacity grow cfg paramHandle
                 then Ok ({[paramHandle]} ∪ _sensParams, true)
                 else Undefined
             | None => Ok (_sensParams, false)
             end
        else Ok (_sensParams, false));
  Ok (st.1,
      fold_left (fun found m =>
                   if addressed pId m then unitSetSensitiveParameter m pId || found else found)
                _models st.2).

(** [clearSensParams] resets the AD directions through the pointers and
    leaves [_sensParams] empty. *)
Definition clearSensParams (cfg : SwitchConfig) (_sensParams : gset (nat * nat))
    : outcome (gset (nat * nat)) :=
  if forallb (pointsIntoFlowRates capacity grow cfg) (elements _sensParams)
  then Ok ∅
  else Undefined.

End Parameters.

(* ===================================================================== *)
(** * Part II: properties *)
(* ===================================================================== *)

(** ** Fusion of status codes *)

Section Fusion.
Import ErrorIndicator.

Lemma totalErrorLoop_nonneg (l : list Z) (acc : Z) :
  0 <= acc -> anyNegative l = false ->
  totalErrorLoop acc l = Z.max acc (maxNonNegative l).
Proof.
  revert acc; induction l as [|e l IH]; intros acc Hacc H; simpl in *.
  - lia.
  - apply orb_false_iff in H as [He Hl]. rewrite He, IH by (exact Hl || lia). lia.
Qed.

Lemma totalErrorLoop_negative (l : list Z) (acc : Z) :
  anyNegative l = true -> firstNegative l = Some (totalErrorLoop acc l).
Proof.
  unfold firstNegative.
  revert acc; induction l as [|e l IH]; intros acc H; simpl in *.
  - discriminate.
  - destruct (Z.ltb_spec e 0) as [He|He].
    + rewrite filter_cons_True by exact He. reflexivity.
    + rewrite filter_cons_False by lia. apply IH. exact H.
Qed.

Lemma maxNonNegative_nonneg (l : list Z) : 0 <= maxNonNegative l.
Proof. induction l; simpl; lia. Qed.

Lemma mostNegative_nonpos (l : list Z) : mostNegative l <= 0.
Proof. induction l; simpl; lia. Qed.

Lemma mostNegative_negative (l : list Z) :
  anyNegative l = true -> mostNegative l < 0.
Proof.
  induction l as [|e l IH]; simpl; intros H; [discriminate|].
  pose proof (mostNegative_nonpos l).
  destruct (Z.ltb_spec e 0); [lia|]. simpl in H. specialize (IH H). lia.
Qed.

Lemma mostNegative_zero (l : list Z) :
  anyNegative l = false -> mostNegative l = 0.
Proof.
  induction l as [|e l IH]; simpl; intros H; [reflexivity|].
  apply orb_false_iff in H as [He Hl]. rewrite (IH Hl).
  destruct (Z.ltb_spec e 0); [discriminate | lia].
Qed.

Lemma fuseAll_value (l : list Z) (cur : Z) : fuseAll cur l = fusedValue cur l.
Proof.
  unfold fuseAll, fusedValue.
  revert cur; induction l as [|e l IH]; intros cur; simpl.
  - rewrite orb_false_r. destruct (Z.ltb_spec cur 0); lia.
  - rewrite IH. unfold updateErrorIndicator.
    pose proof (mostNegative_nonpos l). pose proof (maxNonNegative_nonneg l).
    destruct (Z.ltb_spec cur 0), (Z.ltb_spec e 0); simpl.
    + destruct (Z.ltb_spec (Z.min cur e) 0); simpl; lia.
    + destruct (Z.ltb_spec (Z.min cur e) 0); simpl; [|lia].
      destruct (anyNegative l) eqn:E; [lia|]. rewrite (mostNegative_zero l E). lia.
    + destruct (Z.ltb_spec (Z.min cur e) 0); simpl; lia.
    + destruct (Z.ltb_spec (Z.max cur e) 0); simpl; [lia|].
      destruct (anyNegative l) eqn:E; [|lia].
      pose proof (mostNegative_negative l E). lia.
Qed.

Lemma anyNegative_Permutation (l l' : list Z) :
  l ≡ₚ l' -> anyNegative l = anyNegative l'.
Proof.
  induction 1; simpl; try congruence.
  destruct (x <? 0), (y <? 0); reflexivity.
Qed.

Lemma mostNegative_Permutation (l l' : list Z) :
  l ≡ₚ l' -> mostNegative l = mostNegative l'.
Proof. induction 1; simpl; try congruence; lia. Qed.

Lemma maxNonNegative_Permutation (l l' : list Z) :
  l ≡ₚ l' -> maxNonNegative l = maxNonNegative l'.
Proof. induction 1; simpl; try congruence; lia. Qed.

(** C1, as stated, fails for the list-fusion function: it returns the
    first negative code it meets, which need not be the most negative one,
    and two orders of the same codes give different results. *)
Lemma C1_list_fusion_first_negative_counterexample :
  totalErrorIndicatorFromLocal [-1; -2] = -1
  /\ mostNegative [-1; -2] = -2
  /\ [-1; -2] ≡ₚ [-2; -1]
  /\ totalErrorIndicatorFromLocal [-1; -2] <> totalErrorIndicatorFromLocal [-2; -1].
Proof.
  repeat split; try reflexivity; try discriminate.
  apply perm_swap.
Qed.

(** C1 (amended): [totalErrorIndicatorFromLocal] yields the first negative
    code of the list if any code is negative, otherwise the maximum
    non-negative code; for every permutation of the list its result has
    the same sign class (negative or not) and is the same when no code is
    negative.  Repeated pairwise fusion with [updateErrorIndicator] yields
    the most negative code if any code is negative, otherwise the maximum
    non-negative code, and is the same for every permutation. *)
Theorem C1_status_fusion (l l' : list Z) (cur : Z) :
  l ≡ₚ l' ->
  (anyNegative l = true ->
     firstNegative l = Some (totalErrorIndicatorFromLocal l)
     /\ totalErrorIndicatorFromLocal l < 0
     /\ totalErrorIndicatorFromLocal l' < 0)
  /\ (anyNegative l = false ->
     totalErrorIndicatorFromLocal l = maxNonNegative l
     /\ totalErrorIndicatorFromLocal l' = totalErrorIndicatorFromLocal l)
  /\ (anyNegative l = true -> fuseAll 0 l = mostNegative l)
  /\ (anyNegative l = false -> fuseAll 0 l = maxNonNegative l)
  /\ fuseAll cur l' = fuseAll cur l.
Proof.
  intros HP. unfold totalErrorIndicatorFromLocal.
  pose proof (anyNegative_Permutation _ _ HP) as HA.
  assert (Hneg : forall k, anyNegative k = true -> totalErrorLoop 0 k < 0).
  { intros k Hk. pose proof (totalErrorLoop_negative k 0 Hk) as HF.
    unfold firstNegative in HF. apply head_Some_elem_of in HF.
    apply list_elem_of_filter in HF. tauto. }
  split; [intros H; repeat split|].
  { apply totalErrorLoop_negative; assumption. }
  { apply Hneg; assumption. }
  { apply Hneg; congruence. }
  split; [intros H; split|].
  { rewrite totalErrorLoop_nonneg by (assumption || lia).
    pose proof (maxNonNegative_nonneg l). lia. }
  { rewrite !totalErrorLoop_nonneg by (congruence || lia).
    rewrite (maxNonNegative_Permutation _ _ HP). reflexivity. }
  split; [intros H|split; [intros H|]].
  - rewrite fuseAll_value. unfold fusedValue. simpl. rewrite H.
    pose proof (mostNegative_nonpos l). lia.
  - rewrite fuseAll_value. unfold fusedValue. simpl. rewrite H.
    pose proof (maxNonNegative_nonneg l). lia.
  - rewrite !fuseAll_value. unfold fusedValue.
    rewrite <- HA, (mostNegative_Permutation _ _ HP), (maxNonNegative_Permutation _ _ HP).
    reflexivity.
Qed.

(** The codes 0, -2, 3 in two orders. *)
Lemma C1_status_fusion_witness :
  [0; -2; 3] ≡ₚ [3; 0; -2]
  /\ totalErrorIndicatorFromLocal [0; -2; 3] = -2
  /\ fuseAll 0 [3; 0; -2] = fuseAll 0 [0; -2; 3].
Proof.
  assert (HP : [0; -2; 3] ≡ₚ [3; 0; -2]).
  { change ([0; -2; 3] ≡ₚ [3] ++ [0; -2]). symmetry. apply Permutation_cons_append. }
  split; [exact HP|]. split; [reflexivity|].
  exact (proj2 (proj2 (proj2 (proj2 (C1_status_fusion [0; -2; 3] [3; 0; -2] 0 HP))))).
Defined.

End Fusion.

(** ** Model lookup *)

Lemma getUnitOperationModel_None (models : list IUnitOperation) (id : nat) :
  (forall m, m ∈ models -> UnitOp.unitOperationId m <> id) ->
  getUnitOperationModel models id = None.
Proof.
  induction models as [|m ms IH]; intros H; simpl; [reflexivity|].
  destruct (Nat.eqb_spec (UnitOp.unitOperationId m) id) as [E|E].
  - exfalso. apply (H m); [left | exact E].
  - apply IH. intros m' Hm'. apply H. right. exact Hm'.
Qed.

Lemma getUnitOperationModel_Some (models : list IUnitOperation) (id : nat) (m : IUnitOperation) :
  m ∈ models -> UnitOp.unitOperationId m = id ->
  exists m', getUnitOperationModel models id = Some m'
             /\ m' ∈ models /\ UnitOp.unitOperationId m' = id.
Proof.
  induction models as [|x ms IH]; intros Hin Hid; simpl.
  - inversion Hin.
  - destruct (Nat.eqb_spec (UnitOp.unitOperationId x) id) as [E|E].
    + exists x. repeat split; [left | exact E].
    + apply elem_of_cons in Hin as [->|Hin]; [contradiction|].
      destruct (IH Hin Hid) as (m' & H1 & H2 & H3).
      exists m'. repeat split; [exact H1 | right; exact H2 | exact H3].
Qed.

(** C9: [getModel] returns null for every index at or beyond the number
    of registered models and the model stored at the index otherwise;
    [getUnitOperationModel] returns null for an id that no registered
    model holds and a registered model with that id otherwise. *)
Theorem C9_model_lookup (models : list IUnitOperation) (i id : nat) :
  ((length models <= i)%nat -> getModel models i = None)
  /\ ((i < length models)%nat ->
        exists m, models !! i = Some m /\ getModel models i = Some m)
  /\ ((forall m, m ∈ models -> UnitOp.unitOperationId m <> id) ->
        getUnitOperationModel models id = None)
  /\ ((exists m, m ∈ models /\ UnitOp.unitOperationId m = id) ->
        exists m, getUnitOperationModel models id = Some m
                  /\ m ∈ models /\ UnitOp.unitOperationId m = id).
Proof.
  unfold getModel. repeat split.
  - intros H. destruct (Nat.ltb_spec i (length models)); [lia | reflexivity].
  - intros H. destruct (Nat.ltb_spec i (length models)); [|lia].
    destruct (lookup_lt_is_Some_2 models i H) as [m Hm]. exists m. rewrite Hm. auto.
  - apply getUnitOperationModel_None.
  - intros (m & Hin & Hid). eapply getUnitOperationModel_Some; eassumption.
Qed.

(** An inlet with id 4 and a column with id 9. *)
Lemma C9_model_lookup_witness :
  let inlet := UnitOp.Build 4 2 10 false true false 0 1 0 1 in
  let column := UnitOp.Build 9 2 50 true true false 0 1 48 1 in
  getModel [inlet; column] 2 = None
  /\ (exists m, [inlet; column] !! 1%nat = Some m /\ getModel [inlet; column] 1 = Some m)
  /\ getUnitOperationModel [inlet; column] 5 = None.
Proof.
  intros inlet column.
  destruct (C9_model_lookup [inlet; column] 2 5) as (H1 & _ & H3 & _).
  destruct (C9_model_lookup [inlet; column] 1 9) as (_ & H2 & _ & _).
  split; [apply H1; simpl; lia|]. split; [apply H2; simpl; lia|].
  apply H3. intros m Hm.
  apply elem_of_cons in Hm as [->|Hm]; [simpl; lia|].
  apply elem_of_cons in Hm as [->|Hm]; [simpl; lia|]. inversion Hm.
Defined.

(** ** DOF layout and coupling index map *)

Lemma mapInsertNew_fresh (k : nat * nat) (v : nat) (m : gmap (nat * nat) nat) :
  m !! k = None -> mapInsertNew k v m = <[k := v]> m.
Proof. unfold mapInsertNew. intros ->. reflexivity. Qed.

Lemma insertComponents_S (i n : nat) (st : gmap (nat * nat) nat * nat) :
  insertComponents i (S n) st =
  (mapInsertNew (i, n) (insertComponents i n st).2 (insertComponents i n st).1,
   S (insertComponents i n st).2).
Proof.
  unfold insertComponents. rewrite seq_S, fold_left_app. simpl.
  destruct (fold_left _ (seq 0 n) st). reflexivity.
Qed.

Lemma insertComponents_spec (i n : nat) (m : gmap (nat * nat) nat) (c : nat) :
  (forall comp, m !! (i, comp) = None) ->
  (insertComponents i n (m, c)).2 = (c + n)%nat
  /\ size (insertComponents i n (m, c)).1 = (size m + n)%nat
  /\ forall j comp,
       (insertComponents i n (m, c)).1 !! (j, comp) =
       if decide (j = i /\ (comp < n)%nat) then Some (c + comp)%nat else m !! (j, comp).
Proof.
  intros Hfresh. induction n as [|n (IHc & IHs & IHl)].
  - simpl. repeat split; try lia. intros j comp.
    destruct (decide _) as [[_ H]|_]; [lia | reflexivity].
  - rewrite insertComponents_S. simpl. rewrite IHc.
    assert (Hn : (insertComponents i n (m, c)).1 !! (i, n) = None).
    { rewrite IHl. destruct (decide _) as [[_ H]|_]; [lia | apply Hfresh]. }
    rewrite (mapInsertNew_fresh _ _ _ Hn).
    repeat split; [lia | rewrite map_size_insert_None by exact Hn; lia |].
    intros j comp. destruct (decide ((j, comp) = (i, n))) as [E|E].
    + inversion E; subst. rewrite lookup_insert_eq.
      destruct (decide _) as [_|H]; [reflexivity | exfalso; apply H; lia].
    + rewrite lookup_insert_ne by congruence. rewrite IHl.
      destruct (decide (j = i /\ (comp < n)%nat)) as [[Ej H]|H];
        destruct (decide (j = i /\ (comp < S n)%nat)) as [[E' H']|H']; try reflexivity.
      * exfalso. apply H'. split; [exact Ej | lia].
      * exfalso. assert (comp = n) by lia. subst. apply E. reflexivity.
Qed.

Lemma inletComponents_app (l1 l2 : list IUnitOperation) :
  inletComponents (l1 ++ l2) = (inletComponents l1 + inletComponents l2)%nat.
Proof. induction l1 as [|u l1 IH]; simpl; [reflexivity | rewrite IH; lia]. Qed.

Lemma inletComponents_take_mono (l : list IUnitOperation) (a b : nat) :
  (a <= b)%nat -> (inletComponents (take a l) <= inletComponents (take b l))%nat.
Proof.
  revert a b; induction l as [|u l IH]; intros a b Hab.
  - rewrite !take_nil. lia.
  - destruct a as [|a]; [simpl; lia|]. destruct b as [|b]; [lia|].
    simpl. specialize (IH a b ltac:(lia)). lia.
Qed.

Lemma inletComponents_take_le (l : list IUnitOperation) (a : nat) :
  (inletComponents (take a l) <= inletComponents l)%nat.
Proof.
  rewrite <- (take_drop a l) at 2. rewrite inletComponents_app. lia.
Qed.

(** What the outer loop leaves in the map: model [j >= i] with an inlet
    owns the block of indices that starts after those of the earlier
    inlet-bearing models. *)
Lemma couplingIdxLoop_spec (models : list IUnitOperation) :
  forall (i : nat) (m : gmap (nat * nat) nat) (c : nat),
  (forall j comp, (i <= j)%nat -> m !! (j, comp) = None) ->
  (couplingIdxLoop i models (m, c)).2 = (c + inletComponents models)%nat
  /\ size (couplingIdxLoop i models (m, c)).1 = (size m + inletComponents models)%nat
  /\ forall j comp,
       (couplingIdxLoop i models (m, c)).1 !! (j, comp) =
       if decide (j < i)%nat then m !! (j, comp)
       else match models !! (j - i)%nat with
            | Some u =>
                if UnitOp.hasInlet u && (comp <? UnitOp.numComponents u)%nat
                then Some (c + inletComponents (take (j - i) models) + comp)%nat
                else None
            | None => None
            end.
Proof.
  induction models as [|u rest IH]; intros i m c Hfresh.
  - simpl. repeat split; try lia. intros j comp.
    destruct (decide _) as [H|H]; [reflexivity|]. apply Hfresh. lia.
  - simpl couplingIdxLoop.
    destruct (UnitOp.hasInlet u) eqn:Hin.
    + destruct (insertComponents_spec i (UnitOp.numComponents u) m c) as (Hc & Hs & Hl).
      { intros comp. apply Hfresh. lia. }
      destruct (insertComponents i (UnitOp.numComponents u) (m, c)) as [m1 c1] eqn:E1.
      simpl in Hc, Hs, Hl. subst c1.
      destruct (IH (S i) m1 (c + UnitOp.numComponents u)%nat) as (IHc & IHs & IHl).
      { intros j comp Hj. rewrite Hl.
        destruct (decide _) as [[-> _]|_]; [lia | apply Hfresh; lia]. }
      simpl inletComponents. rewrite Hin.
      repeat split; [lia | lia |].
      intros j comp. rewrite IHl, Hl.
      destruct (decide (j < S i)%nat) as [H1|H1]; destruct (decide (j < i)%nat) as [H2|H2]; try lia.
      * destruct (decide _) as [[-> _]|_]; [lia | reflexivity].
      * assert (j = i) by lia. subst j. rewrite Nat.sub_diag. simpl. rewrite Hin.
        destruct (Nat.ltb_spec comp (UnitOp.numComponents u)); simpl.
        -- rewrite decide_True by (split; [reflexivity | assumption]). f_equal. lia.
        -- rewrite decide_False by lia. apply Hfresh. lia.
      * replace (j - i)%nat with (S (j - S i)) by lia. simpl. rewrite Hin.
        destruct (rest !! (j - S i)%nat) as [v|]; [|reflexivity].
        destruct (UnitOp.hasInlet v && _); [f_equal; lia | reflexivity].
    + destruct (IH (S i) m c) as (IHc & IHs & IHl).
      { intros j comp Hj. apply Hfresh. lia. }
      simpl inletComponents. rewrite Hin.
      repeat split; [lia | lia |].
      intros j comp. rewrite IHl.
      destruct (decide (j < S i)%nat) as [H1|H1]; destruct (decide (j < i)%nat) as [H2|H2]; try lia.
      * reflexivity.
      * assert (j = i) by lia. subst j. rewrite Nat.sub_diag. simpl. rewrite Hin. simpl.
        apply Hfresh. lia.
      * replace (j - i)%nat with (S (j - S i)) by lia. simpl. rewrite Hin.
        destruct (rest !! (j - S i)%nat) as [v|]; [|reflexivity].
        destruct (UnitOp.hasInlet v && _); [f_equal; lia | reflexivity].
Qed.

Lemma couplingIdxMap_lookup (models : list IUnitOperation) (old : list Z) (i comp k : nat) :
  _couplingIdxMap (rebuildInternalDataStructures models old) !! (i, comp) = Some k
  <-> exists u, models !! i = Some u /\ UnitOp.hasInlet u = true
                /\ (comp < UnitOp.numComponents u)%nat
                /\ k = (inletComponents (take i models) + comp)%nat.
Proof.
  unfold rebuildInternalDataStructures.
  destruct (dofOffsetsFrom 0 models) as [offs total].
  destruct (couplingIdxLoop_spec models 0 ∅ 0) as (_ & _ & Hl).
  { intros; apply lookup_empty. }
  destruct (couplingIdxLoop 0 models (∅, 0%nat)) as [cmap cnt]. simpl in *.
  rewrite Hl. destruct (decide (i < 0)%nat) as [H0|_]; [lia|]. rewrite Nat.sub_0_r.
  destruct (models !! i) as [u|]; [|split; [discriminate | intros (u & H & _); discriminate]].
  destruct (UnitOp.hasInlet u) eqn:Hin; simpl.
  - destruct (Nat.ltb_spec comp (UnitOp.numComponents u)).
    + split.
      * intros [= <-]. exists u. repeat split; auto.
      * intros (u' & [= <-] & _ & _ & ->). reflexivity.
    + split; [discriminate|]. intros (u' & [= <-] & _ & Hlt & _). lia.
  - split; [discriminate|]. intros (u' & [= <-] & Hin' & _). congruence.
Qed.

Lemma couplingIdxMap_size (models : list IUnitOperation) (old : list Z) :
  numCouplingDOF (_couplingIdxMap (rebuildInternalDataStructures models old))
  = inletComponents models.
Proof.
  unfold rebuildInternalDataStructures, numCouplingDOF.
  destruct (dofOffsetsFrom 0 models) as [offs total].
  destruct (couplingIdxLoop_spec models 0 ∅ 0) as (_ & Hs & _).
  { intros; apply lookup_empty. }
  destruct (couplingIdxLoop 0 models (∅, 0%nat)) as [cmap cnt]. simpl in *.
  rewrite Hs, map_size_empty. lia.
Qed.

Lemma inletComponents_locate (models : list IUnitOperation) (k : nat) :
  (k < inletComponents models)%nat ->
  exists i u comp, models !! i = Some u /\ UnitOp.hasInlet u = true
                   /\ (comp < UnitOp.numComponents u)%nat
                   /\ k = (inletComponents (take i models) + comp)%nat.
Proof.
  induction models as [|u ms IH] using rev_ind; [simpl; lia|].
  rewrite inletComponents_app. simpl. rewrite Nat.add_0_r. intros Hk.
  destruct (Nat.lt_ge_cases k (inletComponents ms)) as [Hlt|Hge].
  - destruct (IH Hlt) as (i & v & comp & Hi & Hin & Hc & ->).
    pose proof (lookup_lt_Some _ _ _ Hi) as Hlen.
    exists i, v, comp. repeat split; auto.
    + rewrite lookup_app_l by exact Hlen. exact Hi.
    + rewrite take_app_le by lia. reflexivity.
  - destruct (UnitOp.hasInlet u) eqn:Hin; [|lia].
    exists (length ms), u, (k - inletComponents ms)%nat. repeat split; auto.
    + rewrite lookup_app_r by lia. rewrite Nat.sub_diag. reflexivity.
    + lia.
    + rewrite take_app_le by lia. rewrite take_ge by lia. lia.
Qed.

(** C5: after [rebuildInternalDataStructures] the coupling index map is
    defined exactly on the pairs (index of an inlet-bearing unit,
    component of that unit), it is injective, its values are exactly the
    indices below the number of coupling DOFs, and that number is the sum
    of the component counts of the inlet-bearing units. *)
Theorem C5_coupling_index_map_bijection (models : list IUnitOperation) (old : list Z) :
  let cmap := _couplingIdxMap (rebuildInternalDataStructures models old) in
  numCouplingDOF cmap = inletComponents models
  /\ (forall i comp, is_Some (cmap !! (i, comp)) <->
        exists u, models !! i = Some u /\ UnitOp.hasInlet u = true
                  /\ (comp < UnitOp.numComponents u)%nat)
  /\ (forall key k, cmap !! key = Some k -> (k < numCouplingDOF cmap)%nat)
  /\ (forall key key' k, cmap !! key = Some k -> cmap !! key' = Some k -> key = key')
  /\ (forall k, (k < numCouplingDOF cmap)%nat -> exists key, cmap !! key = Some k).
Proof.
  intros cmap. subst cmap. rewrite couplingIdxMap_size.
  split; [reflexivity|]. split; [|split; [|split]].
  - intros i comp. split.
    + intros [k Hk]. apply couplingIdxMap_lookup in Hk as (u & H1 & H2 & H3 & _).
      exists u. auto.
    + intros (u & H1 & H2 & H3). eexists. apply couplingIdxMap_lookup.
      exists u. repeat split; eauto.
  - intros [i comp] k Hk. apply couplingIdxMap_lookup in Hk as (u & H1 & H2 & H3 & ->).
    pose proof (inletComponents_take_le models (S i)) as Hle.
    rewrite (take_S_r _ _ _ H1), inletComponents_app in Hle. simpl in Hle.
    rewrite H2 in Hle. lia.
  - intros [i comp] [i' comp'] k Hk Hk'.
    apply couplingIdxMap_lookup in Hk as (u & H1 & H2 & H3 & ->).
    apply couplingIdxMap_lookup in Hk' as (u' & H1' & H2' & H3' & Heq).
    assert (Hstep : forall a b v, models !! a = Some v -> UnitOp.hasInlet v = true ->
              (a < b)%nat ->
              (inletComponents (take a models) + UnitOp.numComponents v
               <= inletComponents (take b models))%nat).
    { intros a b v Ha Hv Hab.
      pose proof (inletComponents_take_mono models (S a) b ltac:(lia)) as Hm.
      rewrite (take_S_r _ _ _ Ha), inletComponents_app in Hm. simpl in Hm.
      rewrite Hv in Hm. lia. }
    destruct (Nat.lt_trichotomy i i') as [Hlt|[->|Hgt]].
    + pose proof (Hstep _ _ _ H1 H2 Hlt). lia.
    + f_equal. lia.
    + pose proof (Hstep _ _ _ H1' H2' Hgt). lia.
  - intros k Hk. destruct (inletComponents_locate models k Hk) as (i & u & comp & H).
    exists (i, comp). apply couplingIdxMap_lookup. exists u. exact H.
Qed.

(** A source without inlet and two inlet-bearing units with 3 and 2
    components: 5 coupling DOFs. *)
Lemma C5_coupling_index_map_witness :
  let source := UnitOp.Build 0 3 3 false true false 0 1 0 1 in
  let columnA := UnitOp.Build 1 3 40 true true false 0 1 37 1 in
  let columnB := UnitOp.Build 2 2 30 true false false 0 1 28 1 in
  let cmap := _couplingIdxMap (rebuildInternalDataStructures [source; columnA; columnB] []) in
  numCouplingDOF cmap = 5%nat
  /\ cmap !! (1%nat, 2%nat) = Some 2%nat
  /\ cmap !! (2%nat, 0%nat) = Some 3%nat
  /\ (4 < numCouplingDOF cmap)%nat
  /\ exists key, cmap !! key = Some 4%nat.
Proof.
  intros source columnA columnB cmap.
  destruct (C5_coupling_index_map_bijection [source; columnA; columnB] []) as (Hn & _ & _ & _ & Hs).
  fold cmap in Hn, Hs.
  assert (H4 : (4 < numCouplingDOF cmap)%nat) by (rewrite Hn; simpl; lia).
  split; [exact Hn|]. split; [vm_compute; reflexivity|]. split; [vm_compute; reflexivity|].
  split; [exact H4 | exact (Hs 4%nat H4)].
Defined.

(** ** Validation of connection rows *)

Lemma indexOfUnitOpFrom_lookup (models : list IUnitOperation) (id i : nat) :
  (i <= indexOfUnitOpFrom i models id <= i + length models)%nat
  /\ models !! (indexOfUnitOpFrom i models id - i)%nat = getUnitOperationModel models id.
Proof.
  revert i; induction models as [|m ms IH]; intros i; simpl.
  - split; [lia | reflexivity].
  - destruct (Nat.eqb (UnitOp.unitOperationId m) id).
    + rewrite Nat.sub_diag. split; [lia | reflexivity].
    + destruct (IH (S i)) as [Hr Hl]. split; [lia|].
      replace (indexOfUnitOpFrom (S i) ms id - i)%nat
        with (S (indexOfUnitOpFrom (S i) ms id - S i)) by lia.
      exact Hl.
Qed.

Lemma indexOfUnitOp_lookup (models : list IUnitOperation) (id : nat) :
  (indexOfUnitOp models id <= length models)%nat
  /\ models !! indexOfUnitOp models id = getUnitOperationModel models id.
Proof.
  unfold indexOfUnitOp.
  destruct (indexOfUnitOpFrom_lookup models id 0) as [Hr Hl].
  rewrite Nat.sub_0_r in Hl. split; [lia | exact Hl].
Qed.

Lemma indexOfUnitOp_found (models : list IUnitOperation) (id : nat) :
  (length models <=? indexOfUnitOp models id)%nat = false
  <-> is_Some (getUnitOperationModel models id).
Proof.
  destruct (indexOfUnitOp_lookup models id) as [Hr Hl]. rewrite <- Hl.
  rewrite Nat.leb_gt. split.
  - apply lookup_lt_is_Some_2.
  - apply lookup_lt_is_Some_1.
Qed.

(** The index checks of a row, as a decision of [rowRejected]. *)
Lemma checkRowIndices_spec (models : list IUnitOperation) (sw i : nat) (srcId dstId cSrc cDst : Z) :
  (throws (checkRowIndices models sw i srcId dstId cSrc cDst)
   /\ rowRejected models srcId dstId cSrc cDst)
  \/ (~ rowRejected models srcId dstId cSrc cDst
      /\ exists mSrc mDst,
           getUnitOperationModel models (Z.to_nat srcId) = Some mSrc
           /\ getUnitOperationModel models (Z.to_nat dstId) = Some mDst
           /\ models !! indexOfUnitOp models (Z.to_nat srcId) = Some mSrc
           /\ models !! indexOfUnitOp models (Z.to_nat dstId) = Some mDst
           /\ checkRowIndices models sw i srcId dstId cSrc cDst
              = Ok (BuildIndexRow (Z.of_nat (indexOfUnitOp models (Z.to_nat srcId)))
                                  (Z.of_nat (indexOfUnitOp models (Z.to_nat dstId))) cSrc cDst)).
Proof.
  unfold checkRowIndices, rowRejected, throws.
  destruct (Z.ltb_spec srcId 0) as [Hs|Hs]; [left; split; eauto|].
  destruct (Z.ltb_spec dstId 0) as [Hd|Hd]; [left; split; eauto|].
  destruct (indexOfUnitOp_lookup models (Z.to_nat srcId)) as [HrS HlS].
  destruct (indexOfUnitOp_lookup models (Z.to_nat dstId)) as [HrD HlD].
  pose proof (indexOfUnitOp_found models (Z.to_nat srcId)) as HfS.
  pose proof (indexOfUnitOp_found models (Z.to_nat dstId)) as HfD.
  destruct (length models <=? indexOfUnitOp models (Z.to_nat srcId))%nat eqn:ES.
  { left. split; [eauto|]. right. right.
    destruct (getUnitOperationModel models (Z.to_nat srcId)) eqn:EG; [|exact I].
    exfalso. assert (true = false) by (apply HfS; eauto). discriminate. }
  destruct (length models <=? indexOfUnitOp models (Z.to_nat dstId))%nat eqn:ED.
  { left. split; [eauto|]. right. right.
    destruct (getUnitOperationModel models (Z.to_nat srcId)); [|exact I].
    destruct (getUnitOperationModel models (Z.to_nat dstId)) eqn:EG; [|exact I].
    exfalso. assert (true = false) by (apply HfD; eauto). discriminate. }
  destruct (proj1 HfS eq_refl) as [mS EmS]. destruct (proj1 HfD eq_refl) as [mD EmD].
  rewrite HlS, HlD, EmS, EmD.
  destruct (UnitOp.hasOutlet mS) eqn:HO; simpl; [|left; split; eauto 10].
  destruct (UnitOp.hasInlet mD) eqn:HI; simpl; [|left; split; eauto 10].
  destruct (Z.leb_spec 0 cSrc) as [H1|H1];
    destruct (Z.leb_spec (Z.of_nat (UnitOp.numComponents mS)) cSrc) as [H2|H2]; simpl;
    try (left; split; [eauto | right; right; right; right; left; lia]);
    (destruct (Z.leb_spec 0 cDst) as [H3|H3];
     destruct (Z.leb_spec (Z.of_nat (UnitOp.numComponents mD)) cDst) as [H4|H4]; simpl;
     try (left; split; [eauto | right; right; right; right; right; left; lia])).
  all: destruct (Z.ltb_spec cSrc 0) as [H5|H5]; try lia;
       destruct (Z.ltb_spec cDst 0) as [H6|H6]; try lia; simpl;
       try (left; split; [eauto | intuition lia]).
  all: try (destruct (Nat.eqb_spec (UnitOp.numComponents mS) (UnitOp.numComponents mD)) as [H7|H7];
            simpl; [|left; split; [eauto | intuition lia]]).
  all: right; (split; [intros H; intuition (congruence || lia) | exists mS, mD; auto]).
Qed.

(** C7, as stated, fails for a negative component index other than
    [-1]: the row from unit 4 to unit 9 with the component indices [-2]
    and [0] meets none of the conditions of the claim ([-2] is not the
    wildcard and is below the component count), and it is refused, as a
    row with a wildcard on one side; with the wildcard on both sides,
    [-2] and [-7], and different component counts it is refused too. *)
Lemma C7_negative_index_not_wildcard_counterexample :
  let inlet := UnitOp.Build 4 2 2 false true false 0 1 0 1 in
  let column := UnitOp.Build 9 2 50 true true false 0 1 48 1 in
  let wide := UnitOp.Build 11 3 50 true true false 0 1 47 1 in
  ~ rowRejectedAsClaimed [inlet; column; wide] 4 9 (-2) 0
  /\ checkRow [inlet; column; wide] 0 0 [] (BuildRow 4 9 (-2) 0 0.5)
     = Throw (OnlyOneSideAllComponents 0 0 4 9)
  /\ ~ rowRejectedAsClaimed [inlet; column; wide] 4 11 (-2) (-7)
  /\ checkRow [inlet; column; wide] 0 0 [] (BuildRow 4 11 (-2) (-7) 0.5)
     = Throw (ComponentCountsDiffer 0 0 4 11).
Proof.
  intros inlet column wide.
  split; [unfold rowRejectedAsClaimed; simpl; intuition (lia || discriminate)|].
  split; [reflexivity|].
  split; [unfold rowRejectedAsClaimed; simpl; intuition (lia || discriminate)|].
  reflexivity.
Qed.

(** C7 (amended): a connection row whose four index entries are [int]
    values is refused with a configuration error exactly when a unit id
    is negative or unknown, the source unit has no outlet, the
    destination unit has no inlet, a component index that is not
    negative is at least the component count of its unit, exactly one of
    the two component indices is negative, or both are negative and the
    component counts differ: every negative component index, not [-1]
    alone, is taken for the all-components wildcard. Otherwise the row is
    accepted and rewritten with the array indices of its units, its
    component indices unchanged. *)
Theorem C7_row_validation (models : list IUnitOperation) (sw i : nat)
    (prev : list ConnectionRow) (r : ConnectionRow) (srcId dstId cSrc cDst : Z) :
  staticCastInt (rowSource r) = Ok srcId ->
  staticCastInt (rowDest r) = Ok dstId ->
  staticCastInt (rowCompSource r) = Ok cSrc ->
  staticCastInt (rowCompDest r) = Ok cDst ->
  (throws (checkRow models sw i prev r) <-> rowRejected models srcId dstId cSrc cDst)
  /\ (~ rowRejected models srcId dstId cSrc cDst ->
      exists c mSrc mDst,
        checkRow models sw i prev r = Ok c
        /\ checkedRow c = BuildIndexRow (Z.of_nat (indexOfUnitOp models (Z.to_nat srcId)))
                                        (Z.of_nat (indexOfUnitOp models (Z.to_nat dstId))) cSrc cDst
        /\ models !! indexOfUnitOp models (Z.to_nat srcId) = Some mSrc
        /\ Z.of_nat (UnitOp.unitOperationId mSrc) = srcId
        /\ models !! indexOfUnitOp models (Z.to_nat dstId) = Some mDst
        /\ Z.of_nat (UnitOp.unitOperationId mDst) = dstId).
Proof.
  intros H1 H2 H3 H4. unfold checkRow. rewrite H1, H2, H3, H4. simpl.
  destruct (checkRowIndices_spec models sw i srcId dstId cSrc cDst)
    as [[[e He] Hrej] | [Hacc (mS & mD & HgS & HgD & HlS & HlD & Hok)]].
  - rewrite He. simpl. split; [|tauto]. split; [tauto | intros _; exists e; reflexivity].
  - rewrite Hok. simpl.
    assert (Hid : forall ms id m, getUnitOperationModel ms id = Some m ->
                    UnitOp.unitOperationId m = id).
    { clear. induction ms as [|x ms IH]; intros id m; simpl; [discriminate|].
      destruct (Nat.eqb_spec (UnitOp.unitOperationId x) id); [intros [= <-]; assumption | apply IH]. }
    assert (0 <= srcId /\ 0 <= dstId) as [HsN HdN].
    { unfold rowRejected in Hacc. lia. }
    split.
    + split; [|tauto]. intros [e He].
      destruct (earlierFlowRate prev _ _); discriminate.
    + intros _.
      destruct (earlierFlowRate prev _ _) as [fr|]; eexists _, mS, mD;
        (split; [reflexivity|]); simpl;
        (repeat split; auto; [rewrite (Hid _ _ _ HgS) | rewrite (Hid _ _ _ HgD)]; lia).
Qed.

(** The row 4 -> 9 for all components between units at the indices 0
    and 1. *)
Lemma C7_row_validation_witness :
  let inlet := UnitOp.Build 4 2 2 false true false 0 1 0 1 in
  let column := UnitOp.Build 9 2 50 true true false 0 1 48 1 in
  let r := BuildRow 4 9 (-1) (-1) 0.5 in
  ~ rowRejected [inlet; column] 4 9 (-1) (-1)
  /\ exists c, checkRow [inlet; column] 0 0 [] r = Ok c
               /\ checkedRow c = BuildIndexRow 0 1 (-1) (-1).
Proof.
  intros inlet column r.
  assert (Hacc : ~ rowRejected [inlet; column] 4 9 (-1) (-1)).
  { unfold rowRejected. simpl. intuition (lia || discriminate). }
  split; [exact Hacc|].
  destruct (proj2 (C7_row_validation [inlet; column] 0 0 [] r 4 9 (-1) (-1)
                     eq_refl eq_refl eq_refl eq_refl) Hacc)
    as (c & _ & _ & Hc & Hrow & _).
  exists c. split; [exact Hc | exact Hrow].
Defined.

(** ** Flow balance *)

Lemma isTerminal_true (conn : list IndexRow) (i : Z) :
  isTerminal conn i = true <-> forall r, r ∈ conn -> uoSource r <> i.
Proof.
  induction conn as [|q conn IH]; simpl.
  - split; [intros _ r Hr; inversion Hr | reflexivity].
  - destruct (Z.eqb_spec (uoSource q) i) as [E|E].
    + split; [discriminate|]. intros H. exfalso. apply (H q); [left | exact E].
    + rewrite IH. split.
      * intros H r Hr. apply elem_of_cons in Hr as [->|Hr]; auto.
      * intros H r Hr. apply H. right. exact Hr.
Qed.

Lemma checkRow_Ok (models : list IUnitOperation) (sw i : nat)
    (prev : list ConnectionRow) (r : ConnectionRow) (c : CheckedRow) :
  checkRow models sw i prev r = Ok c -> rowWellFormed models (checkedRow c).
Proof.
  unfold checkRow. intros H.
  destruct (staticCastInt (rowSource r)) as [srcId| |]; simpl in H; try discriminate.
  destruct (staticCastInt (rowDest r)) as [dstId| |]; simpl in H; try discriminate.
  destruct (staticCastInt (rowCompSource r)) as [cSrc| |]; simpl in H; try discriminate.
  destruct (staticCastInt (rowCompDest r)) as [cDst| |]; simpl in H; try discriminate.
  destruct (checkRowIndices_spec models sw i srcId dstId cSrc cDst)
    as [[[e He] _] | [Hacc (mS & mD & HgS & HgD & HlS & HlD & Hok)]].
  - rewrite He in H. discriminate.
  - rewrite Hok in H. simpl in H.
    assert (checkedRow c = BuildIndexRow (Z.of_nat (indexOfUnitOp models (Z.to_nat srcId)))
                             (Z.of_nat (indexOfUnitOp models (Z.to_nat dstId))) cSrc cDst) as ->.
    { destruct (earlierFlowRate prev _ _); injection H as <-; reflexivity. }
    unfold rowRejected in Hacc. rewrite HgS, HgD in Hacc.
    exists (indexOfUnitOp models (Z.to_nat srcId)), (indexOfUnitOp models (Z.to_nat dstId)), mS, mD.
    simpl. repeat split; auto.
    + destruct (UnitOp.hasOutlet mS); [reflexivity | tauto].
    + destruct (UnitOp.hasInlet mD); [reflexivity | tauto].
Qed.

Lemma addAt_other (idx : Z) (fr : float) (v : list float) (i : nat) :
  0 <= idx -> idx <> Z.of_nat i -> addAt idx fr v !! i = v !! i.
Proof.
  intros H0 H. unfold addAt. apply list_lookup_alter_ne. lia.
Qed.

Lemma rowLoopStep_invariant (models : list IUnitOperation) (st : RowLoopState) (c : CheckedRow) :
  rowLoopInvariant models st -> rowWellFormed models (checkedRow c) ->
  rowLoopInvariant models (rowLoopStep st c).
Proof.
  intros (HW & HO & HI) Hc. unfold rowLoopInvariant, rowLoopStep. simpl.
  split; [apply Forall_app; split; [exact HW | constructor; [exact Hc | constructor]]|].
  destruct Hc as (src & dst & mS & mD & Es & Ed & _).
  split; intros i Hi.
  - destruct (decide (uoSource (checkedRow c) = Z.of_nat i)) as [E|E].
    { right. exists (checkedRow c). split; [apply elem_of_app; right; left | exact E]. }
    destruct (HO i Hi) as [H0|(q & Hq & Eq)].
    + left. destruct (checkedFound c); [exact H0|].
      rewrite addAt_other by (lia || exact E). exact H0.
    + right. exists q. split; [apply elem_of_app; left; exact Hq | exact Eq].
  - destruct (decide (uoDest (checkedRow c) = Z.of_nat i)) as [E|E].
    { right. exists (checkedRow c). split; [apply elem_of_app; right; left | exact E]. }
    destruct (HI i Hi) as [H0|(q & Hq & Eq)].
    + left. destruct (checkedFound c); [exact H0|].
      rewrite addAt_other by (lia || exact E). exact H0.
    + right. exists q. split; [apply elem_of_app; left; exact Hq | exact Eq].
Qed.

Lemma checkRows_invariant (models : list IUnitOperation) (sw : nat) (rows : list ConnectionRow) :
  forall (i : nat) (prev : list ConnectionRow) (st st' : RowLoopState),
  rowLoopInvariant models st ->
  checkRows models sw i prev rows st = Ok st' ->
  rowLoopInvariant models st'.
Proof.
  induction rows as [|r rows IH]; intros i prev st st' Hinv H; simpl in H.
  - injection H as <-. exact Hinv.
  - destruct (checkRow models sw i prev r) as [c| |] eqn:Ec; simpl in H; try discriminate.
    eapply IH; [|exact H]. apply rowLoopStep_invariant; [exact Hinv|].
    eapply checkRow_Ok. exact Ec.
Qed.

Lemma initialRowLoop_invariant (models : list IUnitOperation) :
  rowLoopInvariant models (initialRowLoop models).
Proof.
  unfold rowLoopInvariant, initialRowLoop. simpl.
  split; [constructor|]. split; intros i Hi; left; apply lookup_replicate_2; exact Hi.
Qed.

Lemma checkBalance_spec (sw : nat) (st : RowLoopState) (models : list IUnitOperation) :
  forall i0,
  (checkBalance sw st i0 models = Ok ()
   /\ forall j m, models !! j = Some m -> unitImbalance st (i0 + j) m = None)
  \/ (throws (checkBalance sw st i0 models)
      /\ exists j m, models !! j = Some m /\ is_Some (unitImbalance st (i0 + j) m)).
Proof.
  induction models as [|m ms IH]; intros i0; simpl.
  - left. split; [reflexivity|]. intros j x Hx. inversion Hx.
  - destruct (unitImbalance st i0 m) as [diff|] eqn:E.
    + right. split; [eexists; reflexivity|]. exists 0%nat, m.
      rewrite Nat.add_0_r, E. split; [reflexivity | eauto].
    + destruct (IH (S i0)) as [[Hok Hall]|[Hthrow (j & x & Hx & Hs)]].
      * left. split; [exact Hok|]. intros [|j] x Hx; simpl in Hx.
        -- injection Hx as <-. rewrite Nat.add_0_r. exact E.
        -- replace (i0 + S j)%nat with (S i0 + j)%nat by lia. apply Hall. exact Hx.
      * right. split; [exact Hthrow|]. exists (S j), x. simpl.
        replace (i0 + S j)%nat with (S i0 + j)%nat by lia. auto.
Qed.

Lemma searchAgrees_length (prev : list ConnectionRow) (earlier : list IndexRow) (r : IndexRow) :
  searchAgrees prev earlier r = true -> length prev = length earlier.
Proof.
  revert earlier; induction prev as [|p ps IH]; intros [|q qs] H; simpl in *;
    try discriminate; [reflexivity|].
  apply andb_true_iff in H as [_ H]. f_equal. apply IH. exact H.
Qed.

Lemma searchAgrees_flow (prev : list ConnectionRow) (earlier : list IndexRow) (r : IndexRow) :
  searchAgrees prev earlier r = true ->
  earlierFlowRate prev (uoSource r) (uoDest r)
  = firstConnectionFlow earlier (map rowFlow prev) r.
Proof.
  revert earlier; induction prev as [|p ps IH]; intros [|q qs] H; simpl in *;
    try discriminate; [reflexivity|].
  apply andb_true_iff in H as [H1 H2]. apply Bool.eqb_prop in H1. rewrite H1.
  destruct ((uoSource q =? uoSource r) && (uoDest q =? uoDest r)); [reflexivity|].
  apply IH. exact H2.
Qed.

Lemma firstConnectionFlow_connectedBefore (earlier : list IndexRow) (flows : list float) (r : IndexRow) :
  length flows = length earlier ->
  connectedBefore earlier r = bool_decide (is_Some (firstConnectionFlow earlier flows r)).
Proof.
  revert flows; induction earlier as [|q qs IH]; intros [|f fs] H; simpl in *;
    try discriminate.
  - reflexivity.
  - destruct ((uoSource q =? uoSource r) && (uoDest q =? uoDest r)); simpl.
    + reflexivity.
    + apply IH. lia.
Qed.

Lemma checkRow_flow (models : list IUnitOperation) (sw i : nat)
    (prev : list ConnectionRow) (r : ConnectionRow) (c : CheckedRow) :
  checkRow models sw i prev r = Ok c ->
  let found := earlierFlowRate prev (uoSource (checkedRow c)) (uoDest (checkedRow c)) in
  checkedFound c = bool_decide (is_Some found)
  /\ checkedFlow c = default (rowFlow r) found.
Proof.
  unfold checkRow. intros H.
  destruct (staticCastInt (rowSource r)) as [srcId| |]; simpl in H; try discriminate.
  destruct (staticCastInt (rowDest r)) as [dstId| |]; simpl in H; try discriminate.
  destruct (staticCastInt (rowCompSource r)) as [cSrc| |]; simpl in H; try discriminate.
  destruct (staticCastInt (rowCompDest r)) as [cDst| |]; simpl in H; try discriminate.
  destruct (checkRowIndices models sw i srcId dstId cSrc cDst) as [row| |];
    simpl in H; try discriminate.
  destruct (earlierFlowRate prev (uoSource row) (uoDest row)) as [fr|] eqn:E;
    injection H as <-; simpl; rewrite E; simpl; split; reflexivity.
Qed.

(** When the search of [checkConnectionList] agrees with the search on
    the unit indices, the row loop counts every connection once and gives
    every row the flow rate of the first row of its connection. *)
Lemma checkRows_counts_once (models : list IUnitOperation) (sw : nat) (rows : list ConnectionRow) :
  forall (i : nat) (prev : list ConnectionRow) (st st' : RowLoopState),
  checkRows models sw i prev rows st = Ok st' ->
  exists idx,
    connOnly st' = connOnly st ++ idx
    /\ length idx = length rows
    /\ (idsAgreeWithIndices prev (connOnly st) rows idx = true ->
        (totalInflow st', totalOutflow st')
        = balanceTotals (connOnly st) idx (map rowFlow rows) (totalInflow st, totalOutflow st)
        /\ flowRates st'
           = flowRates st ++ sharedFlowRates (connOnly st) (map rowFlow prev) idx (map rowFlow rows)).
Proof.
  induction rows as [|r rows IH]; intros i prev st st' H; simpl in H.
  - injection H as <-. exists []. rewrite !app_nil_r. simpl. auto.
  - destruct (checkRow models sw i prev r) as [c| |] eqn:Ec; simpl in H; try discriminate.
    destruct (IH _ _ _ _ H) as (idx & Hconn & Hlen & Hagree).
    destruct (checkRow_flow _ _ _ _ _ _ Ec) as [Hfound Hflow].
    exists (checkedRow c :: idx). simpl in Hconn. rewrite <- app_assoc in Hconn.
    split; [exact Hconn|]. split; [simpl; lia|].
    simpl. intros Hall. apply andb_true_iff in Hall as [Hs Hrest].
    destruct (Hagree Hrest) as [Htot Hfr]. clear Hagree.
    pose proof (searchAgrees_length _ _ _ Hs) as Hl.
    rewrite (searchAgrees_flow _ _ _ Hs) in Hfound, Hflow.
    rewrite <- (firstConnectionFlow_connectedBefore (connOnly st) (map rowFlow prev))
      in Hfound by (rewrite length_map; exact Hl).
    split.
    + rewrite Htot. simpl. rewrite Hfound.
      destruct (connectedBefore (connOnly st) (checkedRow c)) eqn:Ecb; [reflexivity|].
      rewrite Hflow.
      rewrite (firstConnectionFlow_connectedBefore (connOnly st) (map rowFlow prev)) in Ecb
        by (rewrite length_map; exact Hl).
      apply bool_decide_eq_false in Ecb.
      destruct (firstConnectionFlow (connOnly st) (map rowFlow prev) (checkedRow c)) eqn:E;
        [exfalso; apply Ecb; eauto | reflexivity].
    + rewrite Hfr. simpl. rewrite <- app_assoc. simpl. rewrite Hflow, map_app. reflexivity.
Qed.

Lemma terminal_outflow_zero (models : list IUnitOperation) (st : RowLoopState) (i : nat) :
  rowLoopInvariant models st -> (i < length models)%nat ->
  isTerminal (connOnly st) (Z.of_nat i) = true ->
  totalOutflow st !! i = Some 0%float.
Proof.
  intros (_ & HO & _) Hi Ht. destruct (HO i Hi) as [H|(q & Hq & Eq)]; [exact H|].
  exfalso. exact (proj1 (isTerminal_true _ _) Ht q Hq Eq).
Qed.

Lemma no_outlet_terminal (models : list IUnitOperation) (st : RowLoopState)
    (i : nat) (m : IUnitOperation) :
  rowLoopInvariant models st -> models !! i = Some m -> UnitOp.hasOutlet m = false ->
  isTerminal (connOnly st) (Z.of_nat i) = true.
Proof.
  intros (HW & _ & _) Hm Hout. apply isTerminal_true. intros q Hq Eq.
  rewrite Forall_forall in HW.
  destruct (HW q Hq) as (src & dst & mS & mD & Es & _ & HS & HoS & _).
  assert (src = i) by lia. subst src. congruence.
Qed.

Lemma no_inlet_inflow_zero (models : list IUnitOperation) (st : RowLoopState)
    (i : nat) (m : IUnitOperation) :
  rowLoopInvariant models st -> models !! i = Some m -> UnitOp.hasInlet m = false ->
  totalInflow st !! i = Some 0%float.
Proof.
  intros (HW & _ & HI) Hm Hin.
  destruct (HI i (lookup_lt_Some _ _ _ Hm)) as [H|(q & Hq & Eq)]; [exact H|].
  exfalso. rewrite Forall_forall in HW.
  destruct (HW q Hq) as (src & dst & mS & mD & _ & Ed & _ & _ & HD & HiD).
  assert (dst = i) by lia. subst dst. congruence.
Qed.

Lemma unitImbalance_terminal (st : RowLoopState) (i : nat) (m : IUnitOperation) :
  totalOutflow st !! i = Some 0%float ->
  isTerminal (connOnly st) (Z.of_nat i) = true ->
  unitImbalance st i m = None.
Proof.
  intros HO Ht. unfold unitImbalance. rewrite HO, Ht. simpl.
  destruct (_ && _ && _ && _); [reflexivity|].
  destruct (_ && _ && _ && _); reflexivity.
Qed.

Lemma float_ltb_leb (x y : float) : (x <? y)%float = true -> (x <=? y)%float = true.
Proof.
  rewrite ltb_spec, leb_spec. unfold SFltb, SFleb.
  destruct (SFcompare (Prim2SF x) (Prim2SF y)) as [[| |]|]; congruence.
Qed.

(** C2, as stated, fails for a unit with an outlet only: it is exempt only
    while its total outflow is not negative. Here unit 0 feeds unit 1 with
    flow rate [-1]. *)
Lemma C2_outlet_only_unit_raises_counterexample :
  let inlet := UnitOp.Build 0 2 2 false true false 0 1 0 1 in
  let outlet := UnitOp.Build 1 2 2 true false false 0 1 0 1 in
  UnitOp.hasInlet inlet = false /\ UnitOp.hasOutlet inlet = true
  /\ checkConnectionList [inlet; outlet] [0; 1; -1; -1; -1]%float 0
     = Throw (FlowBalanceNotClosed 0 0 1%float).
Proof. repeat split. Qed.

(** C2 (amended): once the rows of a connection list are accepted, the
    list is refused with a configuration error exactly when the balance
    check fails for some unit. For a unit that cannot accumulate, has an
    inlet and an outlet and is the source of some row, the check fails
    exactly when the difference [diff] of its total inflow and total
    outflow satisfies [diff >= 1e-15] or [diff >= 1e-15 * |outflow|], so
    a difference of more than [1e-15] is an error. The check never fails for a unit that can accumulate, for a unit that is
    the source of no row (terminal), for a unit with an inlet only, and
    for a unit with an outlet only whose total outflow is not negative.
    When the unit ids compare like the array indices of the units, the
    totals count every connection (source, destination) once, by the flow
    rate of its first row. *)
Theorem C2_flow_balance (models : list IUnitOperation) (conn : list float) (sw : nat)
    (st : RowLoopState) :
  checkRows models sw 0 [] (rowsOfMatrix conn) (initialRowLoop models) = Ok st ->
  (throws (checkConnectionList models conn sw)
   <-> exists i m, models !! i = Some m /\ is_Some (unitImbalance st i m))
  /\ (forall i m, models !! i = Some m ->
        let tIn := default 0%float (totalInflow st !! i) in
        let tOut := default 0%float (totalOutflow st !! i) in
        let diff := PrimFloat.abs (tIn - tOut) in
        (UnitOp.canAccumulate m = true -> unitImbalance st i m = None)
        /\ (isTerminal (connOnly st) (Z.of_nat i) = true -> unitImbalance st i m = None)
        /\ (UnitOp.hasInlet m = true -> UnitOp.hasOutlet m = false ->
            unitImbalance st i m = None)
        /\ (UnitOp.hasInlet m = false -> UnitOp.hasOutlet m = true ->
            (0 <=? tOut)%float = true -> unitImbalance st i m = None)
        /\ (UnitOp.canAccumulate m = false ->
            UnitOp.hasInlet m = true -> UnitOp.hasOutlet m = true ->
            isTerminal (connOnly st) (Z.of_nat i) = false ->
            unitImbalance st i m
            = (if (balanceTolerance <=? diff)%float
                  || (balanceTolerance * PrimFloat.abs tOut <=? diff)%float
               then Some diff else None)
            /\ ((balanceTolerance <? diff)%float = true ->
                unitImbalance st i m = Some diff
                /\ throws (checkConnectionList models conn sw))))
  /\ (idsAgreeWithIndices [] [] (rowsOfMatrix conn) (connOnly st) = true ->
      (totalInflow st, totalOutflow st)
      = balanceTotals [] (connOnly st) (map rowFlow (rowsOfMatrix conn))
          (replicate (length models) 0%float, replicate (length models) 0%float)).
Proof.
  intros Hrows.
  pose proof (checkRows_invariant _ _ _ _ _ _ _ (initialRowLoop_invariant models) Hrows) as Hinv.
  assert (Hthrow : throws (checkConnectionList models conn sw)
                   <-> exists i m, models !! i = Some m /\ is_Some (unitImbalance st i m)).
  { unfold checkConnectionList. rewrite Hrows. simpl.
    destruct (checkBalance_spec sw st models 0) as [[Hok Hall]|[[e He] Hex]].
    + rewrite Hok. simpl. split.
      * intros [e He]. discriminate.
      * intros (i & m & Hm & [d Hd]). pose proof (Hall i m Hm) as Hn. simpl in Hn.
        rewrite Hn in Hd. discriminate.
    + rewrite He. simpl. split; [intros _; exact Hex | intros _; exists e; reflexivity]. }
  split; [exact Hthrow|split].
  - intros i m Hm tIn tOut diff.
    pose proof (lookup_lt_Some _ _ _ Hm) as Hi.
    assert (Hterm : isTerminal (connOnly st) (Z.of_nat i) = true -> unitImbalance st i m = None).
    { intros Ht. apply unitImbalance_terminal; [|exact Ht].
      eapply terminal_outflow_zero; eassumption. }
    split; [|split; [exact Hterm|split; [|split]]].
    + intros Hacc. unfold unitImbalance. rewrite Hacc. simpl. rewrite andb_false_r.
      repeat (destruct (_ && _)); reflexivity.
    + intros _ Hout. apply Hterm. eapply no_outlet_terminal; eassumption.
    + intros Hin Hout Hpos. unfold unitImbalance.
      rewrite (no_inlet_inflow_zero _ _ _ _ Hinv Hm Hin), Hin, Hout. simpl.
      fold tOut. rewrite Hpos, andb_false_r. reflexivity.
    + intros Hacc Hin Hout Ht.
      assert (Hval : unitImbalance st i m
                     = if (balanceTolerance <=? diff)%float
                          || (balanceTolerance * PrimFloat.abs tOut <=? diff)%float
                       then Some diff else None).
      { unfold unitImbalance. rewrite Hacc, Hin, Hout, Ht. simpl.
        rewrite !andb_false_r, !andb_true_r. reflexivity. }
      split; [exact Hval|]. intros Hlt.
      assert (Hsome : unitImbalance st i m = Some diff).
      { rewrite Hval, (float_ltb_leb _ _ Hlt). reflexivity. }
      split; [exact Hsome|]. apply Hthrow. exists i, m. rewrite Hsome. eauto.
  - intros Hagree.
    destruct (checkRows_counts_once _ _ _ _ _ _ _ Hrows) as (idx & Hconn & _ & Hcount).
    simpl in Hconn. subst idx. exact (proj1 (Hcount Hagree)).
Qed.

(** Two columns in a loop with the flow rates 1 and 2: the balance of
    the first column is off by 1. The second row repeats the connection
    0 -> 1 and is counted once. *)
Lemma C2_flow_balance_witness :
  let columnA := UnitOp.Build 0 2 50 true true false 0 1 48 1 in
  let columnB := UnitOp.Build 1 2 50 true true false 0 1 48 1 in
  let models := [columnA; columnB] in
  let conn := [0; 1; 0; 0; 1;  0; 1; 1; 1; 7;  1; 0; -1; -1; 2]%float in
  exists st,
    checkRows models 0 0 [] (rowsOfMatrix conn) (initialRowLoop models) = Ok st
    /\ totalInflow st = [2; 1]%float /\ totalOutflow st = [1; 2]%float
    /\ unitImbalance st 0 columnA = Some 1%float
    /\ throws (checkConnectionList models conn 0)
    /\ (totalInflow st, totalOutflow st)
       = balanceTotals [] (connOnly st) (map rowFlow (rowsOfMatrix conn))
           ([0; 0]%float, [0; 0]%float).
Proof.
  intros columnA columnB models conn.
  destruct (checkRows models 0 0 [] (rowsOfMatrix conn) (initialRowLoop models)) as [st| |] eqn:E;
    try (vm_compute in E; discriminate).
  exists st. destruct (C2_flow_balance models conn 0 st E) as (_ & Hunits & Hcount).
  assert (Est : st = BuildRowLoop [2; 1]%float [1; 2]%float
                       [BuildIndexRow 0 1 0 0; BuildIndexRow 0 1 1 1; BuildIndexRow 1 0 (-1) (-1)]
                       [1; 1; 2]%float).
  { vm_compute in E. injection E as <-. reflexivity. }
  destruct (Hunits 0%nat columnA eq_refl) as (_ & _ & _ & _ & H).
  destruct (H eq_refl eq_refl eq_refl ltac:(subst st; reflexivity)) as [_ Hraise].
  destruct (Hraise ltac:(subst st; reflexivity)) as [Himb Hthrow].
  split; [reflexivity|]. split; [subst st; reflexivity|]. split; [subst st; reflexivity|].
  split; [rewrite Himb; subst st; reflexivity|]. split; [exact Hthrow|].
  apply Hcount. subst st. reflexivity.
Defined.

(** ** Section indices of the switches *)

Lemma configureSwitch_sections (models : list IUnitOperation) (i : nat) (sw : SwitchInput)
    (cfg cfg' : SwitchConfig) :
  configureSwitch models i sw cfg = Ok cfg' ->
  _switchSectionIndex cfg' = _switchSectionIndex cfg ++ [SECTION sw]
  /\ ((0 < i)%nat -> List.last (_switchSectionIndex cfg) 0 < SECTION sw).
Proof.
  unfold configureSwitch. intros H.
  destruct ((0 <? i)%nat && (SECTION sw <=? List.last (_switchSectionIndex cfg) 0)) eqn:E1;
    [discriminate|].
  destruct (negb (length (CONNECTIONS sw) mod 5 =? 0)%nat); [discriminate|].
  destruct (checkConnectionList models (CONNECTIONS sw) i) as [[conn fr]| |];
    simpl in H; try discriminate.
  injection H as <-. simpl. split; [reflexivity|].
  intros Hi. apply andb_false_iff in E1 as [E1|E1].
  - apply Nat.ltb_ge in E1. lia.
  - apply Z.leb_gt in E1. exact E1.
Qed.

Lemma configureSwitchLoop_sections (models : list IUnitOperation) (switches : list SwitchInput) :
  forall (i : nat) (cfg cfg' : SwitchConfig),
  configureSwitchLoop models i switches cfg = Ok cfg' ->
  _switchSectionIndex cfg' = _switchSectionIndex cfg ++ map SECTION switches.
Proof.
  induction switches as [|sw rest IH]; intros i cfg cfg' H; simpl in H.
  - injection H as <-. rewrite app_nil_r. reflexivity.
  - destruct (configureSwitch models i sw cfg) as [cfg1| |] eqn:E; simpl in H; try discriminate.
    rewrite (IH _ _ _ H), (proj1 (configureSwitch_sections _ _ _ _ _ E)), <- app_assoc.
    reflexivity.
Qed.






(** ** Flow rates as parameters *)

Lemma connectedBefore_snoc (earlier : list IndexRow) (q r : IndexRow) :
  connectedBefore (earlier ++ [q]) r
  = connectedBefore earlier r || ((uoSource q =? uoSource r) && (uoDest q =? uoDest r)).
Proof.
  unfold connectedBefore. rewrite existsb_app. simpl. rewrite orb_false_r. reflexivity.
Qed.

(** The registration loop registers, for switch [i], one parameter for
    every connection (source index, destination index) of the list, and
    it points to the first row of the connection; other keys keep what
    they had. *)
Lemma registerFlowRates_lookup (rows : list IndexRow) (i : nat) (src dst : Z) (i' : nat) :
  forall (j : nat) (earlier : list IndexRow) (params : gmap (Z * Z * nat) (nat * nat)),
  registerFlowRates i j earlier rows params !! (src, dst, i')
  = if bool_decide (i' = i)
       && negb (connectedBefore earlier (BuildIndexRow src dst 0 0))
    then match firstRowOf rows src dst with
         | Some k => Some (i, (j + k)%nat)
         | None => params !! (src, dst, i')
         end
    else params !! (src, dst, i').
Proof.
  induction rows as [|r rest IH]; intros j earlier params; simpl.
  - destruct (_ && _); reflexivity.
  - rewrite IH, connectedBefore_snoc. simpl uoSource. simpl uoDest.
    destruct ((uoSource r =? src) && (uoDest r =? dst)) eqn:Er.
    + apply andb_true_iff in Er as [E1 E2]. apply Z.eqb_eq in E1, E2.
      rewrite orb_true_r, andb_false_r.
      assert (Hcb : connectedBefore earlier r
                    = connectedBefore earlier (BuildIndexRow src dst 0 0)).
      { unfold connectedBefore. simpl. rewrite E1, E2. reflexivity. }
      rewrite Hcb. destruct (connectedBefore earlier (BuildIndexRow src dst 0 0)).
      * rewrite andb_false_r. reflexivity.
      * rewrite andb_true_r. simpl. rewrite E1, E2.
        destruct (bool_decide_reflect (i' = i)) as [Ei|Hne].
        -- rewrite Ei, lookup_insert_eq. f_equal. f_equal. lia.
        -- rewrite lookup_insert_ne by congruence. reflexivity.
    + rewrite orb_false_r.
      assert (Hother : (if connectedBefore earlier r then params
                        else <[(uoSource r, uoDest r, i) := (i, j)]> params) !! (src, dst, i')
                       = params !! (src, dst, i')).
      { destruct (connectedBefore earlier r); [reflexivity|].
        apply lookup_insert_ne. intros [= E1 E2 _]. rewrite E1, E2, !Z.eqb_refl in Er.
        discriminate. }
      rewrite Hother.
      destruct (bool_decide (i' = i) && negb (connectedBefore earlier (BuildIndexRow src dst 0 0)));
        [|reflexivity].
      destruct (firstRowOf rest src dst) as [k|]; simpl; [f_equal; f_equal; lia | reflexivity].
Qed.

(** *** The storage of the flow rates *)

Section FlowRateStorageFacts.

Context (capacity : nat) (grow : nat -> nat).

Lemma storageAfter_S (n : nat) :
  storageAfter capacity grow (S n) = push_back grow (storageAfter capacity grow n).
Proof. reflexivity. Qed.

Lemma storageAfter_size (n : nat) : stSize (storageAfter capacity grow n) = n.
Proof.
  induction n as [|n IH]; [reflexivity|]. rewrite storageAfter_S. unfold push_back.
  destruct (_ <? _)%nat; simpl; rewrite IH; reflexivity.
Qed.

(** No element moves while the vector holds at most what was reserved. *)
Lemma storageAfter_within (n : nat) :
  (n <= capacity)%nat -> storageAfter capacity grow n = BuildStorage 0 capacity n.
Proof.
  induction n as [|n IH]; intros Hn; [reflexivity|].
  rewrite storageAfter_S, IH by lia. unfold push_back. simpl.
  destruct (Nat.ltb_spec n capacity); [reflexivity | lia].
Qed.

Lemma storageAfter_buffer_mono (n m : nat) :
  (n <= m)%nat ->
  (stBuffer (storageAfter capacity grow n) <= stBuffer (storageAfter capacity grow m))%nat.
Proof.
  induction 1 as [|m Hle IH]; [lia|]. rewrite storageAfter_S. unfold push_back.
  destruct (_ <? _)%nat; simpl; lia.
Qed.

(** The element after the last reserved one moves the vector. *)
Lemma storageAfter_beyond (n m : nat) :
  (n <= capacity)%nat -> (capacity < m)%nat ->
  (stBuffer (storageAfter capacity grow n) < stBuffer (storageAfter capacity grow m))%nat.
Proof.
  intros Hn Hm. rewrite (storageAfter_within n Hn). simpl.
  pose proof (storageAfter_buffer_mono (S capacity) m Hm) as Hmono.
  rewrite storageAfter_S, (storageAfter_within capacity (Nat.le_refl _)) in Hmono.
  unfold push_back in Hmono. simpl in Hmono.
  rewrite Nat.ltb_irrefl in Hmono. simpl in Hmono. lia.
Qed.

(** While all flow rates fit into what was reserved, every pointer
    points into [_flowRates]. *)
Lemma pointsIntoFlowRates_within (cfg : SwitchConfig) (i j : nat) (slice : list float) :
  (length (concat (_flowRates cfg)) <= capacity)%nat ->
  _flowRates cfg !! i = Some slice -> (j < length slice)%nat ->
  pointsIntoFlowRates capacity grow cfg (i, j) = true.
Proof.
  intros Hfit Hslice Hj. unfold pointsIntoFlowRates, parameterAddress, flowRatesBuffer.
  cbn [fst snd].
  assert (Hpos : (S (sliceStart cfg i + j) <= length (concat (_flowRates cfg)))%nat).
  { unfold sliceStart. rewrite <- (take_drop_middle _ _ _ Hslice) at 2.
    rewrite concat_app, length_app. simpl. rewrite length_app. lia. }
  rewrite (storageAfter_within (S (sliceStart cfg i + j))) by lia.
  rewrite (storageAfter_within (length (concat (_flowRates cfg)))) by lia. reflexivity.
Qed.

(** A pointer read before the vector was full dangles once more flow
    rates are pushed than the vector could hold. *)
Lemma pointsIntoFlowRates_beyond (cfg : SwitchConfig) (i j : nat) :
  (sliceStart cfg i + j < capacity)%nat ->
  (capacity < length (concat (_flowRates cfg)))%nat ->
  pointsIntoFlowRates capacity grow cfg (i, j) = false.
Proof.
  intros Hpos Hmore. unfold pointsIntoFlowRates, parameterAddress, flowRatesBuffer.
  cbn [fst snd]. apply Nat.eqb_neq.
  pose proof (storageAfter_beyond (S (sliceStart cfg i + j))
                (length (concat (_flowRates cfg))) ltac:(lia) Hmore).
  lia.
Qed.

End FlowRateStorageFacts.

(** C8 on a network whose unit ids are not the array indices (units 5 and
    7 at indices 0 and 1, two rows for the connection 5 -> 7 with the
    flow rates 1 and 2): one parameter is registered for the connection,
    with the flow rate 1 of its first row, but the second row keeps its
    own flow rate 2, because [checkConnectionList] compares the unit ids
    of the earlier rows with the array indices of the current row. *)
Theorem C8_later_row_keeps_its_flow_rate :
  let source := UnitOp.Build 5 2 2 false true false 0 1 0 1 in
  let sink := UnitOp.Build 7 2 2 true false false 0 1 0 1 in
  let sw := BuildSwitchInput 0 [5; 7; 0; 0; 1;  5; 7; 1; 1; 2]%float in
  exists cfg,
    configureSwitches [source; sink] [sw] ∅ = Ok cfg
    /\ _connections cfg = [[BuildIndexRow 0 1 0 0; BuildIndexRow 0 1 1 1]]
    /\ size (_parameters cfg) = 1%nat
    /\ (forall slack grow,
          parameterValue (4 + slack) grow cfg (0, 1, 0%nat) = Ok (Some 1%float))
    /\ _flowRates cfg = [[1; 2]%float]
    /\ sharedFlowRates [] [] [BuildIndexRow 0 1 0 0; BuildIndexRow 0 1 1 1] [1; 2]%float
       = [1; 1]%float.
Proof.
  intros source sink sw.
  destruct (configureSwitches [source; sink] [sw] ∅) as [cfg| |] eqn:E;
    try (vm_compute in E; discriminate).
  exists cfg. split; [reflexivity|].
  assert (Hc : _connections cfg = [[BuildIndexRow 0 1 0 0; BuildIndexRow 0 1 1 1]]
               /\ _flowRates cfg = [[1; 2]%float]
               /\ _parameters cfg = {[ (0, 1, 0%nat) := (0%nat, 0%nat) ]}).
  { unfold configureSwitches in E. simpl configureSwitchLoop in E.
    unfold configureSwitch in E.
    assert (Hck : checkConnectionList [source; sink] (CONNECTIONS sw) 0
                  = Ok ([BuildIndexRow 0 1 0 0; BuildIndexRow 0 1 1 1], [1; 2]%float))
      by (vm_compute; reflexivity).
    rewrite Hck in E. simpl in E. injection E as <-. simpl.
    repeat split. }
  destruct Hc as (H1 & H2 & H3).
  split; [exact H1|]. split; [rewrite H3; apply map_size_singleton|].
  split.
  { intros slack grow. unfold parameterValue. rewrite H3, lookup_singleton_eq.
    rewrite (pointsIntoFlowRates_within (4 + slack) grow cfg 0 0 [1; 2]%float);
      [rewrite H2; reflexivity | rewrite H2; simpl; lia | rewrite H2; reflexivity | simpl; lia]. }
  split; [exact H2 | reflexivity].
Qed.

(** The same slip on two tanks with the ids 1 and 0 at the indices 0 and
    1: the row 1 -> 0 (indices 0 -> 1) is the first row of its connection
    and has the flow rate 3, but it is taken for a later row of the
    connection of row 0 and given the flow rate 2, which is then the value
    of the parameter registered for it. *)
Lemma configureSwitches_foreign_flow_rate :
  let tankA := UnitOp.Build 1 1 1 true true true 0 1 0 1 in
  let tankB := UnitOp.Build 0 1 1 true true true 0 1 0 1 in
  let sw := BuildSwitchInput 0 [0; 1; -1; -1; 2;  1; 0; -1; -1; 3]%float in
  exists cfg,
    configureSwitches [tankA; tankB] [sw] ∅ = Ok cfg
    /\ _connections cfg = [[BuildIndexRow 1 0 (-1) (-1); BuildIndexRow 0 1 (-1) (-1)]]
    /\ _flowRates cfg = [[2; 2]%float]
    /\ (forall slack grow,
          parameterValue (4 + slack) grow cfg (0, 1, 0%nat) = Ok (Some 2%float)).
Proof.
  intros tankA tankB sw.
  destruct (configureSwitches [tankA; tankB] [sw] ∅) as [cfg| |] eqn:E;
    try (vm_compute in E; discriminate).
  exists cfg. split; [reflexivity|].
  unfold configureSwitches in E. simpl configureSwitchLoop in E.
  unfold configureSwitch in E.
  assert (Hck : checkConnectionList [tankA; tankB] (CONNECTIONS sw) 0
                = Ok ([BuildIndexRow 1 0 (-1) (-1); BuildIndexRow 0 1 (-1) (-1)], [2; 2]%float))
    by (vm_compute; reflexivity).
  rewrite Hck in E. simpl in E. injection E as <-.
  split; [reflexivity|]. split; [reflexivity|].
  intros slack grow. unfold parameterValue. simpl _parameters. unfold connectedBefore. simpl.
  rewrite lookup_insert_eq.
  rewrite (pointsIntoFlowRates_within (4 + slack) grow _ 0 1 [2; 2]%float);
    [reflexivity | simpl; lia | reflexivity | simpl; lia].
Qed.

(** ** Section transitions *)





Lemma toUnsigned_id (z : Z) : 0 <= z < 2 ^ 31 -> toUnsigned z = z.
Proof. intros H. unfold toUnsigned. apply Z.mod_small. lia. Qed.








(** ** The coupling rows of the residual *)

Section CouplingResidualFacts.

Context {R : Type} (rO rI : R) (radd rmul rsub : R -> R -> R) (ropp : R -> R).
Hypothesis Rth : ring_theory rO rI radd rmul rsub ropp eq.

Add Ring couplingScalars : Rth.

Notation "a + b" := (radd a b).
Notation "a * b" := (rmul a b).

Lemma store_same (v : nat -> R) (pos : nat) (x : R) : store v pos x pos = x.
Proof. unfold store. rewrite Nat.eqb_refl. reflexivity. Qed.

Lemma store_other (v : nat -> R) (pos p : nat) (x : R) : p <> pos -> store v pos x p = v p.
Proof. unfold store. intros H. destruct (Nat.eqb_spec p pos); [contradiction | reflexivity]. Qed.

Lemma multiplyAdd_untouched (A : SparseMatrix) (x : nat -> R) (xOffset yOffset p : nat) :
  forall y : nat -> R,
  Forall (fun e : nat * nat * R => (yOffset + e.1.1)%nat <> p) A ->
  multiplyAdd radd rmul A x xOffset y yOffset p = y p.
Proof.
  unfold multiplyAdd. induction A as [|[[row col] v] A IH]; intros y H; simpl; [reflexivity|].
  inversion H as [|? ? Hhd Htl]; subst. simpl in Hhd.
  rewrite IH by exact Htl. apply store_other. congruence.
Qed.

Lemma multiplyAdd_row (A : SparseMatrix) (x : nat -> R) (xOffset yOffset k : nat) :
  forall y : nat -> R,
  multiplyAdd radd rmul A x xOffset y yOffset (yOffset + k)
  = y (yOffset + k)%nat + rowProduct radd rmul rO A k x xOffset.
Proof.
  unfold multiplyAdd. induction A as [|[[row col] v] A IH]; intros y; simpl.
  - ring.
  - rewrite IH. destruct (Nat.eqb_spec row k) as [->|Hne].
    + rewrite store_same. ring.
    + rewrite store_other by lia. reflexivity.
Qed.

Lemma copyCoupling_inside (nCoupling : nat) :
  forall (finalOffset : nat) (y res : nat -> R) (k : nat),
  (k < nCoupling)%nat ->
  copyCoupling finalOffset nCoupling y res (finalOffset + k) = y (finalOffset + k)%nat.
Proof.
  unfold copyCoupling. induction nCoupling as [|n IH]; intros fo y res k Hk; [lia|].
  rewrite seq_S, fold_left_app. simpl.
  destruct (Nat.eq_dec k n) as [->|Hne].
  - apply store_same.
  - rewrite store_other by lia. apply IH. lia.
Qed.

Lemma inbound_loop_untouched (_dofOffset : list nat) (_jacNF : list (@SparseMatrix R))
    (y : nat -> R) (finalOffset p : nat) (nModels : nat) :
  forall res : nat -> R,
  (forall i, (i < nModels)%nat ->
     Forall (fun e : nat * nat * R => (nth i _dofOffset 0 + e.1.1)%nat <> p) (nth i _jacNF [])) ->
  fold_left (fun res i =>
               multiplyAdd radd rmul (nth i _jacNF []) y finalOffset
                 res (nth i _dofOffset 0%nat))
            (seq 0 nModels) res p
  = res p.
Proof.
  induction nModels as [|n IH]; intros res H; [reflexivity|].
  rewrite seq_S, fold_left_app. simpl.
  rewrite multiplyAdd_untouched by (apply H; lia).
  apply IH. intros i Hi. apply H. lia.
Qed.

Lemma outboundSum_S (_dofOffset : list nat) (_jacFN : list (@SparseMatrix R))
    (n k : nat) (y : nat -> R) :
  outboundSum radd rmul rO _dofOffset _jacFN (S n) k y
  = outboundSum radd rmul rO _dofOffset _jacFN n k y
    + rowProduct radd rmul rO (nth n _jacFN []) k y (nth n _dofOffset 0%nat).
Proof.
  unfold outboundSum. rewrite seq_S, fold_right_app. simpl.
  generalize (rowProduct radd rmul rO (nth n _jacFN []) k y (nth n _dofOffset 0%nat)).
  intros b. induction (seq 0 n) as [|i l IH]; simpl.
  - ring.
  - rewrite IH. ring.
Qed.

Lemma outbound_loop_row (_dofOffset : list nat) (_jacFN : list (@SparseMatrix R))
    (y : nat -> R) (finalOffset k : nat) (nModels : nat) :
  forall res : nat -> R,
  fold_left (fun res i =>
               multiplyAdd radd rmul (nth i _jacFN []) y (nth i _dofOffset 0%nat) res finalOffset)
            (seq 0 nModels) res (finalOffset + k)%nat
  = res (finalOffset + k)%nat + outboundSum radd rmul rO _dofOffset _jacFN nModels k y.
Proof.
  induction nModels as [|n IH]; intros res.
  - simpl. unfold outboundSum. simpl. ring.
  - rewrite seq_S, fold_left_app. simpl. rewrite multiplyAdd_row, IH, outboundSum_S. ring.
Qed.

(** With exact arithmetic on the scalars, row [k] of the coupling block
    of the residual is [y[coupling][k]] plus row [k] of the sum over the
    units of [_jacFN[i] * y[unit i]]; so it is zero when [y[coupling][k]]
    is the opposite of that sum. *)
Lemma coupling_rows_exact (_dofOffset : list nat) (nCoupling nModels : nat)
    (_jacNF _jacFN : list (@SparseMatrix R)) (y res : nat -> R) (k : nat) :
  inboundRowsInsideUnits _dofOffset nModels _jacNF ->
  (k < nCoupling)%nat ->
  let finalOffset := List.last _dofOffset 0%nat in
  let res' := residualConnectUnitOps radd rmul _dofOffset nCoupling nModels _jacNF _jacFN y res in
  res' (finalOffset + k)%nat
  = y (finalOffset + k)%nat + outboundSum radd rmul rO _dofOffset _jacFN nModels k y
  /\ (y (finalOffset + k)%nat = ropp (outboundSum radd rmul rO _dofOffset _jacFN nModels k y) ->
      res' (finalOffset + k)%nat = rO).
Proof.
  intros Hin Hk finalOffset res'.
  assert (Hrow : res' (finalOffset + k)%nat
                 = y (finalOffset + k)%nat
                   + outboundSum radd rmul rO _dofOffset _jacFN nModels k y).
  { subst res'. unfold residualConnectUnitOps. fold finalOffset.
    rewrite outbound_loop_row. f_equal.
    rewrite inbound_loop_untouched.
    - apply copyCoupling_inside. exact Hk.
    - intros i Hi. specialize (Hin i Hi). fold finalOffset in Hin.
      eapply Forall_impl; [exact Hin|]. intros e He. simpl in He. lia. }
  split; [exact Hrow|]. intros Hy. rewrite Hrow, Hy. ring.
Qed.

End CouplingResidualFacts.

(** The coupling rows in the arithmetic of the scalars, whatever its
    laws. *)
Section CouplingResidualRows.

Context {R : Type} (radd rmul : R -> R -> R).

Lemma rowAccumulate_other (A : @SparseMatrix R) (k : nat) (x : nat -> R) (xOffset : nat) :
  forall acc : R,
  Forall (fun e : nat * nat * R => e.1.1 <> k) A ->
  rowAccumulate radd rmul A k x xOffset acc = acc.
Proof.
  unfold rowAccumulate. induction A as [|[[row col] v] A IH]; intros acc H; [reflexivity|].
  apply Forall_cons in H as [Hhd Htl]. simpl in Hhd. simpl.
  destruct (Nat.eqb_spec row k); [contradiction | apply IH; exact Htl].
Qed.

Lemma rowAccumulate_ext (A : @SparseMatrix R) (k : nat) (x1 x2 : nat -> R) (xOffset : nat) :
  forall acc : R,
  Forall (fun e : nat * nat * R => x1 (xOffset + e.1.2)%nat = x2 (xOffset + e.1.2)%nat) A ->
  rowAccumulate radd rmul A k x1 xOffset acc = rowAccumulate radd rmul A k x2 xOffset acc.
Proof.
  unfold rowAccumulate. induction A as [|[[row col] v] A IH]; intros acc H; [reflexivity|].
  apply Forall_cons in H as [Hhd Htl]. simpl in Hhd. simpl. rewrite Hhd. apply IH. exact Htl.
Qed.

Lemma multiplyAdd_row_accumulate (A : @SparseMatrix R) (x : nat -> R) (xOffset yOffset k : nat) :
  forall y : nat -> R,
  multiplyAdd radd rmul A x xOffset y yOffset (yOffset + k)
  = rowAccumulate radd rmul A k x xOffset (y (yOffset + k)%nat).
Proof.
  unfold multiplyAdd, rowAccumulate.
  induction A as [|[[row col] v] A IH]; intros y; [reflexivity|]. simpl.
  rewrite IH. destruct (Nat.eqb_spec row k) as [->|Hne].
  - rewrite store_same. reflexivity.
  - rewrite store_other by lia. reflexivity.
Qed.

Lemma outbound_loop_accumulate (_dofOffset : list nat) (_jacFN : list (@SparseMatrix R))
    (y : nat -> R) (finalOffset k : nat) (nModels : nat) :
  forall res : nat -> R,
  fold_left (fun res i =>
               multiplyAdd radd rmul (nth i _jacFN []) y (nth i _dofOffset 0%nat) res finalOffset)
            (seq 0 nModels) res (finalOffset + k)%nat
  = outboundAccumulate radd rmul _dofOffset _jacFN nModels k y (res (finalOffset + k)%nat).
Proof.
  unfold outboundAccumulate. induction nModels as [|n IH]; intros res; [reflexivity|].
  rewrite !seq_S, !fold_left_app. simpl. rewrite multiplyAdd_row_accumulate, IH. reflexivity.
Qed.

Lemma outboundAccumulate_other (_dofOffset : list nat) (_jacFN : list (@SparseMatrix R))
    (y : nat -> R) (k : nat) (nModels : nat) (acc : R) :
  (forall i, (i < nModels)%nat ->
     Forall (fun e : nat * nat * R => e.1.1 <> k) (nth i _jacFN [])) ->
  outboundAccumulate radd rmul _dofOffset _jacFN nModels k y acc = acc.
Proof.
  unfold outboundAccumulate. induction nModels as [|n IH]; intros H; [reflexivity|].
  rewrite seq_S, fold_left_app. simpl. rewrite IH by (intros i Hi; apply H; lia).
  apply rowAccumulate_other. apply H. lia.
Qed.

End CouplingResidualRows.

(** C3, as stated, fails in the arithmetic of [double]: two sources with
    one DOF each feed a unit with the weights [1/3] and [2/3]; all outlet
    values are [1.0], and so is the coupling value, which is the
    combination of the outlet values with these weights and the opposite
    of the sum of the outbound products. Row 0 of the coupling block of
    the residual is about [1.1e-16]: it is neither zero nor the coupling
    value plus that sum. *)
Lemma C3_rounding_counterexample :
  let _dofOffset := [0; 1; 2; 3]%nat in
  let _jacNF : list FloatMatrix := [[]; []; [(0%nat, 0%nat, (-1)%float)]] in
  let _jacFN : list FloatMatrix :=
    [[(0%nat, 0%nat, (- (1 / 3))%float)]; [(0%nat, 0%nat, (- (2 / 3))%float)]; []] in
  let y (i : nat) : float := nth i [1; 1; 1; 1]%float 0%float in
  let sum := outboundSum PrimFloat.add PrimFloat.mul 0%float _dofOffset _jacFN 3 0 y in
  let res' := residualConnectUnitOps PrimFloat.add PrimFloat.mul _dofOffset 1 3 _jacNF _jacFN y
                (fun _ => 0%float) in
  inboundRowsInsideUnits _dofOffset 3 _jacNF
  /\ y 3%nat = (1 / 3 * y 0%nat + 2 / 3 * y 1%nat)%float
  /\ y 3%nat = (- sum)%float
  /\ (res' 3%nat =? 0)%float = false
  /\ (res' 3%nat =? y 3%nat + sum)%float = false.
Proof.
  intros _dofOffset _jacNF _jacFN y sum res'. split.
  - intros [|[|[|i]]] Hi; [constructor | constructor | repeat constructor | lia].
  - repeat split; vm_compute; reflexivity.
Qed.

(** C3 (amended): for every state vector [y] and in the arithmetic of the
    scalars the code runs on ([double] with its rounding, or the dual
    numbers), row [k] of the coupling block of the residual that
    [residualConnectUnitOps] leaves is what the coupling value
    [y[coupling][k]] becomes when the products of the entries of row [k]
    of the outbound matrices with the state values of their units are
    added to it one after the other, in the order of the units and of the
    stored entries, whatever the residual held before; it is the coupling
    value itself when no outbound entry lies in row [k]. In exact
    arithmetic (the scalars form a ring) this is [y[coupling][k]] plus
    row [k] of the sum over the units of [_jacFN[i] * y[unit i]], and it
    is zero whenever [y[coupling][k]] is the opposite of that sum, the
    combination of the outlet values weighted by the flow rates. *)
Theorem C3_coupling_rows_of_residual {R : Type} (radd rmul : R -> R -> R)
    (_dofOffset : list nat) (nCoupling nModels : nat)
    (_jacNF _jacFN : list (@SparseMatrix R)) (y res : nat -> R) (k : nat) :
  inboundRowsInsideUnits _dofOffset nModels _jacNF ->
  (k < nCoupling)%nat ->
  let finalOffset := List.last _dofOffset 0%nat in
  let res' := residualConnectUnitOps radd rmul _dofOffset nCoupling nModels _jacNF _jacFN y res in
  res' (finalOffset + k)%nat
  = outboundAccumulate radd rmul _dofOffset _jacFN nModels k y (y (finalOffset + k)%nat)
  /\ ((forall i, (i < nModels)%nat ->
         Forall (fun e : nat * nat * R => e.1.1 <> k) (nth i _jacFN [])) ->
      res' (finalOffset + k)%nat = y (finalOffset + k)%nat)
  /\ (forall (rO rI : R) (rsub : R -> R -> R) (ropp : R -> R),
        ring_theory rO rI radd rmul rsub ropp eq ->
        res' (finalOffset + k)%nat
        = radd (y (finalOffset + k)%nat)
               (outboundSum radd rmul rO _dofOffset _jacFN nModels k y)
        /\ (y (finalOffset + k)%nat
            = ropp (outboundSum radd rmul rO _dofOffset _jacFN nModels k y) ->
            res' (finalOffset + k)%nat = rO)).
Proof.
  intros Hin Hk finalOffset res'.
  assert (Hrow : res' (finalOffset + k)%nat
                 = outboundAccumulate radd rmul _dofOffset _jacFN nModels k y
                     (y (finalOffset + k)%nat)).
  { subst res'. unfold residualConnectUnitOps. fold finalOffset.
    rewrite outbound_loop_accumulate. f_equal.
    rewrite inbound_loop_untouched.
    - apply copyCoupling_inside. exact Hk.
    - intros i Hi. specialize (Hin i Hi). fold finalOffset in Hin.
      eapply Forall_impl; [exact Hin|]. intros e He. simpl in He. lia. }
  split; [exact Hrow|]. split.
  - intros Hnone. rewrite Hrow. apply outboundAccumulate_other. exact Hnone.
  - intros rO rI rsub ropp Rth.
    exact (coupling_rows_exact rO rI radd rmul rsub ropp Rth _dofOffset nCoupling nModels
             _jacNF _jacFN y res k Hin Hk).
Qed.

(** A source with two components feeding a unit with three DOFs, in
    [double]: the weights are [-1.0], the coupling values equal the
    outlet values, and the coupling rows of the residual are zero. *)
Lemma C3_coupling_rows_of_residual_witness :
  let _dofOffset := [0; 2; 5]%nat in
  let _jacNF : list FloatMatrix :=
    [[]; [(0%nat, 0%nat, (-1)%float); (1%nat, 1%nat, (-1)%float)]] in
  let _jacFN : list FloatMatrix :=
    [[(0%nat, 0%nat, (-1)%float); (1%nat, 1%nat, (-1)%float)]; []] in
  let y (i : nat) : float := nth i [3; 4; 3; 4; 9; 3; 4]%float 0%float in
  let res' := residualConnectUnitOps PrimFloat.add PrimFloat.mul _dofOffset 2 2 _jacNF _jacFN y
                (fun _ => 7%float) in
  inboundRowsInsideUnits _dofOffset 2 _jacNF
  /\ res' 5%nat = 0%float /\ res' 6%nat = 0%float.
Proof.
  intros _dofOffset _jacNF _jacFN y res'.
  assert (Hin : inboundRowsInsideUnits _dofOffset 2 _jacNF).
  { intros [|[|i]] Hi; [constructor | repeat constructor | lia]. }
  split; [exact Hin|].
  pose proof (C3_coupling_rows_of_residual PrimFloat.add PrimFloat.mul _dofOffset 2 2
                _jacNF _jacFN y (fun _ => 7%float)) as H.
  split.
  - refine (eq_trans (proj1 (H 0%nat Hin _)) _); [lia | vm_compute; reflexivity].
  - refine (eq_trans (proj1 (H 1%nat Hin _)) _); [lia | vm_compute; reflexivity].
Defined.

(** ** Initial conditions *)

Lemma delegateInitialCondition_scopes
    (unitApply : IUnitOperation -> string -> nat -> list float * list float -> list float * list float)
    (_dofOffset : list nat) (models : list IUnitOperation) :
  forall (i : nat) (ic : InitialCondition),
  delegatedScopes (delegateInitialCondition unitApply _dofOffset i models ic)
  = delegatedScopes ic ++ unitScopesFrom _dofOffset i models.
Proof.
  induction models as [|m rest IH]; intros i ic; simpl.
  - rewrite app_nil_r. reflexivity.
  - destruct (unitApply m (unitScope m) _ _) as [y yDot]. rewrite IH. simpl.
    rewrite <- app_assoc. reflexivity.
Qed.

Lemma delegateInitialCondition_vectors
    (unitApply : IUnitOperation -> string -> nat -> list float * list float -> list float * list float)
    (_dofOffset : list nat) (models : list IUnitOperation) :
  forall (i : nat) (ic : InitialCondition),
  let r := delegateInitialCondition unitApply _dofOffset i models ic in
  (vecStateY r, vecStateYdot r)
  = fold_left (fun v u => unitApply u.1 (unitScope u.1) u.2 v)
              (unitsWithOffsets _dofOffset i models) (vecStateY ic, vecStateYdot ic).
Proof.
  induction models as [|m rest IH]; intros i ic; simpl; [reflexivity|].
  destruct (unitApply m (unitScope m) _ _) as [y yDot] eqn:E. rewrite IH. reflexivity.
Qed.

Lemma unitScopesFrom_units (_dofOffset : list nat) (models : list IUnitOperation) :
  forall i : nat,
  unitScopesFrom _dofOffset i models
  = map (fun u : IUnitOperation * nat => (unitScope u.1, u.2))
        (unitsWithOffsets _dofOffset i models).
Proof.
  induction models as [|m rest IH]; intros i; simpl; [reflexivity|]. rewrite IH. reflexivity.
Qed.

(** The last unit decides the vectors when the units return vectors of
    their own. *)
Lemma fold_constant_units (v c : list float * list float) (units : list (IUnitOperation * nat)) :
  units <> [] ->
  fold_left (fun (w : list float * list float) (u : IUnitOperation * nat) => c) units v = c.
Proof.
  intros Hne. destruct units as [|u units]; [contradiction|]. simpl. clear Hne.
  induction units as [|u' units IH]; [reflexivity | exact IH].
Qed.

(** C10: [applyInitialCondition] with a parameter provider leaves the
    units out exactly when [INIT_STATE_Y] exists with at least [numDofs]
    entries (there being a unit): its first [numDofs] entries are then
    the state vector, no unit is called, and the vectors are the same
    whatever the units would do. Otherwise [INIT_STATE_Y] leaves the
    state vector as it is and every unit is called, in the order of the
    units, in its scope and at its offset, on the vectors that the unit
    before it has left: the vectors returned are those of the last
    unit. [INIT_STATE_YDOT] with at least [numDofs] entries overwrites the
    derivative vector in both cases, before any unit is called, and has
    no part in the decision. *)
Theorem C10_initial_condition
    (unitApply : IUnitOperation -> string -> nat -> list float * list float -> list float * list float)
    (models : list IUnitOperation) (lay : Layout) (paramProvider : InitialStateProvider)
    (y0 yDot0 : list float) :
  let n := numDofs lay in
  let yDot1 := derivativeGiven n paramProvider yDot0 in
  let vectors unitApply :=
    let r := applyInitialCondition unitApply models lay paramProvider y0 yDot0 in
    (vecStateY r, vecStateYdot r) in
  let r := applyInitialCondition unitApply models lay paramProvider y0 yDot0 in
  (fullStateGiven n paramProvider = true ->
     exists initState, INIT_STATE_Y paramProvider = Some initState
       /\ (n <= length initState)%nat
       /\ r = BuildInitialCondition (take n initState ++ drop n y0) yDot1 [])
  /\ (fullStateGiven n paramProvider = false ->
      (vecStateY r, vecStateYdot r)
      = fold_left (fun v u => unitApply u.1 (unitScope u.1) u.2 v)
                  (unitsWithOffsets (_dofOffset lay) 0 models) (y0, yDot1)
      /\ delegatedScopes r = unitScopesFrom (_dofOffset lay) 0 models
      /\ delegatedScopes r
         = map (fun u : IUnitOperation * nat => (unitScope u.1, u.2))
               (unitsWithOffsets (_dofOffset lay) 0 models)
      /\ length (delegatedScopes r) = length models)
  /\ (models <> [] -> (delegatedScopes r = [] <-> fullStateGiven n paramProvider = true))
  /\ (models <> [] ->
      ((forall unitApply', vectors unitApply' = vectors unitApply)
       <-> fullStateGiven n paramProvider = true))
  /\ (forall initState, INIT_STATE_YDOT paramProvider = Some initState ->
        (n <= length initState)%nat -> yDot1 = take n initState ++ drop n yDot0).
Proof.
  intros n yDot1 vectors r.
  assert (Hlen : forall offs i ms, length (unitScopesFrom offs i ms) = length ms).
  { intros offs i ms. revert i. induction ms as [|m ms IH]; intros i; simpl; [reflexivity|].
    rewrite IH. reflexivity. }
  assert (Hgiven : forall ua, fullStateGiven n paramProvider = true ->
            exists initState, INIT_STATE_Y paramProvider = Some initState
              /\ (n <= length initState)%nat
              /\ applyInitialCondition ua models lay paramProvider y0 yDot0
                 = BuildInitialCondition (take n initState ++ drop n y0) yDot1 []).
  { unfold fullStateGiven. intros ua H. subst yDot1. unfold applyInitialCondition, derivativeGiven.
    fold n. destruct (INIT_STATE_Y paramProvider) as [init|]; [|discriminate].
    exists init. rewrite H. apply Nat.leb_le in H. auto. }
  assert (Hnot : forall ua, fullStateGiven n paramProvider = false ->
            applyInitialCondition ua models lay paramProvider y0 yDot0
            = delegateInitialCondition ua (_dofOffset lay) 0 models
                (BuildInitialCondition y0 yDot1 [])).
  { unfold fullStateGiven. intros ua H. subst yDot1. unfold applyInitialCondition, derivativeGiven.
    fold n. destruct (INIT_STATE_Y paramProvider) as [init|]; [rewrite H|]; reflexivity. }
  assert (Hvec : forall ua, fullStateGiven n paramProvider = false ->
            vectors ua
            = fold_left (fun v u => ua u.1 (unitScope u.1) u.2 v)
                        (unitsWithOffsets (_dofOffset lay) 0 models) (y0, yDot1)).
  { intros ua H. subst vectors. cbv beta zeta. rewrite (Hnot ua H).
    apply (delegateInitialCondition_vectors ua (_dofOffset lay) models 0
             (BuildInitialCondition y0 yDot1 [])). }
  split; [exact (Hgiven unitApply)|]. split; [|split; [|split]].
  - intros H. split; [exact (Hvec unitApply H)|]. subst r. rewrite (Hnot unitApply H).
    rewrite delegateInitialCondition_scopes. simpl.
    split; [reflexivity|]. split; [apply unitScopesFrom_units | apply Hlen].
  - intros Hne. split.
    + intros Hnil. destruct (fullStateGiven n paramProvider) eqn:E; [reflexivity|].
      exfalso. subst r. rewrite (Hnot unitApply eq_refl), delegateInitialCondition_scopes in Hnil.
      simpl in Hnil. apply (f_equal length) in Hnil. rewrite Hlen in Hnil.
      destruct models; [contradiction | discriminate].
    + intros H. subst r. destruct (Hgiven unitApply H) as (init & _ & _ & ->). reflexivity.
  - intros Hne. split.
    + intros Hsame. destruct (fullStateGiven n paramProvider) eqn:E; [reflexivity|].
      exfalso.
      assert (Hunits : unitsWithOffsets (_dofOffset lay) 0 models <> []).
      { destruct models; [contradiction | discriminate]. }
      pose proof (Hsame (fun _ _ _ _ => ([], []))) as H1.
      pose proof (Hsame (fun _ _ _ _ => ([0%float], []))) as H2.
      rewrite (Hvec _ eq_refl) in H1. rewrite (Hvec _ eq_refl) in H2.
      rewrite (fold_constant_units _ _ _ Hunits) in H1.
      rewrite (fold_constant_units _ _ _ Hunits) in H2.
      rewrite <- H2 in H1. discriminate.
    + intros H ua. subst vectors. cbv beta zeta.
      destruct (Hgiven ua H) as (init & Hi & _ & ->).
      destruct (Hgiven unitApply H) as (init' & Hi' & _ & ->). congruence.
  - intros init Hi Hl. subst yDot1. unfold derivativeGiven. rewrite Hi.
    apply Nat.leb_le in Hl. rewrite Hl. reflexivity.
Qed.

(** Three DOFs and two units, each of which writes [9.0] to the first
    DOF of its block: a full [INIT_STATE_Y] is copied and no unit is
    called; a short one is ignored, both units are called and write to
    their blocks, and [INIT_STATE_YDOT] is copied all the same. *)
Lemma C10_initial_condition_witness :
  let inlet := UnitOp.Build 0 1 1 false true false 0 1 0 1 in
  let outlet := UnitOp.Build 12 1 1 true false false 0 1 0 1 in
  let models := [inlet; outlet] in
  let lay := rebuildInternalDataStructures models [] in
  let mark := fun (_ : IUnitOperation) (_ : string) (offset : nat) (v : list float * list float) =>
                (<[offset := 9%float]> v.1, v.2) in
  let short := BuildInitProvider (Some [1; 2]%float) (Some [7; 8; 9; 6]%float) in
  let full := BuildInitProvider (Some [1; 2; 3; 4]%float) None in
  numDofs lay = 3%nat
  /\ applyInitialCondition mark models lay full [0; 0; 0]%float [5; 5; 5]%float
     = BuildInitialCondition [1; 2; 3]%float [5; 5; 5]%float []
  /\ applyInitialCondition mark models lay short [0; 0; 0]%float [5; 5; 5]%float
     = BuildInitialCondition [9; 9; 0]%float [7; 8; 9]%float
         [("unit_000"%string, 0%nat); ("unit_012"%string, 1%nat)].
Proof.
  intros inlet outlet models lay mark short full.
  assert (Hn : numDofs lay = 3%nat) by reflexivity.
  split; [exact Hn|].
  destruct (C10_initial_condition mark models lay full [0; 0; 0]%float [5; 5; 5]%float)
    as (Hfull & _).
  destruct (C10_initial_condition mark models lay short [0; 0; 0]%float [5; 5; 5]%float)
    as (_ & Hshort & _).
  split.
  - destruct (Hfull eq_refl) as (init & Hi & _ & Hr). rewrite Hr.
    injection Hi as <-. reflexivity.
  - destruct (Hshort eq_refl) as (Hvec & Hscopes & _).
    destruct (applyInitialCondition mark models lay short [0; 0; 0]%float [5; 5; 5]%float)
      as [y yDot scopes].
    simpl in Hvec, Hscopes. injection Hvec as -> ->. rewrite Hscopes. reflexivity.
Defined.

(* ===================================================================== *)
(** * Part III: further properties of the model system *)
(* ===================================================================== *)

(** ** Adding and removing unit operations *)

Lemma indexOfUnitOp_known (models : list IUnitOperation) (id : nat) :
  (indexOfUnitOp models id <? length models)%nat = true
  <-> exists m, m ∈ models /\ UnitOp.unitOperationId m = id.
Proof.
  destruct (indexOfUnitOp_lookup models id) as [Hr Hl]. rewrite Nat.ltb_lt. split.
  - intros H. destruct (lookup_lt_is_Some_2 models _ H) as [m Hm].
    exists m. split; [eapply list_elem_of_lookup_2; exact Hm|].
    rewrite Hl in Hm. clear -Hm. induction models as [|x ms IH]; simpl in Hm; [discriminate|].
    destruct (Nat.eqb_spec (UnitOp.unitOperationId x) id); [congruence | auto].
  - intros (m & Hin & Hid). apply lookup_lt_is_Some_1. rewrite Hl.
    destruct (getUnitOperationModel_Some models id m Hin Hid) as (m' & Hm' & _). eauto.
Qed.

Lemma getUnitOperationModel_snoc (models : list IUnitOperation) (u : IUnitOperation) (id : nat) :
  getUnitOperationModel (models ++ [u]) id
  = match getUnitOperationModel models id with
    | Some m => Some m
    | None => if Nat.eqb (UnitOp.unitOperationId u) id then Some u else None
    end.
Proof.
  induction models as [|x ms IH]; simpl; [reflexivity|].
  destruct (Nat.eqb (UnitOp.unitOperationId x) id); [reflexivity | exact IH].
Qed.

(** X1: [addModel] throws exactly when a model with the id of the new
    unit operation is there already; otherwise it appends the unit
    operation, and the unit operation ids stay pairwise distinct. *)
Theorem addModel_keeps_ids_unique (sys : ModelCollection) (unitOp : IUnitOperation) :
  NoDup (map UnitOp.unitOperationId (_models sys)) ->
  match addModel sys unitOp with
  | ExistingUnitOperationId id =>
      id = UnitOp.unitOperationId unitOp
      /\ exists m, m ∈ _models sys /\ UnitOp.unitOperationId m = id
  | ModelAdded sys' =>
      (forall m, m ∈ _models sys -> UnitOp.unitOperationId m <> UnitOp.unitOperationId unitOp)
      /\ _models sys' = _models sys ++ [unitOp]
      /\ NoDup (map UnitOp.unitOperationId (_models sys'))
  end.
Proof.
  intros Hnd. unfold addModel.
  destruct (indexOfUnitOp (_models sys) (UnitOp.unitOperationId unitOp) <? length (_models sys))%nat
    eqn:E.
  - split; [reflexivity|]. apply indexOfUnitOp_known. exact E.
  - assert (Hfresh : forall m, m ∈ _models sys ->
                       UnitOp.unitOperationId m <> UnitOp.unitOperationId unitOp).
    { intros m Hm Hid.
      assert (true = false); [|discriminate]. rewrite <- E. symmetry.
      apply indexOfUnitOp_known. eauto. }
    simpl. split; [exact Hfresh|]. split; [reflexivity|].
    rewrite map_app. simpl. apply NoDup_app. split; [exact Hnd|]. split.
    + intros id Hid Hin. apply list_elem_of_fmap in Hid as (m & -> & Hm).
      apply list_elem_of_singleton in Hin. exact (Hfresh m Hm Hin).
    + apply NoDup_singleton.
Qed.

(** Two units with distinct ids. *)
Lemma addModel_keeps_ids_unique_witness :
  let inlet := UnitOp.Build 4 2 2 false true false 0 1 0 1 in
  let column := UnitOp.Build 9 2 50 true true false 0 1 48 1 in
  NoDup (map UnitOp.unitOperationId [inlet])
  /\ NoDup (map UnitOp.unitOperationId [inlet; column])
  /\ exists m, m ∈ [inlet] /\ UnitOp.unitOperationId m = 4%nat.
Proof.
  intros inlet column.
  assert (Hnd : NoDup (map UnitOp.unitOperationId [inlet])) by apply NoDup_singleton.
  split; [exact Hnd|]. split.
  - exact (proj2 (proj2 (addModel_keeps_ids_unique (BuildCollection [inlet] []) column Hnd))).
  - exact (proj2 (addModel_keeps_ids_unique (BuildCollection [inlet] []) inlet Hnd)).
Defined.

(** X2: after [addModel] the new unit operation is found under its id and
    at the last array index, and every other lookup gives what it gave
    before. *)
Theorem addModel_then_lookup (sys sys' : ModelCollection) (unitOp : IUnitOperation) :
  addModel sys unitOp = ModelAdded sys' ->
  getUnitOperationModel (_models sys') (UnitOp.unitOperationId unitOp) = Some unitOp
  /\ getModel (_models sys') (numModels (_models sys)) = Some unitOp
  /\ numModels (_models sys') = S (numModels (_models sys))
  /\ (forall id, id <> UnitOp.unitOperationId unitOp ->
        getUnitOperationModel (_models sys') id = getUnitOperationModel (_models sys) id)
  /\ (forall i, (i < numModels (_models sys))%nat ->
        getModel (_models sys') i = getModel (_models sys) i).
Proof.
  unfold addModel, numModels.
  destruct (indexOfUnitOp (_models sys) (UnitOp.unitOperationId unitOp) <? length (_models sys))%nat
    eqn:E; [discriminate|].
  intros [= <-]. simpl.
  assert (Hnone : getUnitOperationModel (_models sys) (UnitOp.unitOperationId unitOp) = None).
  { apply getUnitOperationModel_None. intros m Hm Hid.
    assert (true = false); [|discriminate]. rewrite <- E. symmetry.
    apply indexOfUnitOp_known. eauto. }
  split; [rewrite getUnitOperationModel_snoc, Hnone, Nat.eqb_refl; reflexivity|].
  split.
  { unfold getModel. rewrite length_app. simpl.
    replace (length (_models sys) <? length (_models sys) + 1)%nat with true
      by (symmetry; apply Nat.ltb_lt; lia).
    rewrite lookup_app_r by lia. rewrite Nat.sub_diag. reflexivity. }
  split; [rewrite length_app; simpl; lia|]. split.
  - intros id Hid. rewrite getUnitOperationModel_snoc.
    destruct (getUnitOperationModel (_models sys) id); [reflexivity|].
    destruct (Nat.eqb_spec (UnitOp.unitOperationId unitOp) id); [congruence | reflexivity].
  - intros i Hi. unfold getModel. rewrite length_app. simpl.
    replace (i <? length (_models sys) + 1)%nat with true by (symmetry; apply Nat.ltb_lt; lia).
    replace (i <? length (_models sys))%nat with true by (symmetry; apply Nat.ltb_lt; lia).
    apply lookup_app_l. exact Hi.
Qed.

(** A column added to a system that holds an inlet. *)
Lemma addModel_then_lookup_witness :
  let inlet := UnitOp.Build 4 2 2 false true false 0 1 0 1 in
  let column := UnitOp.Build 9 2 50 true true false 0 1 48 1 in
  addModel (BuildCollection [inlet] []) column = ModelAdded (BuildCollection [inlet; column] [1%nat])
  /\ getUnitOperationModel [inlet; column] 9 = Some column
  /\ getModel [inlet; column] 1 = Some column.
Proof.
  intros inlet column.
  assert (H : addModel (BuildCollection [inlet] []) column
              = ModelAdded (BuildCollection [inlet; column] [1%nat])) by reflexivity.
  split; [exact H|].
  destruct (addModel_then_lookup _ _ _ H) as (H1 & H2 & _). split; [exact H1 | exact H2].
Defined.

Lemma inOutIndicesFrom_snoc (models : list IUnitOperation) (u : IUnitOperation) :
  forall i,
  inOutIndicesFrom i (models ++ [u])
  = inOutIndicesFrom i models
    ++ (if UnitOp.hasInlet u && UnitOp.hasOutlet u then [(i + length models)%nat] else []).
Proof.
  induction models as [|m ms IH]; intros i; simpl.
  - rewrite Nat.add_0_r. destruct (_ && _); reflexivity.
  - rewrite IH. replace (S i + length ms)%nat with (i + S (length ms))%nat by lia.
    destruct (UnitOp.hasInlet m && UnitOp.hasOutlet m); reflexivity.
Qed.

Lemma inOutIndicesFrom_elem (models : list IUnitOperation) :
  forall i j,
  j ∈ inOutIndicesFrom i models
  <-> exists m, (i <= j)%nat /\ models !! (j - i)%nat = Some m
                /\ UnitOp.hasInlet m = true /\ UnitOp.hasOutlet m = true.
Proof.
  induction models as [|m ms IH]; intros i j; simpl.
  - split; [intros H; inversion H | intros (m & _ & H & _); discriminate].
  - assert (Hrest : j ∈ inOutIndicesFrom (S i) ms
                    <-> exists x, (S i <= j)%nat /\ (m :: ms) !! (j - i)%nat = Some x
                                  /\ UnitOp.hasInlet x = true /\ UnitOp.hasOutlet x = true).
    { rewrite IH. split; intros (x & Hle & Hx & Hio); exists x; (split; [lia|]);
        (split; [|exact Hio]).
      - replace (j - i)%nat with (S (j - S i)) by lia. exact Hx.
      - replace (j - i)%nat with (S (j - S i)) in Hx by lia. exact Hx. }
    destruct (UnitOp.hasInlet m && UnitOp.hasOutlet m) eqn:E.
    + rewrite elem_of_cons, Hrest. apply andb_true_iff in E as [E1 E2]. split.
      * intros [->|(x & Hle & Hx)]; [|exists x; split; [lia | exact Hx]].
        exists m. rewrite Nat.sub_diag. auto.
      * intros (x & Hle & Hx & Hio). destruct (Nat.eq_dec j i) as [->|Hne]; [left; reflexivity|].
        right. exists x. split; [lia | auto].
    + rewrite Hrest. split.
      * intros (x & Hle & Hx). exists x. split; [lia | exact Hx].
      * intros (x & Hle & Hx & H1 & H2). destruct (Nat.eq_dec j i) as [->|Hne].
        -- rewrite Nat.sub_diag in Hx. injection Hx as <-. rewrite H1, H2 in E. discriminate.
        -- exists x. split; [lia | auto].
Qed.

Lemma inOutIndicesFrom_sorted (models : list IUnitOperation) :
  forall i, StronglySorted lt (inOutIndicesFrom i models).
Proof.
  induction models as [|m ms IH]; intros i; simpl; [constructor|].
  destruct (UnitOp.hasInlet m && UnitOp.hasOutlet m); [|apply IH].
  constructor; [apply IH|]. apply Forall_forall. intros j Hj.
  apply inOutIndicesFrom_elem in Hj as (x & Hle & _). lia.
Qed.

(** X3: in a collection built by [addModel] calls alone, [_inOutModels]
    lists the array indices of the models with an inlet and an outlet,
    each once and in increasing order. *)
Theorem addModels_inOutModels (unitOps : list IUnitOperation) :
  forall sys sys' : ModelCollection,
  _inOutModels sys = inOutIndicesFrom 0 (_models sys) ->
  addModels sys unitOps = ModelAdded sys' ->
  _models sys' = _models sys ++ unitOps
  /\ StronglySorted lt (_inOutModels sys')
  /\ (forall j, j ∈ _inOutModels sys'
        <-> exists m, _models sys' !! j = Some m
                      /\ UnitOp.hasInlet m = true /\ UnitOp.hasOutlet m = true).
Proof.
  assert (Hgen : forall sys sys' : ModelCollection,
            _inOutModels sys = inOutIndicesFrom 0 (_models sys) ->
            addModels sys unitOps = ModelAdded sys' ->
            _models sys' = _models sys ++ unitOps
            /\ _inOutModels sys' = inOutIndicesFrom 0 (_models sys')
            /\ (forall j, j ∈ _inOutModels sys'
                  <-> exists m, _models sys' !! j = Some m
                                /\ UnitOp.hasInlet m = true /\ UnitOp.hasOutlet m = true));
    [|intros sys sys' Hinv H; destruct (Hgen sys sys' Hinv H) as (H1 & H2 & H3);
      split; [exact H1|]; split; [rewrite H2; apply inOutIndicesFrom_sorted | exact H3]].
  induction unitOps as [|u rest IH]; intros sys sys' Hinv H; simpl in H.
  - injection H as <-. rewrite app_nil_r. split; [reflexivity|]. split; [exact Hinv|].
    intros j. rewrite Hinv, inOutIndicesFrom_elem. rewrite Nat.sub_0_r.
    split; intros (m & Hm); exists m; [tauto | split; [lia | tauto]].
  - destruct (addModel sys u) as [sys1|id] eqn:E; [|discriminate].
    assert (Hsys1 : _models sys1 = _models sys ++ [u]
                    /\ _inOutModels sys1 = inOutIndicesFrom 0 (_models sys1)).
    { unfold addModel in E.
      destruct (indexOfUnitOp (_models sys) (UnitOp.unitOperationId u) <? length (_models sys))%nat;
        [discriminate|].
      injection E as <-. simpl. split; [reflexivity|].
      rewrite inOutIndicesFrom_snoc, Hinv, length_app. simpl.
      replace (length (_models sys) + 1 - 1)%nat with (length (_models sys)) by lia.
      destruct (UnitOp.hasInlet u && UnitOp.hasOutlet u); [reflexivity|].
      rewrite app_nil_r. reflexivity. }
    destruct Hsys1 as [Hm1 Hi1].
    destruct (IH sys1 sys' Hi1 H) as (Hm & Hi & Hel).
    split; [rewrite Hm, Hm1, <- app_assoc; reflexivity|]. split; [exact Hi | exact Hel].
Qed.

(** An inlet, a column and an outlet added to the empty collection. *)
Lemma addModels_inOutModels_witness :
  let inlet := UnitOp.Build 4 2 2 false true false 0 1 0 1 in
  let column := UnitOp.Build 9 2 50 true true false 0 1 48 1 in
  let outlet := UnitOp.Build 2 2 2 true false false 0 1 0 1 in
  exists sys', addModels (BuildCollection [] []) [inlet; column; outlet] = ModelAdded sys'
               /\ _models sys' = [inlet; column; outlet]
               /\ _inOutModels sys' = [1%nat].
Proof.
  intros inlet column outlet.
  destruct (addModels (BuildCollection [] []) [inlet; column; outlet]) as [sys'|id] eqn:E;
    [|vm_compute in E; discriminate].
  exists sys'. split; [reflexivity|].
  destruct (addModels_inOutModels [inlet; column; outlet] (BuildCollection [] []) sys' eq_refl E)
    as (Hm & _ & _).
  split; [exact Hm|]. vm_compute in E. injection E as <-. reflexivity.
Defined.

Lemma eraseUnitOp_spec (models : list IUnitOperation) (id : nat) :
  (eraseUnitOp models id).1 = getUnitOperationModel models id
  /\ (forall id', id' <> id ->
        getUnitOperationModel (eraseUnitOp models id).2 id' = getUnitOperationModel models id')
  /\ (getUnitOperationModel models id = None -> (eraseUnitOp models id).2 = models)
  /\ (is_Some (getUnitOperationModel models id) ->
        S (length (eraseUnitOp models id).2) = length models)
  /\ (NoDup (map UnitOp.unitOperationId models) ->
        getUnitOperationModel (eraseUnitOp models id).2 id = None).
Proof.
  induction models as [|m ms (IH1 & IH2 & IH3 & IH4 & IH5)]; simpl.
  - repeat split; auto. intros [x Hx]. discriminate.
  - destruct (Nat.eqb_spec (UnitOp.unitOperationId m) id) as [E|E]; simpl.
    + split; [reflexivity|]. split.
      { intros id' Hne. destruct (Nat.eqb_spec (UnitOp.unitOperationId m) id'); [lia | reflexivity]. }
      split; [discriminate|]. split; [reflexivity|].
      intros Hnd. apply NoDup_cons in Hnd as [Hnotin _].
      apply getUnitOperationModel_None. intros x Hx Hid. apply Hnotin.
      apply list_elem_of_fmap. exists x. split; [congruence | exact Hx].
    + destruct (eraseUnitOp ms id) as [found rest'] eqn:Er. simpl in *.
      split; [exact IH1|]. split.
      { intros id' Hne. rewrite (IH2 id' Hne). reflexivity. }
      split; [intros H; rewrite (IH3 H); reflexivity|].
      split; [intros H; rewrite <- (IH4 H); reflexivity|].
      intros Hnd. apply NoDup_cons in Hnd as [_ Hnd].
      destruct (Nat.eqb_spec (UnitOp.unitOperationId m) id); [contradiction | apply IH5; exact Hnd].
Qed.

(** X4: [removeModel(UnitOpIdx)] returns the model that
    [getUnitOperationModel] finds (null when there is none, and then
    nothing changes) and erases it; lookups of other ids are not
    affected, and with pairwise distinct ids the removed id is no longer
    found. [_inOutModels] is left as it is. *)
Theorem removeModel_lookup (sys : ModelCollection) (unitOp : nat) :
  let found := (removeModel sys unitOp).1 in
  let sys' := (removeModel sys unitOp).2 in
  found = getUnitOperationModel (_models sys) unitOp
  /\ _inOutModels sys' = _inOutModels sys
  /\ (found = None -> _models sys' = _models sys)
  /\ (is_Some found -> S (numModels (_models sys')) = numModels (_models sys))
  /\ (forall id, id <> unitOp ->
        getUnitOperationModel (_models sys') id = getUnitOperationModel (_models sys) id)
  /\ (NoDup (map UnitOp.unitOperationId (_models sys)) ->
        getUnitOperationModel (_models sys') unitOp = None).
Proof.
  unfold removeModel, numModels.
  destruct (eraseUnitOp_spec (_models sys) unitOp) as (H1 & H2 & H3 & H4 & H5).
  destruct (eraseUnitOp (_models sys) unitOp) as [found models'] eqn:E. simpl in *.
  split; [exact H1|]. split; [reflexivity|].
  split; [intros Hn; apply H3; congruence|].
  split; [intros Hs; apply H4; congruence|]. split; [exact H2 | exact H5].
Qed.

(** An inlet with id 4 and a column with id 9; the inlet is removed. *)
Lemma removeModel_lookup_witness :
  let inlet := UnitOp.Build 4 2 2 false true false 0 1 0 1 in
  let column := UnitOp.Build 9 2 50 true true false 0 1 48 1 in
  let sys := BuildCollection [inlet; column] [1%nat] in
  NoDup (map UnitOp.unitOperationId (_models sys))
  /\ (removeModel sys 4).1 = Some inlet
  /\ getUnitOperationModel (_models (removeModel sys 4).2) 4 = None
  /\ getUnitOperationModel (_models (removeModel sys 4).2) 9 = Some column.
Proof.
  intros inlet column sys.
  assert (Hnd : NoDup (map UnitOp.unitOperationId (_models sys))).
  { simpl. apply NoDup_cons. split; [|apply NoDup_singleton].
    intros H. apply list_elem_of_singleton in H. discriminate. }
  destruct (removeModel_lookup sys 4) as (H1 & _ & _ & _ & H5 & H6).
  split; [exact Hnd|]. split; [exact H1|]. split; [exact (H6 Hnd)|].
  rewrite (H5 9%nat ltac:(lia)). reflexivity.
Defined.

Lemma eraseUnitOp_snoc (models : list IUnitOperation) (u : IUnitOperation) :
  getUnitOperationModel models (UnitOp.unitOperationId u) = None ->
  eraseUnitOp (models ++ [u]) (UnitOp.unitOperationId u) = (Some u, models).
Proof.
  induction models as [|m ms IH]; simpl; intros H.
  - rewrite Nat.eqb_refl. reflexivity.
  - destruct (Nat.eqb (UnitOp.unitOperationId m) (UnitOp.unitOperationId u)); [discriminate|].
    rewrite (IH H). reflexivity.
Qed.

(** X5: removing a unit operation right after it was added gives back
    the models there were before, but not [_inOutModels]: for a unit
    operation with an inlet and an outlet the index it had stays in
    [_inOutModels], where it is no index of a model any more. *)
Theorem addModel_then_removeModel (sys sys' : ModelCollection) (unitOp : IUnitOperation) :
  addModel sys unitOp = ModelAdded sys' ->
  let removed := removeModel sys' (UnitOp.unitOperationId unitOp) in
  removed.1 = Some unitOp
  /\ _models removed.2 = _models sys
  /\ _inOutModels removed.2 = _inOutModels sys'
  /\ (UnitOp.hasInlet unitOp && UnitOp.hasOutlet unitOp = true ->
      numModels (_models sys) ∈ _inOutModels removed.2
      /\ getModel (_models removed.2) (numModels (_models sys)) = None)
  /\ (UnitOp.hasInlet unitOp && UnitOp.hasOutlet unitOp = false ->
      _inOutModels removed.2 = _inOutModels sys).
Proof.
  unfold addModel, numModels.
  destruct (indexOfUnitOp (_models sys) (UnitOp.unitOperationId unitOp) <? length (_models sys))%nat
    eqn:E; [discriminate|].
  intros [= <-]. unfold removeModel. simpl.
  assert (Hnone : getUnitOperationModel (_models sys) (UnitOp.unitOperationId unitOp) = None).
  { apply getUnitOperationModel_None. intros m Hm Hid.
    assert (true = false); [|discriminate]. rewrite <- E. symmetry.
    apply indexOfUnitOp_known. eauto. }
  rewrite (eraseUnitOp_snoc _ _ Hnone). simpl.
  split; [reflexivity|]. split; [reflexivity|]. split; [reflexivity|]. split.
  - intros Hio. rewrite Hio. split.
    + apply elem_of_app. right. rewrite length_app. simpl.
      replace (length (_models sys) + 1 - 1)%nat with (length (_models sys)) by lia. left.
    + unfold getModel. rewrite Nat.ltb_irrefl. reflexivity.
  - intros Hio. rewrite Hio. reflexivity.
Qed.

(** A column added to a system with an inlet and removed again. *)
Lemma addModel_then_removeModel_witness :
  let inlet := UnitOp.Build 4 2 2 false true false 0 1 0 1 in
  let column := UnitOp.Build 9 2 50 true true false 0 1 48 1 in
  let sys := BuildCollection [inlet] [] in
  let sys' := BuildCollection [inlet; column] [1%nat] in
  addModel sys column = ModelAdded sys'
  /\ _models (removeModel sys' 9).2 = [inlet]
  /\ 1%nat ∈ _inOutModels (removeModel sys' 9).2.
Proof.
  intros inlet column sys sys'.
  assert (H : addModel sys column = ModelAdded sys') by reflexivity.
  destruct (addModel_then_removeModel sys sys' column H) as (_ & H2 & _ & H4 & _).
  split; [exact H|]. split; [exact H2 | exact (proj1 (H4 eq_refl))].
Defined.

Lemma fold_max_id (models : list IUnitOperation) :
  forall a,
  let r := fold_left (fun id m => Nat.max id (UnitOp.unitOperationId m)) models a in
  (a <= r)%nat
  /\ (forall m, m ∈ models -> (UnitOp.unitOperationId m <= r)%nat)
  /\ (r = a \/ exists m, m ∈ models /\ UnitOp.unitOperationId m = r).
Proof.
  induction models as [|x ms IH]; intros a; simpl.
  - split; [lia|]. split; [intros m Hm; inversion Hm | left; reflexivity].
  - destruct (IH (Nat.max a (UnitOp.unitOperationId x))) as (H1 & H2 & H3).
    split; [lia|]. split.
    + intros m Hm. apply elem_of_cons in Hm as [->|Hm]; [lia | apply H2; exact Hm].
    + destruct H3 as [H3|(m & Hm & Hid)].
      * destruct (Nat.max_spec a (UnitOp.unitOperationId x)) as [[_ E]|[_ E]].
        -- right. exists x. split; [left | lia].
        -- left. lia.
      * right. exists m. split; [right; exact Hm | exact Hid].
Qed.

(** X6: for a system with at least one model, [maxUnitOperationId] is the
    id of one of the models and no model has a larger id; without any
    model it is [UnitOpIndep]. *)
Theorem maxUnitOperationId_is_maximum (UnitOpIndep : nat) (models : list IUnitOperation) :
  (models = [] -> maxUnitOperationId UnitOpIndep models = UnitOpIndep)
  /\ (models <> [] ->
      (forall m, m ∈ models ->
         (UnitOp.unitOperationId m <= maxUnitOperationId UnitOpIndep models)%nat)
      /\ exists m, m ∈ models
                   /\ UnitOp.unitOperationId m = maxUnitOperationId UnitOpIndep models).
Proof.
  split; [intros ->; reflexivity|]. intros Hne.
  destruct models as [|x ms]; [contradiction|].
  unfold maxUnitOperationId.
  destruct (fold_max_id (x :: ms) 0) as (_ & H2 & H3).
  split; [exact H2|]. destruct H3 as [H3|H3]; [|exact H3].
  exists x. split; [left|]. pose proof (H2 x ltac:(left)). simpl in *. lia.
Qed.

(** Units with the ids 4, 9 and 2. *)
Lemma maxUnitOperationId_is_maximum_witness :
  let inlet := UnitOp.Build 4 2 2 false true false 0 1 0 1 in
  let column := UnitOp.Build 9 2 50 true true false 0 1 48 1 in
  let outlet := UnitOp.Build 2 2 2 true false false 0 1 0 1 in
  maxUnitOperationId 255 [inlet; column; outlet] = 9%nat
  /\ exists m, m ∈ [inlet; column; outlet]
               /\ UnitOp.unitOperationId m = maxUnitOperationId 255 [inlet; column; outlet].
Proof.
  intros inlet column outlet. split; [reflexivity|].
  exact (proj2 (proj2 (maxUnitOperationId_is_maximum 255 [inlet; column; outlet])
                  ltac:(discriminate))).
Defined.

(** ** The layout of the state vector *)

Lemma sumDofs_app (a b : list IUnitOperation) :
  sumDofs (a ++ b) = (sumDofs a + sumDofs b)%nat.
Proof. induction a as [|m a IH]; simpl; [reflexivity | rewrite IH; lia]. Qed.

Lemma dofOffsetsFrom_spec (models : list IUnitOperation) :
  forall totalDof,
  length (dofOffsetsFrom totalDof models).1 = length models
  /\ (dofOffsetsFrom totalDof models).2 = (totalDof + sumDofs models)%nat
  /\ (forall i, (i < length models)%nat ->
        (dofOffsetsFrom totalDof models).1 !! i
        = Some (totalDof + sumDofs (take i models))%nat).
Proof.
  induction models as [|m ms IH]; intros totalDof; simpl.
  - split; [reflexivity|]. split; [lia | intros i Hi; lia].
  - destruct (IH (totalDof + UnitOp.numDofs m)%nat) as (H1 & H2 & H3).
    destruct (dofOffsetsFrom (totalDof + UnitOp.numDofs m) ms) as [offs total]. simpl in *.
    split; [lia|]. split; [lia|].
    intros [|i] Hi; simpl.
    + f_equal. lia.
    + rewrite H3 by lia. f_equal. lia.
Qed.

(** X7: after [rebuildInternalDataStructures], [_dofOffset] and [_dofs]
    have one entry per model and one for the superstructure; the offset
    of model [i] is the sum of the DOFs of the models before it, the
    offset of the superstructure the sum of all of them; [_dofs] holds the
    DOFs of each model and the number of coupling DOFs; and [numDofs] is
    the sum of all local DOFs plus one coupling DOF per component of each
    model with an inlet. *)
Theorem rebuild_dof_layout (models : list IUnitOperation) (old : list Z) :
  let lay := rebuildInternalDataStructures models old in
  let n := numModels models in
  length (_dofOffset lay) = S n
  /\ length (_dofs lay) = S n
  /\ (forall i, (i <= n)%nat -> _dofOffset lay !! i = Some (sumDofs (take i models)))
  /\ (forall i m, models !! i = Some m ->
        _dofs lay !! i = Some (UnitOp.numDofs m)
        /\ _dofOffset lay !! S i = Some (sumDofs (take i models) + UnitOp.numDofs m)%nat)
  /\ _dofs lay !! n = Some (inletComponents models)
  /\ numDofs lay = (sumDofs models + inletComponents models)%nat.
Proof.
  intros lay n.
  pose proof (couplingIdxMap_size models old) as Hsize. fold lay in Hsize.
  assert (Hoff : _dofOffset lay
                 = (dofOffsetsFrom 0 models).1 ++ [(dofOffsetsFrom 0 models).2]).
  { subst lay. unfold rebuildInternalDataStructures.
    destruct (dofOffsetsFrom 0 models) as [offs total].
    destruct (couplingIdxLoop 0 models (∅, 0%nat)). reflexivity. }
  assert (Hdofs : _dofs lay
                  = map UnitOp.numDofs models ++ [numCouplingDOF (_couplingIdxMap lay)]).
  { subst lay. unfold rebuildInternalDataStructures.
    destruct (dofOffsetsFrom 0 models) as [offs total].
    destruct (couplingIdxLoop 0 models (∅, 0%nat)). reflexivity. }
  destruct (dofOffsetsFrom_spec models 0) as (H1 & H2 & H3).
  assert (Hall : forall i, (i <= n)%nat -> _dofOffset lay !! i = Some (sumDofs (take i models))).
  { intros i Hi. unfold n, numModels in Hi. rewrite Hoff.
    destruct (decide (i < length models)%nat) as [Hlt|Hge].
    - rewrite lookup_app_l by lia. rewrite H3 by exact Hlt. reflexivity.
    - assert (i = length models) by lia. subst i.
      rewrite lookup_app_r by lia. rewrite H1, Nat.sub_diag. simpl.
      rewrite H2, firstn_all. reflexivity. }
  split; [rewrite Hoff, length_app, H1; unfold n, numModels; simpl; lia|].
  split; [rewrite Hdofs, length_app, length_map; unfold n, numModels; simpl; lia|].
  split; [exact Hall|]. split.
  - intros i m Hm. pose proof (lookup_lt_Some _ _ _ Hm) as Hlt. split.
    + rewrite Hdofs, lookup_app_l by (rewrite length_map; exact Hlt).
      rewrite list_lookup_fmap, Hm. reflexivity.
    + rewrite Hall by (unfold n, numModels; lia).
      rewrite (take_S_r _ _ _ Hm), sumDofs_app. simpl. f_equal. lia.
  - split.
    + rewrite Hdofs, lookup_app_r by (rewrite length_map; unfold n, numModels; lia).
      rewrite length_map. unfold n, numModels. rewrite Nat.sub_diag. simpl.
      rewrite Hsize. reflexivity.
    + unfold numDofs. rewrite Hsize, Hoff, last_last, H2. reflexivity.
Qed.

(** X8: [rebuildInternalDataStructures] gives [_errorIndicator] one
    entry per model: the entries it had before are kept, in their places,
    and the new ones are zero. *)
Theorem rebuild_error_indicator (models : list IUnitOperation) (old : list Z) (i : nat) :
  (i < numModels models)%nat ->
  let lay := rebuildInternalDataStructures models old in
  length (_errorIndicator lay) = numModels models
  /\ _errorIndicator lay !! i = Some (default 0 (old !! i)).
Proof.
  intros Hi lay. subst lay. unfold rebuildInternalDataStructures, numModels in *.
  destruct (dofOffsetsFrom 0 models) as [offs total].
  destruct (couplingIdxLoop 0 models (∅, 0%nat)). simpl.
  split; [apply length_resize|].
  destruct (decide (i < length old)%nat) as [Hlt|Hge].
  - rewrite lookup_resize by lia. destruct (lookup_lt_is_Some_2 old i Hlt) as [x Hx].
    rewrite Hx. reflexivity.
  - rewrite lookup_resize_new by lia. rewrite lookup_ge_None_2 by lia. reflexivity.
Qed.

(** A system of three units whose error indicator held one entry. *)
Lemma rebuild_error_indicator_witness :
  let inlet := UnitOp.Build 4 2 2 false true false 0 1 0 1 in
  let column := UnitOp.Build 9 2 50 true true false 0 1 48 1 in
  let outlet := UnitOp.Build 2 2 2 true false false 0 1 0 1 in
  let lay := rebuildInternalDataStructures [inlet; column; outlet] [7] in
  (1 < numModels [inlet; column; outlet])%nat
  /\ length (_errorIndicator lay) = 3%nat
  /\ _errorIndicator lay !! 1%nat = Some 0.
Proof.
  intros inlet column outlet lay.
  assert (H : (1 < numModels [inlet; column; outlet])%nat) by (unfold numModels; simpl; lia).
  split; [exact H|].
  exact (rebuild_error_indicator [inlet; column; outlet] [7] 1 H).
Defined.

(** ** External functions *)

(** X9: [addExternalFunction] returns the index at which
    [getExternalFunction] gives back the function added, and the functions
    at the indices there were before are the same. *)
Theorem addExternalFunction_then_get (extFunctions : list nat) (extFun : nat) :
  let funs := (addExternalFunction extFunctions extFun).1 in
  let index := (addExternalFunction extFunctions extFun).2 in
  index = length extFunctions
  /\ getExternalFunction funs index = Some extFun
  /\ (forall i, (i < length extFunctions)%nat ->
        getExternalFunction funs i = getExternalFunction extFunctions i)
  /\ (forall i, (index < i)%nat -> getExternalFunction funs i = None).
Proof.
  unfold addExternalFunction, getExternalFunction. simpl.
  rewrite length_app. simpl.
  replace (length extFunctions + 1 - 1)%nat with (length extFunctions) by lia.
  split; [reflexivity|]. split.
  - destruct (Nat.ltb_spec (length extFunctions) (length extFunctions + 1)); [|lia].
    rewrite lookup_app_r by lia. rewrite Nat.sub_diag. reflexivity.
  - split.
    + intros i Hi.
      destruct (Nat.ltb_spec i (length extFunctions + 1)); [|lia].
      destruct (Nat.ltb_spec i (length extFunctions)); [|lia].
      apply lookup_app_l. exact Hi.
    + intros i Hi. destruct (Nat.ltb_spec i (length extFunctions + 1)); [lia | reflexivity].
Qed.

Lemma getExternalFunction_lookup (extFunctions : list nat) (i : nat) :
  getExternalFunction extFunctions i = extFunctions !! i.
Proof.
  unfold getExternalFunction. destruct (Nat.ltb_spec i (length extFunctions)); [reflexivity|].
  symmetry. apply lookup_ge_None_2. exact H.
Qed.

(** X10: [removeExternalFunction] erases the first occurrence of the
    function, at index [p] say: the functions before [p] keep their index
    and every function after [p] is found at an index one less than
    before, so that indices returned by [addExternalFunction] earlier
    do not denote the same functions any more. A function that is not
    registered leaves everything as it is. *)
Theorem removeExternalFunction_shifts (extFunctions : list nat) (extFun : nat) :
  (extFun ∉ extFunctions -> removeExternalFunction extFunctions extFun = extFunctions)
  /\ (forall p, extFunctions !! p = Some extFun ->
        (forall q, (q < p)%nat -> extFunctions !! q <> Some extFun) ->
        forall i,
        getExternalFunction (removeExternalFunction extFunctions extFun) i
        = if (i <? p)%nat then getExternalFunction extFunctions i
          else getExternalFunction extFunctions (S i)).
Proof.
  split.
  - induction extFunctions as [|f fs IH]; simpl; intros Hnot; [reflexivity|].
    apply not_elem_of_cons in Hnot as [Hne Hnot].
    destruct (Nat.eqb_spec f extFun); [congruence|]. rewrite (IH Hnot). reflexivity.
  - intros p Hp Hfirst i. rewrite !getExternalFunction_lookup.
    revert p Hp Hfirst i.
    induction extFunctions as [|f fs IH]; intros p Hp Hfirst i; [discriminate|].
    simpl. destruct (Nat.eqb_spec f extFun) as [E|E].
    + destruct p as [|p]; [|exfalso; apply (Hfirst 0%nat ltac:(lia)); simpl; congruence].
      reflexivity.
    + destruct p as [|p]; [simpl in Hp; congruence|]. simpl in Hp.
      destruct i as [|i]; [reflexivity|].
      specialize (IH p Hp (fun q Hq => Hfirst (S q) ltac:(lia)) i).
      change (S i <? S p)%nat with (i <? p)%nat.
      change ((f :: removeExternalFunction fs extFun) !! S i)
        with (removeExternalFunction fs extFun !! i).
      rewrite IH. destruct (i <? p)%nat; reflexivity.
Qed.

(** Three registered functions, the pointers 10, 20 and 30; the second
    is removed. *)
Lemma removeExternalFunction_shifts_witness :
  [10; 20; 30]%nat !! 1%nat = Some 20%nat
  /\ getExternalFunction (removeExternalFunction [10; 20; 30]%nat 20) 1 = Some 30%nat
  /\ getExternalFunction (removeExternalFunction [10; 20; 30]%nat 20) 0 = Some 10%nat.
Proof.
  assert (Hp : [10; 20; 30]%nat !! 1%nat = Some 20%nat) by reflexivity.
  assert (Hfirst : forall q, (q < 1)%nat -> [10; 20; 30]%nat !! q <> Some 20%nat).
  { intros q Hq. assert (q = 0%nat) as -> by lia. discriminate. }
  split; [exact Hp|]. split.
  - rewrite (proj2 (removeExternalFunction_shifts [10; 20; 30]%nat 20) 1%nat Hp Hfirst 1%nat).
    reflexivity.
  - rewrite (proj2 (removeExternalFunction_shifts [10; 20; 30]%nat 20) 1%nat Hp Hfirst 0%nat).
    reflexivity.
Defined.

(** ** What an accepted connection list looks like *)

Lemma rowsOfMatrix_length (conn : list float) :
  length (rowsOfMatrix conn) = (length conn / 5)%nat.
Proof.
  assert (H : forall n (l : list float), (length l <= n)%nat ->
            length (rowsOfMatrix l) = (length l / 5)%nat).
  { induction n as [|n IH]; intros l Hl.
    - destruct l; [reflexivity | simpl in Hl; lia].
    - destruct l as [|a [|b [|c [|d [|e rest]]]]]; try reflexivity.
      change (rowsOfMatrix (a :: b :: c :: d :: e :: rest))
        with (BuildRow a b c d e :: rowsOfMatrix rest).
      change (length (a :: b :: c :: d :: e :: rest)) with (5 + length rest)%nat.
      change (length (BuildRow a b c d e :: rowsOfMatrix rest))
        with (S (length (rowsOfMatrix rest))).
      rewrite IH by (simpl in Hl; lia).
      replace (5 + length rest)%nat with (1 * 5 + length rest)%nat by lia.
      rewrite Nat.div_add_l by lia. reflexivity. }
  apply (H (length conn)). lia.
Qed.

Lemma indexOfUnitOp_id (models : list IUnitOperation) (id : nat) (m : IUnitOperation) :
  models !! indexOfUnitOp models id = Some m -> UnitOp.unitOperationId m = id.
Proof.
  destruct (indexOfUnitOp_lookup models id) as [_ Hl]. rewrite Hl. clear Hl.
  induction models as [|x ms IH]; simpl; [discriminate|].
  destruct (Nat.eqb_spec (UnitOp.unitOperationId x) id); [congruence | exact IH].
Qed.

Lemma checkRowIndices_read (models : list IUnitOperation) (sw i : nat)
    (srcId dstId cSrc cDst : Z) (q : IndexRow) :
  checkRowIndices models sw i srcId dstId cSrc cDst = Ok q ->
  rowComponentsValid models q
  /\ compSource q = cSrc /\ compDest q = cDst
  /\ (exists m, models !! Z.to_nat (uoSource q) = Some m
                /\ Z.of_nat (UnitOp.unitOperationId m) = srcId)
  /\ (exists m, models !! Z.to_nat (uoDest q) = Some m
                /\ Z.of_nat (UnitOp.unitOperationId m) = dstId).
Proof.
  unfold checkRowIndices.
  destruct (Z.ltb_spec srcId 0) as [|Hs]; [discriminate|].
  destruct (Z.ltb_spec dstId 0) as [|Hd]; [discriminate|].
  destruct (length models <=? indexOfUnitOp models (Z.to_nat srcId))%nat; [discriminate|].
  destruct (length models <=? indexOfUnitOp models (Z.to_nat dstId))%nat; [discriminate|].
  destruct (models !! indexOfUnitOp models (Z.to_nat srcId)) as [mSrc|] eqn:Hsrc; [|discriminate].
  destruct (models !! indexOfUnitOp models (Z.to_nat dstId)) as [mDst|] eqn:Hdst; [|discriminate].
  destruct (negb (UnitOp.hasOutlet mSrc)); [discriminate|].
  destruct (negb (UnitOp.hasInlet mDst)); [discriminate|].
  destruct ((0 <=? cSrc) && (Z.of_nat (UnitOp.numComponents mSrc) <=? cSrc)) eqn:E1; [discriminate|].
  destruct ((0 <=? cDst) && (Z.of_nat (UnitOp.numComponents mDst) <=? cDst)) eqn:E2; [discriminate|].
  destruct (((cSrc <? 0) && (0 <=? cDst)) || ((0 <=? cSrc) && (cDst <? 0))) eqn:E3; [discriminate|].
  destruct ((cSrc <? 0) && (cDst <? 0)
            && negb (UnitOp.numComponents mSrc =? UnitOp.numComponents mDst)%nat) eqn:E4;
    [discriminate|].
  intros [= <-]. unfold rowComponentsValid. simpl. rewrite !Nat2Z.id.
  split.
  - exists mSrc, mDst. split; [exact Hsrc|]. split; [exact Hdst|].
    revert E1 E2 E3 E4.
    destruct (Z.ltb_spec cSrc 0) as [Hc|Hc]; destruct (Z.ltb_spec cDst 0) as [Hc'|Hc'];
      destruct (Z.leb_spec 0 cSrc); destruct (Z.leb_spec 0 cDst); try lia;
      simpl; intros E1 E2 E3 E4; try discriminate.
    left. split; [lia|]. split; [lia|].
    apply negb_false_iff, Nat.eqb_eq in E4. exact E4.
  - split; [reflexivity|]. split; [reflexivity|]. split.
    + exists mSrc. split; [exact Hsrc|]. rewrite (indexOfUnitOp_id _ _ _ Hsrc). lia.
    + exists mDst. split; [exact Hdst|]. rewrite (indexOfUnitOp_id _ _ _ Hdst). lia.
Qed.

Lemma checkRow_read (models : list IUnitOperation) (sw i : nat)
    (prev : list ConnectionRow) (r : ConnectionRow) (c : CheckedRow) :
  checkRow models sw i prev r = Ok c -> rowRead models r (checkedRow c).
Proof.
  intros H. pose proof (checkRow_Ok _ _ _ _ _ _ H) as Hwf.
  unfold checkRow, mbind, outcome_bind in H.
  destruct (staticCastInt (rowSource r)) as [srcId| |] eqn:E1; try discriminate.
  destruct (staticCastInt (rowDest r)) as [dstId| |] eqn:E2; try discriminate.
  destruct (staticCastInt (rowCompSource r)) as [cSrc| |] eqn:E3; try discriminate.
  destruct (staticCastInt (rowCompDest r)) as [cDst| |] eqn:E4; try discriminate.
  destruct (checkRowIndices models sw i srcId dstId cSrc cDst) as [q| |] eqn:E5; try discriminate.
  destruct (checkRowIndices_read _ _ _ _ _ _ _ _ E5) as (Hc & Hcs & Hcd & (ms & Hms & Hids) & (md & Hmd & Hidd)).
  assert (Hq : checkedRow c = q).
  { destruct (earlierFlowRate prev (uoSource q) (uoDest q)); injection H as <-; reflexivity. }
  rewrite Hq in *. split; [exact Hwf|]. split; [exact Hc|].
  split; [congruence|]. split; [congruence|]. split.
  - exists ms. split; [exact Hms | congruence].
  - exists md. split; [exact Hmd | congruence].
Qed.

Lemma checkRows_read (models : list IUnitOperation) (sw : nat) (rows : list ConnectionRow) :
  forall (i : nat) (prev : list ConnectionRow) (st st' : RowLoopState),
  checkRows models sw i prev rows st = Ok st' ->
  exists idx,
    connOnly st' = connOnly st ++ idx
    /\ Forall2 (rowRead models) rows idx
    /\ length (flowRates st') = (length (flowRates st) + length rows)%nat.
Proof.
  induction rows as [|r rest IH]; intros i prev st st' H; simpl in H.
  - injection H as <-. exists []. rewrite app_nil_r. split; [reflexivity|].
    split; [constructor | simpl; lia].
  - unfold mbind, outcome_bind in H.
    destruct (checkRow models sw i prev r) as [c| |] eqn:Ec; try discriminate.
    destruct (IH _ _ _ _ H) as (idx & Hconn & Hall & Hlen).
    exists (checkedRow c :: idx). simpl in Hconn, Hlen. split.
    + rewrite Hconn, <- app_assoc. reflexivity.
    + split; [constructor; [eapply checkRow_read; exact Ec | exact Hall]|].
      rewrite Hlen, length_app. simpl. lia.
Qed.

(** X11: when [checkConnectionList] accepts a connection list,
    [connOnly] and [flowRates] have one entry for each complete row of
    five entries; row [k] of [connOnly] holds the array indices of the
    two units whose ids row [k] names, the source with an outlet and the
    destination with an inlet, and the two component indices of the row,
    which are either both negative, for units with the same number of
    components, or both components of their units. *)
Theorem checkConnectionList_output (models : list IUnitOperation) (conn : list float)
    (sw : nat) (idx : list IndexRow) (rates : list float) :
  checkConnectionList models conn sw = Ok (idx, rates) ->
  length idx = (length conn / 5)%nat
  /\ length rates = (length conn / 5)%nat
  /\ Forall2 (rowRead models) (rowsOfMatrix conn) idx.
Proof.
  unfold checkConnectionList, mbind, outcome_bind. intros H.
  destruct (checkRows models sw 0 [] (rowsOfMatrix conn) (initialRowLoop models))
    as [st| |] eqn:Er; try discriminate.
  destruct (checkBalance sw st 0 models) as [[]| |]; try discriminate.
  injection H as <- <-.
  destruct (checkRows_read _ _ _ _ _ _ _ Er) as (idx & Hconn & Hall & Hlen).
  simpl in Hconn, Hlen. rewrite Hconn.
  split; [rewrite <- (Forall2_length _ _ _ Hall); apply rowsOfMatrix_length|].
  split; [rewrite Hlen; apply rowsOfMatrix_length | exact Hall].
Qed.

(** A source with the id 5 and a sink with the id 7, connected in all
    components. *)
Lemma checkConnectionList_output_witness :
  let source := UnitOp.Build 5 2 2 false true false 0 1 0 1 in
  let sink := UnitOp.Build 7 2 2 true false false 0 1 0 1 in
  let conn := [5; 7; -1; -1; 1]%float in
  checkConnectionList [source; sink] conn 0 = Ok ([BuildIndexRow 0 1 (-1) (-1)], [1%float])
  /\ Forall2 (rowRead [source; sink]) (rowsOfMatrix conn) [BuildIndexRow 0 1 (-1) (-1)].
Proof.
  intros source sink conn.
  assert (H : checkConnectionList [source; sink] conn 0
              = Ok ([BuildIndexRow 0 1 (-1) (-1)], [1%float])) by (vm_compute; reflexivity).
  split; [exact H|].
  exact (proj2 (proj2 (checkConnectionList_output _ _ _ _ _ H))).
Defined.

Lemma checkRows_first_error (models : list IUnitOperation) (sw : nat)
    (r : ConnectionRow) (post : list ConnectionRow) (e : InvalidParameterException)
    (pre : list ConnectionRow) :
  forall (i : nat) (prev : list ConnectionRow) (st : RowLoopState),
  (forall k p, pre !! k = Some p ->
     exists c, checkRow models sw (i + k) (prev ++ take k pre) p = Ok c) ->
  checkRow models sw (i + length pre) (prev ++ pre) r = Throw e ->
  checkRows models sw i prev (pre ++ r :: post) st = Throw e.
Proof.
  induction pre as [|p pre IH]; intros i prev st Hpre Hr; simpl.
  - simpl in Hr. rewrite Nat.add_0_r, app_nil_r in Hr.
    unfold mbind, outcome_bind. rewrite Hr. reflexivity.
  - destruct (Hpre 0%nat p eq_refl) as [c Hc]. simpl in Hc.
    rewrite Nat.add_0_r, app_nil_r in Hc.
    unfold mbind, outcome_bind. rewrite Hc. apply IH.
    + intros k p' Hk. specialize (Hpre (S k) p'). simpl in Hpre.
      destruct (Hpre Hk) as [c' Hc']. exists c'.
      rewrite <- app_assoc.
      replace (S i + k)%nat with (i + S k)%nat by lia. exact Hc'.
    + rewrite <- app_assoc.
      replace (S i + length pre)%nat with (i + length (p :: pre))%nat by (simpl; lia).
      exact Hr.
Qed.

(** X12: [checkConnectionList] reports the first row that is refused:
    when the rows before row [k] pass the checks and row [k] does not, the
    exception of row [k] is thrown, whatever the rows after it are and
    whether the flow balance is closed or not. *)
Theorem checkConnectionList_first_error (models : list IUnitOperation) (conn : list float)
    (sw : nat) (pre post : list ConnectionRow) (r : ConnectionRow)
    (e : InvalidParameterException) :
  rowsOfMatrix conn = pre ++ r :: post ->
  (forall k p, pre !! k = Some p -> exists c, checkRow models sw k (take k pre) p = Ok c) ->
  checkRow models sw (length pre) pre r = Throw e ->
  checkConnectionList models conn sw = Throw e.
Proof.
  intros Hrows Hpre Hr. unfold checkConnectionList. rewrite Hrows.
  rewrite (checkRows_first_error models sw r post e pre 0 [] (initialRowLoop models));
    [reflexivity | exact Hpre | exact Hr].
Qed.

(** The second row names the unit 8, which there is not; the third row
    has a source without an outlet. *)
Lemma checkConnectionList_first_error_witness :
  let source := UnitOp.Build 5 2 2 false true false 0 1 0 1 in
  let sink := UnitOp.Build 7 2 2 true false false 0 1 0 1 in
  let conn := [5; 7; -1; -1; 1;  5; 8; 0; 0; 1;  7; 5; 0; 0; 1]%float in
  checkConnectionList [source; sink] conn 3 = Throw (DestinationIdNotFound 3 1).
Proof.
  intros source sink conn.
  apply (checkConnectionList_first_error [source; sink] conn 3
           [BuildRow 5 7 (-1) (-1) 1] [BuildRow 7 5 0 0 1] (BuildRow 5 8 0 0 1)).
  - reflexivity.
  - intros k p Hk. destruct k as [|k]; [|destruct k; discriminate].
    injection Hk as <-. eexists. vm_compute. reflexivity.
  - vm_compute. reflexivity.
Defined.

(** ** What [configureSwitches] stores *)

Lemma checkConnectionList_lengths (models : list IUnitOperation) (conn : list float)
    (sw : nat) (idx : list IndexRow) (rates : list float) :
  checkConnectionList models conn sw = Ok (idx, rates) -> length rates = length idx.
Proof.
  unfold checkConnectionList, mbind, outcome_bind. intros H.
  destruct (checkRows models sw 0 [] (rowsOfMatrix conn) (initialRowLoop models))
    as [st| |] eqn:Er; try discriminate.
  destruct (checkBalance sw st 0 models) as [[]| |]; try discriminate.
  injection H as <- <-.
  destruct (checkRows_read _ _ _ _ _ _ _ Er) as (idx & Hconn & Hall & Hlen).
  simpl in Hconn, Hlen. rewrite Hconn, Hlen. exact (Forall2_length _ _ _ Hall).
Qed.

Lemma configureSwitch_result (models : list IUnitOperation) (i : nat) (sw : SwitchInput)
    (cfg cfg' : SwitchConfig) :
  configureSwitch models i sw cfg = Ok cfg' ->
  (length (CONNECTIONS sw) mod 5 = 0)%nat
  /\ exists conn fr,
       checkConnectionList models (CONNECTIONS sw) i = Ok (conn, fr)
       /\ cfg' = {| _switchSectionIndex := _switchSectionIndex cfg ++ [SECTION sw];
                    _connections := _connections cfg ++ [conn];
                    _flowRates := _flowRates cfg ++ [fr];
                    _parameters := registerFlowRates i 0 [] conn (_parameters cfg) |}.
Proof.
  unfold configureSwitch.
  destruct ((0 <? i)%nat && (SECTION sw <=? List.last (_switchSectionIndex cfg) 0));
    [discriminate|].
  destruct (Nat.eqb_spec (length (CONNECTIONS sw) mod 5) 0) as [E|E]; [|discriminate].
  simpl. unfold mbind, outcome_bind.
  destruct (checkConnectionList models (CONNECTIONS sw) i) as [[conn fr]| |]; try discriminate.
  intros [= <-]. split; [exact E|]. exists conn, fr. split; reflexivity.
Qed.

Lemma firstRowOf_Some (rows : list IndexRow) (src dst : Z) (k : nat) :
  firstRowOf rows src dst = Some k ->
  exists r, rows !! k = Some r /\ uoSource r = src /\ uoDest r = dst
            /\ forall k' r', (k' < k)%nat -> rows !! k' = Some r' ->
                 ~ (uoSource r' = src /\ uoDest r' = dst).
Proof.
  revert k. induction rows as [|r rest IH]; intros k H; simpl in H; [discriminate|].
  destruct ((uoSource r =? src) && (uoDest r =? dst)) eqn:E.
  - injection H as <-. exists r. apply andb_true_iff in E as [E1 E2].
    split; [reflexivity|]. split; [lia|]. split; [lia|]. intros k' r' Hk. lia.
  - destruct (firstRowOf rest src dst) as [k0|] eqn:E0; [|discriminate].
    injection H as <-. destruct (IH k0 eq_refl) as (r0 & Hr0 & Hs & Hd & Hfirst).
    exists r0. split; [exact Hr0|]. split; [exact Hs|]. split; [exact Hd|].
    intros [|k'] r' Hk Hr'; simpl in Hr'.
    + injection Hr' as <-. intros [H1 H2].
      apply andb_false_iff in E as [E|E]; lia.
    + apply (Hfirst k' r'); [lia | exact Hr'].
Qed.

Lemma firstRowOf_elem (rows : list IndexRow) (r : IndexRow) :
  r ∈ rows -> is_Some (firstRowOf rows (uoSource r) (uoDest r)).
Proof.
  induction rows as [|q rest IH]; intros Hin; [inversion Hin|]. simpl.
  destruct ((uoSource q =? uoSource r) && (uoDest q =? uoDest r)) eqn:E; [eexists; reflexivity|].
  apply elem_of_cons in Hin as [->|Hin].
  - rewrite !Z.eqb_refl in E. discriminate.
  - destruct (IH Hin) as [k Hk]. rewrite Hk. eexists; reflexivity.
Qed.

Lemma configureSwitchLoop_results (models : list IUnitOperation) (switches : list SwitchInput) :
  forall (i : nat) (cfg cfg' : SwitchConfig),
  configureSwitchLoop models i switches cfg = Ok cfg' ->
  exists results : list (list IndexRow * list float),
    length results = length switches
    /\ _connections cfg' = _connections cfg ++ map fst results
    /\ _flowRates cfg' = _flowRates cfg ++ map snd results
    /\ (forall k sw, switches !! k = Some sw ->
          (length (CONNECTIONS sw) mod 5 = 0)%nat
          /\ exists res, results !! k = Some res
                         /\ checkConnectionList models (CONNECTIONS sw) (i + k) = Ok res)
    /\ (forall src dst i',
          _parameters cfg' !! (src, dst, i')
          = match (if decide (i <= i')%nat then results !! (i' - i)%nat else None) with
            | Some res =>
                match firstRowOf res.1 src dst with
                | Some k => Some (i', k)
                | None => _parameters cfg !! (src, dst, i')
                end
            | None => _parameters cfg !! (src, dst, i')
            end).
Proof.
  induction switches as [|sw rest IH]; intros i cfg cfg' H; simpl in H.
  - injection H as <-. exists []. simpl. rewrite !app_nil_r.
    split; [reflexivity|]. split; [reflexivity|]. split; [reflexivity|].
    split; [intros k sw Hk; discriminate|].
    intros src dst i'. destruct (decide (i <= i')%nat); reflexivity.
  - unfold mbind, outcome_bind in H.
    destruct (configureSwitch models i sw cfg) as [cfg1| |] eqn:E1; try discriminate.
    destruct (configureSwitch_result _ _ _ _ _ E1) as (Hmod & conn & fr & Hcheck & ->).
    destruct (IH _ _ _ H) as (results & Hlen & Hc & Hf & Hres & Hpar). simpl in Hc, Hf, Hpar.
    exists ((conn, fr) :: results). simpl.
    split; [lia|]. split; [rewrite Hc, <- app_assoc; reflexivity|].
    split; [rewrite Hf, <- app_assoc; reflexivity|]. split.
    + intros [|k] sw' Hk; simpl in Hk.
      * injection Hk as <-. split; [exact Hmod|]. exists (conn, fr).
        rewrite Nat.add_0_r. split; [reflexivity | exact Hcheck].
      * destruct (Hres k sw' Hk) as (Hm & res & Hr & Hcl). split; [exact Hm|].
        exists res. split; [exact Hr|].
        replace (i + S k)%nat with (S i + k)%nat by lia. exact Hcl.
    + intros src dst i'. rewrite Hpar, registerFlowRates_lookup. simpl.
      rewrite andb_true_r.
      destruct (decide (S i <= i')%nat) as [Hgt|Hle].
      * destruct (decide (i <= i')%nat); [|lia].
        replace (i' - i)%nat with (S (i' - S i)) by lia. simpl.
        rewrite bool_decide_eq_false_2 by lia. reflexivity.
      * destruct (decide (i <= i')%nat) as [Hge|Hlt].
        -- assert (i' = i) as -> by lia. rewrite Nat.sub_diag. simpl.
           rewrite bool_decide_eq_true_2 by reflexivity. reflexivity.
        -- rewrite bool_decide_eq_false_2 by lia. reflexivity.
Qed.

(** X13: when [configureSwitches] succeeds, [_switchSectionIndex],
    [_connections] and [_flowRates] have one entry per switch; the entry
    of switch [i] is its [SECTION], and the connection list and the flow
    rates that [checkConnectionList] returns for its [CONNECTIONS], whose
    length is a multiple of five; the two slices of a switch are of the
    same length. *)
Theorem configureSwitches_structure (models : list IUnitOperation)
    (switches : list SwitchInput) (params : gmap (Z * Z * nat) (nat * nat))
    (cfg : SwitchConfig) :
  configureSwitches models switches params = Ok cfg ->
  length (_switchSectionIndex cfg) = length switches
  /\ length (_connections cfg) = length switches
  /\ length (_flowRates cfg) = length switches
  /\ (forall i sw, switches !! i = Some sw ->
        (length (CONNECTIONS sw) mod 5 = 0)%nat
        /\ _switchSectionIndex cfg !! i = Some (SECTION sw)
        /\ exists conn fr,
             checkConnectionList models (CONNECTIONS sw) i = Ok (conn, fr)
             /\ _connections cfg !! i = Some conn
             /\ _flowRates cfg !! i = Some fr
             /\ length fr = length conn).
Proof.
  unfold configureSwitches, mbind, outcome_bind. intros H.
  destruct (configureSwitchLoop models 0 switches (BuildSwitchConfig [] [] [] params))
    as [cfg0| |] eqn:El; try discriminate.
  assert (cfg0 = cfg) as ->.
  { destruct (_switchSectionIndex cfg0) as [|first rest]; [discriminate|].
    destruct (negb (first =? 0)); [discriminate | congruence]. }
  clear H.
  pose proof (configureSwitchLoop_sections _ _ _ _ _ El) as Hsec. simpl in Hsec.
  destruct (configureSwitchLoop_results _ _ _ _ _ El) as (results & Hlen & Hc & Hf & Hres & _).
  simpl in Hc, Hf.
  split; [rewrite Hsec, length_map; reflexivity|].
  split; [rewrite Hc, length_map; exact Hlen|].
  split; [rewrite Hf, length_map; exact Hlen|].
  intros i sw Hsw. destruct (Hres i sw Hsw) as (Hmod & [conn fr] & Hr & Hcl). simpl in Hcl.
  split; [exact Hmod|].
  split; [rewrite Hsec, list_lookup_fmap, Hsw; reflexivity|].
  exists conn, fr. split; [exact Hcl|].
  split; [rewrite Hc, list_lookup_fmap, Hr; reflexivity|].
  split; [rewrite Hf, list_lookup_fmap, Hr; reflexivity|].
  eapply checkConnectionList_lengths; exact Hcl.
Qed.

(** Two switches over a source and a sink: connected in the first,
    without connections in the second. *)
Lemma configureSwitches_structure_witness :
  let source := UnitOp.Build 5 2 2 false true false 0 1 0 1 in
  let sink := UnitOp.Build 7 2 2 true false false 0 1 0 1 in
  let switches := [BuildSwitchInput 0 [5; 7; -1; -1; 1]%float; BuildSwitchInput 2 []] in
  exists cfg,
    configureSwitches [source; sink] switches ∅ = Ok cfg
    /\ length (_connections cfg) = 2%nat
    /\ length (_flowRates cfg) = 2%nat.
Proof.
  intros source sink switches.
  destruct (configureSwitches [source; sink] switches ∅) as [cfg| |] eqn:E;
    [|vm_compute in E; discriminate..].
  exists cfg. split; [reflexivity|].
  destruct (configureSwitches_structure _ _ _ _ E) as (_ & H2 & H3 & _).
  split; [exact H2 | exact H3].
Defined.

(** ** The flow rates set at a section transition *)

Lemma unitFlowRates_first_rows (i : nat) (conRates conRates' : list float)
    (rows : list IndexRow) :
  forall (j : nat) (earlier : list IndexRow) (acc : float * float),
  (forall k r, rows !! k = Some r -> connectedBefore (earlier ++ take k rows) r = false ->
     conRates !! (j + k)%nat = conRates' !! (j + k)%nat) ->
  unitFlowRates i j earlier rows conRates acc = unitFlowRates i j earlier rows conRates' acc.
Proof.
  induction rows as [|r rest IH]; intros j earlier acc H; simpl; [reflexivity|].
  assert (Hacc : (if connectedBefore earlier r then acc
                  else ((if uoDest r =? Z.of_nat i
                         then (acc.1 + default 0 (conRates !! j))%float else acc.1),
                        (if uoSource r =? Z.of_nat i
                         then (acc.2 + default 0 (conRates !! j))%float else acc.2)))
                 = (if connectedBefore earlier r then acc
                    else ((if uoDest r =? Z.of_nat i
                           then (acc.1 + default 0 (conRates' !! j))%float else acc.1),
                          (if uoSource r =? Z.of_nat i
                           then (acc.2 + default 0 (conRates' !! j))%float else acc.2)))).
  { destruct (connectedBefore earlier r) eqn:E; [reflexivity|].
    specialize (H 0%nat r eq_refl). simpl in H. rewrite app_nil_r, Nat.add_0_r in H.
    rewrite (H E). reflexivity. }
  rewrite Hacc. apply IH. intros k r' Hk Hfirst.
  replace (S j + k)%nat with (j + S k)%nat by lia. apply (H (S k) r' Hk).
  simpl. rewrite <- app_assoc in Hfirst. exact Hfirst.
Qed.

(** X15: the flow rates that [notifyDiscontinuousSectionTransition]
    sets in the units depend on the flow rates of those rows only that are
    the first row of their connection in the connection list of the switch
    arrived at: two configurations with the same switches and connections
    whose flow rates agree on these rows give the same transition. *)
Theorem notify_reads_first_rows_only (models : list IUnitOperation)
    (cfg cfg' : SwitchConfig) (cur secIdx : nat) :
  _switchSectionIndex cfg' = _switchSectionIndex cfg ->
  _connections cfg' = _connections cfg ->
  (forall conn k r,
     _connections cfg !! (advanceSwitch (_switchSectionIndex cfg) cur secIdx).1 = Some conn ->
     conn !! k = Some r -> connectedBefore (take k conn) r = false ->
     default [] (_flowRates cfg !! (advanceSwitch (_switchSectionIndex cfg) cur secIdx).1) !! k
     = default [] (_flowRates cfg' !! (advanceSwitch (_switchSectionIndex cfg) cur secIdx).1) !! k) ->
  notifyDiscontinuousSectionTransition models cfg' cur secIdx
  = notifyDiscontinuousSectionTransition models cfg cur secIdx.
Proof.
  intros Hs Hc Hf. unfold notifyDiscontinuousSectionTransition. rewrite Hs, Hc.
  destruct (_switchSectionIndex cfg) as [|s0 ss] eqn:Es; [reflexivity|].
  destruct (advanceSwitch (s0 :: ss) cur secIdx) as [c prevSwitch] eqn:Ea. simpl in Hf.
  f_equal. f_equal. apply imap_ext. intros i m _.
  apply unitFlowRates_first_rows. intros k r Hk Hfirst. simpl in *.
  destruct (_connections cfg !! c) as [conn|] eqn:Econn; simpl in Hk; [|discriminate].
  symmetry. apply (Hf conn k r eq_refl Hk Hfirst).
Qed.

(** The second row belongs to the connection of the first; its flow
    rate differs in the two configurations. *)
Lemma notify_reads_first_rows_only_witness :
  let source := UnitOp.Build 0 2 2 false true false 0 1 0 1 in
  let sink := UnitOp.Build 1 2 2 true false false 0 1 0 1 in
  let conn := [BuildIndexRow 0 1 0 0; BuildIndexRow 0 1 1 1] in
  let cfg := BuildSwitchConfig [0] [conn] [[1; 2]%float] ∅ in
  let cfg' := BuildSwitchConfig [0] [conn] [[1; 3]%float] ∅ in
  notifyDiscontinuousSectionTransition [source; sink] cfg' 0 0
  = notifyDiscontinuousSectionTransition [source; sink] cfg 0 0.
Proof.
  intros source sink conn cfg cfg'.
  apply notify_reads_first_rows_only; [reflexivity | reflexivity |].
  intros conn' k r Hconn Hk Hfirst. vm_compute in Hconn. injection Hconn as <-.
  destruct k as [|[|k]]; [reflexivity | | discriminate].
  injection Hk as <-. vm_compute in Hfirst. discriminate.
Defined.

Lemma addAt_same (i : nat) (fr : float) (v : list float) :
  (i < length v)%nat ->
  default 0%float (addAt (Z.of_nat i) fr v !! i) = (default 0 (v !! i) + fr)%float.
Proof.
  intros Hi. unfold addAt. rewrite Nat2Z.id, list_lookup_alter.
  destruct (lookup_lt_is_Some_2 v i Hi) as [x Hx]. rewrite Hx.
  destruct (decide (i = i)); [reflexivity | contradiction].
Qed.

Lemma length_addAt (idx : Z) (fr : float) (v : list float) :
  length (addAt idx fr v) = length v.
Proof. unfold addAt. apply length_alter. Qed.

Lemma unitFlowRates_balanceTotals (i : nat) (conRates : list float) (rows : list IndexRow) :
  forall (flows : list float) (j : nat) (earlier : list IndexRow) (totals : list float * list float),
  length flows = length rows ->
  Forall (fun r => 0 <= uoSource r /\ 0 <= uoDest r) rows ->
  (i < length totals.1)%nat -> (i < length totals.2)%nat ->
  (forall k, (k < length rows)%nat -> conRates !! (j + k)%nat = flows !! k) ->
  unitFlowRates i j earlier rows conRates
    (default 0%float (totals.1 !! i), default 0%float (totals.2 !! i))
  = (default 0%float ((balanceTotals earlier rows flows totals).1 !! i),
     default 0%float ((balanceTotals earlier rows flows totals).2 !! i)).
Proof.
  induction rows as [|r rest IH]; intros flows j earlier totals Hlen Hnn H1 H2 Hrates.
  - destruct flows; reflexivity.
  - destruct flows as [|f flows]; [discriminate|]. simpl in Hlen.
    apply Forall_cons in Hnn as [[Hs Hd] Hnn].
    assert (Hj : conRates !! j = Some f).
    { specialize (Hrates 0%nat ltac:(simpl; lia)). rewrite Nat.add_0_r in Hrates. exact Hrates. }
    simpl. rewrite Hj. simpl.
    destruct (connectedBefore earlier r).
    + apply IH; [lia | exact Hnn | exact H1 | exact H2 |].
      intros k Hk. replace (S j + k)%nat with (j + S k)%nat by lia.
      apply (Hrates (S k)). simpl. lia.
    + assert (Hin : (if uoDest r =? Z.of_nat i
                     then (default 0 (totals.1 !! i) + f)%float else default 0%float (totals.1 !! i))
                    = default 0%float (addAt (uoDest r) f totals.1 !! i)).
      { destruct (Z.eqb_spec (uoDest r) (Z.of_nat i)) as [E|E].
        - rewrite E, addAt_same by exact H1. reflexivity.
        - rewrite addAt_other by assumption. reflexivity. }
      assert (Hout : (if uoSource r =? Z.of_nat i
                      then (default 0 (totals.2 !! i) + f)%float else default 0%float (totals.2 !! i))
                     = default 0%float (addAt (uoSource r) f totals.2 !! i)).
      { destruct (Z.eqb_spec (uoSource r) (Z.of_nat i)) as [E|E].
        - rewrite E, addAt_same by exact H2. reflexivity.
        - rewrite addAt_other by assumption. reflexivity. }
      rewrite Hin, Hout.
      apply (IH flows (S j) (earlier ++ [r])
               (addAt (uoDest r) f totals.1, addAt (uoSource r) f totals.2));
        [lia | exact Hnn | simpl; rewrite length_addAt; exact H1
         | simpl; rewrite length_addAt; exact H2 |].
      intros k Hk. replace (S j + k)%nat with (j + S k)%nat by lia.
      apply (Hrates (S k)). simpl. lia.
Qed.

Lemma sharedFlowRates_first_rows (rows : list IndexRow) :
  forall (flows : list float) (earlier : list IndexRow) (earlierFlows : list float)
         (k : nat) (r : IndexRow),
  length flows = length rows -> length earlierFlows = length earlier ->
  rows !! k = Some r -> connectedBefore (earlier ++ take k rows) r = false ->
  sharedFlowRates earlier earlierFlows rows flows !! k = flows !! k.
Proof.
  induction rows as [|q rest IH]; intros flows earlier earlierFlows k r Hlen Hel Hk Hfirst;
    [discriminate|].
  destruct flows as [|f flows]; [discriminate|]. simpl in Hlen.
  destruct k as [|k]; simpl in Hk |- *.
  - injection Hk as ->. simpl in Hfirst. rewrite app_nil_r in Hfirst.
    rewrite (firstConnectionFlow_connectedBefore earlier earlierFlows r Hel) in Hfirst.
    destruct (firstConnectionFlow earlier earlierFlows r) as [x|]; [|reflexivity].
    rewrite bool_decide_eq_true_2 in Hfirst by (eexists; reflexivity). discriminate.
  - apply (IH flows (earlier ++ [q]) (earlierFlows ++ [f]) k r);
      [lia | rewrite !length_app; simpl; lia | exact Hk |].
    rewrite <- app_assoc. exact Hfirst.
Qed.

(** X16: for a connection list in which the unit operation ids are the
    array indices of the units, the total inlet and outlet flow rates that
    a section transition sets in unit [i] are the totals
    [totalInflow[i]] and [totalOutflow[i]] whose balance
    [checkConnectionList] has checked, computed from the index rows and
    flow rates it has returned. *)
Theorem notified_flow_rates_are_checked_totals (models : list IUnitOperation)
    (conn : list float) (sw : nat) (st : RowLoopState) (i : nat) :
  checkRows models sw 0 [] (rowsOfMatrix conn) (initialRowLoop models) = Ok st ->
  idsAgreeWithIndices [] [] (rowsOfMatrix conn) (connOnly st) = true ->
  (i < length models)%nat ->
  unitFlowRates i 0 [] (connOnly st) (flowRates st) (0%float, 0%float)
  = (default 0%float (totalInflow st !! i), default 0%float (totalOutflow st !! i)).
Proof.
  intros Hrows Hids Hi.
  destruct (checkRows_counts_once _ _ _ _ _ _ _ Hrows) as (idx & Hconn & Hlen & Hagree).
  simpl in Hconn. rewrite Hconn in *. destruct (Hagree Hids) as [Htot Hfr].
  simpl in Htot, Hfr. rewrite Hfr.
  pose proof (checkRows_invariant models sw _ _ _ _ _ (initialRowLoop_invariant models) Hrows)
    as (Hwf & _ & _).
  rewrite Hconn in Hwf.
  assert (Hnn : Forall (fun r => 0 <= uoSource r /\ 0 <= uoDest r) idx).
  { eapply Forall_impl; [exact Hwf|]. intros r (s & d & ms & md & Hs & Hd & _). lia. }
  assert (Hfl : length (map rowFlow (rowsOfMatrix conn)) = length idx)
    by (rewrite length_map; lia).
  rewrite (unitFlowRates_first_rows i _ (map rowFlow (rowsOfMatrix conn))).
  - pose proof (unitFlowRates_balanceTotals i (map rowFlow (rowsOfMatrix conn)) idx
                  (map rowFlow (rowsOfMatrix conn)) 0 []
                  (replicate (length models) 0%float, replicate (length models) 0%float)
                  Hfl Hnn) as HA.
    simpl in HA. rewrite !length_replicate in HA.
    rewrite !lookup_replicate_2 in HA by exact Hi. simpl in HA.
    rewrite (HA Hi Hi (fun k _ => eq_refl)). clear HA.
    rewrite <- Htot. reflexivity.
  - intros k r Hk Hfirst. simpl.
    apply (sharedFlowRates_first_rows idx _ [] [] k r Hfl eq_refl Hk Hfirst).
Qed.

(** A source and a sink whose ids are their indices, connected by two
    rows of the same connection. *)
Lemma notified_flow_rates_are_checked_totals_witness :
  let source := UnitOp.Build 0 2 2 false true false 0 1 0 1 in
  let sink := UnitOp.Build 1 2 2 true false false 0 1 0 1 in
  let conn := [0; 1; 0; 0; 1;  0; 1; 1; 1; 1]%float in
  exists st,
    checkRows [source; sink] 0 0 [] (rowsOfMatrix conn) (initialRowLoop [source; sink]) = Ok st
    /\ unitFlowRates 1 0 [] (connOnly st) (flowRates st) (0%float, 0%float)
       = (default 0%float (totalInflow st !! 1%nat), default 0%float (totalOutflow st !! 1%nat)).
Proof.
  intros source sink conn.
  destruct (checkRows [source; sink] 0 0 [] (rowsOfMatrix conn) (initialRowLoop [source; sink]))
    as [st| |] eqn:E; [|vm_compute in E; discriminate..].
  exists st. split; [reflexivity|].
  apply (notified_flow_rates_are_checked_totals [source; sink] conn 0 st 1 E).
  - vm_compute in E. injection E as <-. vm_compute. reflexivity.
  - simpl. lia.
Defined.

(** ** The superstructure matrices *)

Lemma inletEntries_from (model : IUnitOperation) (n : nat) :
  forall (s : nat) (A : FloatMatrix) (c : nat),
  fold_left (fun '(A, couplingIdx) comp =>
               (addElement A (UnitOp.localInletComponentIndex model
                              + comp * UnitOp.localInletComponentStride model)%nat
                           couplingIdx (-1)%float,
                S couplingIdx))
            (seq s n) (A, c)
  = (A ++ map (fun comp => ((UnitOp.localInletComponentIndex model
                             + comp * UnitOp.localInletComponentStride model)%nat,
                            (c + (comp - s))%nat, (-1)%float))
              (seq s n),
     (c + n)%nat).
Proof.
  induction n as [|n IH]; intros s A c; simpl.
  - rewrite app_nil_r, Nat.add_0_r. reflexivity.
  - rewrite IH. unfold addElement. rewrite <- app_assoc. simpl.
    rewrite Nat.sub_diag, Nat.add_0_r. f_equal; [|lia]. f_equal. f_equal.
    apply map_ext_in. intros comp Hin. apply in_seq in Hin.
    f_equal. f_equal. lia.
Qed.

Lemma inletEntries_spec (model : IUnitOperation) (c : nat) :
  inletEntries model c
  = (map (fun comp => ((UnitOp.localInletComponentIndex model
                        + comp * UnitOp.localInletComponentStride model)%nat,
                       (c + comp)%nat, (-1)%float))
         (seq 0 (UnitOp.numComponents model)),
     (c + UnitOp.numComponents model)%nat).
Proof.
  unfold inletEntries. rewrite inletEntries_from. simpl. f_equal.
  apply map_ext. intros comp. rewrite Nat.sub_0_r. reflexivity.
Qed.

Lemma assembleNF_lookup (models : list IUnitOperation) :
  forall (c i : nat) (u : IUnitOperation),
  models !! i = Some u ->
  assembleNF models c !! i
  = Some (if UnitOp.hasInlet u
          then map (fun comp => ((UnitOp.localInletComponentIndex u
                                  + comp * UnitOp.localInletComponentStride u)%nat,
                                 (c + inletComponents (take i models) + comp)%nat, (-1)%float))
                   (seq 0 (UnitOp.numComponents u))
          else []).
Proof.
  induction models as [|m ms IH]; intros c i u Hi; [discriminate|].
  destruct i as [|i]; simpl in Hi.
  - injection Hi as ->. simpl. destruct (UnitOp.hasInlet u).
    + rewrite inletEntries_spec. simpl. f_equal. apply map_ext. intros comp.
      f_equal. f_equal. lia.
    + reflexivity.
  - simpl. destruct (UnitOp.hasInlet m).
    + rewrite inletEntries_spec. simpl. rewrite (IH _ _ _ Hi).
      destruct (UnitOp.hasInlet u); [|reflexivity]. f_equal. apply map_ext. intros comp.
      f_equal. f_equal. lia.
    + simpl. rewrite (IH _ _ _ Hi). reflexivity.
Qed.

Lemma assembleSuperStructMatrices_NF (models : list IUnitOperation) (cfg : SwitchConfig)
    (cur : nat) (cmap m : gmap (nat * nat) nat) (nTotal : nat) (ss : SuperStruct) :
  assembleSuperStructMatrices models cfg cur cmap nTotal = Ok (ss, m) ->
  _jacNF ss = assembleNF models 0 /\ _jacFN ss = _jacActiveFN ss.
Proof.
  unfold assembleSuperStructMatrices, mbind, outcome_bind. intros H.
  destruct (elementAt (_connections cfg) (Z.of_nat cur)) as [ptrConn| |]; try discriminate.
  destruct (elementAt (_flowRates cfg) (Z.of_nat cur)) as [ptrRate| |]; try discriminate.
  destruct (totalInletFlowLoop 0 [] ptrConn ptrRate (replicate nTotal 0%float))
    as [total| |]; try discriminate.
  destruct (connectLoop models ptrRate total 0 [] ptrConn (replicate (length models) [], cmap))
    as [[fn m']| |]; try discriminate.
  injection H as <- <-. split; reflexivity.
Qed.

(** X17: after [assembleSuperStructMatrices], the inbound matrix
    [_jacNF[i]] of a unit without inlet is empty, and that of a unit with
    an inlet has one entry -1 for each component [comp] of the unit, in
    row [localInletComponentIndex + comp * localInletComponentStride] and
    in the column that the coupling index map of
    [rebuildInternalDataStructures] gives for [(i, comp)]; and [_jacFN]
    holds the entries of [_jacActiveFN]. *)
Theorem assembled_inbound_matrices (models : list IUnitOperation) (old : list Z)
    (cfg : SwitchConfig) (cur : nat) (cmap m : gmap (nat * nat) nat) (nTotal : nat)
    (ss : SuperStruct) (i : nat) (u : IUnitOperation) :
  assembleSuperStructMatrices models cfg cur cmap nTotal = Ok (ss, m) ->
  models !! i = Some u ->
  _jacFN ss = _jacActiveFN ss
  /\ exists A, _jacNF ss !! i = Some A
     /\ (UnitOp.hasInlet u = false -> A = [])
     /\ (UnitOp.hasInlet u = true ->
         length A = UnitOp.numComponents u
         /\ forall comp, (comp < UnitOp.numComponents u)%nat ->
              exists k,
                _couplingIdxMap (rebuildInternalDataStructures models old) !! (i, comp) = Some k
                /\ A !! comp
                   = Some ((UnitOp.localInletComponentIndex u
                            + comp * UnitOp.localInletComponentStride u)%nat, k, (-1)%float)).
Proof.
  intros H Hu. destruct (assembleSuperStructMatrices_NF _ _ _ _ _ _ _ H) as [Hnf Hfn].
  split; [exact Hfn|]. rewrite Hnf, (assembleNF_lookup models 0 i u Hu).
  eexists. split; [reflexivity|]. split.
  - intros ->. reflexivity.
  - intros Hin. rewrite Hin. split; [rewrite length_map, length_seq; reflexivity|].
    intros comp Hc. exists (inletComponents (take i models) + comp)%nat. split.
    + apply couplingIdxMap_lookup. exists u. repeat split; assumption.
    + rewrite list_lookup_fmap, lookup_seq_lt by exact Hc. reflexivity.
Qed.

Lemma elementAt_Ok {A : Type} (v : list A) (i : nat) (x : A) :
  v !! i = Some x -> elementAt v (Z.of_nat i) = Ok x.
Proof.
  intros H. unfold elementAt. destruct (Z.ltb_spec (Z.of_nat i) 0); [lia|].
  rewrite Nat2Z.id, H. reflexivity.
Qed.

Lemma elementAt_inv {A : Type} (v : list A) (i : Z) (x : A) :
  elementAt v i = Ok x -> 0 <= i /\ v !! Z.to_nat i = Some x.
Proof.
  unfold elementAt. destruct (Z.ltb_spec i 0); [discriminate|].
  destruct (v !! Z.to_nat i); [|discriminate]. intros [= ->]. split; [lia | reflexivity].
Qed.

Lemma inletComponents_block (models : list IUnitOperation) (dst : nat) (m : IUnitOperation) :
  models !! dst = Some m -> UnitOp.hasInlet m = true ->
  (inletComponents (take dst models) + UnitOp.numComponents m <= inletComponents models)%nat.
Proof.
  intros Hm Hin. pose proof (inletComponents_take_le models (S dst)) as H.
  rewrite (take_S_r _ _ _ Hm), inletComponents_app in H. simpl in H. rewrite Hin in H. lia.
Qed.

Lemma alter_app_nil (src : nat) (fn : list FloatMatrix) :
  alter (fun A => A ++ []) src fn = fn.
Proof. apply list_alter_id. intros A. apply app_nil_r. Qed.

Lemma connect_wildcard_fold (cmap : gmap (nat * nat) nat) (src : nat)
    (key : nat -> nat * nat) (rowOf col : nat -> nat) (w : float) (n : nat) :
  forall (s : nat) (fn : list FloatMatrix),
  (forall comp, (s <= comp < s + n)%nat -> cmap !! key comp = Some (rowOf comp)) ->
  fold_left (fun '(fn, m) comp =>
               let '(row, m') := mapIndex m (key comp) in
               (alter (fun A => addElement A row (col comp) w) src fn, m'))
            (seq s n) (fn, cmap)
  = (alter (fun A => A ++ map (fun comp => (rowOf comp, col comp, w)) (seq s n)) src fn, cmap).
Proof.
  induction n as [|n IH]; intros s fn Hkeys; simpl.
  - rewrite alter_app_nil. reflexivity.
  - assert (Hs : mapIndex cmap (key s) = (rowOf s, cmap))
      by (unfold mapIndex; rewrite (Hkeys s ltac:(lia)); reflexivity).
    rewrite Hs. rewrite IH by (intros comp Hc; apply Hkeys; lia).
    f_equal. rewrite list_alter_alter_eq. apply list_alter_ext; [|reflexivity].
    intros A _. unfold addElement. simpl. rewrite <- app_assoc. reflexivity.
Qed.

Lemma firstRowOf_lt (rows : list IndexRow) (src dst : Z) (k : nat) :
  firstRowOf rows src dst = Some k -> (k < length rows)%nat.
Proof.
  intros H. destruct (firstRowOf_Some _ _ _ _ H) as (r & Hr & _).
  eapply lookup_lt_Some; exact Hr.
Qed.

(** The body of the loop on a row as [checkConnectionList] returns it
    and with the coupling index map of [rebuildInternalDataStructures]:
    the map is hit, and the entries are those of [rowEntries]. *)
Lemma connectRow_valid (models : list IUnitOperation) (old : list Z)
    (ptrRate total : list float) (i : nat) (earlier : list IndexRow) (r : IndexRow)
    (fn : list FloatMatrix) (rate : float) :
  let cmap := _couplingIdxMap (rebuildInternalDataStructures models old) in
  rowAssemblable models r ->
  length fn = length models -> length total = length models ->
  ptrRate !! default i (firstRowOf earlier (uoSource r) (uoDest r)) = Some rate ->
  connectRow models ptrRate total i earlier r (fn, cmap)
  = Ok (alter (fun A => A ++ rowEntries models r
                               (- rate / default 0 (total !! Z.to_nat (uoDest r)))%float)
              (Z.to_nat (uoSource r)) fn, cmap).
Proof.
  intros cmap (Hwf & Hcomp & Hwild & Hd31 & Hs31 & Hc31) Hfn Htot Hrate.
  destruct Hwf as (src & dst & mSrc & mDst & Hsrc & Hdst & Hms & Hout & Hmd & Hin).
  destruct Hcomp as (mSrc' & mDst' & Hms' & Hmd' & Hcases).
  rewrite Hsrc, Nat2Z.id in Hms'. rewrite Hdst, Nat2Z.id in Hmd'.
  assert (mSrc' = mSrc) as -> by congruence. assert (mDst' = mDst) as -> by congruence.
  pose proof (lookup_lt_Some _ _ _ Hms) as Hsl. pose proof (lookup_lt_Some _ _ _ Hmd) as Hdl.
  destruct (lookup_lt_is_Some_2 total dst ltac:(lia)) as [tot Ht].
  destruct (lookup_lt_is_Some_2 fn src ltac:(lia)) as [A0 HA0].
  revert Hrate. unfold connectRow, rowEntries. rewrite Hsrc, Hdst, !Nat2Z.id, Hms, Ht.
  intros Hrate.
  rewrite (elementAt_Ok _ _ _ Hms). unfold mbind at 1, outcome_bind at 1. simpl.
  assert (Hkey : forall comp, couplingKey (Z.of_nat dst) comp = (dst, comp)).
  { intros comp. unfold couplingKey. rewrite toUnsigned_id by lia. rewrite Nat2Z.id. reflexivity. }
  destruct (Z.eqb_spec (compSource r) (-1)) as [Ew|Ew].
  - destruct Hcases as [(_ & _ & Hn)|[Hc _]]; [|lia].
    destruct (UnitOp.numComponents mSrc) as [|n] eqn:En.
    + simpl. rewrite alter_app_nil. reflexivity.
    + rewrite (elementAt_Ok _ _ _ Hrate), (elementAt_Ok _ _ _ Ht).
      unfold mbind, outcome_bind. rewrite (elementAt_Ok _ _ _ HA0).
      f_equal.
      apply (connect_wildcard_fold cmap src (fun comp => couplingKey (Z.of_nat dst) comp)
               (fun comp => (inletComponents (take dst models) + comp)%nat)
               (fun comp => (UnitOp.localOutletComponentIndex mSrc
                             + UnitOp.localOutletComponentStride mSrc * comp)%nat)
               (- rate / tot)%float (S n) 0 fn).
      intros comp Hc. rewrite Hkey. apply couplingIdxMap_lookup.
      exists mDst. split; [exact Hmd|]. split; [exact Hin|]. split; [lia | reflexivity].
  - destruct Hcases as [(Hneg & _)|[Hcs Hcd]]; [specialize (Hwild Hneg); lia|].
    rewrite !toUnsigned_id by lia. rewrite Hkey.
    unfold mapIndex.
    assert (Hhit : cmap !! (dst, Z.to_nat (compDest r))
                   = Some (inletComponents (take dst models) + Z.to_nat (compDest r))%nat).
    { apply couplingIdxMap_lookup. exists mDst. split; [exact Hmd|]. split; [exact Hin|].
      split; [lia | reflexivity]. }
    rewrite Hhit. rewrite (elementAt_Ok _ _ _ Hrate), (elementAt_Ok _ _ _ Ht).
    unfold mbind, outcome_bind. simpl. rewrite (elementAt_Ok _ _ _ HA0).
    reflexivity.
Qed.

Lemma staticCastInt_range (x : float) (z : Z) :
  staticCastInt x = Ok z -> - 2 ^ 31 <= z < 2 ^ 31.
Proof.
  unfold staticCastInt. destruct (Prim2SF x) as [s|s| |s m e]; try discriminate.
  - intros [= <-]. lia.
  - destruct ((- 2 ^ 31 <=? (if s then - (if 0 <=? e then Z.shiftl (Z.pos m) e
                                         else Z.shiftr (Z.pos m) (- e))
                             else if 0 <=? e then Z.shiftl (Z.pos m) e
                                  else Z.shiftr (Z.pos m) (- e)))
               && ((if s then - (if 0 <=? e then Z.shiftl (Z.pos m) e
                                 else Z.shiftr (Z.pos m) (- e))
                    else if 0 <=? e then Z.shiftl (Z.pos m) e
                         else Z.shiftr (Z.pos m) (- e)) <? 2 ^ 31)) eqn:E; [|discriminate].
    intros [= <-]. apply andb_true_iff in E as [E1 E2].
    apply Z.leb_le in E1. apply Z.ltb_lt in E2. lia.
Qed.

Lemma rowRead_assemblable (models : list IUnitOperation) (r : ConnectionRow) (q : IndexRow) :
  Z.of_nat (length models) <= 2 ^ 31 ->
  rowRead models r q -> (compSource q < 0 -> compSource q = -1) ->
  rowAssemblable models q.
Proof.
  intros Hn (Hwf & Hcv & Hcs & Hcd & _) Hwild.
  split; [exact Hwf|]. split; [exact Hcv|]. split; [exact Hwild|].
  apply staticCastInt_range in Hcs. apply staticCastInt_range in Hcd.
  destruct Hwf as (src & dst & mSrc & mDst & Hsrc & Hdst & Hms & _ & Hmd & _).
  apply lookup_lt_Some in Hmd. split; [lia|]. split; lia.
Qed.

Lemma configureSwitches_rows (models : list IUnitOperation) (switches : list SwitchInput)
    (params : gmap (Z * Z * nat) (nat * nat)) (cfg : SwitchConfig)
    (cur : nat) (conn : list IndexRow) :
  configureSwitches models switches params = Ok cfg ->
  _connections cfg !! cur = Some conn ->
  (cur < length (_switchSectionIndex cfg))%nat
  /\ (exists fr, _flowRates cfg !! cur = Some fr /\ length fr = length conn)
  /\ Forall (fun q => exists r, rowRead models r q) conn.
Proof.
  unfold configureSwitches, mbind, outcome_bind. intros H Hconn.
  destruct (configureSwitchLoop models 0 switches (BuildSwitchConfig [] [] [] params))
    as [cfg0| |] eqn:El; try discriminate.
  assert (cfg0 = cfg) as ->.
  { destruct (_switchSectionIndex cfg0) as [|first rest]; [discriminate|].
    destruct (negb (first =? 0)); [discriminate | congruence]. }
  clear H.
  pose proof (configureSwitchLoop_sections _ _ _ _ _ El) as Hsec. simpl in Hsec.
  destruct (configureSwitchLoop_results _ _ _ _ _ El) as (results & Hlen & Hc & Hf & Hres & _).
  simpl in Hc, Hf. rewrite Hc, list_lookup_fmap in Hconn.
  destruct (results !! cur) as [[conn' fr]|] eqn:Er; [|discriminate].
  simpl in Hconn. injection Hconn as ->.
  pose proof (lookup_lt_Some _ _ _ Er) as Hcur.
  destruct (lookup_lt_is_Some_2 switches cur ltac:(lia)) as [sw Hsw].
  destruct (Hres cur sw Hsw) as (_ & res & Hres' & Hcl).
  rewrite Er in Hres'. injection Hres' as <-. simpl in Hcl.
  split; [rewrite Hsec, length_map; lia|]. split.
  - exists fr. split; [rewrite Hf, list_lookup_fmap, Er; reflexivity|].
    eapply checkConnectionList_lengths; exact Hcl.
  - unfold checkConnectionList, mbind, outcome_bind in Hcl.
    destruct (checkRows models cur 0 [] (rowsOfMatrix (CONNECTIONS sw)) (initialRowLoop models))
      as [st| |] eqn:Erows; try discriminate.
    destruct (checkBalance cur st 0 models) as [[]| |]; try discriminate.
    injection Hcl as <- <-.
    destruct (checkRows_read _ _ _ _ _ _ _ Erows) as (idx & Hidx & Hall & _).
    simpl in Hidx. rewrite Hidx. clear -Hall.
    induction Hall as [|r q rows idx Hrq _ IH]; constructor; [exists r; exact Hrq | exact IH].
Qed.

Lemma rowEntries_spec (models : list IUnitOperation) (r : IndexRow) (w : float) (u : nat) :
  rowAssemblable models r ->
  Forall (fun e : nat * nat * float => (e.1.1 < inletComponents models)%nat)
         (rowEntries models r w)
  /\ (uoSource r = Z.of_nat u ->
      length (rowEntries models r w)
      = (if compSource r =? -1
         then default 0%nat (UnitOp.numComponents <$> models !! u) else 1%nat)).
Proof.
  intros (Hwf & Hcomp & Hwild & Hd31 & Hs31 & Hc31).
  destruct Hwf as (src & dst & mSrc & mDst & Hsrc & Hdst & Hms & Hout & Hmd & Hin).
  destruct Hcomp as (mSrc' & mDst' & Hms' & Hmd' & Hcases).
  rewrite Hsrc, Nat2Z.id in Hms'. rewrite Hdst, Nat2Z.id in Hmd'.
  assert (mSrc' = mSrc) as -> by congruence. assert (mDst' = mDst) as -> by congruence.
  pose proof (inletComponents_block models dst mDst Hmd Hin) as Hblock.
  unfold rowEntries. rewrite Hsrc, Hdst, !Nat2Z.id, Hms.
  destruct (Z.eqb_spec (compSource r) (-1)) as [Ew|Ew].
  - destruct Hcases as [(_ & _ & Hn)|[Hc _]]; [|lia]. split.
    + apply Forall_forall. intros e He. apply list_elem_of_fmap in He as (comp & -> & Hcomp).
      apply elem_of_seq in Hcomp. simpl. lia.
    + intros Hu. assert (u = src) as -> by lia. rewrite Hms. simpl.
      rewrite length_map, length_seq. reflexivity.
  - destruct Hcases as [(Hneg & _)|[Hcs Hcd]]; [specialize (Hwild Hneg); lia|]. split.
    + constructor; [simpl; lia | constructor].
    + intros _. reflexivity.
Qed.

Lemma connectLoop_valid (models : list IUnitOperation) (old : list Z)
    (ptrRate total : list float) (rows : list IndexRow) :
  let cmap := _couplingIdxMap (rebuildInternalDataStructures models old) in
  forall (i : nat) (earlier : list IndexRow) (fn : list FloatMatrix),
  Forall (rowAssemblable models) rows ->
  length fn = length models -> length total = length models ->
  length earlier = i -> (i + length rows <= length ptrRate)%nat ->
  exists fn',
    connectLoop models ptrRate total i earlier rows (fn, cmap) = Ok (fn', cmap)
    /\ length fn' = length models
    /\ forall u A, fn !! u = Some A ->
         exists B, fn' !! u = Some (A ++ B)
                   /\ length B = outgoingEntries models u rows
                   /\ Forall (fun e : nat * nat * float => (e.1.1 < inletComponents models)%nat) B.
Proof.
  intros cmap. subst cmap.
  induction rows as [|r rest IH]; intros i earlier fn Hall Hfn Htot He Hlen.
  - exists fn. split; [reflexivity|]. split; [exact Hfn|].
    intros u A HA. exists []. rewrite app_nil_r. split; [exact HA|]. split; [reflexivity|constructor].
  - apply Forall_cons in Hall as [Hr Hall]. simpl in Hlen.
    assert (Hidx : (default i (firstRowOf earlier (uoSource r) (uoDest r)) <= i)%nat).
    { destruct (firstRowOf earlier (uoSource r) (uoDest r)) as [k|] eqn:Ek; simpl; [|lia].
      apply firstRowOf_lt in Ek. lia. }
    destruct (lookup_lt_is_Some_2 ptrRate
                (default i (firstRowOf earlier (uoSource r) (uoDest r))) ltac:(lia))
      as [rate Hrate].
    cbn [connectLoop]. unfold mbind, outcome_bind.
    rewrite (connectRow_valid models old ptrRate total i earlier r fn rate Hr Hfn Htot Hrate).
    set (w := (- rate / default 0 (total !! Z.to_nat (uoDest r)))%float).
    destruct (IH (S i) (earlier ++ [r])
                (alter (fun A => A ++ rowEntries models r w) (Z.to_nat (uoSource r)) fn) Hall)
      as (fn' & Hloop & Hlen' & Hcontent).
    { rewrite length_alter; exact Hfn. }
    { exact Htot. }
    { rewrite length_app; simpl; lia. }
    { lia. }
    exists fn'. split; [exact Hloop|]. split; [exact Hlen'|].
    intros u A HA.
    destruct (rowEntries_spec models r w u Hr) as [Hbound Hcount].
    destruct (proj1 Hr) as (src & dst & mSrc & mDst & Hsrc & _).
    destruct (decide (u = src)) as [->|Hne].
    + destruct (Hcontent src (A ++ rowEntries models r w)) as (B & HB & HlenB & HallB).
      { rewrite Hsrc, Nat2Z.id, list_lookup_alter.
        destruct (decide (src = src)); [|contradiction].
        unfold FloatMatrix, SparseMatrix in HA |- *. rewrite HA. reflexivity. }
      exists (rowEntries models r w ++ B). split; [rewrite HB, <- app_assoc; reflexivity|].
      split.
      * rewrite length_app, HlenB, (Hcount Hsrc). cbn [outgoingEntries].
        destruct (Z.eqb_spec (uoSource r) (Z.of_nat src)); [reflexivity | contradiction].
      * apply Forall_app. split; assumption.
    + destruct (Hcontent u A) as (B & HB & HlenB & HallB).
      { rewrite Hsrc, Nat2Z.id, list_lookup_alter_ne by lia. exact HA. }
      exists B. split; [exact HB|]. split; [|exact HallB].
      rewrite HlenB. cbn [outgoingEntries].
      destruct (Z.eqb_spec (uoSource r) (Z.of_nat u)); [lia | reflexivity].
Qed.

Lemma totalInletFlowLoop_valid (models : list IUnitOperation) (ptrRate : list float)
    (rows : list IndexRow) :
  forall (i : nat) (earlier : list IndexRow) (total : list float),
  Forall (rowWellFormed models) rows ->
  length total = length models -> (i + length rows <= length ptrRate)%nat ->
  exists total',
    totalInletFlowLoop i earlier rows ptrRate total = Ok total'
    /\ length total' = length models
    /\ forall u, (u < length models)%nat ->
         default 0%float (total' !! u)
         = (unitFlowRates u i earlier rows ptrRate
              (default 0%float (total !! u), 0%float)).1.
Proof.
  induction rows as [|r rest IH]; intros i earlier total Hall Htot Hlen.
  - exists total. split; [reflexivity|]. split; [exact Htot|]. intros u _. reflexivity.
  - apply Forall_cons in Hall as [Hr Hall]. simpl in Hlen.
    destruct Hr as (src & dst & mSrc & mDst & Hsrc & Hdst & Hms & _ & Hmd & _).
    pose proof (lookup_lt_Some _ _ _ Hmd) as Hdl.
    destruct (lookup_lt_is_Some_2 ptrRate i ltac:(lia)) as [rate Hrate].
    destruct (lookup_lt_is_Some_2 total dst ltac:(lia)) as [t Ht].
    simpl. rewrite Hrate. simpl.
    assert (Hfirst : forall acc1 acc2 acc2' u,
              (unitFlowRates u (S i) (earlier ++ [r]) rest ptrRate (acc1, acc2)).1
              = (unitFlowRates u (S i) (earlier ++ [r]) rest ptrRate (acc1, acc2')).1).
    { clear. generalize (S i) (earlier ++ [r]). induction rest as [|q rest IH];
        intros j earlier' acc1 acc2 acc2' u; [reflexivity|]. simpl.
      destruct (connectedBefore earlier' q); simpl; apply IH. }
    destruct (connectedBefore earlier r).
    + unfold mbind at 1, outcome_bind at 1.
      destruct (IH (S i) (earlier ++ [r]) total Hall Htot ltac:(lia)) as (total' & Hl & Hlen' & Hc).
      exists total'. split; [exact Hl|]. split; [exact Hlen'|]. exact Hc.
    + rewrite (elementAt_Ok _ _ _ Hrate). rewrite Hdst, (elementAt_Ok _ _ _ Ht).
      unfold mbind at 1 2 3, outcome_bind at 1 2 3.
      destruct (IH (S i) (earlier ++ [r]) (addAt (Z.of_nat dst) rate total) Hall
                  ltac:(rewrite length_addAt; exact Htot) ltac:(lia))
        as (total' & Hl & Hlen' & Hc).
      exists total'. split; [exact Hl|]. split; [exact Hlen'|].
      intros u Hu. rewrite (Hc u Hu).
      destruct (Z.eqb_spec (Z.of_nat dst) (Z.of_nat u)) as [E|E].
      * assert (dst = u) as -> by lia. rewrite addAt_same by lia.
        apply Hfirst.
      * rewrite addAt_other by lia. apply Hfirst.
Qed.

(** X18: on the connection list of a switch that [configureSwitches]
    has accepted, with -1 for all components and with the coupling index
    map of [rebuildInternalDataStructures], [assembleSuperStructMatrices]
    is defined and leaves the coupling index map as it is; every entry of
    an outbound matrix is in a row of the coupling block; and
    [_totalInletFlow[u]] is the total inlet flow rate that the section
    transition sets in unit [u]. *)
Theorem assemble_after_configure (models : list IUnitOperation) (old : list Z)
    (switches : list SwitchInput) (params : gmap (Z * Z * nat) (nat * nat))
    (cfg : SwitchConfig) (cur : nat) (conn : list IndexRow) :
  let cmap := _couplingIdxMap (rebuildInternalDataStructures models old) in
  configureSwitches models switches params = Ok cfg ->
  Z.of_nat (length models) <= 2 ^ 31 ->
  _connections cfg !! cur = Some conn ->
  (forall r, r ∈ conn -> compSource r < 0 -> compSource r = -1) ->
  exists ss,
    assembleSuperStructMatrices models cfg cur cmap (length models) = Ok (ss, cmap)
    /\ length (_jacActiveFN ss) = length models
    /\ (forall u A, _jacActiveFN ss !! u = Some A ->
          length A = outgoingEntries models u conn
          /\ Forall (fun e : nat * nat * float => (e.1.1 < numCouplingDOF cmap)%nat) A)
    /\ (forall u, (u < length models)%nat ->
          default 0%float (_totalInletFlow ss !! u)
          = (unitFlowRates u 0 [] conn (default [] (_flowRates cfg !! cur))
               (0%float, 0%float)).1).
Proof.
  intros cmap Hcfg Hn Hconn Hwild.
  destruct (configureSwitches_rows _ _ _ _ _ _ Hcfg Hconn) as (_ & (fr & Hfr & Hlen) & Hrows).
  assert (Hasm : Forall (rowAssemblable models) conn).
  { apply Forall_forall. intros q Hq.
    destruct (proj1 (Forall_forall _ _) Hrows q Hq) as [r Hr].
    apply (rowRead_assemblable models r q Hn Hr). apply Hwild. exact Hq. }
  assert (Hwf : Forall (rowWellFormed models) conn).
  { eapply Forall_impl; [exact Hasm|]. intros q Hq. exact (proj1 Hq). }
  destruct (totalInletFlowLoop_valid models fr conn 0 [] (replicate (length models) 0%float) Hwf)
    as (total & Htotal & Htl & Htv).
  { apply length_replicate. }
  { simpl. lia. }
  destruct (connectLoop_valid models old fr total conn 0 [] (replicate (length models) []) Hasm)
    as (fn & Hloop & Hfl & Hcontent).
  { apply length_replicate. }
  { exact Htl. }
  { reflexivity. }
  { simpl. lia. }
  exists {| _jacNF := assembleNF models 0; _jacActiveFN := fn; _jacFN := fn;
            _totalInletFlow := total |}.
  split.
  - unfold assembleSuperStructMatrices.
    rewrite (elementAt_Ok _ _ _ Hconn), (elementAt_Ok _ _ _ Hfr).
    unfold mbind, outcome_bind. rewrite Htotal.
    unfold cmap, FloatMatrix, SparseMatrix in Hloop |- *. rewrite Hloop. reflexivity.
  - simpl. split; [exact Hfl|]. split.
    + intros u A HA.
      assert (Hu : (u < length models)%nat)
        by (rewrite <- Hfl; apply (lookup_lt_Some _ _ _ HA)).
      destruct (Hcontent u []) as (B & HB & HlenB & HallB).
      { apply lookup_replicate_2. exact Hu. }
      simpl in HB. unfold FloatMatrix, SparseMatrix in HA, HB. rewrite HB in HA.
      injection HA as <-. split; [exact HlenB|].
      unfold cmap. rewrite couplingIdxMap_size. exact HallB.
    + intros u Hu. rewrite Hfr. simpl. rewrite (Htv u Hu).
      rewrite lookup_replicate_2 by exact Hu. reflexivity.
Qed.

(** An inlet unit feeds a column and the column an outlet unit, in all
    components. *)
Lemma assemble_after_configure_witness :
  let inlet := UnitOp.Build 0 2 2 false true false 0 1 0 1 in
  let column := UnitOp.Build 1 2 50 true true false 0 1 48 1 in
  let outlet := UnitOp.Build 2 2 2 true false false 0 1 0 1 in
  let models := [inlet; column; outlet] in
  let switches := [BuildSwitchInput 0 [0; 1; -1; -1; 1;  1; 2; -1; -1; 1]%float] in
  let cmap := _couplingIdxMap (rebuildInternalDataStructures models []) in
  exists cfg ss,
    configureSwitches models switches ∅ = Ok cfg
    /\ assembleSuperStructMatrices models cfg 0 cmap 3 = Ok (ss, cmap)
    /\ length (_jacActiveFN ss) = 3%nat.
Proof.
  intros inlet column outlet models switches cmap.
  destruct (configureSwitches models switches ∅) as [cfg| |] eqn:E;
    [|vm_compute in E; discriminate..].
  assert (Hconn : _connections cfg !! 0%nat
                  = Some [BuildIndexRow 0 1 (-1) (-1); BuildIndexRow 1 2 (-1) (-1)]).
  { vm_compute in E. injection E as <-. reflexivity. }
  destruct (assemble_after_configure models [] switches ∅ cfg 0 _ E
              ltac:(simpl; lia) Hconn) as (ss & Hss & Hlen & _).
  { intros r Hr Hneg. apply elem_of_cons in Hr as [->|Hr]; [reflexivity|].
    apply list_elem_of_singleton in Hr as ->. reflexivity. }
  exists cfg, ss. split; [reflexivity|]. split; [exact Hss | exact Hlen].
Defined.

(** X19: a row of the connection list that stands for all components
    adds to the outbound matrix of its source one entry for each
    component [comp] of the source, all with the same weight
    [-rate / _totalInletFlow[uoDest]], where [rate] is the flow rate of
    the first row of the connection: the entry is in the row that the
    coupling index map gives for component [comp] of the destination and
    in column [localOutletComponentIndex + localOutletComponentStride * comp].
    No other matrix changes, nor does the coupling index map. *)
Theorem wildcard_row_expansion (models : list IUnitOperation) (old : list Z)
    (ptrRate total : list float) (i : nat) (earlier : list IndexRow) (r : IndexRow)
    (fn : list FloatMatrix) (rate : float) (src dst : nat) (mSrc : IUnitOperation)
    (A : FloatMatrix) :
  let cmap := _couplingIdxMap (rebuildInternalDataStructures models old) in
  rowAssemblable models r -> compSource r = -1 ->
  length fn = length models -> length total = length models ->
  ptrRate !! default i (firstRowOf earlier (uoSource r) (uoDest r)) = Some rate ->
  uoSource r = Z.of_nat src -> uoDest r = Z.of_nat dst ->
  models !! src = Some mSrc -> fn !! src = Some A ->
  exists fn' B,
    connectRow models ptrRate total i earlier r (fn, cmap) = Ok (fn', cmap)
    /\ (forall u, u <> src -> fn' !! u = fn !! u)
    /\ fn' !! src = Some (A ++ B)
    /\ length B = UnitOp.numComponents mSrc
    /\ forall comp, (comp < UnitOp.numComponents mSrc)%nat ->
         exists k, cmap !! (dst, comp) = Some k
                   /\ B !! comp
                      = Some (k, (UnitOp.localOutletComponentIndex mSrc
                                  + UnitOp.localOutletComponentStride mSrc * comp)%nat,
                              (- rate / default 0 (total !! dst))%float).
Proof.
  intros cmap Hr Hw Hfn Htot Hrate Hsrc Hdst Hms HA.
  pose proof (connectRow_valid models old ptrRate total i earlier r fn rate Hr Hfn Htot Hrate)
    as Hrow.
  fold cmap in Hrow. rewrite Hsrc, Hdst, !Nat2Z.id in Hrow.
  set (w := (- rate / default 0 (total !! dst))%float) in *.
  assert (HB : rowEntries models r w
               = map (fun comp => ((inletComponents (take dst models) + comp)%nat,
                                   (UnitOp.localOutletComponentIndex mSrc
                                    + UnitOp.localOutletComponentStride mSrc * comp)%nat, w))
                     (seq 0 (UnitOp.numComponents mSrc))).
  { unfold rowEntries. rewrite Hsrc, Hdst, !Nat2Z.id, Hms, Hw. reflexivity. }
  exists (alter (fun A => A ++ rowEntries models r w) src fn), (rowEntries models r w).
  split; [exact Hrow|]. split.
  - intros u Hu. apply list_lookup_alter_ne. lia.
  - split.
    + rewrite list_lookup_alter. destruct (decide (src = src)); [|contradiction].
      unfold FloatMatrix, SparseMatrix in HA |- *. rewrite HA. reflexivity.
    + rewrite HB. split; [rewrite length_map, length_seq; reflexivity|].
      intros comp Hc. exists (inletComponents (take dst models) + comp)%nat. split.
      * destruct Hr as (Hwf & Hcomp & _).
        destruct Hwf as (src' & dst' & mSrc' & mDst & Hsrc' & Hdst' & Hms' & _ & Hmd & Hin).
        destruct Hcomp as (mSrc'' & mDst'' & Hms'' & Hmd'' & Hcases).
        assert (src' = src) as -> by lia. assert (dst' = dst) as -> by lia.
        rewrite Hsrc, Nat2Z.id in Hms''. rewrite Hdst, Nat2Z.id in Hmd''.
        assert (mSrc'' = mSrc) as -> by congruence. assert (mDst'' = mDst) as -> by congruence.
        destruct Hcases as [(_ & _ & Hnc)|[Hcs _]]; [|lia].
        apply couplingIdxMap_lookup. exists mDst. split; [exact Hmd|]. split; [exact Hin|].
        split; [lia | reflexivity].
      * rewrite list_lookup_fmap, lookup_seq_lt by exact Hc. reflexivity.
Qed.

(** The row connects all three components of a source to a sink. *)
Lemma wildcard_row_expansion_witness :
  let source := UnitOp.Build 0 3 3 false true false 0 1 0 1 in
  let sink := UnitOp.Build 1 3 3 true false false 0 1 0 1 in
  let models := [source; sink] in
  let cmap := _couplingIdxMap (rebuildInternalDataStructures models []) in
  let r := BuildIndexRow 0 1 (-1) (-1) in
  exists fn' B,
    connectRow models [2%float] [0; 2]%float 0 [] r ([[]; []], cmap) = Ok (fn', cmap)
    /\ fn' !! 0%nat = Some ([] ++ B)
    /\ length B = 3%nat.
Proof.
  intros source sink models cmap r.
  assert (Hr : rowAssemblable models r).
  { split; [exists 0%nat, 1%nat, source, sink; repeat split|].
    split; [exists source, sink; split; [reflexivity|]; split; [reflexivity|];
            left; repeat split; simpl; lia|].
    simpl. repeat split; lia. }
  destruct (wildcard_row_expansion models [] [2%float] [0; 2]%float 0 [] r [[]; []] 2%float
              0 1 source [] Hr eq_refl eq_refl eq_refl eq_refl eq_refl eq_refl eq_refl eq_refl)
    as (fn' & B & H1 & _ & H3 & H4 & _).
  exists fn', B. split; [exact H1|]. split; [exact H3 | exact H4].
Defined.

(** An inlet unit feeding a column with two components. *)
Lemma assembled_inbound_matrices_witness :
  let inlet := UnitOp.Build 0 2 2 false true false 0 1 0 1 in
  let column := UnitOp.Build 1 2 50 true true false 0 1 48 1 in
  let models := [inlet; column] in
  let cfg := BuildSwitchConfig [0] [[BuildIndexRow 0 1 (-1) (-1)]] [[1%float]] ∅ in
  let cmap := _couplingIdxMap (rebuildInternalDataStructures models []) in
  exists ss A,
    assembleSuperStructMatrices models cfg 0 cmap 2 = Ok (ss, cmap)
    /\ _jacNF ss !! 1%nat = Some A
    /\ length A = 2%nat.
Proof.
  intros inlet column models cfg cmap.
  destruct (assembleSuperStructMatrices models cfg 0 cmap 2) as [[ss m]| |] eqn:E;
    [|vm_compute in E; discriminate..].
  assert (m = cmap) as ->.
  { vm_compute in E. injection E as _ <-. vm_compute. reflexivity. }
  destruct (assembled_inbound_matrices models [] cfg 0 cmap cmap 2 ss 1 column E eq_refl)
    as (_ & A & HA & _ & Hin).
  exists ss, A. split; [reflexivity|]. split; [exact HA|]. exact (proj1 (Hin eq_refl)).
Defined.

(** ** The allocation of the outbound matrices *)

Lemma connect_wildcard_count (src : nat) (key : nat -> nat * nat) (col : nat -> nat)
    (w : float) (n : nat) :
  forall (s : nat) (fn fn' : list FloatMatrix) (m m' : gmap (nat * nat) nat),
  fold_left (fun '(fn, m) comp =>
               let '(row, m') := mapIndex m (key comp) in
               (alter (fun A => addElement A row (col comp) w) src fn, m'))
            (seq s n) (fn, m) = (fn', m') ->
  forall u A, fn !! u = Some A ->
    exists B, fn' !! u = Some (A ++ B) /\ length B = (if decide (u = src) then n else 0%nat).
Proof.
  induction n as [|n IH]; intros s fn fn' m m' H u A HA; simpl in H.
  - injection H as <- <-. exists []. rewrite app_nil_r. split; [exact HA|].
    destruct (decide (u = src)); reflexivity.
  - destruct (mapIndex m (key s)) as [row m1].
    destruct (decide (u = src)) as [->|Hne].
    + destruct (IH _ _ _ _ _ H src (addElement A row (col s) w)) as (B & HB & HlenB).
      { rewrite list_lookup_alter. destruct (decide (src = src)); [|contradiction].
        unfold FloatMatrix, SparseMatrix in HA |- *. rewrite HA. reflexivity. }
      destruct (decide (src = src)); [|contradiction].
      exists ((row, col s, w) :: B). unfold addElement in HB. rewrite <- app_assoc in HB.
      split; [exact HB | simpl; lia].
    + destruct (IH _ _ _ _ _ H u A) as (B & HB & HlenB).
      { rewrite list_lookup_alter_ne by lia. exact HA. }
      destruct (decide (u = src)); [contradiction|]. exists B. split; assumption.
Qed.

Lemma connectRow_count (models : list IUnitOperation) (ptrRate total : list float)
    (i : nat) (earlier : list IndexRow) (r : IndexRow)
    (fn fn' : list FloatMatrix) (m m' : gmap (nat * nat) nat) :
  connectRow models ptrRate total i earlier r (fn, m) = Ok (fn', m') ->
  forall u A, fn !! u = Some A ->
    exists B, fn' !! u = Some (A ++ B)
              /\ length B = outgoingEntries models u [r].
Proof.
  unfold connectRow, mbind at 1, outcome_bind at 1. intros H u A HA.
  destruct (elementAt models (uoSource r)) as [mSrc| |] eqn:Em; try discriminate.
  apply elementAt_inv in Em as [Hnn Hms].
  assert (Hcount : forall n, (if decide (u = Z.to_nat (uoSource r)) then n else 0%nat)
                             = if uoSource r =? Z.of_nat u then n else 0%nat).
  { intros n. destruct (decide (u = Z.to_nat (uoSource r))) as [E|Hne];
      destruct (Z.eqb_spec (uoSource r) (Z.of_nat u)); try reflexivity; lia. }
  assert (Hnum : uoSource r = Z.of_nat u ->
                 default 0%nat (UnitOp.numComponents <$> models !! u) = UnitOp.numComponents mSrc).
  { intros E. rewrite E, Nat2Z.id in Hms. rewrite Hms. reflexivity. }
  cbn [outgoingEntries]. rewrite Nat.add_0_r.
  destruct (Z.eqb_spec (compSource r) (-1)) as [Ew|Ew].
  - destruct (UnitOp.numComponents mSrc) as [|n] eqn:En.
    + injection H as <- <-. exists []. rewrite app_nil_r. split; [exact HA|].
      destruct (Z.eqb_spec (uoSource r) (Z.of_nat u)) as [E|E]; [|reflexivity].
      rewrite (Hnum E). reflexivity.
    + unfold mbind, outcome_bind in H.
      destruct (elementAt ptrRate _) as [rate| |]; try discriminate.
      destruct (elementAt total _) as [tot| |]; try discriminate.
      destruct (elementAt (fn, m).1 (uoSource r)) as [A0| |]; try discriminate.
      match type of H with Ok ?t = _ => remember t as res eqn:Hres end.
      injection H as ->. symmetry in Hres.
      destruct (connect_wildcard_count _ _ _ _ _ _ _ _ _ _ Hres u A HA) as (B & HB & HlenB).
      exists B. split; [exact HB|]. rewrite HlenB, Hcount.
      destruct (Z.eqb_spec (uoSource r) (Z.of_nat u)) as [E|E]; [|reflexivity].
      rewrite (Hnum E). reflexivity.
  - simpl in H. destruct (mapIndex m _) as [row m1].
    unfold mbind, outcome_bind in H.
    destruct (elementAt ptrRate _) as [rate| |]; try discriminate.
    destruct (elementAt total _) as [tot| |]; try discriminate.
    destruct (elementAt fn (uoSource r)) as [A0| |]; try discriminate.
    injection H as <- <-.
    destruct (Z.eqb_spec (uoSource r) (Z.of_nat u)) as [E|E].
    + rewrite E, Nat2Z.id, list_lookup_alter. destruct (decide (u = u)); [|contradiction].
      unfold FloatMatrix, SparseMatrix in HA |- *. rewrite HA. simpl.
      eexists. split; [reflexivity | reflexivity].
    + rewrite list_lookup_alter_ne by lia. exists []. rewrite app_nil_r.
      split; [exact HA | reflexivity].
Qed.

Lemma outgoingEntries_cons (models : list IUnitOperation) (u : nat) (r : IndexRow)
    (rest : list IndexRow) :
  outgoingEntries models u (r :: rest)
  = (outgoingEntries models u [r] + outgoingEntries models u rest)%nat.
Proof. cbn [outgoingEntries]. lia. Qed.

Lemma connectLoop_count (models : list IUnitOperation) (ptrRate total : list float)
    (rows : list IndexRow) :
  forall (i : nat) (earlier : list IndexRow) (fn fn' : list FloatMatrix)
         (m m' : gmap (nat * nat) nat),
  connectLoop models ptrRate total i earlier rows (fn, m) = Ok (fn', m') ->
  forall u A, fn !! u = Some A ->
    exists B, fn' !! u = Some (A ++ B) /\ length B = outgoingEntries models u rows.
Proof.
  induction rows as [|r rest IH]; intros i earlier fn fn' m m' H u A HA.
  - injection H as <- <-. exists []. rewrite app_nil_r. split; [exact HA | reflexivity].
  - cbn [connectLoop] in H. unfold mbind, outcome_bind in H.
    destruct (connectRow models ptrRate total i earlier r (fn, m)) as [[fn1 m1]| |] eqn:Er;
      try discriminate.
    destruct (connectRow_count _ _ _ _ _ _ _ _ _ _ Er u A HA) as (B1 & HB1 & Hl1).
    destruct (IH _ _ _ _ _ _ H u _ HB1) as (B2 & HB2 & Hl2).
    exists (B1 ++ B2). split; [rewrite HB2, <- app_assoc; reflexivity|].
    rewrite length_app, Hl1, Hl2, (outgoingEntries_cons models u r rest). reflexivity.
Qed.

Lemma countSources_count (models : list IUnitOperation) (rows : list IndexRow) :
  forall (counts counts' : list nat),
  countSources models rows counts = Ok counts' ->
  length counts' = length counts
  /\ forall u c, counts !! u = Some c ->
       counts' !! u = Some (c + outgoingEntries models u rows)%nat.
Proof.
  induction rows as [|r rest IH]; intros counts counts' H.
  - injection H as <-. split; [reflexivity|]. intros u c Hc. rewrite Hc. simpl.
    f_equal. lia.
  - cbn [countSources] in H. unfold mbind, outcome_bind in H.
    destruct (elementAt models (uoSource r)) as [model| |] eqn:Em; try discriminate.
    destruct (elementAt counts (uoSource r)) as [c0| |] eqn:Ec; try discriminate.
    apply elementAt_inv in Em as [Hnn Hm].
    destruct (IH _ _ H) as [Hlen Hcont]. rewrite length_alter in Hlen.
    split; [exact Hlen|]. intros u c Hc. rewrite (outgoingEntries_cons models u r rest).
    cbn [outgoingEntries]. rewrite Nat.add_0_r.
    destruct (Z.eqb_spec (uoSource r) (Z.of_nat u)) as [E|E].
    + rewrite (Hcont u (c + (if (compSource r =? -1)%Z then UnitOp.numComponents model else 1))%nat).
      * rewrite E, Nat2Z.id in Hm. rewrite Hm. simpl. f_equal. lia.
      * rewrite E, Nat2Z.id, list_lookup_alter. destruct (decide (u = u)); [|contradiction].
        rewrite Hc. reflexivity.
    + rewrite (Hcont u c); [f_equal; lia|].
      rewrite list_lookup_alter_ne by lia. exact Hc.
Qed.

Lemma sourcesPerUnitOpPerConfig_rows (models : list IUnitOperation)
    (connections : list (list IndexRow)) (n : nat) :
  forall (idx : nat) (sources : list (list nat)),
  sourcesPerUnitOpPerConfig models idx n connections = Ok sources ->
  length sources = n
  /\ Forall (fun row => length row = length models) sources
  /\ forall k conn, (k < n)%nat -> connections !! (idx + k)%nat = Some conn ->
       exists row, sources !! k = Some row
                   /\ forall u, (u < length models)%nat ->
                        row !! u = Some (outgoingEntries models u conn).
Proof.
  induction n as [|n IH]; intros idx sources H.
  - injection H as <-. split; [reflexivity|]. split; [constructor|]. intros k conn Hk. lia.
  - cbn [sourcesPerUnitOpPerConfig] in H. unfold mbind, outcome_bind in H.
    destruct (elementAt connections (Z.of_nat idx)) as [ptrConn| |] eqn:Ec; try discriminate.
    destruct (countSources models ptrConn (replicate (length models) 0%nat))
      as [row| |] eqn:Er; try discriminate.
    destruct (sourcesPerUnitOpPerConfig models (S idx) n connections)
      as [rest| |] eqn:Erest; try discriminate.
    injection H as <-.
    destruct (IH _ _ Erest) as (Hlen & Hall & Hrows).
    destruct (countSources_count _ _ _ _ Er) as [Hrl Hrc]. rewrite length_replicate in Hrl.
    apply elementAt_inv in Ec as [_ Hc]. rewrite Nat2Z.id in Hc.
    split; [simpl; lia|]. split; [constructor; assumption|].
    intros [|k] conn Hk Hconn.
    + rewrite Nat.add_0_r, Hc in Hconn. injection Hconn as <-.
      exists row. split; [reflexivity|]. intros u Hu.
      rewrite (Hrc u 0%nat) by (apply lookup_replicate_2; exact Hu). reflexivity.
    + replace (idx + S k)%nat with (S idx + k)%nat in Hconn by lia.
      destruct (Hrows k conn ltac:(lia) Hconn) as (row' & Hrow' & Hr').
      exists row'. split; [exact Hrow' | exact Hr'].
Qed.

Lemma sourcesPerUnitOpPerConfig_defined (models : list IUnitOperation)
    (connections : list (list IndexRow)) (n : nat) :
  forall (idx : nat) (sources : list (list nat)),
  sourcesPerUnitOpPerConfig models idx n connections = Ok sources ->
  forall k, (k < n)%nat -> is_Some (connections !! (idx + k)%nat).
Proof.
  induction n as [|n IH]; intros idx sources H k Hk; [lia|].
  cbn [sourcesPerUnitOpPerConfig] in H. unfold mbind, outcome_bind in H.
  destruct (elementAt connections (Z.of_nat idx)) as [ptrConn| |] eqn:Ec; try discriminate.
  destruct (countSources models ptrConn (replicate (length models) 0%nat))
    as [row| |]; try discriminate.
  destruct (sourcesPerUnitOpPerConfig models (S idx) n connections)
    as [rest| |] eqn:Er; try discriminate.
  destruct k as [|k].
  - apply elementAt_inv in Ec as [_ Hc]. rewrite Nat2Z.id in Hc.
    rewrite Nat.add_0_r, Hc. eexists; reflexivity.
  - replace (idx + S k)%nat with (S idx + k)%nat by lia.
    apply (IH (S idx) rest Er). lia.
Qed.

Lemma fold_zip_max (n : nat) (rest : list (list nat)) :
  forall (first : list nat),
  length first = n -> Forall (fun row => length row = n) rest ->
  let res := fold_left (fun acc row => zip_with Nat.max acc row) rest first in
  length res = n
  /\ forall u, (u < n)%nat ->
       exists y, res !! u = Some y
         /\ (forall row z, row ∈ first :: rest -> row !! u = Some z -> (z <= y)%nat)
         /\ exists row, row ∈ first :: rest /\ row !! u = Some y.
Proof.
  induction rest as [|row rest IH]; intros first Hf Hall; simpl.
  - split; [exact Hf|]. intros u Hu.
    destruct (lookup_lt_is_Some_2 first u ltac:(lia)) as [x Hx].
    exists x. split; [exact Hx|]. split.
    + intros row z Hin Hz. apply list_elem_of_singleton in Hin as ->.
      rewrite Hx in Hz. injection Hz as <-. lia.
    + exists first. split; [left | exact Hx].
  - apply Forall_cons in Hall as [Hrow Hall].
    destruct (IH (zip_with Nat.max first row)) as [Hlen Hres].
    { rewrite length_zip_with. lia. }
    { exact Hall. }
    split; [exact Hlen|]. intros u Hu.
    destruct (Hres u Hu) as (y & Hy & Hub & (row' & Hin' & Hrow')).
    destruct (lookup_lt_is_Some_2 first u ltac:(lia)) as [x Hx].
    destruct (lookup_lt_is_Some_2 row u ltac:(lia)) as [x' Hx'].
    assert (Hz : zip_with Nat.max first row !! u = Some (Nat.max x x')).
    { rewrite lookup_zip_with, Hx. simpl. rewrite Hx'. reflexivity. }
    pose proof (Hub _ _ ltac:(left) Hz) as Hmax.
    exists y. split; [exact Hy|]. split.
    + intros r z Hin Hrz. apply elem_of_cons in Hin as [->|Hin].
      * rewrite Hx in Hrz. injection Hrz as <-. lia.
      * apply elem_of_cons in Hin as [->|Hin].
        -- rewrite Hx' in Hrz. injection Hrz as <-. lia.
        -- apply (Hub r z); [right; exact Hin | exact Hrz].
    + apply elem_of_cons in Hin' as [->|Hin'].
      * rewrite Hz in Hrow'. injection Hrow' as <-.
        destruct (Nat.max_spec x x') as [[_ E]|[_ E]]; rewrite E.
        -- exists row. split; [right; left | exact Hx'].
        -- exists first. split; [left | exact Hx].
      * exists row'. split; [right; right; exact Hin' | exact Hrow'].
Qed.

(** X20: the sizes that [allocateSuperStructMatrices] computes are
    enough for every switch: when [assembleSuperStructMatrices] is run
    for the switch [cur], the number of entries it adds to the outbound
    matrix of unit [u] is at most the size allocated for it, and for each
    unit there is a switch for which it is exactly that size; the inbound
    matrix of a unit with an inlet is filled to the size allocated, the
    number of components. *)
Theorem allocated_sizes_suffice (models : list IUnitOperation) (cfg : SwitchConfig)
    (outgoing : list nat) (inbound : list (option nat)) :
  allocateSuperStructMatrices models cfg = Ok (outgoing, inbound) ->
  (forall cur cmap nTotal ss m u A,
     (cur < length (_switchSectionIndex cfg))%nat ->
     assembleSuperStructMatrices models cfg cur cmap nTotal = Ok (ss, m) ->
     _jacActiveFN ss !! u = Some A ->
     exists c, outgoing !! u = Some c /\ (length A <= c)%nat)
  /\ (forall u, (u < length models)%nat -> _switchSectionIndex cfg <> [] ->
        exists cur conn,
          (cur < length (_switchSectionIndex cfg))%nat
          /\ _connections cfg !! cur = Some conn
          /\ outgoing !! u = Some (outgoingEntries models u conn))
  /\ (forall cur cmap nTotal ss m u model A,
        assembleSuperStructMatrices models cfg cur cmap nTotal = Ok (ss, m) ->
        models !! u = Some model -> _jacNF ss !! u = Some A ->
        if UnitOp.hasInlet model then inbound !! u = Some (Some (length A))
        else inbound !! u = Some None /\ A = []).
Proof.
  unfold allocateSuperStructMatrices, mbind, outcome_bind. intros H.
  destruct (sourcesPerUnitOpPerConfig models 0 (length (_switchSectionIndex cfg))
              (_connections cfg)) as [sources| |] eqn:Es; try discriminate.
  destruct (numOutgoing (length models) sources) as [out| |] eqn:Eo; try discriminate.
  injection H as <- <-.
  destruct (sourcesPerUnitOpPerConfig_rows _ _ _ _ _ Es) as (Hlen & Hall & Hrows).
  split; [|split].
  - intros cur cmap nTotal ss m u A Hcur Hasm HA.
    unfold assembleSuperStructMatrices, mbind, outcome_bind in Hasm.
    destruct (elementAt (_connections cfg) (Z.of_nat cur)) as [ptrConn| |] eqn:Ec;
      try discriminate.
    destruct (elementAt (_flowRates cfg) (Z.of_nat cur)) as [ptrRate| |]; try discriminate.
    destruct (totalInletFlowLoop 0 [] ptrConn ptrRate (replicate nTotal 0%float))
      as [total| |]; try discriminate.
    destruct (connectLoop models ptrRate total 0 [] ptrConn (replicate (length models) [], cmap))
      as [[fn m']| |] eqn:El; try discriminate.
    injection Hasm as <- <-. simpl in HA.
    apply elementAt_inv in Ec as [_ Hc]. rewrite Nat2Z.id in Hc.
    assert (Hfnlen : forall rows i earlier (fn0 fn1 : list FloatMatrix) m0 m1,
              connectLoop models ptrRate total i earlier rows (fn0, m0) = Ok (fn1, m1) ->
              forall u, fn1 !! u <> None -> fn0 !! u <> None).
    { clear. intros rows i earlier fn0 fn1 m0 m1 Hl u Hsome Hnone.
      destruct (fn1 !! u) as [A1|] eqn:E1; [|contradiction].
      assert (Hlt : (length fn0 <= u)%nat) by (apply lookup_ge_None_1; exact Hnone).
      assert (Hkeep : length fn1 = length fn0).
      { clear -Hl. revert i earlier fn0 m0 Hl.
        induction rows as [|r rest IH]; intros i earlier fn0 m0 Hl.
        - injection Hl as <- _. reflexivity.
        - cbn [connectLoop] in Hl. unfold mbind, outcome_bind in Hl.
          destruct (connectRow models ptrRate total i earlier r (fn0, m0))
            as [[fn2 m2]| |] eqn:Er; try discriminate.
          rewrite (IH _ _ _ _ Hl). clear -Er.
          unfold connectRow, mbind, outcome_bind in Er.
          destruct (elementAt models (uoSource r)) as [mSrc| |]; try discriminate.
          destruct (compSource r =? -1).
          + destruct (UnitOp.numComponents mSrc) as [|n]; [injection Er as <- _; reflexivity|].
            destruct (elementAt ptrRate _) as [rate| |]; try discriminate.
            destruct (elementAt total _) as [tot| |]; try discriminate.
            destruct (elementAt (fn0, m0).1 (uoSource r)) as [A0| |]; try discriminate.
            match type of Er with Ok ?t = _ => remember t as res eqn:Hres end.
            injection Er as ->. symmetry in Hres. revert Hres.
            generalize (S n). intros k. generalize 0%nat.
            revert fn0 m0 fn2 m2. induction k as [|k IHk]; intros fn0 m0 fn2 m2 s Hf; simpl in Hf.
            * injection Hf as <- _. reflexivity.
            * destruct (mapIndex m0 _) as [row m3]. rewrite (IHk _ _ _ _ _ Hf).
              apply length_alter.
          + simpl in Er. destruct (mapIndex m0 _) as [row m3].
            destruct (elementAt ptrRate _) as [rate| |]; try discriminate.
            destruct (elementAt total _) as [tot| |]; try discriminate.
            destruct (elementAt fn0 (uoSource r)) as [A0| |]; try discriminate.
            injection Er as <- _. apply length_alter. }
      apply lookup_lt_Some in E1. lia. }
    assert (Hu : (u < length models)%nat).
    { destruct (decide (u < length models)%nat) as [Hlt|Hge]; [exact Hlt|]. exfalso.
      apply (Hfnlen _ _ _ _ _ _ _ El u); [unfold FloatMatrix, SparseMatrix in *; congruence|].
      apply lookup_replicate_None. lia. }
    destruct (connectLoop_count _ _ _ _ _ _ _ _ _ _ El u [] ltac:(apply lookup_replicate_2; exact Hu))
      as (B & HB & HlenB).
    simpl in HB. unfold FloatMatrix, SparseMatrix in HA, HB. rewrite HB in HA.
    injection HA as <-.
    destruct (Hrows cur ptrConn Hcur Hc) as (row & Hrow & Hr).
    destruct sources as [|first rest]; [simpl in Hlen; lia|].
    simpl in Eo. injection Eo as <-.
    apply Forall_cons in Hall as [Hfl Hall].
    destruct (fold_zip_max (length models) rest first Hfl Hall) as [_ Hmax].
    destruct (Hmax u Hu) as (y & Hy & Hub & _).
    exists y. split; [exact Hy|]. rewrite HlenB.
    apply (Hub row); [eapply list_elem_of_lookup_2; exact Hrow | apply Hr; exact Hu].
  - intros u Hu Hne.
    destruct sources as [|first rest].
    { simpl in Hlen. destruct (_switchSectionIndex cfg); [contradiction | discriminate]. }
    simpl in Eo. injection Eo as <-.
    apply Forall_cons in Hall as [Hfl Hall'].
    destruct (fold_zip_max (length models) rest first Hfl Hall') as [_ Hmax].
    destruct (Hmax u Hu) as (y & Hy & _ & (row & Hin & Hrow)).
    apply list_elem_of_lookup_1 in Hin as [cur Hcur].
    pose proof (lookup_lt_Some _ _ _ Hcur) as Hlt. rewrite Hlen in Hlt.
    pose proof (sourcesPerUnitOpPerConfig_defined _ _ _ _ _ Es cur Hlt) as Hconn.
    simpl in Hconn.
    destruct Hconn as [conn Hconn].
    destruct (Hrows cur conn Hlt Hconn) as (row' & Hrow' & Hr').
    rewrite Hcur in Hrow'. injection Hrow' as <-.
    exists cur, conn. split; [exact Hlt|]. split; [exact Hconn|].
    rewrite Hy, <- Hrow. apply Hr'. exact Hu.
  - intros cur cmap nTotal ss m u model A Hasm Hmodel HA.
    destruct (assembleSuperStructMatrices_NF _ _ _ _ _ _ _ Hasm) as [Hnf _].
    rewrite Hnf, (assembleNF_lookup models 0 u model Hmodel) in HA. injection HA as <-.
    rewrite list_lookup_fmap, Hmodel. simpl.
    destruct (UnitOp.hasInlet model).
    + rewrite length_map, length_seq. reflexivity.
    + split; reflexivity.
Qed.

(** Two switches over an inlet unit, a column and an outlet unit: the
    inlet unit feeds the column in all components in the first switch and
    in one component in the second. *)
Lemma allocated_sizes_suffice_witness :
  let inlet := UnitOp.Build 0 2 2 false true false 0 1 0 1 in
  let column := UnitOp.Build 1 2 50 true true false 0 1 48 1 in
  let outlet := UnitOp.Build 2 2 2 true false false 0 1 0 1 in
  let models := [inlet; column; outlet] in
  let cfg := BuildSwitchConfig [0; 1]
               [[BuildIndexRow 0 1 (-1) (-1); BuildIndexRow 1 2 (-1) (-1)];
                [BuildIndexRow 0 1 0 0; BuildIndexRow 1 2 (-1) (-1)]]
               [[1; 1]%float; [1; 1]%float] ∅ in
  let cmap := _couplingIdxMap (rebuildInternalDataStructures models []) in
  allocateSuperStructMatrices models cfg = Ok ([2; 2; 0]%nat, [None; Some 2%nat; Some 2%nat])
  /\ exists ss m A,
       assembleSuperStructMatrices models cfg 1 cmap 3 = Ok (ss, m)
       /\ _jacActiveFN ss !! 0%nat = Some A
       /\ exists c, [2; 2; 0]%nat !! 0%nat = Some c /\ (length A <= c)%nat.
Proof.
  intros inlet column outlet models cfg cmap.
  assert (Ha : allocateSuperStructMatrices models cfg
               = Ok ([2; 2; 0]%nat, [None; Some 2%nat; Some 2%nat])) by (vm_compute; reflexivity).
  split; [exact Ha|].
  destruct (assembleSuperStructMatrices models cfg 1 cmap 3) as [[ss m]| |] eqn:E;
    [|vm_compute in E; discriminate..].
  destruct (_jacActiveFN ss !! 0%nat) as [A|] eqn:EA.
  - exists ss, m, A. split; [reflexivity|]. split; [exact EA|].
    apply (proj1 (allocated_sizes_suffice models cfg _ _ Ha) 1%nat cmap 3%nat ss m 0%nat A);
      [simpl; lia | exact E | exact EA].
  - exfalso. vm_compute in E. injection E as <- _. discriminate.
Defined.

(** ** The status codes of the linear solver *)

Section LinearSolveStatus.
Import ErrorIndicator.

Lemma totalErrorIndicatorFromLocal_cases (l : list Z) :
  (anyNegative l = true ->
     totalErrorIndicatorFromLocal l < 0 /\ totalErrorIndicatorFromLocal l ∈ l)
  /\ (anyNegative l = false -> totalErrorIndicatorFromLocal l = maxNonNegative l).
Proof.
  unfold totalErrorIndicatorFromLocal. split; intros H.
  - pose proof (totalErrorLoop_negative l 0 H) as HF.
    unfold firstNegative in HF. apply head_Some_elem_of in HF.
    apply list_elem_of_filter in HF. tauto.
  - rewrite totalErrorLoop_nonneg by (assumption || lia).
    pose proof (maxNonNegative_nonneg l). lia.
Qed.

Lemma anyNegative_app (a b : list Z) :
  anyNegative (a ++ b) = anyNegative a || anyNegative b.
Proof. apply existsb_app. Qed.

Lemma maxNonNegative_app (a b : list Z) :
  maxNonNegative (a ++ b) = Z.max (maxNonNegative a) (maxNonNegative b).
Proof.
  induction a as [|x a IH]; simpl.
  - pose proof (maxNonNegative_nonneg b). unfold maxNonNegative in *. lia.
  - unfold maxNonNegative in *. rewrite IH. lia.
Qed.

Lemma second_pass_codes (f : Z) (second : list Z) :
  0 <= f ->
  forall acc, 0 <= acc ->
  let r := totalErrorLoop acc (map (updateErrorIndicator f) second) in
  (anyNegative second = true -> r < 0 /\ r ∈ second)
  /\ (anyNegative second = false ->
      r = match second with
          | [] => acc
          | _ => Z.max acc (Z.max f (maxNonNegative second))
          end).
Proof.
  intros Hf. induction second as [|s rest IH]; intros acc Hacc.
  - simpl. split; [discriminate | reflexivity].
  - assert (Hu : updateErrorIndicator f s = if s <? 0 then s else Z.max f s).
    { unfold updateErrorIndicator. destruct (Z.ltb_spec f 0) as [|_]; [lia|]. simpl.
      destruct (Z.ltb_spec s 0); [lia | reflexivity]. }
    cbn [map totalErrorLoop anyNegative existsb]. rewrite Hu.
    destruct (Z.ltb_spec s 0) as [Hs|Hs].
    + assert (E : (s <? 0) = true) by (apply Z.ltb_lt; exact Hs). rewrite E. simpl.
      split; [|discriminate]. intros _. split; [exact Hs | left].
    + assert (E : (Z.max f s <? 0) = false) by (apply Z.ltb_ge; lia). rewrite E. simpl.
      destruct (IH (Z.max acc (Z.max f s)) ltac:(lia)) as [IHn IHp]. split.
      * intros Hn. destruct (IHn Hn) as [Hr Hin]. split; [exact Hr | right; exact Hin].
      * intros Hn. rewrite (IHp Hn). destruct rest as [|s' rest'].
        -- simpl. lia.
        -- pose proof (maxNonNegative_nonneg (s' :: rest')).
           change (maxNonNegative (s :: s' :: rest'))
             with (Z.max s (maxNonNegative (s' :: rest'))). lia.
Qed.

(** X21: the code that [linearSolve] returns, for a system with at
    least one unit: when one of the codes of the first solves of the
    units, of GMRES, and of the second solves of the units is negative,
    the code returned is negative and is one of these codes (a failure is
    never lost); when none is negative, it is the largest of them. For a
    system without units the code returned is 0, whatever GMRES returns. *)
Theorem linearSolve_status (first second : list Z) (gmresResult : Z) :
  length second = length first ->
  let codes := first ++ gmresResult :: second in
  let r := (linearSolveStatus first gmresResult second).2 in
  (first = [] -> r = 0)
  /\ (first <> [] ->
      (anyNegative codes = true -> r < 0 /\ r ∈ codes)
      /\ (anyNegative codes = false -> r = maxNonNegative codes)).
Proof.
  intros Hlen codes r. split.
  - intros ->. reflexivity.
  - intros Hne. subst r codes. unfold linearSolveStatus. cbn [snd].
    set (c := totalErrorIndicatorFromLocal first).
    set (f := updateErrorIndicator c gmresResult).
    assert (Hzip : zip_with updateErrorIndicator (map (fun _ => f) first) second
                   = map (updateErrorIndicator f) second).
    { clearbody f. clear -Hlen. revert second Hlen.
      induction first as [|x first IH]; intros [|s second] Hlen; simpl in *;
        try discriminate; [reflexivity|].
      f_equal. apply IH. lia. }
    rewrite Hzip. clear Hzip.
    destruct second as [|s0 second']; [destruct first; [contradiction | discriminate]|].
    set (second := s0 :: second') in *.
    unfold totalErrorIndicatorFromLocal at 1 2 3.
    set (rr := totalErrorLoop 0 (map (updateErrorIndicator f) second)).
    destruct (totalErrorIndicatorFromLocal_cases first) as [Hcn Hcp]. fold c in Hcn, Hcp.
    rewrite anyNegative_app, maxNonNegative_app.
    change (anyNegative (gmresResult :: second))
      with ((gmresResult <? 0) || anyNegative second).
    change (maxNonNegative (gmresResult :: second))
      with (Z.max gmresResult (maxNonNegative second)).
    assert (Hf : (c < 0 \/ gmresResult < 0) /\ f = Z.min c gmresResult
                 \/ (0 <= c /\ 0 <= gmresResult) /\ f = Z.max c gmresResult).
    { subst f. unfold updateErrorIndicator.
      destruct (Z.ltb_spec c 0); destruct (Z.ltb_spec gmresResult 0); simpl;
        [left | left | left | right]; (split; [lia | reflexivity]). }
    destruct Hf as [[Hneg Hfv]|[[Hc Hg] Hfv]].
    + (* the code filled in after GMRES is negative *)
      assert (Hr : rr = Z.min f s0).
      { assert (Hu : updateErrorIndicator f s0 = Z.min f s0).
        { unfold updateErrorIndicator. destruct (Z.ltb_spec f 0) as [_|]; [|lia].
          reflexivity. }
        subst rr. unfold second. cbn [map totalErrorLoop]. rewrite Hu.
        destruct (Z.ltb_spec (Z.min f s0) 0) as [_|]; [reflexivity | lia]. }
      clearbody rr. subst rr.
      assert (Hany : anyNegative first || ((gmresResult <? 0) || anyNegative second) = true).
      { destruct (anyNegative first) eqn:Ef; [reflexivity|]. simpl.
        destruct (Z.ltb_spec gmresResult 0); [reflexivity|].
        specialize (Hcp eq_refl). pose proof (maxNonNegative_nonneg first). lia. }
      rewrite Hany. split; [|discriminate]. intros _. split; [lia|].
      destruct (Z.min_spec f s0) as [[_ E]|[_ E]]; rewrite E.
      * rewrite Hfv. destruct (Z.min_spec c gmresResult) as [[Hlt E']|[_ E']]; rewrite E'.
        -- apply elem_of_app. left.
           destruct (anyNegative first) eqn:Ef; [exact (proj2 (Hcn eq_refl))|].
           specialize (Hcp eq_refl). pose proof (maxNonNegative_nonneg first). lia.
        -- apply elem_of_app. right. left.
      * apply elem_of_app. right. right. left.
    + (* no failure up to GMRES *)
      assert (Hfirst : anyNegative first = false).
      { destruct (anyNegative first) eqn:Ef; [|reflexivity].
        destruct (Hcn eq_refl). lia. }
      rewrite Hfirst. destruct (Z.ltb_spec gmresResult 0) as [|_]; [lia|]. simpl.
      specialize (Hcp Hfirst).
      pose proof (second_pass_codes f second ltac:(lia) 0 ltac:(lia)) as Hs.
      cbv zeta in Hs.
      change (totalErrorLoop 0 (map (updateErrorIndicator f) second)) with rr in Hs.
      destruct Hs as [Hsn Hsp]. clearbody rr.
      split.
      * intros Hn. destruct (Hsn Hn) as [Hr Hin]. split; [exact Hr|].
        apply elem_of_app. right. right. exact Hin.
      * intros Hn. rewrite (Hsp Hn). subst second. cbv iota beta.
        pose proof (maxNonNegative_nonneg (s0 :: second')).
        pose proof (maxNonNegative_nonneg first).
        change (maxNonNegative (s0 :: second')) with (Z.max s0 (maxNonNegative second')) in *.
        lia.
Qed.

(** Three units: the first solve of the second unit fails with -2, a
    second solve fails with -5. *)
Lemma linearSolve_status_witness :
  (linearSolveStatus [0; -2; 0] 1 [0; 0; -5]).2 < 0
  /\ (linearSolveStatus [0; -2; 0] 1 [0; 0; -5]).2 ∈ [0; -2; 0] ++ 1 :: [0; 0; -5].
Proof.
  apply (proj1 (proj2 (linearSolve_status [0; -2; 0] [0; 0; -5] 1 eq_refl) ltac:(discriminate))).
  reflexivity.
Defined.

End LinearSolveStatus.

(** ** The coupling DOFs of a state vector *)

Lemma sumDofs_block (models : list IUnitOperation) (i : nat) (m : IUnitOperation) :
  models !! i = Some m ->
  (sumDofs (take i models) + UnitOp.numDofs m <= sumDofs models)%nat.
Proof.
  intros Hm. rewrite <- (take_drop (S i) models) at 2.
  rewrite sumDofs_app, (take_S_r _ _ _ Hm), sumDofs_app. simpl. lia.
Qed.

Lemma dofOffset_nth (models : list IUnitOperation) (old : list Z) :
  let lay := rebuildInternalDataStructures models old in
  (forall i, (i <= length models)%nat -> nth i (_dofOffset lay) 0%nat = sumDofs (take i models))
  /\ List.last (_dofOffset lay) 0%nat = sumDofs models.
Proof.
  intros lay.
  assert (Hoff : _dofOffset lay
                 = (dofOffsetsFrom 0 models).1 ++ [(dofOffsetsFrom 0 models).2]).
  { subst lay. unfold rebuildInternalDataStructures.
    destruct (dofOffsetsFrom 0 models) as [offs total].
    destruct (couplingIdxLoop 0 models (∅, 0%nat)). reflexivity. }
  destruct (dofOffsetsFrom_spec models 0) as (H1 & H2 & H3).
  split.
  - intros i Hi. apply nth_lookup_Some with (d := 0%nat). rewrite Hoff.
    destruct (decide (i < length models)%nat) as [Hlt|Hge].
    + rewrite lookup_app_l by lia. rewrite H3 by exact Hlt. reflexivity.
    + assert (i = length models) by lia. subst i.
      rewrite lookup_app_r by lia. rewrite H1, Nat.sub_diag. simpl.
      rewrite H2, firstn_all. reflexivity.
  - rewrite Hoff, last_last, H2. reflexivity.
Qed.

Lemma copyInlets_app {R : Type} (a b : list IUnitOperation) (dofOffset : list nat) :
  forall (i : nat) (st : (nat -> R) * nat),
  copyInlets (a ++ b) i dofOffset st
  = copyInlets b (i + length a) dofOffset (copyInlets a i dofOffset st).
Proof.
  induction a as [|m a IH]; intros i st; simpl.
  - rewrite Nat.add_0_r. reflexivity.
  - rewrite IH. f_equal. lia.
Qed.

Lemma copyInlet_from {R : Type} (li stride offset bound : nat) (n : nat) :
  forall (v : nat -> R) (idx : nat),
  (forall comp, (comp < n)%nat -> (offset + li + comp * stride < bound)%nat) ->
  (bound <= idx)%nat ->
  ((1 < n)%nat -> (0 < stride)%nat) ->
  let r := fold_left (fun '(vec, idxCoupling) comp =>
                        (store vec (offset + li + comp * stride) (vec idxCoupling),
                         S idxCoupling))
                     (seq 0 n) (v, idx) in
  r.2 = (idx + n)%nat
  /\ (forall comp, (comp < n)%nat -> r.1 (offset + li + comp * stride)%nat = v (idx + comp)%nat)
  /\ (forall q, (forall comp, (comp < n)%nat -> q <> (offset + li + comp * stride)%nat) ->
        r.1 q = v q).
Proof.
  induction n as [|n IH]; intros v idx Hpos Hb Hs.
  - simpl. split; [lia|]. split; [intros comp Hc; lia | reflexivity].
  - rewrite seq_S, fold_left_app. simpl.
    destruct (IH v idx ltac:(intros comp Hc; apply Hpos; lia) Hb ltac:(intros; apply Hs; lia))
      as (H2 & Hin & Hout).
    destruct (fold_left _ (seq 0 n) (v, idx)) as [vn idxn]. simpl in *. subst idxn.
    split; [lia|]. split.
    + intros comp Hc. destruct (decide (comp = n)) as [->|Hne].
      * rewrite store_same. apply Hout. intros comp' Hc'.
        specialize (Hpos comp' ltac:(lia)). lia.
      * assert (Hst : (0 < stride)%nat) by (apply Hs; lia).
        rewrite store_other by nia. apply Hin. lia.
    + intros q Hq. rewrite store_other by (apply Hq; lia). apply Hout.
      intros comp Hc. apply Hq. lia.
Qed.

Lemma copyInlets_spec {R : Type} (dofOffset : list nat) (fo : nat) (models : list IUnitOperation) :
  (forall i, (i <= length models)%nat -> nth i dofOffset 0%nat = sumDofs (take i models)) ->
  Forall inletDofsInside models ->
  (sumDofs models <= fo)%nat ->
  forall v : nat -> R,
  let r := copyInlets models 0 dofOffset (v, fo) in
  r.2 = (fo + inletComponents models)%nat
  /\ (forall q, (sumDofs models <= q)%nat -> r.1 q = v q)
  /\ (forall i m comp, models !! i = Some m -> UnitOp.hasInlet m = true ->
        (comp < UnitOp.numComponents m)%nat ->
        r.1 (sumDofs (take i models) + UnitOp.localInletComponentIndex m
             + comp * UnitOp.localInletComponentStride m)%nat
        = v (fo + inletComponents (take i models) + comp)%nat)
  /\ (forall q,
        (forall i m comp, models !! i = Some m -> UnitOp.hasInlet m = true ->
           (comp < UnitOp.numComponents m)%nat ->
           q <> (sumDofs (take i models) + UnitOp.localInletComponentIndex m
                 + comp * UnitOp.localInletComponentStride m)%nat) ->
        r.1 q = v q).
Proof.
  induction models as [|m ms IH] using rev_ind; intros Hoff Hall Hfo v.
  - simpl. split; [lia|]. split; [reflexivity|]. split; [intros i m comp Hm; discriminate|].
    reflexivity.
  - apply Forall_app in Hall as [Hall Hm]. apply Forall_inv in Hm.
    rewrite sumDofs_app in Hfo. simpl in Hfo.
    assert (Hoff' : forall i, (i <= length ms)%nat -> nth i dofOffset 0%nat = sumDofs (take i ms)).
    { intros i Hi. rewrite (Hoff i) by (rewrite length_app; simpl; lia).
      rewrite take_app_le by exact Hi. reflexivity. }
    destruct (IH Hoff' Hall ltac:(lia) v) as (I1 & I2 & I3 & I4). clear IH.
    assert (Hlast : nth (length ms) dofOffset 0%nat = sumDofs ms).
    { rewrite (Hoff' (length ms)) by lia. rewrite firstn_all. reflexivity. }
    assert (Htake : forall i x, ms !! i = Some x -> take i (ms ++ [m]) = take i ms).
    { intros i x Hx. apply take_app_le. apply lookup_lt_Some in Hx. lia. }
    assert (Hearlier : forall i x comp, ms !! i = Some x -> UnitOp.hasInlet x = true ->
              (comp < UnitOp.numComponents x)%nat ->
              (sumDofs (take i ms) + UnitOp.localInletComponentIndex x
               + comp * UnitOp.localInletComponentStride x < sumDofs ms)%nat).
    { intros i x comp Hx Hin Hc.
      pose proof (sumDofs_block ms i x Hx).
      pose proof (proj1 (Forall_forall _ _) Hall x (list_elem_of_lookup_2 _ _ _ Hx) Hin) as [Hd _].
      specialize (Hd comp Hc). lia. }
    intros r. subst r. rewrite copyInlets_app. simpl. rewrite Hlast.
    destruct (copyInlets ms 0 dofOffset (v, fo)) as [vms idxms] eqn:Ems. simpl in *. subst idxms.
    rewrite sumDofs_app, inletComponents_app. simpl. rewrite !Nat.add_0_r.
    destruct (UnitOp.hasInlet m) eqn:Hin.
    + destruct (Hm Hin) as [Hd Hs].
      destruct (copyInlet_from (UnitOp.localInletComponentIndex m)
                  (UnitOp.localInletComponentStride m) (sumDofs ms)
                  (sumDofs ms + UnitOp.numDofs m) (UnitOp.numComponents m)
                  vms (fo + inletComponents ms)%nat) as (C1 & C2 & C3).
      { intros comp Hc. specialize (Hd comp Hc). lia. }
      { lia. }
      { exact Hs. }
      unfold copyInlet.
      destruct (fold_left _ (seq 0 (UnitOp.numComponents m)) (vms, (fo + inletComponents ms)%nat))
        as [v' idx']. simpl in *.
      split; [lia|]. split; [|split].
      * intros q Hq. rewrite C3; [apply I2; lia|].
        intros comp Hc. specialize (Hd comp Hc). lia.
      * intros i x comp Hx Hxin Hc.
        destruct (decide (i < length ms)%nat) as [Hlt|Hge].
        -- rewrite lookup_app_l in Hx by exact Hlt. rewrite (Htake i x Hx).
           rewrite C3; [apply I3; assumption|].
           intros comp' Hc'. pose proof (Hearlier i x comp Hx Hxin Hc). lia.
        -- pose proof (lookup_lt_Some _ _ _ Hx) as Hi. rewrite length_app in Hi. simpl in Hi.
           assert (i = length ms) by lia. subst i.
           rewrite lookup_app_r, Nat.sub_diag in Hx by lia. injection Hx as <-.
           rewrite take_app_le, firstn_all by lia.
           rewrite (C2 comp Hc). apply I2. lia.
      * intros q Hq. rewrite C3.
        -- apply I4. intros i x comp Hx Hxin Hc.
           rewrite <- (Htake i x Hx). apply (Hq i x comp); [|assumption..].
           rewrite lookup_app_l by (apply lookup_lt_Some in Hx; exact Hx). exact Hx.
        -- intros comp Hc.
           specialize (Hq (length ms) m comp).
           rewrite take_app_le, firstn_all in Hq by lia. apply Hq; [|exact Hin | exact Hc].
           rewrite lookup_app_r, Nat.sub_diag by lia. reflexivity.
    + simpl. split; [lia|]. split; [|split].
      * intros q Hq. apply I2. lia.
      * intros i x comp Hx Hxin Hc.
        destruct (decide (i < length ms)%nat) as [Hlt|Hge].
        -- rewrite lookup_app_l in Hx by exact Hlt. rewrite (Htake i x Hx).
           apply I3; assumption.
        -- pose proof (lookup_lt_Some _ _ _ Hx) as Hi. rewrite length_app in Hi. simpl in Hi.
           assert (i = length ms) by lia. subst i.
           rewrite lookup_app_r, Nat.sub_diag in Hx by lia. injection Hx as <-. congruence.
      * intros q Hq. apply I4. intros i x comp Hx Hxin Hc.
        rewrite <- (Htake i x Hx). apply (Hq i x comp); [|assumption..].
        rewrite lookup_app_l by (apply lookup_lt_Some in Hx; exact Hx). exact Hx.
Qed.

Section CouplingSolveFacts.

Context {R : Type} (rO rI : R) (radd rmul rsub : R -> R -> R) (ropp : R -> R).
Hypothesis Rth : ring_theory rO rI radd rmul rsub ropp eq.

Add Ring couplingSolveScalars : Rth.

Lemma rowProduct_ext (A : @SparseMatrix R) (k offset : nat) (y1 y2 : nat -> R) :
  Forall (fun e : nat * nat * R => y1 (offset + e.1.2)%nat = y2 (offset + e.1.2)%nat) A ->
  rowProduct radd rmul rO A k y1 offset = rowProduct radd rmul rO A k y2 offset.
Proof.
  induction A as [|[[row col] v] A IH]; intros H; simpl; [reflexivity|].
  apply Forall_cons in H as [Hhd Htl]. simpl in Hhd. rewrite Hhd, (IH Htl). reflexivity.
Qed.

Lemma multiplySubtract_spec (A : @SparseMatrix R) (xo yo : nat) :
  forall vec : nat -> R,
  Forall (fun e : nat * nat * R => (xo + e.1.2 < yo)%nat) A ->
  (forall k, multiplySubtract rsub rmul A vec xo yo (yo + k)
             = rsub (vec (yo + k)%nat) (rowProduct radd rmul rO A k vec xo))
  /\ (forall p, (p < yo)%nat -> multiplySubtract rsub rmul A vec xo yo p = vec p).
Proof.
  unfold multiplySubtract.
  induction A as [|[[row col] v] A IH]; intros vec H; simpl.
  - split; [intros k; ring | reflexivity].
  - apply Forall_cons in H as [Hc Hall]. simpl in Hc.
    destruct (IH (store vec (yo + row)
                    (rsub (vec (yo + row)%nat) (rmul v (vec (xo + col)%nat)))) Hall)
      as [IHr IHp].
    split.
    + intros k. rewrite IHr.
      rewrite (rowProduct_ext A k xo _ vec).
      * destruct (Nat.eqb_spec row k) as [->|Hne].
        -- rewrite store_same. ring.
        -- rewrite store_other by lia. reflexivity.
      * eapply Forall_impl; [exact Hall|]. intros e He. simpl in He.
        apply store_other. lia.
    + intros p Hp. rewrite (IHp p Hp). apply store_other. lia.
Qed.

Lemma outbound_subtract_loop (dofOffset : list nat) (jacFN : list (@SparseMatrix R))
    (fo : nat) (n : nat) :
  forall vec : nat -> R,
  (forall i, (i < n)%nat ->
     Forall (fun e : nat * nat * R => (nth i dofOffset 0 + e.1.2 < fo)%nat) (nth i jacFN [])) ->
  let v' := fold_left (fun vec i =>
                         multiplySubtract rsub rmul (nth i jacFN []) vec
                           (nth i dofOffset 0%nat) fo)
                      (seq 0 n) vec in
  (forall k, v' (fo + k)%nat
             = rsub (vec (fo + k)%nat) (outboundSum radd rmul rO dofOffset jacFN n k vec))
  /\ (forall p, (p < fo)%nat -> v' p = vec p).
Proof.
  induction n as [|n IH]; intros vec H.
  - simpl. split; [intros k; unfold outboundSum; simpl; ring | reflexivity].
  - rewrite seq_S, fold_left_app. simpl.
    destruct (IH vec ltac:(intros i Hi; apply H; lia)) as [IHr IHp].
    destruct (multiplySubtract_spec (nth n jacFN []) (nth n dofOffset 0%nat) fo
                (fold_left (fun vec i =>
                              multiplySubtract rsub rmul (nth i jacFN []) vec
                                (nth i dofOffset 0%nat) fo) (seq 0 n) vec)
                (H n ltac:(lia))) as [Mr Mp].
    split.
    + intros k. rewrite Mr, IHr, (outboundSum_S rO rI radd rmul rsub ropp Rth).
      rewrite (rowProduct_ext (nth n jacFN []) k (nth n dofOffset 0%nat) _ vec).
      * ring.
      * specialize (H n ltac:(lia)). eapply Forall_impl; [exact H|]. intros e He. simpl in He.
        apply IHp. exact He.
    + intros p Hp. rewrite (Mp p Hp). apply IHp. exact Hp.
Qed.

(** With exact arithmetic on the scalars, coupling DOF [k] becomes its
    old value minus row [k] of the sum over the units of
    [_jacFN[i] * vec[unit i]]. *)
Lemma coupling_dofs_exact (models : list IUnitOperation) (old : list Z)
    (jacFN : list (@SparseMatrix R)) (vec : nat -> R) (k : nat) :
  let lay := rebuildInternalDataStructures models old in
  let finalOffset := List.last (_dofOffset lay) 0%nat in
  let vec' := solveCouplingDOF rsub rmul models (_dofOffset lay) jacFN vec in
  Forall inletDofsInside models ->
  outboundColumnsInside models jacFN ->
  vec' (finalOffset + k)%nat
  = rsub (vec (finalOffset + k)%nat)
         (outboundSum radd rmul rO (_dofOffset lay) jacFN (length models) k vec).
Proof.
  intros lay finalOffset vec' Hin Hcols.
  destruct (dofOffset_nth models old) as [Hnth Hlast]. fold lay in Hnth, Hlast.
  fold finalOffset in Hlast.
  assert (Hoffi : forall i m, models !! i = Some m ->
            nth i (_dofOffset lay) 0%nat = sumDofs (take i models)).
  { intros i m Hm. apply Hnth. apply lookup_lt_Some in Hm. lia. }
  destruct (outbound_subtract_loop (_dofOffset lay) jacFN finalOffset (length models) vec)
    as [Lr Lp].
  { intros i Hi. destruct (lookup_lt_is_Some_2 models i Hi) as [m Hm].
    specialize (Hcols i m Hm). eapply Forall_impl; [exact Hcols|]. intros e He. simpl in He.
    rewrite (Hoffi i m Hm), Hlast. pose proof (sumDofs_block models i m Hm). lia. }
  destruct (copyInlets_spec (_dofOffset lay) finalOffset models Hnth Hin ltac:(lia)
              (fold_left (fun vec i =>
                            multiplySubtract rsub rmul (nth i jacFN []) vec
                              (nth i (_dofOffset lay) 0%nat) finalOffset)
                         (seq 0 (length models)) vec))
    as (_ & I2 & _).
  subst vec'. unfold solveCouplingDOF. fold finalOffset. rewrite I2 by lia. apply Lr.
Qed.

End CouplingSolveFacts.

(** The coupling DOFs in the arithmetic of the scalars, whatever its
    laws. *)
Section CouplingSolveRows.

Context {R : Type} (rsub rmul : R -> R -> R).

Lemma multiplySubtract_accumulate (A : @SparseMatrix R) (xo yo : nat) :
  forall vec : nat -> R,
  Forall (fun e : nat * nat * R => (xo + e.1.2 < yo)%nat) A ->
  (forall k, multiplySubtract rsub rmul A vec xo yo (yo + k)
             = rowAccumulate rsub rmul A k vec xo (vec (yo + k)%nat))
  /\ (forall p, (p < yo)%nat -> multiplySubtract rsub rmul A vec xo yo p = vec p).
Proof.
  unfold multiplySubtract.
  induction A as [|[[row col] v] A IH]; intros vec H; simpl.
  - split; reflexivity.
  - apply Forall_cons in H as [Hc Hall]. simpl in Hc.
    destruct (IH (store vec (yo + row)
                    (rsub (vec (yo + row)%nat) (rmul v (vec (xo + col)%nat)))) Hall)
      as [IHr IHp].
    split.
    + intros k. rewrite IHr.
      rewrite (rowAccumulate_ext rsub rmul A k _ vec xo).
      * unfold rowAccumulate at 2. simpl. fold (rowAccumulate rsub rmul A k vec xo).
        destruct (Nat.eqb_spec row k) as [->|Hne].
        -- rewrite store_same. reflexivity.
        -- rewrite store_other by lia. reflexivity.
      * eapply Forall_impl; [exact Hall|]. intros e He. simpl in He.
        apply store_other. lia.
    + intros p Hp. rewrite (IHp p Hp). apply store_other. lia.
Qed.

Lemma outbound_subtract_accumulate (dofOffset : list nat) (jacFN : list (@SparseMatrix R))
    (fo : nat) (n : nat) :
  forall vec : nat -> R,
  (forall i, (i < n)%nat ->
     Forall (fun e : nat * nat * R => (nth i dofOffset 0 + e.1.2 < fo)%nat) (nth i jacFN [])) ->
  let v' := fold_left (fun vec i =>
                         multiplySubtract rsub rmul (nth i jacFN []) vec
                           (nth i dofOffset 0%nat) fo)
                      (seq 0 n) vec in
  (forall k, v' (fo + k)%nat
             = outboundAccumulate rsub rmul dofOffset jacFN n k vec (vec (fo + k)%nat))
  /\ (forall p, (p < fo)%nat -> v' p = vec p).
Proof.
  induction n as [|n IH]; intros vec H.
  - simpl. split; reflexivity.
  - rewrite seq_S, fold_left_app. simpl.
    destruct (IH vec ltac:(intros i Hi; apply H; lia)) as [IHr IHp].
    destruct (multiplySubtract_accumulate (nth n jacFN []) (nth n dofOffset 0%nat) fo
                (fold_left (fun vec i =>
                              multiplySubtract rsub rmul (nth i jacFN []) vec
                                (nth i dofOffset 0%nat) fo) (seq 0 n) vec)
                (H n ltac:(lia))) as [Mr Mp].
    split.
    + intros k. rewrite Mr, IHr. unfold outboundAccumulate at 2.
      rewrite seq_S, fold_left_app. simpl.
      apply rowAccumulate_ext.
      specialize (H n ltac:(lia)). eapply Forall_impl; [exact H|]. intros e He. simpl in He.
      apply IHp. exact He.
    + intros p Hp. rewrite (Mp p Hp). apply IHp. exact Hp.
Qed.

(** X22: [solveCouplingDOF] on the layout of
    [rebuildInternalDataStructures], for units whose inlet DOFs are DOFs
    of their own and outbound matrices whose columns are DOFs of their
    unit, in the arithmetic of [double] (or of any scalars): coupling DOF
    [k] becomes what its old value is when the products of the entries of
    row [k] of the outbound matrices with the values of their units in
    [vec] have been subtracted from it one after the other, in the order
    of the units and of the stored entries; the inlet DOF of component
    [comp] of unit [i] becomes the new value of the coupling DOF that the
    coupling index map gives for [(i, comp)]; every other DOF is left as
    it is. In exact arithmetic (the scalars form a ring) the new value
    of coupling DOF [k] is its old value minus row [k] of the sum over
    the units of [_jacFN[i] * vec[unit i]]. *)
Theorem solveCouplingDOF_spec (models : list IUnitOperation) (old : list Z)
    (jacFN : list (@SparseMatrix R)) (vec : nat -> R) :
  let lay := rebuildInternalDataStructures models old in
  let finalOffset := List.last (_dofOffset lay) 0%nat in
  let vec' := solveCouplingDOF rsub rmul models (_dofOffset lay) jacFN vec in
  let inletDof i m comp :=
    (nth i (_dofOffset lay) 0 + UnitOp.localInletComponentIndex m
     + comp * UnitOp.localInletComponentStride m)%nat in
  Forall inletDofsInside models ->
  outboundColumnsInside models jacFN ->
  (forall k, vec' (finalOffset + k)%nat
             = outboundAccumulate rsub rmul (_dofOffset lay) jacFN (length models) k vec
                 (vec (finalOffset + k)%nat))
  /\ (forall i m comp k, models !! i = Some m ->
        _couplingIdxMap lay !! (i, comp) = Some k ->
        vec' (inletDof i m comp) = vec' (finalOffset + k)%nat)
  /\ (forall q, (q < finalOffset)%nat ->
        (forall i m comp, models !! i = Some m -> UnitOp.hasInlet m = true ->
           (comp < UnitOp.numComponents m)%nat -> q <> inletDof i m comp) ->
        vec' q = vec q)
  /\ (forall (rO rI : R) (radd : R -> R -> R) (ropp : R -> R) (k : nat),
        ring_theory rO rI radd rmul rsub ropp eq ->
        vec' (finalOffset + k)%nat
        = rsub (vec (finalOffset + k)%nat)
               (outboundSum radd rmul rO (_dofOffset lay) jacFN (length models) k vec)).
Proof.
  intros lay finalOffset vec' inletDof Hin Hcols.
  destruct (dofOffset_nth models old) as [Hnth Hlast]. fold lay in Hnth, Hlast.
  fold finalOffset in Hlast.
  assert (Hoffi : forall i m, models !! i = Some m ->
            nth i (_dofOffset lay) 0%nat = sumDofs (take i models)).
  { intros i m Hm. apply Hnth. apply lookup_lt_Some in Hm. lia. }
  destruct (outbound_subtract_accumulate (_dofOffset lay) jacFN finalOffset (length models) vec)
    as [Lr Lp].
  { intros i Hi. destruct (lookup_lt_is_Some_2 models i Hi) as [m Hm].
    specialize (Hcols i m Hm). eapply Forall_impl; [exact Hcols|]. intros e He. simpl in He.
    rewrite (Hoffi i m Hm), Hlast. pose proof (sumDofs_block models i m Hm). lia. }
  destruct (copyInlets_spec (_dofOffset lay) finalOffset models Hnth Hin ltac:(lia)
              (fold_left (fun vec i =>
                            multiplySubtract rsub rmul (nth i jacFN []) vec
                              (nth i (_dofOffset lay) 0%nat) finalOffset)
                         (seq 0 (length models)) vec))
    as (_ & I2 & I3 & I4).
  assert (Hvec' : forall q,
            vec' q = (copyInlets models 0 (_dofOffset lay)
                        (fold_left (fun vec i =>
                                      multiplySubtract rsub rmul (nth i jacFN []) vec
                                        (nth i (_dofOffset lay) 0%nat) finalOffset)
                                   (seq 0 (length models)) vec, finalOffset)).1 q)
    by reflexivity.
  assert (Hcoupling : forall k, vec' (finalOffset + k)%nat
            = outboundAccumulate rsub rmul (_dofOffset lay) jacFN (length models) k vec
                (vec (finalOffset + k)%nat)).
  { intros k. rewrite Hvec', I2 by lia. apply Lr. }
  split; [exact Hcoupling|]. split; [|split].
  - intros i m comp k Hm Hk.
    apply couplingIdxMap_lookup in Hk as (u & Hu & Hiu & Hc & ->).
    assert (u = m) as -> by congruence.
    unfold inletDof. rewrite (Hoffi i m Hm), !Hvec'.
    rewrite (I3 i m comp Hm Hiu Hc). rewrite I2 by lia. f_equal. lia.
  - intros q Hq Hno. rewrite Hvec', I4.
    + apply Lp. exact Hq.
    + intros i m comp Hm Hiu Hc. rewrite <- (Hoffi i m Hm). apply (Hno i m comp Hm Hiu Hc).
  - intros rO rI radd ropp k Rth.
    exact (coupling_dofs_exact rO rI radd rmul rsub ropp Rth models old jacFN vec k Hin Hcols).
Qed.

End CouplingSolveRows.

(** Two sources with one DOF each feed a unit with three DOFs with the
    weights [1/3] and [2/3], in [double]: the coupling DOF takes the value
    that the two subtractions leave, the inlet DOF of the unit the value
    of the coupling DOF, and the last DOF of the unit is kept. *)
Lemma solveCouplingDOF_spec_witness :
  let first := UnitOp.Build 0 1 1 false true false 0 1 0 1 in
  let second := UnitOp.Build 1 1 1 false true false 0 1 0 1 in
  let sink := UnitOp.Build 2 1 3 true false false 0 1 0 1 in
  let models := [first; second; sink] in
  let jacFN : list FloatMatrix :=
    [[(0%nat, 0%nat, (- (1 / 3))%float)]; [(0%nat, 0%nat, (- (2 / 3))%float)]; []] in
  let vec (i : nat) : float := nth i [1; 1; 0; 8; 9; 0]%float 0%float in
  let lay := rebuildInternalDataStructures models [] in
  let vec' := solveCouplingDOF PrimFloat.sub PrimFloat.mul models (_dofOffset lay) jacFN vec in
  Forall inletDofsInside models
  /\ outboundColumnsInside models jacFN
  /\ vec' 5%nat = (0 - - (1 / 3) * 1 - - (2 / 3) * 1)%float
  /\ vec' 2%nat = vec' 5%nat
  /\ vec' 4%nat = 9%float.
Proof.
  intros first second sink models jacFN vec lay vec'.
  assert (Hin : Forall inletDofsInside models).
  { apply Forall_cons. split; [intros H; discriminate|].
    apply Forall_cons. split; [intros H; discriminate|].
    apply Forall_cons. split; [|constructor].
    intros _. split; [intros comp Hc; simpl in *; lia | intros H; simpl in H; lia]. }
  assert (Hcols : outboundColumnsInside models jacFN).
  { intros i m Hm. destruct i as [|[|[|i]]]; simpl in Hm; try discriminate.
    - injection Hm as <-. apply Forall_cons. split; [simpl; lia | constructor].
    - injection Hm as <-. apply Forall_cons. split; [simpl; lia | constructor].
    - injection Hm as <-. constructor. }
  destruct (solveCouplingDOF_spec PrimFloat.sub PrimFloat.mul models [] jacFN vec Hin Hcols)
    as (Hcoupling & Hinlet & Hother & _).
  split; [exact Hin|]. split; [exact Hcols|]. split; [|split].
  - refine (eq_trans (Hcoupling 0%nat) _). vm_compute. reflexivity.
  - apply (Hinlet 2%nat sink 0%nat 0%nat eq_refl). vm_compute. reflexivity.
  - transitivity (vec 4%nat); [|reflexivity]. apply (Hother 4%nat).
    + vm_compute. reflexivity.
    + intros i m comp Hm Hi Hc. destruct i as [|[|[|i]]]; simpl in Hm; try discriminate.
      * injection Hm as <-. discriminate.
      * injection Hm as <-. discriminate.
      * injection Hm as <-. simpl in Hc. vm_compute. destruct comp as [|comp]; lia.
Defined.

(** ** The recorder of one unit operation *)

Section RecorderFacts.
Import Recorder.

Lemma strided_readable (data : list float) (stride : nat) (n : nat) :
  forall i,
  (forall c, (c < n)%nat -> is_Some (data !! ((i + c) * stride)%nat)) ->
  exists xs,
    strided data stride i n = Ok xs
    /\ length xs = n
    /\ forall c, (c < n)%nat -> xs !! c = data !! ((i + c) * stride)%nat.
Proof.
  induction n as [|n IH]; intros i H.
  - exists []. split; [reflexivity|]. split; [reflexivity|]. intros c Hc. lia.
  - destruct (H 0%nat ltac:(lia)) as [x Hx]. rewrite Nat.add_0_r in Hx.
    destruct (IH (S i)) as (xs & Hxs & Hlen & Hel).
    { intros c Hc. replace (S i + c)%nat with (i + S c)%nat by lia. apply H. lia. }
    exists (x :: xs). split.
    + cbn [strided]. rewrite (elementAt_Ok _ _ _ Hx). unfold mbind, outcome_bind.
      rewrite Hxs. reflexivity.
    + split; [simpl; lia|]. intros [|c] Hc.
      * rewrite Nat.add_0_r. simpl. symmetry. exact Hx.
      * simpl. rewrite (Hel c ltac:(lia)). f_equal. lia.
Qed.

Lemma stridedPart (flag : bool) (data : list float) (stride n : nat) (old : list float) :
  (flag = true -> forall c, (c < n)%nat -> is_Some (data !! (c * stride)%nat)) ->
  exists new,
    (if flag then x ← strided data stride 0 n; Ok (old ++ x) else Ok old) = Ok new
    /\ (flag = true ->
        exists xs, new = old ++ xs /\ length xs = n
                   /\ forall c, (c < n)%nat -> xs !! c = data !! (c * stride)%nat)
    /\ (flag = false -> new = old).
Proof.
  intros H. destruct flag.
  - destruct (strided_readable data stride n 0 (H eq_refl)) as (xs & Hxs & Hlen & Hel).
    exists (old ++ xs). split; [rewrite Hxs; reflexivity|]. split; [|discriminate].
    intros _. exists xs. split; [reflexivity|]. split; [exact Hlen | exact Hel].
  - exists old. split; [reflexivity|]. split; [discriminate | reflexivity].
Qed.

Lemma firstNPart (flag : bool) (data : list float) (n : nat) (old : list float) :
  (flag = true -> (n <= length data)%nat) ->
  exists new, (if flag then x ← firstN data n; Ok (old ++ x) else Ok old) = Ok new.
Proof.
  intros H. destruct flag; [|exists old; reflexivity].
  unfold firstN. destruct (Nat.leb_spec n (length data)) as [_|Hlt]; [|specialize (H eq_refl); lia].
  eexists. reflexivity.
Qed.

Lemma beginUnitOperation_foreign (idx : nat) (e : Exporter) (r : t) :
  idx <> _unitOp r -> beginUnitOperation idx e r = Ok r.
Proof.
  intros H. unfold beginUnitOperation. destruct (_cur r); [|reflexivity].
  destruct (Nat.eqb_spec idx (_unitOp r)); [contradiction | reflexivity].
Qed.

Lemma reportUnits_foreign (units : list (nat * Exporter)) (r : t) :
  Forall (fun u : nat * Exporter => u.1 <> _unitOp r) units -> reportUnits units r = Ok r.
Proof.
  induction units as [|[idx e] rest IH]; intros H; [reflexivity|].
  apply Forall_cons in H as [Hhd Htl]. simpl in Hhd. cbn [reportUnits].
  rewrite (beginUnitOperation_foreign idx e r Hhd). apply IH. exact Htl.
Qed.

Lemma reportUnits_app (a b : list (nat * Exporter)) (r : t) :
  reportUnits (a ++ b) r = r' ← reportUnits a r; reportUnits b r'.
Proof.
  revert r. induction a as [|[idx e] a IH]; intros r; [reflexivity|].
  cbn [reportUnits app]. unfold mbind, outcome_bind.
  destruct (beginUnitOperation idx e r) as [r1| |]; [|reflexivity..].
  apply IH.
Qed.

(** The own unit operation while the solution is current. *)
Lemma beginUnitOperation_own (e : Exporter) (r : t) :
  _cur r = Some Solution ->
  readable (_cfgSolution r) (_nComp r) e ->
  exists b,
    beginUnitOperation (_unitOp r) e r
    = Ok (withData r (_time r) b (_solutionDot r) (_sens r) (_sensDot r))
    /\ (storeOutlet (_cfgSolution r) = true ->
        exists xs, bOutlet b = bOutlet (_solution r) ++ xs
                   /\ length xs = _nComp r
                   /\ forall c, (c < _nComp r)%nat ->
                        xs !! c = outlet e !! (c * outletStride e)%nat).
Proof.
  intros Hcur (Ho & Hi & Hc & Hp & Hf). unfold beginUnitOperation. rewrite Hcur.
  rewrite Nat.eqb_refl. cbn [negb currentCfg].
  destruct (pushes (_cfgSolution r) (_nComp r)) eqn:Epush; cbn [negb]; cycle 1.
  { exists (_solution r). split; [destruct r; reflexivity|].
    intros Hso. exists []. rewrite app_nil_r. split; [reflexivity|].
    unfold pushes in Epush. rewrite Hso in Epush. simpl in Epush.
    destruct (Nat.ltb_spec 0 (_nComp r)) as [|Hn]; [discriminate|].
    split; [simpl; lia | intros c Hc'; lia]. }
  cbn [currentBuffers]. unfold mbind at 1, outcome_bind at 1.
  destruct (stridedPart (storeOutlet (_cfgSolution r)) (outlet e) (outletStride e) (_nComp r)
              (bOutlet (_solution r)) Ho) as (o & Eo & Ho' & _).
  destruct (stridedPart (storeInlet (_cfgSolution r)) (inlet e) (inletStride e) (_nComp r)
              (bInlet (_solution r)) Hi) as (i & Ei & _).
  destruct (firstNPart (storeColumn (_cfgSolution r)) (concentration e) (numColumnDofs e)
              (bColumn (_solution r)) Hc) as (c & Ec).
  destruct (firstNPart (storeParticle (_cfgSolution r)) (mobilePhase e) (numParticleDofs e)
              (bParticle (_solution r)) Hp) as (p & Ep).
  destruct (firstNPart (storeFlux (_cfgSolution r)) (flux e) (numFluxDofs e)
              (bFlux (_solution r)) Hf) as (f & Ef).
  rewrite Eo. unfold mbind at 1, outcome_bind at 1.
  rewrite Ei. unfold mbind at 1, outcome_bind at 1.
  rewrite Ec. unfold mbind at 1, outcome_bind at 1.
  rewrite Ep. unfold mbind at 1, outcome_bind at 1.
  rewrite Ef. unfold mbind at 1, outcome_bind at 1.
  exists (BuildBuffers o i c p f). split; [reflexivity|]. exact Ho'.
Qed.

Lemma beginTimestep_spec (t0 : float) (r : t) :
  sameSetup r (beginTimestep t0 r)
  /\ _cur (beginTimestep t0 r) = _cur r
  /\ _numTimesteps (beginTimestep t0 r) = S (_numTimesteps r)
  /\ _time (beginTimestep t0 r) = _time r ++ (if _storeTime r then [t0] else [])
  /\ _solution (beginTimestep t0 r) = _solution r
  /\ _solutionDot (beginTimestep t0 r) = _solutionDot r
  /\ _sens (beginTimestep t0 r) = _sens r
  /\ _sensDot (beginTimestep t0 r) = _sensDot r.
Proof.
  unfold beginTimestep, sameSetup. cbn [withCounters _storeTime].
  destruct (_storeTime r) eqn:E; simpl; rewrite ?E, ?app_nil_r; repeat split; reflexivity.
Qed.

Lemma reportTimestep_once (t0 : float) (units : list (nat * Exporter)) (e : Exporter) (r : t) :
  reportsOnce (_unitOp r) units e ->
  readable (_cfgSolution r) (_nComp r) e ->
  exists r',
    reportTimestep t0 units r = Ok r'
    /\ sameSetup r r'
    /\ _cur r' = None
    /\ _numTimesteps r' = S (_numTimesteps r)
    /\ _time r' = _time r ++ (if _storeTime r then [t0] else [])
    /\ _solutionDot r' = _solutionDot r
    /\ (storeOutlet (_cfgSolution r) = true ->
        exists xs, bOutlet (_solution r') = bOutlet (_solution r) ++ xs
                   /\ length xs = _nComp r
                   /\ forall c, (c < _nComp r)%nat ->
                        xs !! c = outlet e !! (c * outletStride e)%nat).
Proof.
  intros (before & after & -> & Hforeign) Hread.
  apply Forall_app in Hforeign as [Hb Ha].
  destruct (beginTimestep_spec t0 r)
    as ((S1 & S2 & S3 & S4 & S5 & S6 & S7 & S8 & S9 & S10 & S11 & S12)
        & Bc & Bn & Bt & Bs & Bd & Bse & Bsd).
  set (r0 := beginTimestep t0 r) in *.
  set (r1 := beginSolution r0).
  assert (Hu1 : _unitOp r1 = _unitOp r) by exact S12.
  assert (Hn1 : _nComp r1 = _nComp r) by exact S10.
  assert (Hc1 : _cfgSolution r1 = _cfgSolution r) by exact S1.
  assert (Hs1 : _solution r1 = _solution r) by exact Bs.
  destruct (beginUnitOperation_own e r1 eq_refl) as (b & Hown & Hout).
  { rewrite Hc1, Hn1. exact Hread. }
  rewrite Hc1, Hn1, Hs1 in Hout.
  assert (Hrun : reportTimestep t0 (before ++ (_unitOp r, e) :: after) r
                 = Ok (endTimestep (endSolution
                         (withData r1 (_time r1) b (_solutionDot r1) (_sens r1) (_sensDot r1))))).
  { unfold reportTimestep. fold r0. fold r1. rewrite reportUnits_app.
    rewrite reportUnits_foreign by (rewrite Hu1; exact Hb).
    unfold mbind at 2, outcome_bind at 2. cbn [reportUnits].
    rewrite <- Hu1 at 1. rewrite Hown. unfold mbind at 2, outcome_bind at 2.
    unfold endUnitOperation.
    rewrite reportUnits_foreign; [reflexivity|].
    change (_unitOp (withData r1 (_time r1) b (_solutionDot r1) (_sens r1) (_sensDot r1)))
      with (_unitOp r1). rewrite Hu1. exact Ha. }
  eexists. split; [exact Hrun|].
  split; [unfold sameSetup; repeat split; assumption|].
  split; [reflexivity|]. split; [exact Bn|]. split; [exact Bt|]. split; [exact Bd|].
  exact Hout.
Qed.

Lemma reportTimesteps_outlet (own nComp : nat) (cfg : StorageConfig)
    (steps : list (float * list (nat * Exporter))) :
  forall (es : list Exporter) (r : t),
  Forall2 (fun step e => reportsOnce own step.2 e /\ readable cfg nComp e) steps es ->
  _unitOp r = own -> _nComp r = nComp -> _cfgSolution r = cfg ->
  storeOutlet cfg = true ->
  exists r' data,
    reportTimesteps steps r = Ok r'
    /\ sameSetup r r'
    /\ _numTimesteps r' = (_numTimesteps r + length steps)%nat
    /\ _time r' = _time r ++ (if _storeTime r then map fst steps else [])
    /\ _solutionDot r' = _solutionDot r
    /\ bOutlet (_solution r') = bOutlet (_solution r) ++ data
    /\ length data = (length steps * nComp)%nat
    /\ forall k e c, es !! k = Some e -> (c < nComp)%nat ->
         data !! (k * nComp + c)%nat = outlet e !! (c * outletStride e)%nat.
Proof.
  induction steps as [|[t0 units] steps IH]; intros es r Hall Hu Hn Hc Hso.
  - apply Forall2_nil_inv_l in Hall as ->.
    exists r, []. split; [reflexivity|]. split; [repeat split|].
    split; [simpl; lia|]. split; [destruct (_storeTime r); rewrite app_nil_r; reflexivity|].
    split; [reflexivity|]. split; [rewrite app_nil_r; reflexivity|]. split; [reflexivity|].
    intros k e c Hk. discriminate.
  - apply Forall2_cons_inv_l in Hall as (e & es' & [Honce Hread] & Hall & ->).
    simpl in Honce.
    destruct (reportTimestep_once t0 units e r) as (r1 & Hr1 & Hsame & _ & Hnt & Htime & Hdot & Hout).
    { rewrite Hu. exact Honce. }
    { rewrite Hc, Hn. exact Hread. }
    destruct (Hout ltac:(rewrite Hc; exact Hso)) as (xs & Hxs & Hlen & Hel).
    pose proof Hsame as (S1 & S2 & S3 & S4 & S5 & S6 & S7 & S8 & S9 & S10 & S11 & S12).
    destruct (IH es' r1 Hall ltac:(congruence) ltac:(congruence) ltac:(congruence) Hso)
      as (r' & data & Hrun & Hsame' & Hnt' & Htime' & Hdot' & Hdata & Hdlen & Hdel).
    exists r', (xs ++ data). split.
    { cbn [reportTimesteps]. rewrite Hr1. exact Hrun. }
    split.
    { destruct Hsame' as (T1 & T2 & T3 & T4 & T5 & T6 & T7 & T8 & T9 & T10 & T11 & T12).
      unfold sameSetup. repeat split; congruence. }
    split; [rewrite Hnt', Hnt; simpl; lia|].
    split.
    { rewrite Htime', Htime, S5. destruct (_storeTime r); simpl.
      - rewrite <- app_assoc. reflexivity.
      - rewrite !app_nil_r. reflexivity. }
    split; [congruence|].
    split; [rewrite Hdata, Hxs, <- app_assoc; reflexivity|].
    split; [rewrite length_app, Hlen, Hdlen, Hn; simpl; lia|].
    intros k e' c Hk Hcn. destruct k as [|k]; simpl in Hk.
    + injection Hk as <-. simpl. rewrite lookup_app_l by lia. apply Hel. lia.
    + rewrite lookup_app_r by (rewrite Hlen, Hn; simpl; lia).
      rewrite Hlen, Hn. replace (S k * nComp + c - nComp)%nat with (k * nComp + c)%nat
        by (simpl; lia).
      apply (Hdel k e' c Hk Hcn).
Qed.

Lemma writeData_outlet (prefix : string) (r : t) (target : Target) (b : Buffers) :
  _cur r = Some target ->
  currentBuffers r target = Ok b ->
  _columnLayout r <> [] -> _particleLayout r <> [] -> _fluxLayout r <> [] ->
  exists calls r',
    writeData prefix r = Ok (calls, r')
    /\ (storeOutlet (currentCfg r target) = true -> _splitComponents r = true ->
        forall c, (c < _nComp r)%nat ->
          WVector (compName prefix "_COLUMN_OUTLET_COMP_" c) (_numTimesteps r)
                  (bOutlet b) c (_nComp r) ∈ calls)
    /\ _columnLayout r' <> [] /\ _particleLayout r' <> [] /\ _fluxLayout r' <> []
    /\ _cur r' = _cur r /\ _solution r' = _solution r /\ _solutionDot r' = _solutionDot r
    /\ _sens r' = _sens r /\ _sensDot r' = _sensDot r /\ _time r' = _time r
    /\ _nComp r' = _nComp r /\ _numTimesteps r' = _numTimesteps r
    /\ _splitComponents r' = _splitComponents r /\ _storeTime r' = _storeTime r
    /\ _cfgSolution r' = _cfgSolution r /\ _cfgSolutionDot r' = _cfgSolutionDot r.
Proof.
  intros Hcur Hb Hcl Hpl Hfl. unfold writeData. rewrite Hcur, Hb.
  set (cfg := currentCfg r target).
  assert (Hreads : storeOutlet cfg = true -> _splitComponents r = true ->
            forall c, (c < _nComp r)%nat -> reads cfg (_splitComponents r) (_nComp r) = true).
  { intros Hso Hsplit c Hc. unfold reads. rewrite Hso.
    destruct (Nat.ltb_spec 0 (_nComp r)); [|lia]. rewrite orb_true_r. reflexivity. }
  destruct (reads cfg (_splitComponents r) (_nComp r)) eqn:Ereads;
    unfold mbind at 1, outcome_bind at 1.
  2: { assert (Hlay0 : forall flag (lay : list nat), lay <> [] ->
                exists lay', (if flag : bool
                              then match lay with
                                   | [] => Undefined
                                   | _ :: rest => Ok (_numTimesteps r :: rest)
                                   end
                              else Ok lay) = Ok lay' /\ lay' <> []).
       { intros flag lay Hne. destruct flag; [|exists lay; split; [reflexivity | exact Hne]].
         destruct lay as [|x rest]; [contradiction|].
         eexists. split; [reflexivity | discriminate]. }
       destruct (Hlay0 (storeColumn cfg) _ Hcl) as (cl & Ecl & Hcl').
       destruct (Hlay0 (storeParticle cfg) _ Hpl) as (pl & Epl & Hpl').
       destruct (Hlay0 (storeFlux cfg) _ Hfl) as (fl & Efl & Hfl').
       rewrite Ecl. unfold mbind at 1, outcome_bind at 1.
       rewrite Epl. unfold mbind at 1, outcome_bind at 1.
       rewrite Efl. unfold mbind at 1, outcome_bind at 1.
       eexists. eexists. split; [reflexivity|]. split.
       - intros Hso Hsplit c Hc. specialize (Hreads Hso Hsplit c Hc). discriminate.
       - simpl. repeat split; assumption || reflexivity. }
  assert (Hlay : forall flag (lay : list nat), lay <> [] ->
            exists lay', (if flag : bool
                          then match lay with
                               | [] => Undefined
                               | _ :: rest => Ok (_numTimesteps r :: rest)
                               end
                          else Ok lay) = Ok lay' /\ lay' <> []).
  { intros flag lay Hne. destruct flag; [|exists lay; split; [reflexivity | exact Hne]].
    destruct lay as [|x rest]; [contradiction|]. eexists. split; [reflexivity | discriminate]. }
  destruct (Hlay (storeColumn cfg) _ Hcl) as (cl & Ecl & Hcl').
  destruct (Hlay (storeParticle cfg) _ Hpl) as (pl & Epl & Hpl').
  destruct (Hlay (storeFlux cfg) _ Hfl) as (fl & Efl & Hfl').
  rewrite Ecl. unfold mbind at 1, outcome_bind at 1.
  rewrite Epl. unfold mbind at 1, outcome_bind at 1.
  rewrite Efl. unfold mbind at 1, outcome_bind at 1.
  eexists. eexists. split; [reflexivity|]. split.
  - intros Hso Hsplit c Hc. rewrite Hso, Hsplit.
    apply elem_of_app. left. apply list_elem_of_fmap. exists c.
    split; [reflexivity | apply elem_of_seq; lia].
  - simpl. repeat split; assumption || reflexivity.
Qed.

(** X23: a recorder whose solution configuration stores the outlet,
    after [notifyIntegrationStart] and [unitOperationStructure] for its
    unit operation, and after [n] time steps have been reported in each of
    which its unit operation appears once: [numDataPoints] is [n]; the
    outlet vector has [n * _nComp] entries, entry [k * _nComp + c] being
    the outlet value of component [c] at time step [k]; the times are
    stored when [_storeTime] is set; and [writeSolution] gives the writer,
    for each component [c] when [_splitComponents] is set, the vector
    [SOLUTION_COLUMN_OUTLET_COMP_c] of [n] elements, of which element [k]
    is inside the outlet vector and is the outlet value of component [c]
    at time step [k]. *)
Theorem recorded_outlet (r0 : t) (numDofs numSens numTimesteps : nat) (e0 : Exporter)
    (steps : list (float * list (nat * Exporter))) (es : list Exporter) :
  let own := _unitOp r0 in
  let nComp := numComponents e0 in
  let r1 := unitOperationStructure own e0 (notifyIntegrationStart numDofs numSens numTimesteps r0) in
  storeOutlet (_cfgSolution r0) = true ->
  Forall2 (fun step e => reportsOnce own step.2 e /\ readable (_cfgSolution r0) nComp e)
          steps es ->
  exists r calls r',
    reportTimesteps steps r1 = Ok r
    /\ numDataPoints r = length steps
    /\ length (bOutlet (_solution r)) = (length steps * nComp)%nat
    /\ (forall k e c, es !! k = Some e -> (c < nComp)%nat ->
          bOutlet (_solution r) !! (k * nComp + c)%nat = outlet e !! (c * outletStride e)%nat)
    /\ _time r = (if _storeTime r0 then map fst steps else [])
    /\ writeSolution r = Ok (calls, r')
    /\ (_splitComponents r0 = true ->
        forall c, (c < nComp)%nat ->
          WVector (compName "SOLUTION" "_COLUMN_OUTLET_COMP_" c) (length steps)
                  (bOutlet (_solution r)) c nComp ∈ calls
          /\ forall k e, es !! k = Some e ->
               vectorElement (bOutlet (_solution r)) c nComp k
               = outlet e !! (c * outletStride e)%nat).
Proof.
  intros own nComp r1 Hso Hall.
  assert (H1 : _unitOp r1 = own /\ _nComp r1 = nComp /\ _cfgSolution r1 = _cfgSolution r0
               /\ _numTimesteps r1 = 0%nat /\ _solution r1 = noData /\ _time r1 = []
               /\ _storeTime r1 = _storeTime r0 /\ _splitComponents r1 = _splitComponents r0
               /\ _columnLayout r1 <> [] /\ _particleLayout r1 <> [] /\ _fluxLayout r1 <> []).
  { subst r1 own nComp. clear. destruct r0. unfold unitOperationStructure, notifyIntegrationStart.
    unfold clear, allocate. simpl.
    destruct (negb (numSens =? _numSens0)%nat); simpl;
      rewrite Nat.eqb_refl; simpl;
      repeat (match goal with |- context [if ?c then _ else _] => destruct c end; simpl);
      repeat split; discriminate. }
  destruct H1 as (Hu & Hn & Hc & Hnt & Hsol & Htime & Hst & Hsp & Hcl & Hpl & Hfl).
  destruct (reportTimesteps_outlet own nComp (_cfgSolution r0) steps es r1 Hall Hu Hn Hc Hso)
    as (r & data & Hrun & Hsame & Hnt' & Htime' & _ & Hdata & Hdlen & Hdel).
  rewrite Hsol in Hdata. simpl in Hdata. rewrite Hnt in Hnt'. simpl in Hnt'.
  rewrite Htime, Hst in Htime'. simpl in Htime'.
  destruct Hsame as (S1 & S2 & S3 & S4 & S5 & S6 & S7 & S8 & S9 & S10 & S11 & S12).
  (* what the writer receives *)
  destruct (writeData_outlet "SOLUTION" (beginSolution r) Solution (_solution r))
    as (sol & rs & Hsol' & Hvec & Hcl1 & Hpl1 & Hfl1 & Hcur1 & W1 & W2 & W3 & W4 & W5
        & W6 & W7 & W8 & W9 & W10 & W11);
    [reflexivity | reflexivity | simpl; congruence | simpl; congruence | simpl; congruence |].
  destruct (writeData_outlet "SOLDOT" (beginSolutionDerivative (endSolution rs)) SolutionDot
              (_solutionDot rs))
    as (dot & rd & Hdot' & _);
    [reflexivity | reflexivity | exact Hcl1 | exact Hpl1 | exact Hfl1 |].
  exists r. eexists. eexists.
  split; [exact Hrun|]. split; [exact Hnt'|].
  split; [rewrite Hdata; exact Hdlen|].
  split; [intros k e c Hk Hcn; rewrite Hdata; apply (Hdel k e c Hk Hcn)|].
  split; [exact Htime'|]. split.
  - unfold writeSolution. rewrite Hsol'. unfold mbind at 1, outcome_bind at 1.
    rewrite Hdot'. reflexivity.
  - intros Hsplit c Hcn. split.
    + apply elem_of_app. right. apply elem_of_app. left.
      specialize (Hvec ltac:(simpl; rewrite S1, Hc; exact Hso)
                       ltac:(simpl; rewrite S6, Hsp; exact Hsplit) c
                       ltac:(simpl; rewrite S10, Hn; exact Hcn)).
      simpl in Hvec. rewrite S10, Hn in Hvec. unfold numDataPoints in Hnt'.
      rewrite Hnt' in Hvec. exact Hvec.
    + intros k e Hk. unfold vectorElement. rewrite Hdata.
      replace (c + k * nComp)%nat with (k * nComp + c)%nat by lia.
      apply (Hdel k e c Hk Hcn).
Qed.

End RecorderFacts.

(** The recorder of unit operation 1 with the configuration of the
    constructor, over two time steps of a system with the unit operations
    0 and 1, with two components. *)
Lemma recorded_outlet_witness :
  let exporter (a b : float) :=
    Recorder.BuildExporter 2 0 0 0 0 0 0 [] [] [] [a; b] 1 [] 1 [] [] [] in
  let steps := [(0%float, [(0%nat, exporter 9%float 9%float); (1%nat, exporter 1%float 2%float)]);
                (1%float, [(0%nat, exporter 9%float 9%float); (1%nat, exporter 3%float 4%float)])] in
  let r1 := Recorder.unitOperationStructure 1 (exporter 0%float 0%float)
              (Recorder.notifyIntegrationStart 10 0 2 (Recorder.create 1)) in
  exists r,
    Recorder.reportTimesteps steps r1 = Ok r
    /\ Recorder.numDataPoints r = 2%nat
    /\ Recorder.bOutlet (Recorder._solution r) = [1; 2; 3; 4]%float.
Proof.
  intros exporter steps r1.
  assert (Hread : forall a b,
            Recorder.readable (Recorder._cfgSolution (Recorder.create 1)) 2 (exporter a b)).
  { intros a b. split; [|split; [|split; [|split]]]; try discriminate.
    intros _ c Hc. destruct c as [|[|c]]; [eexists; reflexivity.. | lia]. }
  assert (Honce : forall a b,
            Recorder.reportsOnce 1 [(0%nat, exporter 9%float 9%float); (1%nat, exporter a b)] (exporter a b)).
  { intros a b. exists [(0%nat, exporter 9%float 9%float)], []. split; [reflexivity|].
    apply Forall_cons. split; [simpl; lia | constructor]. }
  destruct (recorded_outlet (Recorder.create 1) 10 0 2 (exporter 0%float 0%float) steps
              [exporter 1%float 2%float; exporter 3%float 4%float] eq_refl)
    as (r & _ & _ & Hrun & Hn & _).
  { apply Forall2_cons. split; [split; [apply Honce | apply Hread]|].
    apply Forall2_cons. split; [split; [apply Honce | apply Hread]|]. constructor. }
  exists r. split; [exact Hrun|]. split; [exact Hn|].
  vm_compute in Hrun. injection Hrun as <-. reflexivity.
Defined.

(** ** The sensitivity storage of a recorder, and the recorder of the system *)

Section RecorderCalls.
Import Recorder.

Lemma beginUnitOperation_shape (idx : nat) (e : Exporter) (r r' : t) :
  beginUnitOperation idx e r = Ok r' ->
  r' = r
  \/ exists target b0 b,
       _cur r = Some target /\ currentBuffers r target = Ok b0
       /\ r' = setCurrentBuffers r target b.
Proof.
  unfold beginUnitOperation. destruct (_cur r) as [target|]; [|intros [= <-]; left; reflexivity].
  destruct (negb (idx =? _unitOp r)%nat); [intros [= <-]; left; reflexivity|].
  destruct (negb (pushes (currentCfg r target) (_nComp r))); [intros [= <-]; left; reflexivity|].
  unfold mbind, outcome_bind.
  destruct (currentBuffers r target) as [b| |] eqn:Eb; try discriminate.
  destruct (if storeOutlet (currentCfg r target) then _ else _) as [o| |]; try discriminate.
  destruct (if storeInlet (currentCfg r target) then _ else _) as [i| |]; try discriminate.
  destruct (if storeColumn (currentCfg r target) then _ else _) as [c| |]; try discriminate.
  destruct (if storeParticle (currentCfg r target) then _ else _) as [p| |]; try discriminate.
  destruct (if storeFlux (currentCfg r target) then _ else _) as [f| |]; try discriminate.
  intros [= <-]. right. exists target, b, (BuildBuffers o i c p f).
  split; [reflexivity|]. split; [exact Eb | reflexivity].
Qed.

Lemma vectorsAt_Ok (heap : list (option Buffers)) (vectors : nat) (b : Buffers) :
  vectorsAt heap vectors = Ok b <-> heap !! vectors = Some (Some b).
Proof.
  unfold vectorsAt. destruct (heap !! vectors) as [[b'|]|]; split; intros H;
    try discriminate; congruence.
Qed.

(** Vectors that are allocated stay allocated when vectors are emptied. *)
Lemma clearVectors_allocated (l : list nat) :
  forall (heap : list (option Buffers)) (vectors : nat),
  (exists b, vectorsAt heap vectors = Ok b) ->
  exists b, vectorsAt (fold_left clearVectors l heap) vectors = Ok b.
Proof.
  induction l as [|x l IH]; intros heap vectors H; [exact H|]. simpl. apply IH.
  destruct H as [b Hb]. apply vectorsAt_Ok in Hb. unfold clearVectors.
  destruct (decide (x = vectors)) as [->|Hne].
  - exists noData. apply vectorsAt_Ok. rewrite list_lookup_alter.
    destruct (decide (vectors = vectors)); [|contradiction]. rewrite Hb. reflexivity.
  - exists b. apply vectorsAt_Ok. rewrite list_lookup_alter_ne by exact Hne. exact Hb.
Qed.

(** The slots that [allocate] fills. *)
Lemma allocate_slots (numSens : nat) (r : t) :
  _numSens r = numSens -> slotsAllocated (allocate numSens r).
Proof.
  intros Hn. unfold slotsAllocated, allocate. destruct r. simpl in *.
  rewrite !length_seq. split; [congruence|]. split; [congruence|].
  rewrite <- seq_app. split; [apply NoDup_seq|].
  intros vectors Hin. apply elem_of_seq in Hin. exists noData. apply vectorsAt_Ok.
  rewrite lookup_app_r by lia. apply lookup_replicate_2. lia.
Qed.

Lemma clear_slots (r : t) : slotsAllocated r -> slotsAllocated (clear r).
Proof.
  intros (H1 & H2 & H3 & H4). unfold slotsAllocated, clear. destruct r. simpl in *.
  split; [exact H1|]. split; [exact H2|]. split; [exact H3|].
  intros vectors Hin. apply clearVectors_allocated. apply H4. exact Hin.
Qed.

(** What a call keeps: the unit operation of the recorder and the
    sensitivity storage. *)
Lemma recorderCall_keeps (c : RecorderCall) (r r' : t) :
  recorderCall c r = Ok r' ->
  _unitOp r' = _unitOp r /\ (slotsAllocated r -> slotsAllocated r').
Proof.
  destruct c; simpl; intros H.
  - injection H as <-. split; [destruct r; reflexivity | apply clear_slots].
  - injection H as <-. split; [destruct r; reflexivity|]. intros _.
    apply allocate_slots. destruct r; reflexivity.
  - injection H as <-. unfold notifyIntegrationStart.
    set (r1 := withCounters (clear (withCounters r _ _ _)) _ _ _).
    assert (Hu : _unitOp r1 = _unitOp r) by (destruct r; reflexivity).
    assert (Hs : slotsAllocated r -> slotsAllocated r1).
    { intros Hr. subst r1.
      assert (Hc : slotsAllocated
                     (clear (withCounters r (_numTimesteps r) (_numSens r)
                               (negb (numSens =? _numSens r)%nat
                                || (_numTimesteps r <? numTimesteps)%nat)))).
      { apply clear_slots. destruct r. exact Hr. }
      revert Hc. generalize (clear (withCounters r (_numTimesteps r) (_numSens r)
                                      (negb (numSens =? _numSens r)%nat
                                       || (_numTimesteps r <? numTimesteps)%nat))).
      intros r2 Hc. destruct r2. exact Hc. }
    destruct (negb (numSens =? _numSens r1)%nat).
    + split; [destruct r1; simpl in *; exact Hu|]. intros _.
      assert (Ha : slotsAllocated
                     (allocate numSens
                        (withCounters
                           (withHeap r1 (fold_left deleteVectors (_sens r1 ++ _sensDot r1)
                                           (_heap r1)))
                           (_numTimesteps r1) numSens (_needsReAlloc r1)))).
      { apply allocate_slots. destruct r1; reflexivity. }
      revert Ha. clear. destruct r1. simpl. intros Ha. exact Ha.
    + split; [exact Hu | exact Hs].
  - injection H as <-. unfold unitOperationStructure.
    destruct (negb (idx =? _unitOp r)%nat); [tauto|].
    cbn [withStructure _needsReAlloc]. destruct (negb (_needsReAlloc r));
      (split; [destruct r; reflexivity | destruct r; intros Hs; exact Hs]).
  - injection H as <-. unfold beginTimestep. cbn [withCounters _storeTime].
    destruct (_storeTime r); (split; [destruct r; reflexivity | destruct r; intros Hs; exact Hs]).
  - destruct (beginUnitOperation_shape _ _ _ _ H) as [->|(target & b0 & b & _ & Hb0 & ->)];
      [tauto|].
    split; [destruct target, r; reflexivity|].
    intros (H1 & H2 & H3 & H4).
    destruct target as [| |vectors|vectors];
      [destruct r; repeat split; assumption | destruct r; repeat split; assumption | |].
    all: simpl in Hb0; apply vectorsAt_Ok in Hb0;
      pose proof (lookup_lt_Some _ _ _ Hb0) as Hlt;
      unfold slotsAllocated; destruct r; simpl in *;
      (split; [exact H1|]); (split; [exact H2|]); (split; [exact H3|]);
      intros x Hin; destruct (H4 x Hin) as [bx Hbx]; apply vectorsAt_Ok in Hbx;
      destruct (decide (vectors = x)) as [->|Hne];
      [exists b; apply vectorsAt_Ok; apply list_lookup_insert_eq; exact Hlt
      |exists bx; apply vectorsAt_Ok; rewrite list_lookup_insert_ne by exact Hne; exact Hbx].
  - injection H as <-. tauto.
  - injection H as <-. tauto.
  - injection H as <-. split; [destruct r; reflexivity | destruct r; intros Hs; exact Hs].
  - injection H as <-. split; [destruct r; reflexivity | destruct r; intros Hs; exact Hs].
  - injection H as <-. split; [destruct r; reflexivity | destruct r; intros Hs; exact Hs].
  - injection H as <-. split; [destruct r; reflexivity | destruct r; intros Hs; exact Hs].
  - unfold beginSensitivityIdx in H. destruct (_sens r !! sensIdx); [|discriminate].
    injection H as <-. split; [destruct r; reflexivity | destruct r; intros Hs; exact Hs].
  - injection H as <-. split; [destruct r; reflexivity | destruct r; intros Hs; exact Hs].
  - unfold beginSensitivityDot in H. destruct (_sensDot r !! sensIdx); [|discriminate].
    injection H as <-. split; [destruct r; reflexivity | destruct r; intros Hs; exact Hs].
  - injection H as <-. split; [destruct r; reflexivity | destruct r; intros Hs; exact Hs].
Qed.

Lemma recorderCalls_keeps (calls : list RecorderCall) :
  forall r r' : t,
  recorderCalls calls r = Ok r' ->
  _unitOp r' = _unitOp r /\ (slotsAllocated r -> slotsAllocated r').
Proof.
  induction calls as [|c rest IH]; intros r r' H.
  - injection H as <-. tauto.
  - cbn [recorderCalls] in H. unfold mbind, outcome_bind in H.
    destruct (recorderCall c r) as [r1| |] eqn:E1; try discriminate.
    destruct (recorderCall_keeps _ _ _ E1) as [Hu Hl].
    destruct (IH _ _ H) as [Hu' Hl']. split; [congruence|].
    intros H1. apply Hl', Hl, H1.
Qed.

(** X24: whatever calls a recorder has received since it was
    constructed, as long as none of them was undefined: its sensitivity
    storage has [_numSens] slots of each kind, and every slot points to
    vectors of its own that are allocated; so [beginSensitivity] and
    [beginSensitivityDerivative] have vectors to point to for each index
    below [_numSens] (those that [writeSensitivity] goes through), and
    read out of range for the others; and the recorder still records the
    unit operation it was constructed for. *)
Theorem sensitivity_storage_allocated (idx : nat) (calls : list RecorderCall) (r : t) :
  recorderCalls calls (create idx) = Ok r ->
  _unitOp r = idx
  /\ length (_sens r) = _numSens r
  /\ length (_sensDot r) = _numSens r
  /\ NoDup (_sens r ++ _sensDot r)
  /\ forall param,
       ((param < _numSens r)%nat ->
          exists vectors vectorsDot b bDot,
            beginSensitivityIdx param r = Ok (withCur r (Some (Sensitivity vectors)))
            /\ beginSensitivityDot param r = Ok (withCur r (Some (SensitivityDot vectorsDot)))
            /\ vectorsAt (_heap r) vectors = Ok b
            /\ vectorsAt (_heap r) vectorsDot = Ok bDot)
       /\ ((_numSens r <= param)%nat ->
          beginSensitivityIdx param r = Undefined /\ beginSensitivityDot param r = Undefined).
Proof.
  intros H. destruct (recorderCalls_keeps _ _ _ H) as [Hu Hl].
  destruct Hl as (H1 & H2 & H3 & H4).
  { repeat split; [constructor | intros x Hx; inversion Hx]. }
  split; [exact Hu|]. split; [exact H1|]. split; [exact H2|]. split; [exact H3|].
  intros param. unfold beginSensitivityIdx, beginSensitivityDot. split; intros Hp.
  - destruct (lookup_lt_is_Some_2 (_sens r) param ltac:(lia)) as [a Ha].
    destruct (lookup_lt_is_Some_2 (_sensDot r) param ltac:(lia)) as [a' Ha'].
    destruct (H4 a) as [b Hb].
    { apply elem_of_app. left. eapply list_elem_of_lookup_2. exact Ha. }
    destruct (H4 a') as [b' Hb'].
    { apply elem_of_app. right. eapply list_elem_of_lookup_2. exact Ha'. }
    exists a, a', b, b'. rewrite Ha, Ha'. repeat split; assumption.
  - rewrite (lookup_ge_None_2 (_sens r) param) by lia.
    rewrite (lookup_ge_None_2 (_sensDot r) param) by lia. split; reflexivity.
Qed.

(** A recorder prepared for two sensitivities, then told of an
    integration with three. *)
Lemma sensitivity_storage_allocated_witness :
  exists r,
    recorderCalls [CallPrepare 10 2 5; CallNotifyIntegrationStart 10 3 5; CallBeginSensitivity 2]
                  (create 4) = Ok r
    /\ _unitOp r = 4%nat /\ length (_sens r) = 3%nat.
Proof.
  destruct (recorderCalls [CallPrepare 10 2 5; CallNotifyIntegrationStart 10 3 5;
                           CallBeginSensitivity 2] (create 4)) as [r| |] eqn:E;
    [|vm_compute in E; discriminate..].
  exists r. split; [reflexivity|].
  destruct (sensitivity_storage_allocated 4 _ r E) as (Hu & Hs & _).
  split; [exact Hu|]. rewrite Hs. vm_compute in E. injection E as <-. reflexivity.
Defined.

Lemma forRecorders_spec (c : RecorderCall) (recs recs' : list t) :
  SystemRecorder.forRecorders c recs = Ok recs' ->
  Forall2 (fun r r' => recorderCall c r = Ok r') recs recs'.
Proof.
  revert recs'. induction recs as [|r rest IH]; intros recs' H.
  - injection H as <-. constructor.
  - cbn [SystemRecorder.forRecorders] in H. unfold mbind, outcome_bind in H.
    destruct (recorderCall c r) as [r1| |] eqn:E1; try discriminate.
    destruct (SystemRecorder.forRecorders c rest) as [rest1| |] eqn:E2; try discriminate.
    injection H as <-. constructor; [exact E1 | apply IH; reflexivity].
Qed.

Lemma unitOperationFrom_advanced (P : t -> t -> Prop) (recs recs' : list t) (idx : nat) :
  Forall2 (fun r r' => P r r' /\ _unitOp r' = _unitOp r) recs recs' ->
  match SystemRecorder.unitOperationFrom recs idx with
  | Some r => exists r', SystemRecorder.unitOperationFrom recs' idx = Some r' /\ P r r'
  | None => SystemRecorder.unitOperationFrom recs' idx = None
  end.
Proof.
  induction 1 as [|r r' recs recs' [HP Hu] _ IH]; [reflexivity|].
  simpl. rewrite Hu. destruct (_unitOp r =? idx)%nat; [|exact IH].
  exists r'. split; [reflexivity | exact HP].
Qed.

(** X25: a sequence of calls received by the recorder of the system
    leaves each of its recorders as the same calls leave that recorder
    alone; [unitOperation(idx)] finds afterwards the recorder it found
    before, advanced by these calls; and [numDataPoints] of the system is
    the number of time steps begun since the last
    [unitOperationStructure], of whichever unit operation. *)
Theorem system_recorder_calls (cs : list RecorderCall) :
  forall s s' : SystemRecorder.t,
  SystemRecorder.calls cs s = Ok s' ->
  Forall2 (fun r r' => recorderCalls cs r = Ok r')
          (SystemRecorder._recorders s) (SystemRecorder._recorders s')
  /\ (forall idx,
        match SystemRecorder.unitOperation s idx with
        | Some r => exists r', SystemRecorder.unitOperation s' idx = Some r'
                               /\ recorderCalls cs r = Ok r'
        | None => SystemRecorder.unitOperation s' idx = None
        end)
  /\ SystemRecorder.numDataPoints s'
     = timestepsSinceStructure cs (SystemRecorder._numTimesteps s)
  /\ SystemRecorder._storeTime s' = SystemRecorder._storeTime s.
Proof.
  assert (Hgen : forall s s' : SystemRecorder.t,
            SystemRecorder.calls cs s = Ok s' ->
            Forall2 (fun r r' => recorderCalls cs r = Ok r' /\ _unitOp r' = _unitOp r)
                    (SystemRecorder._recorders s) (SystemRecorder._recorders s')
            /\ SystemRecorder.numDataPoints s'
               = timestepsSinceStructure cs (SystemRecorder._numTimesteps s)
            /\ SystemRecorder._storeTime s' = SystemRecorder._storeTime s).
  { induction cs as [|c rest IH]; intros s s' H.
    - injection H as <-. split; [|split; reflexivity].
      induction (SystemRecorder._recorders s); constructor; [split; reflexivity | assumption].
    - cbn [SystemRecorder.calls] in H. unfold mbind, outcome_bind in H.
      destruct (SystemRecorder.call c s) as [s1| |] eqn:E1; try discriminate.
      destruct (IH _ _ H) as (Hrecs & Hn & Hst).
      unfold SystemRecorder.call, mbind, outcome_bind in E1.
      destruct (SystemRecorder.forRecorders c (SystemRecorder._recorders s))
        as [recs1| |] eqn:Ef; try discriminate.
      pose proof (forRecorders_spec _ _ _ Ef) as Hstep.
      destruct (SystemRecorder.ownFields c s) as [[nt ns] time] eqn:Eo.
      injection E1 as <-. simpl in *.
      split; [|split; [|exact Hst]].
      + clear -Hstep Hrecs. revert Hrecs. generalize (SystemRecorder._recorders s').
        induction Hstep as [|r r1 recs recs1 Hr _ IHs]; intros recs' Hrecs.
        * apply Forall2_nil_inv_l in Hrecs as ->. constructor.
        * apply Forall2_cons_inv_l in Hrecs as (r' & recs'' & [Hr' Hu'] & Hrest & ->).
          constructor; [|apply IHs; exact Hrest].
          split; [cbn [recorderCalls]; rewrite Hr; exact Hr'|].
          rewrite Hu'. exact (proj1 (recorderCall_keeps _ _ _ Hr)).
      + rewrite Hn. destruct c; simpl in Eo; injection Eo as <- _ _; reflexivity. }
  intros s s' H. destruct (Hgen s s' H) as (Hrecs & Hn & Hst).
  split; [eapply Forall2_impl; [exact Hrecs|]; intros r r' [Hr _]; exact Hr|].
  split; [|split; [exact Hn | exact Hst]].
  intros idx. unfold SystemRecorder.unitOperation.
  apply (unitOperationFrom_advanced (fun r r' => recorderCalls cs r = Ok r') _ _ idx Hrecs).
Qed.

(** A system recorder with recorders for the unit operations 0 and 1,
    over one time step. *)
Lemma system_recorder_calls_witness :
  let exporter (a : float) :=
    BuildExporter 1 0 0 0 0 0 0 [] [] [] [a] 1 [] 1 [] [] [] in
  let s := SystemRecorder.addRecorder (create 1)
             (SystemRecorder.addRecorder (create 0) SystemRecorder.create) in
  let cs := [CallNotifyIntegrationStart 4 0 1;
             CallUnitOperationStructure 0 (exporter 0%float);
             CallUnitOperationStructure 1 (exporter 0%float);
             CallBeginTimestep 0%float; CallBeginSolution;
             CallBeginUnitOperation 0 (exporter 5%float); CallEndUnitOperation;
             CallBeginUnitOperation 1 (exporter 7%float); CallEndUnitOperation;
             CallEndSolution; CallEndTimestep] in
  exists s' r',
    SystemRecorder.calls cs s = Ok s'
    /\ SystemRecorder.unitOperation s' 1 = Some r'
    /\ recorderCalls cs (create 1) = Ok r'
    /\ SystemRecorder.numDataPoints s' = 1%nat.
Proof.
  intros exporter s cs.
  destruct (SystemRecorder.calls cs s) as [s'| |] eqn:E; [|vm_compute in E; discriminate..].
  destruct (system_recorder_calls cs s s' E) as (_ & Hlookup & Hn & _).
  specialize (Hlookup 1%nat).
  assert (Hfind : SystemRecorder.unitOperation s 1 = Some (create 1)) by reflexivity.
  rewrite Hfind in Hlookup. destruct Hlookup as (r' & Hr' & Hrun).
  exists s', r'. split; [reflexivity|]. split; [exact Hr'|]. split; [exact Hrun|].
  rewrite Hn. reflexivity.
Defined.

End RecorderCalls.

(** ** The inlet rows of the residual *)

Lemma sumDofs_take_mono (l : list IUnitOperation) (a b : nat) :
  (a <= b)%nat -> (sumDofs (take a l) <= sumDofs (take b l))%nat.
Proof.
  revert a b; induction l as [|u l IH]; intros a b Hab.
  - rewrite !take_nil. lia.
  - destruct a as [|a]; [simpl; lia|]. destruct b as [|b]; [lia|].
    simpl. specialize (IH a b ltac:(lia)). lia.
Qed.

Lemma sumDofs_take_S (l : list IUnitOperation) (i : nat) (m : IUnitOperation) :
  l !! i = Some m -> sumDofs (take (S i) l) = (sumDofs (take i l) + UnitOp.numDofs m)%nat.
Proof. intros H. rewrite (take_S_r _ _ _ H), sumDofs_app. simpl. lia. Qed.

(** The inlet DOFs of different units, or of different components of a
    unit, are different DOFs. *)
Lemma inletDofs_distinct (models : list IUnitOperation) (i i' : nat) (m m' : IUnitOperation)
    (comp comp' : nat) :
  Forall inletDofsInside models ->
  models !! i = Some m -> UnitOp.hasInlet m = true -> (comp < UnitOp.numComponents m)%nat ->
  models !! i' = Some m' -> UnitOp.hasInlet m' = true -> (comp' < UnitOp.numComponents m')%nat ->
  (sumDofs (take i models) + UnitOp.localInletComponentIndex m
   + comp * UnitOp.localInletComponentStride m
   = sumDofs (take i' models) + UnitOp.localInletComponentIndex m'
     + comp' * UnitOp.localInletComponentStride m')%nat ->
  i = i' /\ comp = comp'.
Proof.
  intros Hall Hm Hin Hc Hm' Hin' Hc' Heq.
  destruct (proj1 (Forall_forall _ _) Hall m (list_elem_of_lookup_2 _ _ _ Hm) Hin) as [Hd Hs].
  destruct (proj1 (Forall_forall _ _) Hall m' (list_elem_of_lookup_2 _ _ _ Hm') Hin') as [Hd' Hs'].
  specialize (Hd comp Hc). specialize (Hd' comp' Hc').
  pose proof (sumDofs_take_S models i m Hm) as HS.
  pose proof (sumDofs_take_S models i' m' Hm') as HS'.
  destruct (Nat.lt_trichotomy i i') as [Hlt|[->|Hgt]].
  - pose proof (sumDofs_take_mono models (S i) i' ltac:(lia)). lia.
  - split; [reflexivity|]. assert (m' = m) as -> by congruence.
    destruct (Nat.lt_trichotomy comp comp') as [Hl|[->|Hg]]; [|reflexivity|].
    + specialize (Hs ltac:(lia)). nia.
    + specialize (Hs ltac:(lia)). nia.
  - pose proof (sumDofs_take_mono models (S i') i ltac:(lia)). lia.
Qed.

Lemma multiplyAdd_app {R : Type} (radd rmul : R -> R -> R) (A B : @SparseMatrix R)
    (x : nat -> R) (xo : nat) (y : nat -> R) (yo : nat) :
  multiplyAdd radd rmul (A ++ B) x xo y yo
  = multiplyAdd radd rmul B x xo (multiplyAdd radd rmul A x xo y yo) yo.
Proof. unfold multiplyAdd. apply fold_left_app. Qed.

Lemma copyCoupling_below {R : Type} (n : nat) :
  forall (fo : nat) (y res : nat -> R) (p : nat),
  (p < fo)%nat -> copyCoupling fo n y res p = res p.
Proof.
  unfold copyCoupling. induction n as [|n IH]; intros fo y res p Hp; [reflexivity|].
  rewrite seq_S, fold_left_app. simpl. rewrite store_other by lia. apply IH. exact Hp.
Qed.

Lemma outbound_loop_below {R : Type} (radd rmul : R -> R -> R) (dofOffset : list nat)
    (jacFN : list (@SparseMatrix R)) (y : nat -> R) (fo p : nat) (n : nat) :
  forall res : nat -> R,
  (p < fo)%nat ->
  fold_left (fun res i =>
               multiplyAdd radd rmul (nth i jacFN []) y (nth i dofOffset 0%nat) res fo)
            (seq 0 n) res p
  = res p.
Proof.
  induction n as [|n IH]; intros res Hp; [reflexivity|].
  rewrite seq_S, fold_left_app. simpl.
  rewrite multiplyAdd_untouched; [apply IH; exact Hp|].
  apply Forall_forall. intros e _. lia.
Qed.

(** The inbound matrix of one unit, applied: the row of component
    [comp0]. *)
Lemma inbound_unit_row (li st off fo c : nat) (y : nat -> float) (n : nat) :
  forall (res : nat -> float) (comp0 : nat),
  (comp0 < n)%nat -> ((1 < n)%nat -> (0 < st)%nat) ->
  multiplyAdd PrimFloat.add PrimFloat.mul
    (map (fun comp => ((li + comp * st)%nat, (c + comp)%nat, (-1)%float)) (seq 0 n))
    y fo res off (off + (li + comp0 * st))%nat
  = (res (off + (li + comp0 * st))%nat + (-1) * y (fo + (c + comp0))%nat)%float.
Proof.
  induction n as [|n IH]; intros res comp0 Hc Hs; [lia|].
  rewrite seq_S, map_app, multiplyAdd_app. simpl.
  unfold multiplyAdd at 1. simpl.
  destruct (decide (comp0 = n)) as [->|Hne].
  - rewrite store_same. f_equal.
    apply multiplyAdd_untouched. apply Forall_forall. intros e He.
    apply list_elem_of_fmap in He as (comp & -> & Hcomp). apply elem_of_seq in Hcomp.
    simpl. specialize (Hs ltac:(lia)). nia.
  - assert (Hst : (0 < st)%nat) by (apply Hs; lia).
    rewrite store_other by nia. apply IH; [lia | intros; exact Hst].
Qed.

(** X26: the rows of the inlet DOFs in the residual that
    [residualConnectUnitOps] leaves, with the inbound matrices that
    [assembleSuperStructMatrices] has set up and the layout of
    [rebuildInternalDataStructures], for units whose inlet DOFs are DOFs
    of their own: the residual of the inlet DOF of component [comp] of
    unit [i] is what the unit left there plus [-1.0] times the coupling
    DOF that the coupling index map gives for [(i, comp)]; every inbound
    matrix has its rows inside the block of its unit; and no other
    residual of a unit is changed. *)
Theorem residual_inlet_rows (models : list IUnitOperation) (old : list Z)
    (jacFN : list FloatMatrix) (y res : nat -> float) :
  let lay := rebuildInternalDataStructures models old in
  let finalOffset := List.last (_dofOffset lay) 0%nat in
  let jacNF := assembleNF models 0 in
  let res' := residualConnectUnitOps PrimFloat.add PrimFloat.mul (_dofOffset lay)
                (numCouplingDOF (_couplingIdxMap lay)) (length models) jacNF jacFN y res in
  let inletDof i m comp :=
    (nth i (_dofOffset lay) 0 + (UnitOp.localInletComponentIndex m
                                 + comp * UnitOp.localInletComponentStride m))%nat in
  Forall inletDofsInside models ->
  inboundRowsInsideUnits (_dofOffset lay) (length models) jacNF
  /\ (forall i m comp k, models !! i = Some m ->
        _couplingIdxMap lay !! (i, comp) = Some k ->
        res' (inletDof i m comp)
        = (res (inletDof i m comp) + (-1) * y (finalOffset + k)%nat)%float)
  /\ (forall p, (p < finalOffset)%nat ->
        (forall i m comp, models !! i = Some m -> UnitOp.hasInlet m = true ->
           (comp < UnitOp.numComponents m)%nat -> p <> inletDof i m comp) ->
        res' p = res p).
Proof.
  intros lay finalOffset jacNF res' inletDof Hin. subst jacNF.
  destruct (dofOffset_nth models old) as [Hnth Hlast]. fold lay in Hnth, Hlast.
  fold finalOffset in Hlast.
  assert (Hoffi : forall i m, models !! i = Some m ->
            nth i (_dofOffset lay) 0%nat = sumDofs (take i models)).
  { intros i m Hm. apply Hnth. apply lookup_lt_Some in Hm. lia. }
  assert (Hnf : forall i m, models !! i = Some m ->
            nth i (assembleNF models 0) []
            = if UnitOp.hasInlet m
              then map (fun comp => ((UnitOp.localInletComponentIndex m
                                      + comp * UnitOp.localInletComponentStride m)%nat,
                                     (0 + inletComponents (take i models) + comp)%nat,
                                     (-1)%float))
                       (seq 0 (UnitOp.numComponents m))
              else []).
  { intros i m Hm. apply nth_lookup_Some with (d := []).
    apply (assembleNF_lookup models 0 i m Hm). }
  assert (Hinside : forall i m comp, models !! i = Some m -> UnitOp.hasInlet m = true ->
            (comp < UnitOp.numComponents m)%nat -> (inletDof i m comp < finalOffset)%nat).
  { intros i m comp Hm Hi Hc. unfold inletDof. rewrite (Hoffi i m Hm), Hlast.
    destruct (proj1 (Forall_forall _ _) Hin m (list_elem_of_lookup_2 _ _ _ Hm) Hi) as [Hd _].
    specialize (Hd comp Hc). pose proof (sumDofs_block models i m Hm). lia. }
  unfold FloatMatrix, SparseMatrix in *.
  set (loop := fun n (r0 : nat -> float) =>
                 fold_left (fun res i =>
                              multiplyAdd PrimFloat.add PrimFloat.mul (nth i (assembleNF models 0) []) y
                                finalOffset res (nth i (_dofOffset lay) 0%nat))
                           (seq 0 n) r0).
  (* a DOF that is no inlet DOF is not written by the inbound matrices *)
  assert (Hother : forall p n r0, (n <= length models)%nat ->
            (forall i m comp, models !! i = Some m -> UnitOp.hasInlet m = true ->
               (comp < UnitOp.numComponents m)%nat -> (i < n)%nat -> p <> inletDof i m comp) ->
            loop n r0 p = r0 p).
  { intros p n. induction n as [|n IH]; intros r0 Hn Hno; [reflexivity|].
    unfold loop. rewrite seq_S, fold_left_app. simpl. fold (loop n r0).
    destruct (lookup_lt_is_Some_2 models n ltac:(lia)) as [m Hm]. unfold FloatMatrix, SparseMatrix in *; rewrite (Hnf n m Hm).
    rewrite multiplyAdd_untouched.
    - apply IH; [lia|]. intros i m' comp Hm' Hi Hc Hlt. apply (Hno i m' comp Hm' Hi Hc). lia.
    - destruct (UnitOp.hasInlet m) eqn:Hi; [|constructor].
      apply Forall_forall. intros e He. apply list_elem_of_fmap in He as (comp & -> & Hcomp).
      apply elem_of_seq in Hcomp. simpl. intros Heq.
      apply (Hno n m comp Hm Hi ltac:(lia) ltac:(lia)). unfold inletDof. symmetry. exact Heq. }
  split; [|split].
  - unfold inboundRowsInsideUnits. intros i Hi.
    destruct (lookup_lt_is_Some_2 models i Hi) as [m Hm].
    unfold FloatMatrix, SparseMatrix in *; rewrite (Hnf i m Hm). destruct (UnitOp.hasInlet m) eqn:Him; [|constructor].
    apply Forall_forall. intros e He. apply list_elem_of_fmap in He as (comp & -> & Hcomp).
    apply elem_of_seq in Hcomp. simpl.
    pose proof (Hinside i m comp Hm Him ltac:(lia)) as Hlt. unfold inletDof in Hlt.
    fold finalOffset. lia.
  - intros i m comp k Hm Hk.
    apply couplingIdxMap_lookup in Hk as (u & Hu & Hiu & Hc & ->).
    assert (u = m) as -> by congruence.
    pose proof (Hinside i m comp Hm Hiu Hc) as Hp.
    subst res'. unfold residualConnectUnitOps. fold finalOffset.
    rewrite outbound_loop_below by exact Hp.
    unfold FloatMatrix, SparseMatrix in *.
    fold (loop (length models) (copyCoupling finalOffset
                                  (numCouplingDOF (_couplingIdxMap lay)) y res)).
    rewrite <- (copyCoupling_below (numCouplingDOF (_couplingIdxMap lay)) finalOffset y res
                  (inletDof i m comp) Hp).
    generalize (copyCoupling finalOffset (numCouplingDOF (_couplingIdxMap lay)) y res).
    intros r0.
    (* of all units and components, only [(i, comp)] is the DOF *)
    assert (Hdist : forall i' m' comp', models !! i' = Some m' -> UnitOp.hasInlet m' = true ->
              (comp' < UnitOp.numComponents m')%nat ->
              inletDof i m comp = inletDof i' m' comp' -> i = i' /\ comp = comp').
    { intros i' m' comp' Hm' Hi' Hc'. unfold inletDof.
      rewrite (Hoffi i m Hm), (Hoffi i' m' Hm'). intros Heq.
      apply (inletDofs_distinct models i i' m m' comp comp' Hin Hm Hiu Hc Hm' Hi' Hc'). lia. }
    assert (Hfold : forall n, (n <= length models)%nat ->
              loop n r0 (inletDof i m comp)
              = if decide (i < n)%nat
                then (r0 (inletDof i m comp)
                      + (-1) * y (finalOffset
                                  + (inletComponents (take i models) + comp))%nat)%float
                else r0 (inletDof i m comp)).
    { induction n as [|n IHn]; intros Hn.
      - destruct (decide (i < 0)%nat); [lia | reflexivity].
      - unfold loop. rewrite seq_S, fold_left_app. simpl. fold (loop n r0).
        destruct (lookup_lt_is_Some_2 models n ltac:(lia)) as [m' Hm'].
        unfold FloatMatrix, SparseMatrix in *; rewrite (Hnf n m' Hm'). specialize (IHn ltac:(lia)).
        destruct (decide (n = i)) as [->|Hne].
        + assert (m' = m) as -> by congruence. rewrite Hiu.
          destruct (decide (i < i)%nat); [lia|].
          destruct (decide (i < S i)%nat); [|lia].
          destruct (proj1 (Forall_forall _ _) Hin m (list_elem_of_lookup_2 _ _ _ Hm) Hiu)
            as [_ Hs].
          unfold inletDof at 1.
          rewrite (inbound_unit_row _ _ _ _ _ _ _ _ comp Hc Hs).
          fold (inletDof i m comp). rewrite IHn. reflexivity.
        + rewrite multiplyAdd_untouched.
          * rewrite IHn. destruct (decide (i < n)%nat); destruct (decide (i < S n)%nat);
              try reflexivity; lia.
          * destruct (UnitOp.hasInlet m') eqn:Hi'; [|constructor].
            apply Forall_forall. intros e He.
            apply list_elem_of_fmap in He as (comp' & -> & Hcomp).
            apply elem_of_seq in Hcomp. simpl. intros Heq.
            destruct (Hdist n m' comp' Hm' Hi' ltac:(lia)) as [E _]; [|lia].
            unfold inletDof at 2. symmetry. exact Heq. }
    rewrite (Hfold (length models) (Nat.le_refl _)).
    destruct (decide (i < length models)%nat) as [_|Hge];
      [reflexivity | apply lookup_lt_Some in Hm; lia].
  - intros p Hp Hno. subst res'. unfold residualConnectUnitOps. fold finalOffset.
    rewrite outbound_loop_below by exact Hp.
    unfold FloatMatrix, SparseMatrix in *.
    fold (loop (length models) (copyCoupling finalOffset
                                  (numCouplingDOF (_couplingIdxMap lay)) y res)).
    rewrite Hother; [apply copyCoupling_below; exact Hp | lia |].
    intros i m comp Hm Hi Hc _. apply (Hno i m comp Hm Hi Hc).
Qed.

(** A source with two components feeding a unit with an inlet: the
    residual of each inlet DOF of the unit gets the opposite of its
    coupling DOF added, and the residual of the last DOF of the unit is
    kept. *)
Lemma residual_inlet_rows_witness :
  let source := UnitOp.Build 0 2 2 false true false 0 1 0 1 in
  let sink := UnitOp.Build 1 2 3 true false false 0 1 0 1 in
  let models := [source; sink] in
  let jacFN : list FloatMatrix := [[(0%nat, 0%nat, (-1)%float); (1%nat, 1%nat, (-1)%float)]; []] in
  let y (i : nat) : float := nth i [3; 4; 0; 0; 9; 5; 6]%float 0%float in
  let res (i : nat) : float := nth i [1; 1; 7; 8; 2; 0; 0]%float 0%float in
  let lay := rebuildInternalDataStructures models [] in
  let res' := residualConnectUnitOps PrimFloat.add PrimFloat.mul (_dofOffset lay)
                (numCouplingDOF (_couplingIdxMap lay)) (length models)
                (assembleNF models 0) jacFN y res in
  Forall inletDofsInside models
  /\ res' 2%nat = (res 2%nat + (-1) * y 5%nat)%float
  /\ res' 3%nat = (res 3%nat + (-1) * y 6%nat)%float
  /\ res' 4%nat = res 4%nat.
Proof.
  intros source sink models jacFN y res lay res'.
  assert (Hin : Forall inletDofsInside models).
  { apply Forall_cons. split; [intros H; discriminate|].
    apply Forall_cons. split; [|constructor].
    intros _. split; [intros comp Hc; simpl in *; lia | intros _; simpl; lia]. }
  destruct (residual_inlet_rows models [] jacFN y res Hin) as (_ & Hrow & Hother).
  split; [exact Hin|]. split; [|split].
  - apply (Hrow 1%nat sink 0%nat 0%nat eq_refl). vm_compute. reflexivity.
  - apply (Hrow 1%nat sink 1%nat 1%nat eq_refl). vm_compute. reflexivity.
  - apply (Hother 4%nat).
    + vm_compute. reflexivity.
    + intros i m comp Hm Hi Hc. destruct i as [|[|i]]; simpl in Hm; try discriminate.
      * injection Hm as <-. discriminate.
      * injection Hm as <-. simpl in Hc. vm_compute. destruct comp as [|[|comp]]; lia.
Defined.

(** ** Parameters of the system *)

(** Where the parameter of a connection points to. *)
Lemma configureSwitches_parameter_place (models : list IUnitOperation)
    (switches : list SwitchInput) (cfg : SwitchConfig) (src dst : Z) (i : nat)
    (ptr : nat * nat) :
  configureSwitches models switches ∅ = Ok cfg ->
  _parameters cfg !! (src, dst, i) = Some ptr ->
  exists conn fr k,
    ptr = (i, k) /\ _connections cfg !! i = Some conn /\ firstRowOf conn src dst = Some k
    /\ _flowRates cfg !! i = Some fr /\ (k < length fr)%nat.
Proof.
  intros H Hptr. pose proof H as H0. revert H0.
  unfold configureSwitches, mbind at 1, outcome_bind. intros H0.
  destruct (configureSwitchLoop models 0 switches (BuildSwitchConfig [] [] [] ∅))
    as [cfg0| |] eqn:El; try discriminate.
  assert (cfg0 = cfg) as ->.
  { destruct (_switchSectionIndex cfg0) as [|first rest]; [discriminate|].
    destruct (negb (first =? 0)); [discriminate | congruence]. }
  clear H0.
  destruct (configureSwitchLoop_results _ _ _ _ _ El) as (results & _ & Hc & _ & _ & Hpar).
  simpl in Hc, Hpar.
  rewrite Hpar in Hptr.
  destruct (decide (0 <= i)%nat); [|lia]. rewrite Nat.sub_0_r in Hptr.
  destruct (results !! i) as [[conn fr0]|] eqn:Eres; simpl in Hptr;
    [|rewrite lookup_empty in Hptr; discriminate].
  destruct (firstRowOf conn src dst) as [k|] eqn:Ek; simpl in Hptr;
    [|rewrite lookup_empty in Hptr; discriminate].
  injection Hptr as <-.
  assert (Hconn : _connections cfg !! i = Some conn).
  { rewrite Hc, list_lookup_fmap, Eres. reflexivity. }
  destruct (configureSwitches_rows models switches ∅ cfg i conn H Hconn)
    as (_ & (fr & Hfr & Hlen) & _).
  exists conn, fr, k. split; [reflexivity|]. split; [exact Hconn|]. split; [exact Ek|].
  split; [exact Hfr|]. rewrite Hlen. eapply firstRowOf_lt. exact Ek.
Qed.

(** Two parameters do not point to the same flow rate. *)
Lemma configureSwitches_parameter_places_differ (models : list IUnitOperation)
    (switches : list SwitchInput) (cfg : SwitchConfig) (key key' : Z * Z * nat)
    (ptr : nat * nat) :
  configureSwitches models switches ∅ = Ok cfg ->
  _parameters cfg !! key = Some ptr -> _parameters cfg !! key' = Some ptr -> key = key'.
Proof.
  destruct key as [[src dst] i], key' as [[src' dst'] i']. intros H Hk Hk'.
  destruct (configureSwitches_parameter_place _ _ _ _ _ _ _ H Hk)
    as (conn & fr & k & -> & Hconn & Hfirst & _).
  destruct (configureSwitches_parameter_place _ _ _ _ _ _ _ H Hk')
    as (conn' & fr' & k' & E & Hconn' & Hfirst' & _).
  injection E as <- <-. assert (conn' = conn) as -> by congruence.
  destruct (firstRowOf_Some _ _ _ _ Hfirst) as (r & Hr & <- & <- & _).
  destruct (firstRowOf_Some _ _ _ _ Hfirst') as (r' & Hr' & <- & <- & _).
  assert (r' = r) as -> by congruence. reflexivity.
Qed.

Lemma concat_same_lengths (l l' : list (list float)) :
  Forall2 (fun a b => length a = length b) l l' ->
  length (concat l) = length (concat l').
Proof.
  induction 1 as [|a b l l' Hab _ IH]; [reflexivity|]. simpl. rewrite !length_app. lia.
Qed.

Lemma pointsIntoFlowRates_same_lengths (capacity : nat) (grow : nat -> nat)
    (cfg : SwitchConfig) (flowRates : list (list float)) (ptr : nat * nat) :
  Forall2 (fun a b => length a = length b) flowRates (_flowRates cfg) ->
  pointsIntoFlowRates capacity grow (withFlowRates cfg flowRates) ptr
  = pointsIntoFlowRates capacity grow cfg ptr.
Proof.
  intros H. unfold pointsIntoFlowRates, parameterAddress, flowRatesBuffer, sliceStart.
  cbn [fst snd withFlowRates _flowRates].
  rewrite (concat_same_lengths _ _ H).
  rewrite (concat_same_lengths (take ptr.1 flowRates) (take ptr.1 (_flowRates cfg)))
    by (apply Forall2_take; exact H).
  reflexivity.
Qed.

(** X14: after [configureSwitches] has run with [_parameters] cleared,
    the registered flow-rate parameters are, for each switch, exactly the
    connections (source index, destination index) of its connection list,
    and the pointer of a connection was read at the first row of the
    connection. While all flow rates fit into what [reserve] has asked
    for, [length switches * length models ^ 2], the pointer points into
    [_flowRates] and the parameter reads the flow rate of that row. When
    there are more flow rates than [_flowRates] could hold after
    [reserve], every pointer that was read before the vector was full
    dangles, and reading the parameter is undefined. *)
Theorem configureSwitches_parameters (capacity : nat) (grow : nat -> nat)
    (models : list IUnitOperation) (switches : list SwitchInput) (cfg : SwitchConfig)
    (src dst : Z) (i : nat) :
  configureSwitches models switches ∅ = Ok cfg ->
  (length switches * (length models * length models) <= capacity)%nat ->
  _parameters cfg !! (src, dst, i)
  = (conn ← _connections cfg !! i; k ← firstRowOf conn src dst; Some (i, k))
  /\ (is_Some (_parameters cfg !! (src, dst, i))
      <-> exists conn r, _connections cfg !! i = Some conn /\ r ∈ conn
                         /\ uoSource r = src /\ uoDest r = dst)
  /\ (forall ptr, _parameters cfg !! (src, dst, i) = Some ptr ->
        ((length (concat (_flowRates cfg))
          <= length switches * (length models * length models))%nat ->
         exists slice fr,
           _flowRates cfg !! ptr.1 = Some slice /\ slice !! ptr.2 = Some fr
           /\ parameterValue capacity grow cfg (src, dst, i) = Ok (Some fr))
        /\ ((sliceStart cfg ptr.1 + ptr.2 < capacity)%nat ->
            (capacity < length (concat (_flowRates cfg)))%nat ->
            parameterValue capacity grow cfg (src, dst, i) = Undefined)).
Proof.
  intros H Hcap.
  assert (Hkey : _parameters cfg !! (src, dst, i)
                 = (conn ← _connections cfg !! i; k ← firstRowOf conn src dst; Some (i, k))).
  { destruct (_parameters cfg !! (src, dst, i)) as [ptr|] eqn:Hptr.
    - destruct (configureSwitches_parameter_place _ _ _ _ _ _ _ H Hptr)
        as (conn & fr & k & -> & Hconn & Hfirst & _).
      rewrite Hconn. simpl. rewrite Hfirst. reflexivity.
    - destruct (_connections cfg !! i) as [conn|] eqn:Hconn; [|reflexivity]. simpl.
      destruct (firstRowOf conn src dst) as [k|] eqn:Hfirst; [|reflexivity]. exfalso.
      pose proof H as H0. revert H0.
      unfold configureSwitches, mbind at 1, outcome_bind. intros H0.
      destruct (configureSwitchLoop models 0 switches (BuildSwitchConfig [] [] [] ∅))
        as [cfg0| |] eqn:El; try discriminate.
      assert (cfg0 = cfg) as ->.
      { destruct (_switchSectionIndex cfg0) as [|first rest]; [discriminate|].
        destruct (negb (first =? 0)); [discriminate | congruence]. }
      destruct (configureSwitchLoop_results _ _ _ _ _ El) as (results & _ & Hc & _ & _ & Hpar).
      simpl in Hc, Hpar. rewrite Hpar in Hptr. rewrite Hc, list_lookup_fmap in Hconn.
      destruct (decide (0 <= i)%nat); [|lia]. rewrite Nat.sub_0_r in Hptr.
      destruct (results !! i) as [[conn' fr']|]; [|discriminate]. simpl in Hconn.
      injection Hconn as ->. simpl in Hptr. rewrite Hfirst in Hptr. discriminate. }
  split; [exact Hkey|]. split; [split|].
  - rewrite Hkey. intros [ptr Hptr].
    destruct (_connections cfg !! i) as [conn|]; simpl in Hptr; [|discriminate].
    destruct (firstRowOf conn src dst) as [k|] eqn:Ek; simpl in Hptr; [|discriminate].
    destruct (firstRowOf_Some _ _ _ _ Ek) as (r & Hr & Hs & Hd & _).
    exists conn, r. split; [reflexivity|].
    split; [eapply list_elem_of_lookup_2; exact Hr|]. split; [exact Hs | exact Hd].
  - intros (conn & r & Hconn & Hin & <- & <-). rewrite Hkey, Hconn. simpl.
    destruct (firstRowOf_elem conn r Hin) as [k Hk]. rewrite Hk. eexists; reflexivity.
  - intros ptr Hptr.
    destruct (configureSwitches_parameter_place _ _ _ _ _ _ _ H Hptr)
      as (conn & slice & k & -> & Hconn & Hfirst & Hslice & Hk).
    cbn [fst snd]. split.
    + intros Hfit. destruct (lookup_lt_is_Some_2 slice k Hk) as [fr Hfr].
      exists slice, fr. split; [exact Hslice|]. split; [exact Hfr|].
      unfold parameterValue. rewrite Hptr.
      rewrite (pointsIntoFlowRates_within capacity grow cfg i k slice ltac:(lia) Hslice Hk).
      cbn [fst snd]. rewrite Hslice. simpl. rewrite Hfr. reflexivity.
    + intros Hpos Hmore. unfold parameterValue. rewrite Hptr.
      rewrite (pointsIntoFlowRates_beyond capacity grow cfg i k Hpos Hmore). reflexivity.
Qed.

(** Two units with two components and the connection given by two rows:
    [reserve] asks for four flow rates, the parameter of the connection
    reads the flow rate of the first row. Two units with five components
    and the connection given by five rows: the fifth flow rate moves the
    vector, and the pointer of the parameter, read at the first row,
    dangles. *)
Lemma configureSwitches_parameters_witness :
  let source := UnitOp.Build 0 2 2 false true false 0 1 0 1 in
  let sink := UnitOp.Build 1 2 2 true false false 0 1 0 1 in
  let switches := [BuildSwitchInput 0 [0; 1; 0; 0; 1;  0; 1; 1; 1; 1]%float] in
  let source5 := UnitOp.Build 0 5 5 false true false 0 1 0 1 in
  let sink5 := UnitOp.Build 1 5 5 true false false 0 1 0 1 in
  let switches5 :=
    [BuildSwitchInput 0 [0; 1; 0; 0; 1;  0; 1; 1; 1; 1;  0; 1; 2; 2; 1;  0; 1; 3; 3; 1;
                         0; 1; 4; 4; 1]%float] in
  let grow := fun size => (2 * size)%nat in
  exists cfg cfg5,
    configureSwitches [source; sink] switches ∅ = Ok cfg
    /\ _parameters cfg !! (0, 1, 0%nat) = Some (0%nat, 0%nat)
    /\ parameterValue 4 grow cfg (0, 1, 0%nat) = Ok (Some 1%float)
    /\ configureSwitches [source5; sink5] switches5 ∅ = Ok cfg5
    /\ _parameters cfg5 !! (0, 1, 0%nat) = Some (0%nat, 0%nat)
    /\ length (concat (_flowRates cfg5)) = 5%nat
    /\ parameterValue 4 grow cfg5 (0, 1, 0%nat) = Undefined.
Proof.
  intros source sink switches source5 sink5 switches5 grow.
  destruct (configureSwitches [source; sink] switches ∅) as [cfg| |] eqn:E;
    [|vm_compute in E; discriminate..].
  destruct (configureSwitches [source5; sink5] switches5 ∅) as [cfg5| |] eqn:E5;
    [|vm_compute in E5; discriminate..].
  exists cfg, cfg5. split; [reflexivity|].
  destruct (configureSwitches_parameters 4 grow [source; sink] switches cfg 0 1 0 E
              ltac:(simpl; lia)) as (H1 & _ & H3).
  destruct (configureSwitches_parameters 4 grow [source5; sink5] switches5 cfg5 0 1 0 E5
              ltac:(simpl; lia)) as (G1 & _ & G3).
  assert (Hk : _parameters cfg !! (0, 1, 0%nat) = Some (0%nat, 0%nat)).
  { rewrite H1. vm_compute in E. injection E as <-. reflexivity. }
  assert (Gk : _parameters cfg5 !! (0, 1, 0%nat) = Some (0%nat, 0%nat)).
  { rewrite G1. vm_compute in E5. injection E5 as <-. reflexivity. }
  assert (Hfr : _flowRates cfg = [[1; 1]%float]).
  { vm_compute in E. injection E as <-. reflexivity. }
  assert (Gfr : _flowRates cfg5 = [[1; 1; 1; 1; 1]%float]).
  { vm_compute in E5. injection E5 as <-. reflexivity. }
  split; [exact Hk|]. split.
  { destruct (proj1 (H3 _ Hk)) as (slice & fr & Hs & Hf & Hv); [rewrite Hfr; simpl; lia|].
    rewrite Hv. rewrite Hfr in Hs. simpl in Hs. injection Hs as <-. simpl in Hf.
    injection Hf as <-. reflexivity. }
  split; [reflexivity|]. split; [exact Gk|]. split; [rewrite Gfr; reflexivity|].
  apply (proj2 (G3 _ Gk)).
  - unfold sliceStart. simpl. lia.
  - rewrite Gfr. simpl. lia.
Defined.

(** Writing through the pointer of a parameter that points into
    [_flowRates]: the parameter reads the new value, every other
    parameter its old one. *)
Lemma setValue_parameter (capacity : nat) (grow : nat -> nat)
    (models : list IUnitOperation) (switches : list SwitchInput)
    (cfg : SwitchConfig) (key : Z * Z * nat) (ptr : nat * nat) (value : float) :
  configureSwitches models switches ∅ = Ok cfg ->
  (length (concat (_flowRates cfg)) <= capacity)%nat ->
  _parameters cfg !! key = Some ptr ->
  exists flowRates,
    setValue capacity grow cfg ptr value = Ok flowRates
    /\ parameterValue capacity grow (withFlowRates cfg flowRates) key = Ok (Some value)
    /\ (forall key', key' <> key ->
          parameterValue capacity grow (withFlowRates cfg flowRates) key'
          = parameterValue capacity grow cfg key')
    /\ Forall2 (fun a b => length a = length b) flowRates (_flowRates cfg).
Proof.
  intros H Hfit Hptr. destruct key as [[src dst] i].
  destruct (configureSwitches_parameter_place _ _ _ _ _ _ _ H Hptr)
    as (conn & fr & k & -> & Hconn & Hfirst & Hfr & Hk).
  pose proof (lookup_lt_Some _ _ _ Hfr) as Hi.
  pose proof (pointsIntoFlowRates_within capacity grow cfg i k fr Hfit Hfr Hk) as Hvalid.
  assert (Hlen : Forall2 (fun a b => length a = length b)
                   (<[i := <[k := value]> fr]> (_flowRates cfg)) (_flowRates cfg)).
  { apply Forall2_lookup. intros j. destruct (decide (i = j)) as [<-|Hj].
    - rewrite list_lookup_insert_eq by exact Hi. rewrite Hfr. constructor.
      apply length_insert.
    - rewrite list_lookup_insert_ne by exact Hj.
      destruct (_flowRates cfg !! j); constructor. reflexivity. }
  exists (<[i := <[k := value]> fr]> (_flowRates cfg)).
  split; [|split; [|split]].
  - unfold setValue. rewrite Hvalid. cbn [fst snd]. rewrite Hfr.
    destruct (Nat.ltb_spec k (length fr)); [reflexivity | lia].
  - unfold parameterValue. cbn [withFlowRates _parameters]. rewrite Hptr.
    rewrite (pointsIntoFlowRates_same_lengths _ _ _ _ _ Hlen), Hvalid.
    cbn [fst snd withFlowRates _flowRates].
    rewrite list_lookup_insert_eq by exact Hi. simpl.
    rewrite list_lookup_insert_eq by exact Hk. reflexivity.
  - intros key' Hne. unfold parameterValue. cbn [withFlowRates _parameters].
    destruct (_parameters cfg !! key') as [[i' k']|] eqn:Hptr'; [|reflexivity].
    rewrite (pointsIntoFlowRates_same_lengths _ _ _ _ _ Hlen).
    destruct (pointsIntoFlowRates capacity grow cfg (i', k')); [|reflexivity].
    cbn [fst snd withFlowRates _flowRates].
    destruct (decide (i' = i)) as [->|Hi'].
    + rewrite list_lookup_insert_eq by exact Hi. rewrite Hfr. simpl.
      rewrite list_lookup_insert_ne; [reflexivity|]. intros ->. apply Hne.
      eapply configureSwitches_parameter_places_differ; eassumption.
    + rewrite list_lookup_insert_ne by congruence. reflexivity.
  - exact Hlen.
Qed.

(** X27: [setParameter] with a double on the parameter of a connection,
    after [configureSwitches], while all flow rates fit into what
    [reserve] has asked for: the call is defined and returns [true]
    whatever the units answer; the parameter then reads the value given,
    every other parameter of the system reads what it read before; the
    connections, the sections and the registered parameters are kept,
    and the flow rates keep their sizes. *)
Theorem flow_rate_parameter_round_trip (flowHash : Z) (UnitOpIndep : nat) (CompIndep : Z)
    (unitSetParameter : IUnitOperation -> ParameterId -> bool)
    (capacity : nat) (grow : nat -> nat)
    (models : list IUnitOperation) (switches : list SwitchInput) (cfg : SwitchConfig)
    (src dst : Z) (i : nat) (value : float) :
  let pId := makeParamId flowHash UnitOpIndep CompIndep src dst i in
  configureSwitches models switches ∅ = Ok cfg ->
  (length switches * (length models * length models) <= capacity)%nat ->
  (length (concat (_flowRates cfg)) <= length switches * (length models * length models))%nat ->
  is_Some (_parameters cfg !! (src, dst, i)) ->
  exists cfg',
    setParameter flowHash UnitOpIndep CompIndep unitSetParameter capacity grow models cfg pId value
    = Ok (cfg', true)
    /\ parameterValue capacity grow cfg' (src, dst, i) = Ok (Some value)
    /\ (forall key, key <> (src, dst, i) ->
          parameterValue capacity grow cfg' key = parameterValue capacity grow cfg key)
    /\ _parameters cfg' = _parameters cfg
    /\ _connections cfg' = _connections cfg
    /\ _switchSectionIndex cfg' = _switchSectionIndex cfg
    /\ Forall2 (fun a b => length a = length b) (_flowRates cfg') (_flowRates cfg).
Proof.
  intros pId H Hcap Hfit [ptr Hptr].
  destruct (setValue_parameter capacity grow models switches cfg _ ptr value H ltac:(lia) Hptr)
    as (flowRates & Hset & Hval & Hframe & Hlen).
  exists (withFlowRates cfg flowRates). split; [|repeat split; assumption].
  unfold setParameter, findParameter. simpl.
  rewrite Z.eqb_refl, Nat.eqb_refl, Z.eqb_refl. simpl. rewrite Hptr, Hset. simpl.
  rewrite orb_true_r. reflexivity.
Qed.

(** Of two connections of a switch, the flow rate of one is set to
    [2.5]; the other keeps its flow rate. *)
Lemma flow_rate_parameter_round_trip_witness :
  let source := UnitOp.Build 0 1 1 false true false 0 1 0 1 in
  let middle := UnitOp.Build 1 1 2 true true false 0 1 1 1 in
  let sink := UnitOp.Build 2 1 1 true false false 0 1 0 1 in
  let models := [source; middle; sink] in
  let switches := [BuildSwitchInput 0 [0; 1; -1; -1; 1;  1; 2; -1; -1; 1]%float] in
  let grow := fun size => (2 * size)%nat in
  exists cfg cfg',
    configureSwitches models switches ∅ = Ok cfg
    /\ setParameter 7 255%nat (-1) (fun _ _ => false) 9 grow models cfg
         (makeParamId 7 255%nat (-1) 0 1 0%nat) 2.5%float = Ok (cfg', true)
    /\ parameterValue 9 grow cfg' (0, 1, 0%nat) = Ok (Some 2.5%float)
    /\ parameterValue 9 grow cfg' (1, 2, 0%nat) = parameterValue 9 grow cfg (1, 2, 0%nat).
Proof.
  intros source middle sink models switches grow.
  destruct (configureSwitches models switches ∅) as [cfg| |] eqn:E;
    [|vm_compute in E; discriminate|vm_compute in E; discriminate].
  assert (Hsome : is_Some (_parameters cfg !! (0, 1, 0%nat))).
  { vm_compute in E. injection E as <-. vm_compute. eexists; reflexivity. }
  assert (Hfit : (length (concat (_flowRates cfg)) <= 9)%nat).
  { vm_compute in E. injection E as <-. simpl. lia. }
  destruct (flow_rate_parameter_round_trip 7 255%nat (-1) (fun _ _ => false) 9 grow
              models switches cfg 0 1 0%nat 2.5%float E ltac:(simpl; lia) Hfit Hsome)
    as (cfg' & Hset & Hval & Hframe & _).
  exists cfg, cfg'. split; [reflexivity|]. split; [exact Hset|]. split; [exact Hval|].
  apply Hframe. discriminate.
Defined.

Section ParameterDispatch.
Context (flowHash : Z) (UnitOpIndep : nat) (CompIndep : Z).
Context (unitHasParameter unitSetParameter : IUnitOperation -> ParameterId -> bool).
Context (capacity : nat) (grow : nat -> nat).

Lemma findParameter_independent (cfg : SwitchConfig) (pId : ParameterId) :
  unitOperation pId <> UnitOpIndep ->
  findParameter flowHash UnitOpIndep CompIndep cfg pId = None.
Proof.
  intros Hne. unfold findParameter.
  destruct (Nat.eqb_spec (unitOperation pId) UnitOpIndep) as [E|_]; [contradiction|].
  rewrite andb_false_r. reflexivity.
Qed.

Lemma hasParameter_spec (models : list IUnitOperation) (cfg : SwitchConfig)
    (pId : ParameterId) :
  hasParameter flowHash UnitOpIndep CompIndep unitHasParameter models cfg pId = true
  <-> (exists m, m ∈ models /\ addressed UnitOpIndep pId m = true
                 /\ unitHasParameter m pId = true)
      \/ is_Some (findParameter flowHash UnitOpIndep CompIndep cfg pId).
Proof.
  unfold hasParameter. induction models as [|m rest IH].
  - rewrite bool_decide_eq_true. split; [intros H; right; exact H|].
    intros [(m & Hin & _)|H]; [inversion Hin | exact H].
  - destruct (addressed UnitOpIndep pId m) eqn:Ea.
    + destruct (unitHasParameter m pId) eqn:Eh.
      * split; [|reflexivity]. intros _. left. exists m.
        split; [apply elem_of_cons; left; reflexivity|]. split; assumption.
      * rewrite IH. split.
        -- intros [(m' & Hin & Ha & Hh)|H]; [left|right; exact H].
           exists m'. split; [apply elem_of_cons; right; exact Hin|]. split; assumption.
        -- intros [(m' & Hin & Ha & Hh)|H]; [|right; exact H].
           apply elem_of_cons in Hin as [->|Hin]; [congruence|].
           left. exists m'. split; [exact Hin|]. split; assumption.
    + rewrite IH. split.
      * intros [(m' & Hin & Ha & Hh)|H]; [left|right; exact H].
        exists m'. split; [apply elem_of_cons; right; exact Hin|]. split; assumption.
      * intros [(m' & Hin & Ha & Hh)|H]; [|right; exact H].
        apply elem_of_cons in Hin as [->|Hin]; [congruence|].
        left. exists m'. split; [exact Hin|]. split; assumption.
Qed.

(** The unit [setParameterImpl] returns from. *)
Lemma setParameterImpl_first (models : list IUnitOperation) (pId : ParameterId) :
  setParameterImpl UnitOpIndep unitSetParameter models pId = true ->
  exists m, m ∈ models /\ addressed UnitOpIndep pId m = true /\ unitSetParameter m pId = true.
Proof.
  induction models as [|m rest IH]; simpl; [discriminate|].
  destruct (addressed UnitOpIndep pId m) eqn:Ea.
  - intros H. exists m. split; [apply elem_of_cons; left; reflexivity|]. split; assumption.
  - intros H. destruct (IH H) as (m' & Hin & Ha & Hs). exists m'.
    split; [apply elem_of_cons; right; exact Hin|]. split; assumption.
Qed.

Lemma setParameterImpl_unit (models : list IUnitOperation) (pId : ParameterId) :
  unitOperation pId <> UnitOpIndep ->
  setParameterImpl UnitOpIndep unitSetParameter models pId
  = match getUnitOperationModel models (unitOperation pId) with
    | Some m => unitSetParameter m pId
    | None => false
    end.
Proof.
  intros Hne. induction models as [|m rest IH]; simpl; [reflexivity|].
  unfold addressed. destruct (Nat.eqb_spec (unitOperation pId) UnitOpIndep); [contradiction|].
  rewrite orb_false_r.
  destruct (UnitOp.unitOperationId m =? unitOperation pId)%nat; [reflexivity | exact IH].
Qed.

(** X28: how [setParameter] with a double and [hasParameter] go
    together, for units whose [setParameter] returns what their
    [hasParameter] returns. If [setParameter] returns [true], so does
    [hasParameter]. For the id of a unit operation (not [UnitOpIndep])
    and unique unit-operation ids, [setParameter] leaves the system as
    it is and returns what [hasParameter] returns, which is the answer
    of the unit [getUnitOperationModel] finds. With [UnitOpIndep],
    [setParameter] asks the first unit only: it returns the answer of
    that unit, or [true] if the system has the parameter itself. *)
Theorem setParameter_and_hasParameter (models : list IUnitOperation) (cfg cfg' : SwitchConfig)
    (pId : ParameterId) (value : float) (found : bool) :
  (forall m, m ∈ models -> unitSetParameter m pId = unitHasParameter m pId) ->
  setParameter flowHash UnitOpIndep CompIndep unitSetParameter capacity grow models cfg pId
    value
  = Ok (cfg', found) ->
  (found = true ->
   hasParameter flowHash UnitOpIndep CompIndep unitHasParameter models cfg pId = true)
  /\ (unitOperation pId <> UnitOpIndep -> NoDup (map UnitOp.unitOperationId models) ->
      cfg' = cfg
      /\ found = hasParameter flowHash UnitOpIndep CompIndep unitHasParameter models cfg pId
      /\ found = match getUnitOperationModel models (unitOperation pId) with
                 | Some m => unitSetParameter m pId
                 | None => false
                 end)
  /\ (unitOperation pId = UnitOpIndep ->
      found = (match models with
               | m :: _ => unitSetParameter m pId
               | [] => false
               end
               || bool_decide (is_Some (findParameter flowHash UnitOpIndep CompIndep cfg pId)))).
Proof.
  intros Hunit Hset.
  assert (Hfound : found = setParameterImpl UnitOpIndep unitSetParameter models pId
                           || bool_decide (is_Some (findParameter flowHash UnitOpIndep
                                                      CompIndep cfg pId))).
  { unfold setParameter in Hset.
    destruct (findParameter flowHash UnitOpIndep CompIndep cfg pId) as [ptr|].
    - unfold mbind, outcome_bind in Hset.
      destruct (setValue capacity grow cfg ptr value); try discriminate.
      injection Hset as _ <-. rewrite bool_decide_eq_true_2 by (eexists; reflexivity).
      reflexivity.
    - injection Hset as _ <-. rewrite bool_decide_eq_false_2; [reflexivity|].
      intros [x Hx]. discriminate. }
  split; [|split].
  - intros ->. symmetry in Hfound. apply orb_true_iff in Hfound as [Hi|Hf].
    + apply hasParameter_spec. left.
      destruct (setParameterImpl_first models pId Hi) as (m & Hin & Ha & Hs).
      exists m. split; [exact Hin|]. split; [exact Ha|]. rewrite <- (Hunit m Hin). exact Hs.
    + apply hasParameter_spec. right. apply bool_decide_eq_true in Hf. exact Hf.
  - intros Hne Hdup. pose proof (findParameter_independent cfg pId Hne) as Hnone.
    split; [|split].
    + unfold setParameter in Hset. rewrite Hnone in Hset. congruence.
    + rewrite Hfound, Hnone. rewrite bool_decide_eq_false_2 by (intros [x Hx]; discriminate).
      rewrite orb_false_r. unfold hasParameter. rewrite Hnone.
      rewrite bool_decide_eq_false_2 by (intros [x Hx]; discriminate).
      clear Hset Hfound. induction models as [|m rest IH]; [reflexivity|]. simpl.
      destruct (addressed UnitOpIndep pId m) eqn:Ea.
      * rewrite (Hunit m ltac:(apply elem_of_cons; left; reflexivity)).
        destruct (unitHasParameter m pId); [reflexivity|].
        (* no later unit has the id *)
        apply NoDup_cons in Hdup as [Hnot _]. symmetry.
        unfold addressed in Ea.
        destruct (Nat.eqb_spec (unitOperation pId) UnitOpIndep); [contradiction|].
        rewrite orb_false_r in Ea. apply Nat.eqb_eq in Ea.
        assert (Hrest : Forall (fun m' => addressed UnitOpIndep pId m' = false) rest).
        { apply Forall_forall. intros m' Hin. unfold addressed.
          destruct (Nat.eqb_spec (unitOperation pId) UnitOpIndep); [contradiction|].
          rewrite orb_false_r. apply Nat.eqb_neq. intros E. apply Hnot.
          rewrite Ea, <- E. apply list_elem_of_fmap. exists m'. split; [reflexivity | exact Hin]. }
        clear -Hrest. induction rest as [|m' rest IH]; [reflexivity|].
        inversion Hrest as [|? ? Hm' Hrest']; subst. rewrite Hm'. apply IH. exact Hrest'.
      * apply IH; [|apply NoDup_cons in Hdup as [_ Hd]; exact Hd].
        intros m' Hin. apply Hunit. apply elem_of_cons. right. exact Hin.
    + rewrite Hfound, Hnone. rewrite bool_decide_eq_false_2 by (intros [x Hx]; discriminate).
      rewrite orb_false_r. apply setParameterImpl_unit. exact Hne.
  - intros Heq. rewrite Hfound. f_equal. destruct models as [|m rest]; [reflexivity|]. simpl.
    unfold addressed. rewrite Heq, Nat.eqb_refl, orb_true_r. reflexivity.
Qed.

End ParameterDispatch.

(** Two units that know the parameter [PAR] of unit operation 1 only in
    the second unit: [setParameter] finds it, and so does
    [hasParameter]. *)
Lemma setParameter_and_hasParameter_witness :
  let first := UnitOp.Build 0 1 1 false true false 0 1 0 1 in
  let second := UnitOp.Build 1 1 1 true false false 0 1 0 1 in
  let models := [first; second] in
  let knows (m : IUnitOperation) (pId : ParameterId) :=
    (UnitOp.unitOperationId m =? 1)%nat && (pName pId =? 3) in
  let cfg := BuildSwitchConfig [] [] [] ∅ in
  let pId := makeParamId 3 1%nat (-1) (-1) (-1) 0%nat in
  setParameter 7 255%nat (-1) knows 0 (fun size => S size) models cfg pId 2.5%float
  = Ok (cfg, true)
  /\ hasParameter 7 255%nat (-1) knows models cfg pId = true.
Proof.
  intros first second models knows cfg pId.
  assert (Hset : setParameter 7 255%nat (-1) knows 0 (fun size => S size) models cfg pId
                   2.5%float = Ok (cfg, true))
    by reflexivity.
  destruct (setParameter_and_hasParameter 7 255%nat (-1) knows knows 0 (fun size => S size)
              models cfg cfg pId
              2.5%float true (fun m _ => eq_refl) Hset) as (Hhas & _ & _).
  split; [exact Hset | exact (Hhas eq_refl)].
Defined.

(** ** Sensitive parameters of the system *)

Lemma setSensitive_found (pId : ParameterId) (UnitOpIndep : nat)
    (unitSetSensitiveParameter : IUnitOperation -> ParameterId -> bool)
    (models : list IUnitOperation) :
  fold_left (fun found m =>
               if addressed UnitOpIndep pId m then unitSetSensitiveParameter m pId || found
               else found)
            models true = true.
Proof.
  induction models as [|m rest IH]; [reflexivity|]. simpl.
  destruct (addressed UnitOpIndep pId m); [rewrite orb_true_r|]; exact IH.
Qed.

(** X29: the flow rate of a connection as a sensitive parameter, after
    [configureSwitches] and while all flow rates fit into what [reserve]
    has asked for. As long as no parameter is sensitive,
    [setSensitiveParameterValue] changes nothing, whatever the id.
    [setSensitiveParameter] with the id of the connection returns [true]
    whatever the units answer and makes the pointer of the parameter the
    one sensitive parameter of the system; [setSensitiveParameterValue]
    with this id then leaves the system as [setParameter] with a double
    does, and with any other id it still changes nothing;
    [clearSensParams] leaves no sensitive parameter. *)
Theorem sensitive_flow_rate_parameter (flowHash : Z) (UnitOpIndep : nat) (CompIndep : Z)
    (unitSetParameter unitSetSensitiveParameter : IUnitOperation -> ParameterId -> bool)
    (capacity : nat) (grow : nat -> nat)
    (models : list IUnitOperation) (switches : list SwitchInput) (cfg : SwitchConfig)
    (src dst : Z) (i : nat) (value : float) :
  let pId := makeParamId flowHash UnitOpIndep CompIndep src dst i in
  let setValueOf := setSensitiveParameterValue flowHash UnitOpIndep CompIndep capacity grow in
  configureSwitches models switches ∅ = Ok cfg ->
  (length switches * (length models * length models) <= capacity)%nat ->
  (length (concat (_flowRates cfg)) <= length switches * (length models * length models))%nat ->
  is_Some (_parameters cfg !! (src, dst, i)) ->
  (forall pId' v, setValueOf cfg ∅ pId' v = Ok cfg)
  /\ exists ptr cfg',
       _parameters cfg !! (src, dst, i) = Some ptr
       /\ setSensitiveParameter flowHash UnitOpIndep CompIndep unitSetSensitiveParameter
            capacity grow models cfg ∅ pId = Ok ({[ptr]}, true)
       /\ setValueOf cfg {[ptr]} pId value = Ok cfg'
       /\ setParameter flowHash UnitOpIndep CompIndep unitSetParameter capacity grow models cfg
            pId value = Ok (cfg', true)
       /\ (forall pId' v, pId' <> pId -> setValueOf cfg {[ptr]} pId' v = Ok cfg)
       /\ clearSensParams capacity grow cfg {[ptr]} = Ok ∅.
Proof.
  intros pId setValueOf H Hcap Hfit [ptr Hptr].
  assert (Hfind : findParameter flowHash UnitOpIndep CompIndep cfg pId = Some ptr).
  { unfold findParameter. simpl. rewrite Z.eqb_refl, Nat.eqb_refl, Z.eqb_refl. exact Hptr. }
  destruct (configureSwitches_parameter_place _ _ _ _ _ _ _ H Hptr)
    as (conn & fr & k & -> & Hconn & Hfirst & Hfr & Hk).
  pose proof (pointsIntoFlowRates_within capacity grow cfg i k fr ltac:(lia) Hfr Hk) as Hvalid.
  destruct (setValue_parameter capacity grow models switches cfg _ _ value H ltac:(lia) Hptr)
    as (flowRates & Hset & _).
  split.
  { intros pId' v. subst setValueOf. unfold setSensitiveParameterValue.
    destruct (unitOperation pId' =? UnitOpIndep)%nat; [|reflexivity].
    destruct (findParameter flowHash UnitOpIndep CompIndep cfg pId'); [|reflexivity].
    rewrite bool_decide_eq_false_2 by set_solver. reflexivity. }
  exists (i, k), (withFlowRates cfg flowRates). split; [exact Hptr|]. split; [|split; [|split; [|split]]].
  - unfold setSensitiveParameter. simpl unitOperation. rewrite Nat.eqb_refl, Hfind, Hvalid.
    unfold mbind, outcome_bind. cbn [fst snd]. rewrite setSensitive_found.
    rewrite union_empty_r_L. reflexivity.
  - subst setValueOf. unfold setSensitiveParameterValue. simpl unitOperation.
    rewrite Nat.eqb_refl, Hfind. rewrite bool_decide_eq_true_2 by set_solver.
    rewrite Hset. reflexivity.
  - unfold setParameter. rewrite Hfind, Hset. simpl. rewrite orb_true_r. reflexivity.
  - intros pId' v Hne. subst setValueOf. unfold setSensitiveParameterValue.
    destruct (unitOperation pId' =? UnitOpIndep)%nat eqn:Eu; [|reflexivity].
    destruct (findParameter flowHash UnitOpIndep CompIndep cfg pId') as [ptr'|] eqn:Ef;
      [|reflexivity].
    destruct (bool_decide_reflect (ptr' ∈ ({[(i, k)]} : gset (nat * nat)))) as [Hin|_];
      [|reflexivity].
    exfalso. apply Hne. apply elem_of_singleton in Hin. subst ptr'.
    unfold findParameter in Ef.
    destruct (pName pId' =? flowHash) eqn:E1; [|discriminate].
    destruct (pComponent pId' =? CompIndep) eqn:E3; [|rewrite andb_false_r in Ef; discriminate].
    simpl in Ef. rewrite Eu in Ef. simpl in Ef.
    apply Z.eqb_eq in E1, E3. apply Nat.eqb_eq in Eu.
    pose proof (configureSwitches_parameter_places_differ _ _ _ _ _ _ H Ef Hptr) as Hkey.
    injection Hkey as K1 K2 K3. subst pId. destruct pId'. simpl in *. congruence.
  - unfold clearSensParams. rewrite elements_singleton. simpl. rewrite Hvalid. reflexivity.
Qed.

(** The connection from the source to the sink is made sensitive: its
    flow rate is then set to [2.5]; the answer of the units plays no
    part. *)
Lemma sensitive_flow_rate_parameter_witness :
  let source := UnitOp.Build 0 1 1 false true false 0 1 0 1 in
  let sink := UnitOp.Build 1 1 1 true false false 0 1 0 1 in
  let models := [source; sink] in
  let switches := [BuildSwitchInput 0 [0; 1; -1; -1; 1]%float] in
  let grow := fun size => (2 * size)%nat in
  let pId := makeParamId 7 255%nat (-1) 0 1 0%nat in
  exists cfg cfg',
    configureSwitches models switches ∅ = Ok cfg
    /\ setSensitiveParameterValue 7 255%nat (-1) 4 grow cfg ∅ pId 2.5%float = Ok cfg
    /\ setSensitiveParameter 7 255%nat (-1) (fun _ _ => false) 4 grow models cfg ∅ pId
       = Ok ({[(0%nat, 0%nat)]}, true)
    /\ setSensitiveParameterValue 7 255%nat (-1) 4 grow cfg {[(0%nat, 0%nat)]} pId 2.5%float
       = Ok cfg'
    /\ _flowRates cfg' = [[2.5%float]].
Proof.
  intros source sink models switches grow pId.
  destruct (configureSwitches models switches ∅) as [cfg| |] eqn:E;
    [|vm_compute in E; discriminate|vm_compute in E; discriminate].
  assert (Hk : _parameters cfg !! (0, 1, 0%nat) = Some (0%nat, 0%nat)).
  { vm_compute in E. injection E as <-. reflexivity. }
  assert (Hfr : _flowRates cfg = [[1%float]]).
  { vm_compute in E. injection E as <-. reflexivity. }
  destruct (sensitive_flow_rate_parameter 7 255%nat (-1) (fun _ _ => false) (fun _ _ => false)
              4 grow models switches cfg 0 1 0%nat 2.5%float E ltac:(simpl; lia)
              ltac:(rewrite Hfr; simpl; lia) ltac:(rewrite Hk; eexists; reflexivity))
    as (Hnone & ptr & cfg' & Hptr & Hsens & Hval & _).
  rewrite Hk in Hptr. injection Hptr as <-.
  exists cfg, cfg'. split; [reflexivity|]. split; [apply Hnone|]. split; [exact Hsens|].
  split; [exact Hval|].
  vm_compute in E. injection E as <-. vm_compute in Hval. injection Hval as <-. reflexivity.
Defined.

(** ** Pointers of a recorder that outlive their vectors *)

Section RecorderTargets.
Import Recorder.

(** The own unit operation while a target is current whose vectors are
    there. *)
Lemma beginUnitOperation_target (e : Exporter) (r : t) (target : Target) (b0 : Buffers) :
  _cur r = Some target ->
  currentBuffers r target = Ok b0 ->
  readable (currentCfg r target) (_nComp r) e ->
  pushes (currentCfg r target) (_nComp r) = true ->
  exists b, beginUnitOperation (_unitOp r) e r = Ok (setCurrentBuffers r target b).
Proof.
  intros Hcur Hb0 (Ho & Hi & Hc & Hp & Hf) Hpush. unfold beginUnitOperation.
  rewrite Hcur, Nat.eqb_refl, Hpush, Hb0. cbn [negb].
  unfold mbind at 1, outcome_bind at 1.
  destruct (stridedPart (storeOutlet (currentCfg r target)) (outlet e) (outletStride e)
              (_nComp r) (bOutlet b0) Ho) as (o & Eo & _).
  destruct (stridedPart (storeInlet (currentCfg r target)) (inlet e) (inletStride e)
              (_nComp r) (bInlet b0) Hi) as (i & Ei & _).
  destruct (firstNPart (storeColumn (currentCfg r target)) (concentration e) (numColumnDofs e)
              (bColumn b0) Hc) as (c & Ec).
  destruct (firstNPart (storeParticle (currentCfg r target)) (mobilePhase e)
              (numParticleDofs e) (bParticle b0) Hp) as (p & Ep).
  destruct (firstNPart (storeFlux (currentCfg r target)) (flux e) (numFluxDofs e)
              (bFlux b0) Hf) as (f & Ef).
  rewrite Eo. unfold mbind at 1, outcome_bind at 1.
  rewrite Ei. unfold mbind at 1, outcome_bind at 1.
  rewrite Ec. unfold mbind at 1, outcome_bind at 1.
  rewrite Ep. unfold mbind at 1, outcome_bind at 1.
  rewrite Ef. unfold mbind at 1, outcome_bind at 1.
  exists (BuildBuffers o i c p f). reflexivity.
Qed.

Lemma clearVectors_length (l : list nat) :
  forall heap : list (option Buffers), length (fold_left clearVectors l heap) = length heap.
Proof.
  induction l as [|x l IH]; intros heap; [reflexivity|]. simpl. rewrite IH.
  apply length_alter.
Qed.

Lemma deleteVectors_stay_deleted (l : list nat) :
  forall (heap : list (option Buffers)) (vectors : nat),
  heap !! vectors = Some None -> fold_left deleteVectors l heap !! vectors = Some None.
Proof.
  induction l as [|x l IH]; intros heap vectors H; [exact H|]. simpl. apply IH.
  unfold deleteVectors. destruct (decide (x = vectors)) as [->|Hne].
  - apply list_lookup_insert_eq. eapply lookup_lt_Some. exact H.
  - rewrite list_lookup_insert_ne by exact Hne. exact H.
Qed.

Lemma deleteVectors_deleted (l : list nat) :
  forall (heap : list (option Buffers)) (vectors : nat),
  vectors ∈ l -> (vectors < length heap)%nat ->
  fold_left deleteVectors l heap !! vectors = Some None.
Proof.
  induction l as [|x l IH]; intros heap vectors Hin Hlt; [inversion Hin|]. simpl.
  destruct (decide (x = vectors)) as [->|Hne].
  - apply deleteVectors_stay_deleted. apply list_lookup_insert_eq. exact Hlt.
  - apply elem_of_cons in Hin as [->|Hin]; [contradiction|].
    apply IH; [exact Hin|]. unfold deleteVectors. rewrite length_insert. exact Hlt.
Qed.

(** X30: a sensitivity is begun on a recorder whose sensitivity storage
    is allocated, and the storage is allocated anew before the own unit
    operation reports. Without that, the data go into the vectors of the
    slot. After [prepare], the pointers of the target still point to the
    old vectors, which no slot holds any more: the call is defined, the
    data go there, and every vector of the sensitivity storage stays
    empty. After [notifyIntegrationStart] with another number of
    sensitivities the old vectors are deleted, and the call, which pushes
    through the pointers, is undefined. *)
Theorem stale_sensitivity_target (r : t) (param vectors : nat) (e : Exporter)
    (numDofs numSens numTimesteps : nat) :
  let r1 := withCur r (Some (Sensitivity vectors)) in
  slotsAllocated r ->
  _sens r !! param = Some vectors ->
  pushes (_cfgSensitivity r) (_nComp r) = true ->
  readable (_cfgSensitivity r) (_nComp r) e ->
  beginSensitivityIdx param r = Ok r1
  /\ (exists b, beginUnitOperation (_unitOp r) e r1
                = Ok (withHeap r1 (<[vectors := Some b]> (_heap r))))
  /\ (let r2 := prepare numDofs numSens numTimesteps r1 in
      exists r3,
        beginUnitOperation (_unitOp r) e r2 = Ok r3
        /\ _sens r3 = _sens r2 /\ _sensDot r3 = _sensDot r2
        /\ (vectors ∉ _sens r3 ++ _sensDot r3)
        /\ (forall x, x ∈ _sens r3 ++ _sensDot r3 -> vectorsAt (_heap r3) x = Ok noData)
        /\ _cur r3 = Some (Sensitivity vectors))
  /\ (numSens <> _numSens r ->
      beginUnitOperation (_unitOp r) e (notifyIntegrationStart numDofs numSens numTimesteps r1)
      = Undefined).
Proof.
  intros r1 (H1 & H2 & H3 & H4) Hslot Hpush Hread.
  destruct (H4 vectors) as [b0 Hb0].
  { apply elem_of_app. left. eapply list_elem_of_lookup_2. exact Hslot. }
  pose proof (proj1 (vectorsAt_Ok _ _ _) Hb0) as Hcell.
  pose proof (lookup_lt_Some _ _ _ Hcell) as Hlt.
  assert (Hin : vectors ∈ _sens r ++ _sensDot r).
  { apply elem_of_app. left. eapply list_elem_of_lookup_2. exact Hslot. }
  split; [unfold beginSensitivityIdx; rewrite Hslot; reflexivity|].
  split; [|split].
  - destruct (beginUnitOperation_target e r1 (Sensitivity vectors) b0) as [b Hb].
    + subst r1. destruct r; reflexivity.
    + subst r1. destruct r; exact Hb0.
    + subst r1. destruct r; exact Hread.
    + subst r1. destruct r; exact Hpush.
    + exists b. subst r1. destruct r. exact Hb.
  - intros r2.
    assert (Hheap2 : _heap r2 = _heap r ++ replicate (numSens + numSens) (Some noData))
      by (subst r2 r1; destruct r; reflexivity).
    assert (Hsens2 : _sens r2 ++ _sensDot r2 = seq (length (_heap r)) (numSens + numSens)).
    { subst r2 r1. destruct r. simpl. symmetry. apply seq_app. }
    destruct (beginUnitOperation_target e r2 (Sensitivity vectors) b0) as [b Hb].
    + subst r2 r1. destruct r; reflexivity.
    + cbn [currentBuffers]. rewrite Hheap2. apply vectorsAt_Ok.
      rewrite lookup_app_l by exact Hlt.
      exact Hcell.
    + subst r2 r1. destruct r; exact Hread.
    + subst r2 r1. destruct r; exact Hpush.
    + assert (Hu : _unitOp r2 = _unitOp r) by (subst r2 r1; destruct r; reflexivity).
      rewrite Hu in Hb. eexists. split; [exact Hb|].
      split; [destruct r2; reflexivity|]. split; [destruct r2; reflexivity|].
      assert (Hs3 : _sens (setCurrentBuffers r2 (Sensitivity vectors) b)
                    ++ _sensDot (setCurrentBuffers r2 (Sensitivity vectors) b)
                    = seq (length (_heap r)) (numSens + numSens)).
      { rewrite <- Hsens2. destruct r2; reflexivity. }
      assert (Hh3 : _heap (setCurrentBuffers r2 (Sensitivity vectors) b)
                    = <[vectors := Some b]> (_heap r2)) by (destruct r2; reflexivity).
      rewrite Hs3, Hh3, Hheap2. split; [|split].
      * intros Hx. apply elem_of_seq in Hx. lia.
      * intros x Hx. apply elem_of_seq in Hx. apply vectorsAt_Ok.
        rewrite list_lookup_insert_ne by lia. rewrite lookup_app_r by lia.
        apply lookup_replicate_2. lia.
      * subst r2 r1. destruct r; reflexivity.
  - intros Hne.
    set (r' := notifyIntegrationStart numDofs numSens numTimesteps r1).
    assert (Hcur : _cur r' = Some (Sensitivity vectors)).
    { subst r' r1. destruct r. unfold notifyIntegrationStart. simpl.
      destruct (negb (numSens =? _numSens0)%nat); reflexivity. }
    assert (Hu : _unitOp r' = _unitOp r).
    { subst r' r1. destruct r. unfold notifyIntegrationStart. simpl.
      destruct (negb (numSens =? _numSens0)%nat); reflexivity. }
    assert (Hcfg : _cfgSensitivity r' = _cfgSensitivity r /\ _nComp r' = _nComp r).
    { subst r' r1. destruct r. unfold notifyIntegrationStart. simpl.
      destruct (negb (numSens =? _numSens0)%nat); split; reflexivity. }
    assert (Hheap : _heap r'
                    = fold_left deleteVectors (_sens r ++ _sensDot r)
                        (fold_left clearVectors (_sens r ++ _sensDot r) (_heap r))
                      ++ replicate (numSens + numSens) (Some noData)).
    { subst r' r1. destruct r. unfold notifyIntegrationStart. simpl in *.
      destruct (Nat.eqb_spec numSens _numSens0); [contradiction | reflexivity]. }
    unfold beginUnitOperation. rewrite Hcur, Hu, Nat.eqb_refl. cbn [negb currentCfg].
    destruct Hcfg as [-> ->]. rewrite Hpush. cbn [negb currentBuffers].
    assert (Hgone : vectorsAt (_heap r') vectors = Undefined).
    { unfold vectorsAt. rewrite Hheap.
      rewrite lookup_app_l.
      - rewrite deleteVectors_deleted; [reflexivity | exact Hin|].
        rewrite clearVectors_length. exact Hlt.
      - assert (Hlen : forall l heap, length (fold_left deleteVectors l heap) = length heap).
        { clear. induction l as [|x l IH]; intros heap; [reflexivity|]. simpl.
          rewrite IH. apply length_insert. }
        rewrite Hlen, clearVectors_length. exact Hlt. }
    rewrite Hgone. reflexivity.
Qed.

End RecorderTargets.

(** A recorder prepared for two sensitivities, of a unit operation with
    one component: sensitivity 0 is begun, then the recorder is told of
    an integration with three sensitivities, and the unit operation
    reports. *)
Lemma stale_sensitivity_target_witness :
  let e := Recorder.BuildExporter 1 0 0 0 0 0 0 [] [] [] [5%float] 1 [] 1 [] [] [] in
  let r := Recorder.unitOperationStructure 4 e (Recorder.prepare 10 2 5 (Recorder.create 4)) in
  exists r1,
    Recorder.beginSensitivityIdx 0 r = Ok r1
    /\ Recorder.beginUnitOperation 4 e (Recorder.notifyIntegrationStart 10 3 5 r1) = Undefined
    /\ exists r3,
         Recorder.beginUnitOperation 4 e (Recorder.prepare 10 2 5 r1) = Ok r3
         /\ forall x, x ∈ Recorder._sens r3 ++ Recorder._sensDot r3 ->
              Recorder.vectorsAt (Recorder._heap r3) x = Ok Recorder.noData.
Proof.
  intros e r.
  assert (Hslots : Recorder.slotsAllocated r).
  { apply (recorderCalls_keeps [CallPrepare 10 2 5; CallUnitOperationStructure 4 e]
             (Recorder.create 4) r eq_refl).
    repeat split; [constructor | intros x Hx; inversion Hx]. }
  assert (Hread : Recorder.readable (Recorder._cfgSensitivity r) (Recorder._nComp r) e).
  { split; [|split; [|split; [|split]]]; try discriminate.
    intros _ c Hc. destruct c as [|c]; [eexists; reflexivity | simpl in Hc; lia]. }
  destruct (stale_sensitivity_target r 0 0 e 10 3 5 Hslots eq_refl eq_refl Hread)
    as (Hbegin & _ & _ & Hgone).
  destruct (stale_sensitivity_target r 0 0 e 10 2 5 Hslots eq_refl eq_refl Hread)
    as (_ & _ & (r3 & Hr3 & _ & _ & _ & Hempty & _) & _).
  eexists. split; [exact Hbegin|]. split; [apply Hgone; discriminate|].
  exists r3. split; [exact Hr3 | exact Hempty].
Defined.
